(** * gix: a tree-walking interpreter for the Nix expression language

    A shallow embedding of the lexer ([pkg/lexer]), the Pratt parser
    ([pkg/parser]), the evaluator ([pkg/eval]), the value model
    ([internal/value]) and the derivation builder ([pkg/derivation]),
    followed by the properties of the specification, stated and proved (or
    refuted) over that embedding.

    Conventions.
    - A Go [string] is a [string] of bytes ([ascii]); a Go [int64] is a [Z]
      kept in range by [wrap64]; a Go [float64] is a primitive [float].
    - Go pointers to mutable objects ([*value.Attrs], [*value.Env]) are
      locations into an explicit [Store]; aliasing is therefore visible.
    - Functions of the source that recurse without a structural measure
      take a [fuel : nat]; running out of fuel is the outcome [OutOfFuel],
      distinct from every result of the program.
    - A run-time panic of the Go program is the outcome [Panic]. *)

From Stdlib Require Import ZArith Ascii String List Floats.
From Stdlib Require Import DecimalString DecimalN DecimalPos.
From stdpp Require Import base decidable option list gmap strings sorting.

#[global] Set Warnings "-register-all,-clear-no-such-hyp".

Local Open Scope string_scope.
Local Open Scope Z_scope.

(* ===================================================================== *)
(** * Bytes and strings *)
(* ===================================================================== *)

Module Bytes.

(** The byte at index [i] of [s] ([s[i]] in Go), for [i] in range. *)
Definition at_ (s : string) (i : nat) : ascii :=
  match String.get i s with Some c => c | None => Ascii.zero end.

(** [s[lo:hi]]; Go panics unless [lo <= hi <= len(s)]. *)
Definition slice (s : string) (lo hi : nat) : option string :=
  if decide (lo ≤ hi ∧ hi ≤ String.length s)%nat
  then Some (String.substring lo (hi - lo) s) else None.

Definition code (c : ascii) : Z := Z.of_nat (nat_of_ascii c).

Definition between (lo c hi : ascii) : bool :=
  (code lo <=? code c) && (code c <=? code hi).

(** The double quote, and a string between double quotes. *)
Definition DQUOTE : ascii := ascii_of_nat 34.
Definition quoted (s : string) : string :=
  String DQUOTE (s ++ String DQUOTE EmptyString).

(** [strings.Join]. *)
Fixpoint join (sep : string) (l : list string) : string :=
  match l with
  | [] => ""
  | [x] => x
  | x :: r => x ++ sep ++ join sep r
  end.

(** Byte-wise lexicographic order, the order of Go's [<] on strings
    and of [sort.Strings]. *)
Definition le (a b : string) : Prop := String.leb a b = true.

#[export] Instance le_dec : RelDecision le.
Proof. intros a b. unfold le. apply _. Defined.

(** [sort.Strings]. *)
Definition sortStrings (l : list string) : list string := merge_sort le l.

End Bytes.

(* ===================================================================== *)
(** * Outcomes *)
(* ===================================================================== *)

(** What running a piece of the program can produce: a result, a Go
    run-time panic, or the model's own exhaustion of fuel. *)
Inductive Outcome (A : Type) : Type :=
| Done (a : A)
| Panic
| OutOfFuel.
Arguments Done {A} a.
Arguments Panic {A}.
Arguments OutOfFuel {A}.

(* ===================================================================== *)
(** * Lexer ([pkg/lexer]) *)
(* ===================================================================== *)

Module lexer.

Inductive TokenType : Set :=
| TOKEN_EOF | TOKEN_ILLEGAL
| TOKEN_INT | TOKEN_FLOAT | TOKEN_STRING | TOKEN_PATH | TOKEN_IDENT
| TOKEN_IF | TOKEN_THEN | TOKEN_ELSE | TOKEN_LET | TOKEN_IN | TOKEN_WITH
| TOKEN_ASSERT | TOKEN_OR | TOKEN_AND | TOKEN_NOT | TOKEN_REC | TOKEN_INHERIT
| TOKEN_ASSIGN
| TOKEN_PLUS | TOKEN_MINUS | TOKEN_MULTIPLY | TOKEN_DIVIDE
| TOKEN_EQ | TOKEN_NEQ | TOKEN_LT | TOKEN_GT | TOKEN_LTE | TOKEN_GTE
| TOKEN_AND_OP | TOKEN_OR_OP | TOKEN_IMPL
| TOKEN_CONCAT | TOKEN_QUESTION | TOKEN_DOT
| TOKEN_SEMICOLON | TOKEN_COLON | TOKEN_COMMA
| TOKEN_LPAREN | TOKEN_RPAREN | TOKEN_LBRACE | TOKEN_RBRACE
| TOKEN_LBRACKET | TOKEN_RBRACKET.

#[export] Instance TokenType_eq_dec : EqDecision TokenType.
Proof. solve_decision. Defined.

(** The integer behind a token type (the constants are numbered by
    [iota]), and the comparison [==] of two token types. *)
Definition code (t : TokenType) : nat :=
  match t with
  | TOKEN_EOF => 0 | TOKEN_ILLEGAL => 1 | TOKEN_INT => 2
  | TOKEN_FLOAT => 3 | TOKEN_STRING => 4 | TOKEN_PATH => 5
  | TOKEN_IDENT => 6 | TOKEN_IF => 7 | TOKEN_THEN => 8
  | TOKEN_ELSE => 9 | TOKEN_LET => 10 | TOKEN_IN => 11
  | TOKEN_WITH => 12 | TOKEN_ASSERT => 13 | TOKEN_OR => 14
  | TOKEN_AND => 15 | TOKEN_NOT => 16 | TOKEN_REC => 17
  | TOKEN_INHERIT => 18 | TOKEN_ASSIGN => 19 | TOKEN_PLUS => 20
  | TOKEN_MINUS => 21 | TOKEN_MULTIPLY => 22 | TOKEN_DIVIDE => 23
  | TOKEN_EQ => 24 | TOKEN_NEQ => 25 | TOKEN_LT => 26
  | TOKEN_GT => 27 | TOKEN_LTE => 28 | TOKEN_GTE => 29
  | TOKEN_AND_OP => 30 | TOKEN_OR_OP => 31 | TOKEN_IMPL => 32
  | TOKEN_CONCAT => 33 | TOKEN_QUESTION => 34 | TOKEN_DOT => 35
  | TOKEN_SEMICOLON => 36 | TOKEN_COLON => 37 | TOKEN_COMMA => 38
  | TOKEN_LPAREN => 39 | TOKEN_RPAREN => 40 | TOKEN_LBRACE => 41
  | TOKEN_RBRACE => 42 | TOKEN_LBRACKET => 43 | TOKEN_RBRACKET => 44
  end%nat.

Definition eqb (a b : TokenType) : bool := Nat.eqb (code a) (code b).

Record Token : Set := mkToken {
  Type_ : TokenType;
  Literal : string;
  Line : nat;
  Column : nat
}.

(** [tokenNames] through [TokenType.String]. *)
Definition tokenName (t : TokenType) : string :=
  match t with
  | TOKEN_EOF => "EOF" | TOKEN_ILLEGAL => "ILLEGAL"
  | TOKEN_INT => "INT" | TOKEN_FLOAT => "FLOAT" | TOKEN_STRING => "STRING"
  | TOKEN_PATH => "PATH" | TOKEN_IDENT => "IDENT"
  | TOKEN_IF => "IF" | TOKEN_THEN => "THEN" | TOKEN_ELSE => "ELSE"
  | TOKEN_LET => "LET" | TOKEN_IN => "IN" | TOKEN_WITH => "WITH"
  | TOKEN_ASSERT => "ASSERT" | TOKEN_OR => "OR" | TOKEN_AND => "AND"
  | TOKEN_NOT => "NOT" | TOKEN_REC => "REC" | TOKEN_INHERIT => "INHERIT"
  | TOKEN_ASSIGN => "ASSIGN"
  | TOKEN_PLUS => "PLUS" | TOKEN_MINUS => "MINUS"
  | TOKEN_MULTIPLY => "MULTIPLY" | TOKEN_DIVIDE => "DIVIDE"
  | TOKEN_EQ => "EQ" | TOKEN_NEQ => "NEQ" | TOKEN_LT => "LT"
  | TOKEN_GT => "GT" | TOKEN_LTE => "LTE" | TOKEN_GTE => "GTE"
  | TOKEN_AND_OP => "AND_OP" | TOKEN_OR_OP => "OR_OP" | TOKEN_IMPL => "IMPL"
  | TOKEN_CONCAT => "CONCAT" | TOKEN_QUESTION => "QUESTION" | TOKEN_DOT => "DOT"
  | TOKEN_SEMICOLON => "SEMICOLON" | TOKEN_COLON => "COLON"
  | TOKEN_COMMA => "COMMA"
  | TOKEN_LPAREN => "LPAREN" | TOKEN_RPAREN => "RPAREN"
  | TOKEN_LBRACE => "LBRACE" | TOKEN_RBRACE => "RBRACE"
  | TOKEN_LBRACKET => "LBRACKET" | TOKEN_RBRACKET => "RBRACKET"
  end.

(** The [keywords] table. *)
Definition keywords : list (string * TokenType) :=
  [ ("if", TOKEN_IF); ("then", TOKEN_THEN); ("else", TOKEN_ELSE);
    ("let", TOKEN_LET); ("in", TOKEN_IN); ("with", TOKEN_WITH);
    ("assert", TOKEN_ASSERT); ("or", TOKEN_OR); ("and", TOKEN_AND);
    ("not", TOKEN_NOT); ("rec", TOKEN_REC); ("inherit", TOKEN_INHERIT) ].

Fixpoint assoc {A} (k : string) (l : list (string * A)) : option A :=
  match l with
  | [] => None
  | (k', v) :: r => if String.eqb k k' then Some v else assoc k r
  end.

Definition LookupIdent (ident : string) : TokenType :=
  match assoc ident keywords with
  | Some tok => tok
  | None => TOKEN_IDENT
  end.

Definition isLetter (ch : ascii) : bool :=
  Bytes.between "a" ch "z" || Bytes.between "A" ch "Z" || Ascii.eqb ch "_".

Definition isDigit (ch : ascii) : bool := Bytes.between "0" ch "9".

Definition isPathChar (ch : ascii) : bool :=
  isLetter ch || isDigit ch || Ascii.eqb ch "/" || Ascii.eqb ch "."
  || Ascii.eqb ch "-" || Ascii.eqb ch "_".

(** [unicode.IsLetter(rune(b))] for a byte [b]: the letters of Latin-1. *)
Definition unicode_IsLetter (ch : ascii) : bool :=
  let c := Bytes.code ch in
  Bytes.between "a" ch "z" || Bytes.between "A" ch "Z"
  || (c =? 170) || (c =? 181) || (c =? 186)
  || ((192 <=? c) && (c <=? 214)) || ((216 <=? c) && (c <=? 246))
  || ((248 <=? c) && (c <=? 255)).

(** [string(b)] for a byte [b]: the UTF-8 encoding of the rune [b]. *)
Definition string_of_byte (ch : ascii) : string :=
  let c := nat_of_ascii ch in
  if (c <? 128)%nat then String ch EmptyString
  else String (ascii_of_nat (192 + c / 64))
         (String (ascii_of_nat (128 + c mod 64)) EmptyString).

Record Lexer : Set := mkLexer {
  input : string;
  position : nat;
  readPosition : nat;
  ch : ascii;
  line : nat;
  column : nat
}.

Definition NUL : ascii := Ascii.zero.
Definition LF : ascii := ascii_of_nat 10.
Definition CR : ascii := ascii_of_nat 13.
Definition TAB : ascii := ascii_of_nat 9.

Definition readChar (l : Lexer) : Lexer :=
  let c := if decide (String.length (input l) ≤ readPosition l)%nat
           then NUL else Bytes.at_ (input l) (readPosition l) in
  {| input := input l;
     position := readPosition l;
     readPosition := S (readPosition l);
     ch := c;
     line := if Ascii.eqb c LF then S (line l) else line l;
     column := if Ascii.eqb c LF then 0%nat else S (column l) |}.

Definition New (inp : string) : Lexer :=
  readChar {| input := inp; position := 0; readPosition := 0; ch := NUL;
              line := 1; column := 0 |}.

Definition peekChar (l : Lexer) : ascii :=
  if decide (String.length (input l) ≤ readPosition l)%nat
  then NUL else Bytes.at_ (input l) (readPosition l).

(** The number of characters that are still to be read, plus one: every
    scanning loop below stops at the end of the input, so this bounds
    its iterations. *)
Definition budget (l : Lexer) : nat :=
  S (String.length (input l) - position l).

(** [for cond(l.ch) { l.readChar() }] *)
Fixpoint readWhile (cond : ascii → bool) (n : nat) (l : Lexer) : Lexer :=
  match n with
  | O => l
  | S n' => if cond (ch l) then readWhile cond n' (readChar l) else l
  end.

Definition isWhitespace (c : ascii) : bool :=
  Ascii.eqb c " " || Ascii.eqb c TAB || Ascii.eqb c LF || Ascii.eqb c CR.

Definition skipWhitespace (l : Lexer) : Lexer :=
  readWhile isWhitespace (budget l) l.

(** The body loop of a block comment. *)
Fixpoint skipBlock (n : nat) (l : Lexer) : Lexer :=
  match n with
  | O => l
  | S n' =>
      if Ascii.eqb (ch l) NUL then l
      else if Ascii.eqb (ch l) "*" && Ascii.eqb (peekChar l) "/"
           then readChar (readChar l)
           else skipBlock n' (readChar l)
  end.

Definition skipComment (l : Lexer) : Lexer :=
  if Ascii.eqb (ch l) "#" then
    readWhile (fun c => negb (Ascii.eqb c LF) && negb (Ascii.eqb c NUL))
              (budget l) l
  else if Ascii.eqb (ch l) "/" && Ascii.eqb (peekChar l) "*" then
    let l := readChar (readChar l) in
    skipBlock (budget l) l
  else l.

(** [l.input[from:l.position]] for the scanners that cannot overrun. *)
Definition taken (from : nat) (l : Lexer) : string :=
  String.substring from (position l - from) (input l).

Definition readIdentifier (l : Lexer) : string * Lexer :=
  let start := position l in
  let l := readWhile (fun c => isLetter c || isDigit c) (budget l) l in
  (taken start l, l).

Definition readNumber (l : Lexer) : (string * TokenType) * Lexer :=
  let start := position l in
  let l := readWhile isDigit (budget l) l in
  if Ascii.eqb (ch l) "." && isDigit (peekChar l) then
    let l := readChar l in
    let l := readWhile isDigit (budget l) l in
    ((taken start l, TOKEN_FLOAT), l)
  else ((taken start l, TOKEN_INT), l).

(** The loop of [readString]: read one character; stop on the closing
    quote or at the end of the input; after a backslash read once more. *)
Fixpoint readStringLoop (n : nat) (l : Lexer) : Lexer :=
  match n with
  | O => l
  | S n' =>
      let l := readChar l in
      if Ascii.eqb (ch l) Bytes.DQUOTE || Ascii.eqb (ch l) NUL then l
      else if Ascii.eqb (ch l) "\" then readStringLoop n' (readChar l)
      else readStringLoop n' l
  end.

(** [readString]: the slice panics when the scan ran past the end of the
    input, which happens when the input ends in a backslash inside a
    string. *)
Definition readString (l : Lexer) : option string * Lexer :=
  let start := S (position l) in
  let l := readStringLoop (budget l) l in
  (Bytes.slice (input l) start (position l), l).

Definition readPath (l : Lexer) : string * Lexer :=
  let start := position l in
  let l := readWhile isPathChar (budget l) l in
  (taken start l, l).

(** The loop at the head of [NextToken] that skips whitespace and
    comments. *)
Fixpoint skipTrivia (n : nat) (l : Lexer) : Lexer :=
  match n with
  | O => l
  | S n' =>
      let l := skipWhitespace l in
      if Ascii.eqb (ch l) "#"
         || (Ascii.eqb (ch l) "/" && Ascii.eqb (peekChar l) "*")
      then skipTrivia n' (skipComment l)
      else l
  end.

Definition NextToken (l : Lexer) : Outcome (Token * Lexer) :=
  let l := skipTrivia (budget l) l in
  let ln := line l in
  let col := column l in
  let c := ch l in
  let one ty lit := Done (mkToken ty lit ln col, readChar l) in
  let two ty lit := Done (mkToken ty lit ln col, readChar (readChar l)) in
  let pk := peekChar l in
  if Ascii.eqb c "=" then
    if Ascii.eqb pk "=" then two TOKEN_EQ "==" else one TOKEN_ASSIGN "="
  else if Ascii.eqb c "+" then
    if Ascii.eqb pk "+" then two TOKEN_CONCAT "++" else one TOKEN_PLUS "+"
  else if Ascii.eqb c "-" then
    if Ascii.eqb pk ">" then two TOKEN_IMPL "->" else one TOKEN_MINUS "-"
  else if Ascii.eqb c "*" then one TOKEN_MULTIPLY "*"
  else if Ascii.eqb c "/" then one TOKEN_DIVIDE "/"
  else if Ascii.eqb c "!" then
    if Ascii.eqb pk "=" then two TOKEN_NEQ "!=" else one TOKEN_NOT "!"
  else if Ascii.eqb c "<" then
    if Ascii.eqb pk "=" then two TOKEN_LTE "<=" else one TOKEN_LT "<"
  else if Ascii.eqb c ">" then
    if Ascii.eqb pk "=" then two TOKEN_GTE ">=" else one TOKEN_GT ">"
  else if Ascii.eqb c "&" then
    if Ascii.eqb pk "&" then two TOKEN_AND_OP "&&" else one TOKEN_ILLEGAL "&"
  else if Ascii.eqb c "|" then
    if Ascii.eqb pk "|" then two TOKEN_OR_OP "||" else one TOKEN_ILLEGAL "|"
  else if Ascii.eqb c "?" then one TOKEN_QUESTION "?"
  else if Ascii.eqb c "." then one TOKEN_DOT "."
  else if Ascii.eqb c ";" then one TOKEN_SEMICOLON ";"
  else if Ascii.eqb c ":" then one TOKEN_COLON ":"
  else if Ascii.eqb c "," then one TOKEN_COMMA ","
  else if Ascii.eqb c "(" then one TOKEN_LPAREN "("
  else if Ascii.eqb c ")" then one TOKEN_RPAREN ")"
  else if Ascii.eqb c "{" then one TOKEN_LBRACE "{"
  else if Ascii.eqb c "}" then one TOKEN_RBRACE "}"
  else if Ascii.eqb c "[" then one TOKEN_LBRACKET "["
  else if Ascii.eqb c "]" then one TOKEN_RBRACKET "]"
  else if Ascii.eqb c Bytes.DQUOTE then
    match readString l with
    | (Some lit, l') => Done (mkToken TOKEN_STRING lit ln col, readChar l')
    | (None, _) => Panic
    end
  else if Ascii.eqb c NUL then one TOKEN_EOF ""
  else if isLetter c then
    let '(lit, l') := readIdentifier l in
    Done (mkToken (LookupIdent lit) lit ln col, l')
  else if isDigit c then
    let '((lit, ty), l') := readNumber l in
    Done (mkToken ty lit ln col, l')
  else if Ascii.eqb c "/" && unicode_IsLetter pk then
    let '(lit, l') := readPath l in
    Done (mkToken TOKEN_PATH lit ln col, l')
  else one TOKEN_ILLEGAL (string_of_byte c).

(** The first [n] tokens of a source text (a test helper, as the token
    loops of [lexer_test.go]). *)
Fixpoint tokens (n : nat) (l : Lexer) : list (TokenType * string) :=
  match n with
  | O => []
  | S n' =>
      match NextToken l with
      | Done (t, l') => (Type_ t, Literal t) :: tokens n' l'
      | _ => []
      end
  end.

End lexer.

Example lex_update_is_two_divides :
  lexer.tokens 4 (lexer.New "} // {")
  = [ (lexer.TOKEN_RBRACE, "}"); (lexer.TOKEN_DIVIDE, "/");
      (lexer.TOKEN_DIVIDE, "/"); (lexer.TOKEN_LBRACE, "{") ].
Proof. vm_compute. reflexivity. Qed.

(* ===================================================================== *)
(** * The Go library functions the program calls *)
(* ===================================================================== *)

(** [strconv], [fmt] and [path/filepath] are not part of the repository;
    the definitions of this section follow their documented behaviour on
    the arguments the program passes to them. *)

Module strconv.

Definition minInt64 : Z := - 2 ^ 63.
Definition maxInt64 : Z := 2 ^ 63 - 1.

(** Two's-complement wrap-around of [int64] arithmetic. *)
Definition wrap64 (z : Z) : Z := (z + 2 ^ 63) mod 2 ^ 64 - 2 ^ 63.

(** The decimal numeral of a natural number. *)
Definition digitsOfN (n : N) : string := NilZero.string_of_uint (N.to_uint n).

(** [strconv.FormatInt(i, 10)], which is also [%d]. *)
Definition FormatInt (i : Z) : string :=
  if i <? 0 then "-" ++ digitsOfN (Z.to_N (- i)) else digitsOfN (Z.to_N i).

Definition allDigits (s : string) : bool :=
  forallb lexer.isDigit (list_ascii_of_string s).

(** The value of a non-empty string of decimal digits. *)
Definition natOfDigits (s : string) : option N :=
  if allDigits s && negb (String.eqb s "") then
    N.of_uint <$> NilZero.uint_of_string s
  else None.

(** [strconv.ParseInt(s, 10, 64)]: an optional sign and decimal digits;
    [None] stands for a syntax or range error. *)
Definition ParseInt (s : string) : option Z :=
  let '(neg, body) :=
    match s with
    | String "-" r => (true, r)
    | String "+" r => (false, r)
    | _ => (false, s)
    end in
  n ← natOfDigits body;
  let z := if neg : bool then - Z.of_N n else Z.of_N n in
  if (minInt64 <=? z) && (z <=? maxInt64) then Some z else None.

(** ** Floating point *)

(** [float64(i)] for an [int64] [i]: rounding to nearest, ties to even. *)
Definition floatOfInt (i : Z) : float :=
  SF2Prim (binary_normalize prec emax i 0 false).

(** The [float64] nearest to [d / 10^k] for [d > 0] (ties to even). *)
Definition nearestOfRatio (num den : positive) : spec_float :=
  let s := 1100 + Z.log2 (Zpos den) + 1 in
  let n := Zpos num * 2 ^ s in
  let q := n / Zpos den in
  let r := n mod Zpos den in
  let loc := if r =? 0 then loc_Exact
             else loc_Inexact (Z.compare (2 * r) (Zpos den)) in
  binary_round_aux prec emax false q (- s) loc.

(** The [float64] nearest to [d * 10^q], for [d >= 0]. *)
Definition nearestOfDecimal (d : Z) (q : Z) : spec_float :=
  match d with
  | Zpos p =>
      if 0 <=? q then binary_normalize prec emax (d * 10 ^ q) 0 false
      else nearestOfRatio p (Z.to_pos (10 ^ (- q)))
  | _ => S754_zero false
  end.

(** Splits [s] at its first ["."]. *)
Fixpoint splitDot (s : string) : string * option string :=
  match s with
  | EmptyString => (EmptyString, None)
  | String c r =>
      if Ascii.eqb c "." then (EmptyString, Some r)
      else let '(a, b) := splitDot r in (String c a, b)
  end.

(** [strconv.ParseFloat(s, 64)] on the decimal numerals without an
    exponent ([digits] or [digits.digits]), which is every literal the
    lexer's [readNumber] produces; [None] stands for an error, which is
    also what a value out of range gives. *)
Definition ParseFloat (s : string) : option float :=
  let '(ip, fp) := splitDot s in
  let fp := default "" fp in
  d ← natOfDigits (ip ++ fp);
  match nearestOfDecimal (Z.of_N d) (- Z.of_nat (String.length fp)) with
  | S754_infinity _ => None
  | x => Some (SF2Prim x)
  end.

(** The shortest decimal digits that identify a positive finite
    [float64]: [(d, q)] with value [d * 10^q], [d] without a trailing
    zero, such that [d * 10^q] rounds to the float and no shorter
    numeral does; the closest to the float among those. *)
Section Shortest.
Variables (m : positive) (e : Z).

(** The float as the fraction [A / B]. *)
Definition fracA : Z := Zpos m * 2 ^ Z.max e 0.
Definition fracB : Z := 2 ^ Z.max (- e) 0.

(** [10^k <= A/B] *)
Definition geq10 (k : Z) : bool :=
  if 0 <=? k then fracB * 10 ^ k <=? fracA else fracB <=? fracA * 10 ^ (- k).

Fixpoint adjustUp (n : nat) (k : Z) : Z :=
  match n with
  | O => k
  | S n' => if geq10 k then adjustUp n' (k + 1) else k
  end.
Fixpoint adjustDown (n : nat) (k : Z) : Z :=
  match n with
  | O => k
  | S n' => if geq10 (k - 1) then k else adjustDown n' (k - 1)
  end.

(** The [dp] with [10^(dp-1) <= A/B < 10^dp]. *)
Definition decimalPoint : Z :=
  let est := (Z.log2 fracA - Z.log2 fracB) * 30103 / 100000 in
  adjustDown 8 (adjustUp 8 est).

Definition roundsBack (d q : Z) : bool :=
  match nearestOfDecimal d q with
  | S754_finite false m' e' => (Zpos m' =? Zpos m) && (e' =? e)
  | _ => false
  end.

(** The candidates with [n] digits. *)
Definition tryDigits (n : Z) : option (Z * Z) :=
  let q := decimalPoint - n in
  let a := if 0 <=? q then fracA else fracA * 10 ^ (- q) in
  let b := if 0 <=? q then fracB * 10 ^ q else fracB in
  let lo := a / b in
  let r := a mod b in
  let hi := lo + 1 in
  let okLo := roundsBack lo q in
  let okHi := roundsBack hi q in
  if r =? 0 then Some (lo, q)
  else match Z.compare (2 * r) b with
       | Lt => if okLo then Some (lo, q) else if okHi then Some (hi, q) else None
       | Gt => if okHi then Some (hi, q) else if okLo then Some (lo, q) else None
       | Eq => if okLo && Z.even lo then Some (lo, q)
               else if okHi && Z.even hi then Some (hi, q)
               else if okLo then Some (lo, q)
               else if okHi then Some (hi, q) else None
       end.

Fixpoint search (fuel : nat) (n : Z) : Z * Z :=
  match fuel with
  | O => (fracA / fracB, 0)
  | S f => match tryDigits n with
           | Some r => r
           | None => search f (n + 1)
           end
  end.

Fixpoint stripZeros (fuel : nat) (d q : Z) : Z * Z :=
  match fuel with
  | O => (d, q)
  | S f => if (d mod 10 =? 0) && negb (d =? 0)
           then stripZeros f (d / 10) (q + 1) else (d, q)
  end.

Definition shortest : Z * Z :=
  let '(d, q) := search 17 1 in stripZeros 400 d q.
End Shortest.

(** The digit buffer of [strconv]: the digits and the position of the
    decimal point ([nd = length digits], value [0.digits * 10^dp]). *)
Definition decimalSlice (m : positive) (e : Z) : string * Z :=
  let '(d, q) := shortest m e in
  let ds := digitsOfN (Z.to_N d) in
  (ds, Z.of_nat (String.length ds) + q).

Definition digitAt (ds : string) (i : Z) : ascii :=
  if (0 <=? i) && (i <? Z.of_nat (String.length ds))
  then Bytes.at_ ds (Z.to_nat i) else "0"%char.

Fixpoint digitsFrom (ds : string) (from : Z) (n : nat) : string :=
  match n with
  | O => ""
  | S n' => String (digitAt ds from) (digitsFrom ds (from + 1) n')
  end.

(** [%e] with [prec] digits after the point. *)
Definition fmtE (ds : string) (dp : Z) (prec : Z) : string :=
  let exp := dp - 1 in
  let mant := String (digitAt ds 0)
                (if 0 <? prec then "." ++ digitsFrom ds 1 (Z.to_nat prec) else "") in
  let es := digitsOfN (Z.to_N (Z.abs exp)) in
  mant ++ "e" ++ (if exp <? 0 then "-" else "+")
       ++ (if Z.abs exp <? 10 then "0" else "") ++ es.

(** [%f] with [prec] digits after the point. *)
Definition fmtF (ds : string) (dp : Z) (prec : Z) : string :=
  (if 0 <? dp then digitsFrom ds 0 (Z.to_nat dp) else "0")
  ++ (if 0 <? prec then "." ++ digitsFrom ds dp (Z.to_nat prec) else "").

(** [strconv.FormatFloat(f, fmt, -1, 64)] for [fmt] one of ['g'] and
    ['f']; [fmt]'s [%g] gives the same text. *)
Definition FormatFloat (f : float) (g : bool) : string :=
  match Prim2SF f with
  | S754_nan => "NaN"
  | S754_infinity s => if s then "-Inf" else "+Inf"
  | S754_zero s => if s then "-0" else "0"
  | S754_finite s m e =>
      let '(ds, dp) := decimalSlice m e in
      let nd := Z.of_nat (String.length ds) in
      let exp := dp - 1 in
      (if s then "-" else "")
      ++ (if g && ((exp <? -4) || (6 <=? exp))
          then fmtE ds dp (nd - 1)
          else fmtF ds dp (Z.max (nd - dp) 0))
  end.

End strconv.

Example FormatInt_neg : strconv.FormatInt (-120) = "-120".
Proof. reflexivity. Qed.
Example ParseInt_ok : strconv.ParseInt "9223372036854775807" = Some (2 ^ 63 - 1).
Proof. vm_compute. reflexivity. Qed.
Example ParseInt_range : strconv.ParseInt "9223372036854775808" = None.
Proof. vm_compute. reflexivity. Qed.
Example ParseFloat_g :
  (fun s => strconv.FormatFloat (default nan (strconv.ParseFloat s)) true)
    <$> ["1.5"; "0.1"; "1000000.0"; "100000.0"; "0.00001"; "3.14"; "123456789.125"; "0.30000000000000004"; "2.0"]
  = ["1.5"; "0.1"; "1e+06"; "100000"; "1e-05"; "3.14"; "1.23456789125e+08"; "0.30000000000000004"; "2"].
Proof. vm_compute. reflexivity. Qed.

(* ===================================================================== *)
(** * Syntax trees ([internal/types]) *)
(* ===================================================================== *)

Module types.

Inductive BinaryOp : Set :=
| OpAdd | OpSub | OpMul | OpDiv | OpConcat
| OpEq | OpNEq | OpLT | OpGT | OpLTE | OpGTE
| OpAnd | OpOr | OpImpl | OpUpdate.

Inductive UnaryOp : Set := OpNot | OpNeg.

(** The expression nodes. [NilExpr] is the nil interface value that the
    parser leaves in a tree after a syntax error. Source positions
    ([baseNode]), [Inherits], [IsIndented], [IsAbsolute] and [Pattern]
    are never written by the parser nor read by the evaluator and are
    left out. *)
Inductive Expr : Type :=
| NilExpr
| IntExpr (Value : Z)
| FloatExpr (Value : float)
| StringExpr (Value : string)
| BoolExpr (Value : bool)
| NullExpr
| PathExpr (Value : string)
| IdentExpr (Name : string)
| ListExpr (Elements : list Expr)
| AttrSetExpr (Recursive : bool) (Bindings : list (list string * Expr))
| BinaryExpr (Left : Expr) (Op : BinaryOp) (Right : Expr)
| UnaryExpr (Op : UnaryOp) (E : Expr)
| IfExpr (Cond Then Else : Expr)
| LetExpr (Bindings : list (string * Expr)) (Body : Expr)
| WithExpr (E Body : Expr)
| AssertExpr (Cond Body : Expr)
| FunctionExpr (Param : string) (Body : Expr)
| ApplyExpr (Func Arg : Expr)
| SelectExpr (E : Expr) (AttrPath : list string) (Default : Expr)
| HasAttrExpr (E : Expr) (AttrPath : list string).

(** An attribute binding [Path = Value;]. *)
Definition AttrBinding : Type := list string * Expr.
(** A [let] binding [Name = Value;]. *)
Definition Binding : Type := string * Expr.

Definition isNil (e : Expr) : bool :=
  match e with NilExpr => true | _ => false end.

End types.

(* ===================================================================== *)
(** * Parser ([pkg/parser]) *)
(* ===================================================================== *)

Module parser.
Import lexer types.

Record ParseError : Set := mkParseError {
  Message : string;
  ErrLine : nat;
  ErrColumn : nat
}.

Record Parser : Set := mkParser {
  l : Lexer;
  cur : Token;
  peek : Token;
  errors : list ParseError
}.

(** A parsing action: it reads and updates the parser, and it may panic
    (in the lexer) or exhaust the fuel of the model. *)
Definition P (A : Type) : Type := Parser → Outcome (A * Parser).

Definition ret {A} (a : A) : P A := fun p => Done (a, p).
Definition bind {A B} (m : P A) (k : A → P B) : P B :=
  fun p => match m p with
           | Done (a, p') => k a p'
           | Panic => Panic
           | OutOfFuel => OutOfFuel
           end.
Definition get : P Parser := fun p => Done (p, p).
Definition diverge {A} : P A := fun _ => OutOfFuel.

Declare Scope parse_scope.
Delimit Scope parse_scope with parse.
Notation "x <- m ;; k" := (bind m (fun x => k))
  (at level 100, m at next level, right associativity) : parse_scope.
Notation "m ;;; k" := (bind m (fun _ => k))
  (at level 100, right associativity) : parse_scope.
Local Open Scope parse_scope.
Local Open Scope nat_scope.
Local Open Scope list_scope.

Definition precedenceLowest := 0.
Definition precedenceImpl := 1.
Definition precedenceOr := 2.
Definition precedenceAnd := 3.
Definition precedenceEquals := 4.
Definition precedenceCompare := 5.
Definition precedenceUpdate := 6.
Definition precedenceConcat := 7.
Definition precedenceSum := 8.
Definition precedenceProduct := 9.
Definition precedenceCall := 10.
Definition precedenceSelect := 11.

(** [precedenceMap]; [None] when the token type is not a key. *)
Definition precedenceMap (t : TokenType) : option nat :=
  match t with
  | TOKEN_IMPL => Some precedenceImpl
  | TOKEN_OR_OP => Some precedenceOr
  | TOKEN_AND => Some precedenceAnd
  | TOKEN_EQ => Some precedenceEquals
  | TOKEN_NEQ => Some precedenceEquals
  | TOKEN_LT => Some precedenceCompare
  | TOKEN_GT => Some precedenceCompare
  | TOKEN_LTE => Some precedenceCompare
  | TOKEN_GTE => Some precedenceCompare
  | TOKEN_CONCAT => Some precedenceConcat
  | TOKEN_PLUS => Some precedenceSum
  | TOKEN_MINUS => Some precedenceSum
  | TOKEN_MULTIPLY => Some precedenceProduct
  | TOKEN_DIVIDE => Some precedenceProduct
  | TOKEN_DOT => Some precedenceSelect
  | _ => None
  end.

(** [ParseErrors.Addf]. *)
Definition addError (line column : nat) (msg : string) : P unit :=
  fun p => Done (tt, {| l := l p; cur := cur p; peek := peek p;
                        errors := errors p ++ [mkParseError msg line column] |}).

Definition errorAtCur (msg : Token → string) : P unit :=
  p <- get ;; addError (Line (cur p)) (Column (cur p)) (msg (cur p)).

Definition advance : P unit :=
  fun p => match NextToken (l p) with
           | Done (t, l') =>
               Done (tt, {| l := l'; cur := peek p; peek := t; errors := errors p |})
           | Panic => Panic
           | OutOfFuel => OutOfFuel
           end.

Definition curIs (t : TokenType) : P bool :=
  p <- get ;; ret (eqb (Type_ (cur p)) t).
Definition peekIs (t : TokenType) : P bool :=
  p <- get ;; ret (eqb (Type_ (peek p)) t).

Definition expectPeek (t : TokenType) : P bool :=
  p <- get ;;
  if eqb (Type_ (peek p)) t then advance ;;; ret true
  else
    addError (Line (peek p)) (Column (peek p))
      ("expected next token to be " ++ tokenName t ++ ", got "
         ++ tokenName (Type_ (peek p)))%string ;;;
    ret false.

Definition peekPrecedence : P nat :=
  p <- get ;; ret (default precedenceLowest (precedenceMap (Type_ (peek p)))).
Definition curPrecedence : P nat :=
  p <- get ;; ret (default precedenceLowest (precedenceMap (Type_ (cur p)))).

Definition isInfixOperator (t : TokenType) : bool :=
  match precedenceMap t with Some _ => true | None => false end.

Definition startsArgument (t : TokenType) : bool :=
  match t with
  | TOKEN_INT | TOKEN_FLOAT | TOKEN_STRING | TOKEN_PATH
  | TOKEN_IDENT | TOKEN_LBRACE | TOKEN_LBRACKET | TOKEN_LPAREN
  | TOKEN_NOT | TOKEN_MINUS | TOKEN_IF | TOKEN_LET
  | TOKEN_WITH | TOKEN_ASSERT => true
  | _ => false
  end.

Definition couldBeArgument : P bool :=
  p <- get ;; ret (startsArgument (Type_ (peek p))).

(** [%q] of a string without characters that need escaping other than
    the quote and the backslash. *)
Fixpoint quoteBody (s : string) : string :=
  match s with
  | EmptyString => EmptyString
  | String c r =>
      if Ascii.eqb c Bytes.DQUOTE || Ascii.eqb c "\" then String "\" (String c (quoteBody r))
      else String c (quoteBody r)
  end.
Definition quote (s : string) : string :=
  (Bytes.quoted (quoteBody s))%string.

Definition parseInt : P Expr :=
  p <- get ;;
  match strconv.ParseInt (Literal (cur p)) with
  | Some val => ret (IntExpr val)
  | None =>
      errorAtCur (fun t => "could not parse " ++ quote (Literal t) ++ " as integer")%string ;;;
      ret NilExpr
  end.

Definition parseFloat : P Expr :=
  p <- get ;;
  match strconv.ParseFloat (Literal (cur p)) with
  | Some val => ret (FloatExpr val)
  | None =>
      errorAtCur (fun t => "could not parse " ++ quote (Literal t) ++ " as float")%string ;;;
      ret NilExpr
  end.

Definition parseString : P Expr := p <- get ;; ret (StringExpr (Literal (cur p))).
Definition parsePath : P Expr := p <- get ;; ret (PathExpr (Literal (cur p))).

(** The functions of the parser call each other through
    [parseExpression]; they are written here against the recursive call
    as a variable, and the recursion is closed by [parseExpression]
    below. [fuel] bounds the iterations of the token loops. *)
Section Grammar.
Variable parseExpression : nat → P Expr.
Variable fuel : nat.

Definition parseUnary (op : UnaryOp) : P Expr :=
  advance ;;;
  expr <- parseExpression precedenceCall ;;
  ret (UnaryExpr op expr).

Definition parseBinary (left : Expr) (op : BinaryOp) : P Expr :=
  precedence <- curPrecedence ;;
  advance ;;;
  right <- parseExpression precedence ;;
  ret (BinaryExpr left op right).

Definition parseGrouped : P Expr :=
  advance ;;;
  expr <- parseExpression precedenceLowest ;;
  ok <- expectPeek TOKEN_RPAREN ;;
  if ok : bool then ret expr else ret NilExpr.

Definition parseFunction : P Expr :=
  p <- get ;;
  let param := Literal (cur p) in
  ok <- expectPeek TOKEN_COLON ;;
  if ok : bool then
    advance ;;;
    body <- parseExpression precedenceLowest ;;
    ret (FunctionExpr param body)
  else ret NilExpr.

Definition parseFunctionApplication (fn : Expr) : P Expr :=
  arg <- parseExpression precedenceCall ;;
  ret (ApplyExpr fn arg).

(** The loop of [parseList] over the remaining elements. *)
Fixpoint parseListLoop (n : nat) (elements : list Expr) : P (list Expr) :=
  match n with
  | O => diverge
  | S n' =>
      stop1 <- peekIs TOKEN_RBRACKET ;;
      stop2 <- peekIs TOKEN_EOF ;;
      if stop1 || stop2 then ret elements
      else
        advance ;;;
        b1 <- curIs TOKEN_RBRACKET ;;
        if b1 : bool then ret elements
        else
          c <- curIs TOKEN_COMMA ;;
          (if c : bool then advance else ret tt) ;;;
          b2 <- curIs TOKEN_RBRACKET ;;
          if b2 : bool then ret elements
          else
            e <- parseExpression (precedenceCall + 1) ;;
            parseListLoop n' (elements ++ [e])
  end.

Definition parseList : P Expr :=
  advance ;;;
  empty <- curIs TOKEN_RBRACKET ;;
  if empty : bool then ret (ListExpr [])
  else
    first <- parseExpression (precedenceCall + 1) ;;
    elements <- parseListLoop fuel [first] ;;
    ok <- expectPeek TOKEN_RBRACKET ;;
    if ok : bool then ret (ListExpr elements) else ret NilExpr.

(** The loop of [parseAttrPath] over [.name] continuations; [None] is
    the nil slice returned after an error. *)
Fixpoint parseAttrPathLoop (n : nat) (path : list string) : P (option (list string)) :=
  match n with
  | O => diverge
  | S n' =>
      dot <- peekIs TOKEN_DOT ;;
      if dot : bool then
        advance ;;; advance ;;;
        i <- curIs TOKEN_IDENT ;;
        s <- curIs TOKEN_STRING ;;
        if negb i && negb s then
          errorAtCur (fun t => "expected identifier or string after dot, got "
                                 ++ tokenName (Type_ t))%string ;;;
          ret None
        else
          p <- get ;;
          parseAttrPathLoop n' (path ++ [Literal (cur p)])
      else ret (Some path)
  end.

Definition parseAttrPath : P (option (list string)) :=
  i <- curIs TOKEN_IDENT ;;
  s <- curIs TOKEN_STRING ;;
  if negb i && negb s then
    errorAtCur (fun t => "expected identifier or string, got "
                           ++ tokenName (Type_ t))%string ;;;
    ret None
  else
    p <- get ;;
    parseAttrPathLoop fuel [Literal (cur p)].

(** [parseBinding]; [None] is the nil binding. *)
Definition parseBinding : P (option AttrBinding) :=
  path <- parseAttrPath ;;
  match path with
  | None => ret None
  | Some path =>
      ok <- expectPeek TOKEN_ASSIGN ;;
      if ok : bool then
        advance ;;;
        value <- parseExpression precedenceLowest ;;
        ok <- expectPeek TOKEN_SEMICOLON ;;
        if ok : bool then advance ;;; ret (Some (path, value))
        else ret None
      else ret None
  end.

(** The loop of [parseInherit]: skip to the semicolon. *)
Fixpoint skipToSemicolon (n : nat) : P unit :=
  match n with
  | O => diverge
  | S n' =>
      s <- curIs TOKEN_SEMICOLON ;;
      e <- curIs TOKEN_EOF ;;
      if s || e then ret tt else advance ;;; skipToSemicolon n'
  end.

Definition parseInherit : P unit :=
  advance ;;;
  skipToSemicolon fuel ;;;
  s <- curIs TOKEN_SEMICOLON ;;
  if s : bool then advance else ret tt.

(** The loop of [parseAttrSet] over the bindings. *)
Fixpoint parseAttrSetLoop (n : nat) (bindings : list AttrBinding)
  : P (list AttrBinding) :=
  match n with
  | O => diverge
  | S n' =>
      r <- curIs TOKEN_RBRACE ;;
      e <- curIs TOKEN_EOF ;;
      if r || e then ret bindings
      else
        inh <- curIs TOKEN_INHERIT ;;
        bindings <-
          (if inh : bool then parseInherit ;;; ret bindings
           else
             b <- parseBinding ;;
             match b with
             | Some b => ret (bindings ++ [b])
             | None => ret bindings
             end) ;;
        r <- curIs TOKEN_RBRACE ;;
        if r : bool then ret bindings else parseAttrSetLoop n' bindings
  end.

Definition parseAttrSet : P Expr :=
  advance ;;;
  isRec <- curIs TOKEN_REC ;;
  (if isRec : bool then advance else ret tt) ;;;
  empty <- curIs TOKEN_RBRACE ;;
  if empty : bool then ret (AttrSetExpr isRec [])
  else
    bindings <- parseAttrSetLoop fuel [] ;;
    r <- curIs TOKEN_RBRACE ;;
    if r : bool then ret (AttrSetExpr isRec bindings)
    else
      errorAtCur (fun t => "expected '}', got " ++ tokenName (Type_ t))%string ;;;
      ret NilExpr.

Definition parseSelect (expr : Expr) : P Expr :=
  advance ;;;
  path <- parseAttrPath ;;
  match path with
  | None => ret NilExpr
  | Some path => ret (SelectExpr expr path NilExpr)
  end.

Definition parseHasAttr (expr : Expr) : P Expr :=
  advance ;;;
  path <- parseAttrPath ;;
  match path with
  | None => ret NilExpr
  | Some path => ret (HasAttrExpr expr path)
  end.

Definition parseOrDefault (expr : Expr) : P Expr :=
  match expr with
  | SelectExpr e path _ =>
      advance ;;;
      d <- parseExpression precedenceLowest ;;
      ret (SelectExpr e path d)
  | _ =>
      errorAtCur (fun _ => "'or' can only be used with attribute selection") ;;;
      ret NilExpr
  end.

Definition parseIf : P Expr :=
  advance ;;;
  cond <- parseExpression precedenceLowest ;;
  ok <- expectPeek TOKEN_THEN ;;
  if ok : bool then
    advance ;;;
    then_ <- parseExpression precedenceLowest ;;
    ok <- expectPeek TOKEN_ELSE ;;
    if ok : bool then
      advance ;;;
      elseExpr <- parseExpression precedenceLowest ;;
      ret (IfExpr cond then_ elseExpr)
    else ret NilExpr
  else ret NilExpr.

(** The loop of [parseLet] over the bindings; [None] is the early
    [return nil]. *)
Fixpoint parseLetLoop (n : nat) (bindings : list Binding)
  : P (option (list Binding)) :=
  match n with
  | O => diverge
  | S n' =>
      i <- curIs TOKEN_IN ;;
      e <- curIs TOKEN_EOF ;;
      if i || e then ret (Some bindings)
      else
        id <- curIs TOKEN_IDENT ;;
        if id : bool then
          p <- get ;;
          let name := Literal (cur p) in
          ok <- expectPeek TOKEN_ASSIGN ;;
          if ok : bool then
            advance ;;;
            value <- parseExpression precedenceLowest ;;
            ok <- expectPeek TOKEN_SEMICOLON ;;
            if ok : bool then
              advance ;;; parseLetLoop n' (bindings ++ [(name, value)])
            else ret None
          else ret None
        else
          errorAtCur (fun t => "expected identifier in let binding, got "
                                 ++ tokenName (Type_ t))%string ;;;
          ret None
  end.

Definition parseLet : P Expr :=
  advance ;;;
  bindings <- parseLetLoop fuel [] ;;
  match bindings with
  | None => ret NilExpr
  | Some bindings =>
      i <- curIs TOKEN_IN ;;
      if i : bool then
        advance ;;;
        body <- parseExpression precedenceLowest ;;
        ret (LetExpr bindings body)
      else
        errorAtCur (fun t => "expected 'in' after let bindings, got "
                               ++ tokenName (Type_ t))%string ;;;
        ret NilExpr
  end.

Definition parseWith : P Expr :=
  advance ;;;
  expr <- parseExpression precedenceLowest ;;
  ok <- expectPeek TOKEN_SEMICOLON ;;
  if ok : bool then
    advance ;;;
    body <- parseExpression precedenceLowest ;;
    ret (WithExpr expr body)
  else ret NilExpr.

Definition parseAssert : P Expr :=
  advance ;;;
  cond <- parseExpression precedenceLowest ;;
  ok <- expectPeek TOKEN_SEMICOLON ;;
  if ok : bool then
    advance ;;;
    body <- parseExpression precedenceLowest ;;
    ret (AssertExpr cond body)
  else ret NilExpr.

Definition parseIdentifierOrFunction : P Expr :=
  p <- get ;;
  let lit := Literal (cur p) in
  if String.eqb lit "true" then ret (BoolExpr true)
  else if String.eqb lit "false" then ret (BoolExpr false)
  else if String.eqb lit "null" then ret NullExpr
  else
    colon <- peekIs TOKEN_COLON ;;
    if colon : bool then parseFunction else ret (IdentExpr lit).

Definition parsePrefixExpression : P Expr :=
  p <- get ;;
  match Type_ (cur p) with
  | TOKEN_INT => parseInt
  | TOKEN_FLOAT => parseFloat
  | TOKEN_STRING => parseString
  | TOKEN_PATH => parsePath
  | TOKEN_IDENT => parseIdentifierOrFunction
  | TOKEN_IF => parseIf
  | TOKEN_LET => parseLet
  | TOKEN_WITH => parseWith
  | TOKEN_ASSERT => parseAssert
  | TOKEN_NOT => parseUnary OpNot
  | TOKEN_MINUS => parseUnary OpNeg
  | TOKEN_LBRACE => parseAttrSet
  | TOKEN_LBRACKET => parseList
  | TOKEN_LPAREN => parseGrouped
  | _ =>
      errorAtCur (fun t => "no prefix parse function for "
                             ++ tokenName (Type_ t))%string ;;;
      ret NilExpr
  end.

Definition parseInfixExpression (left : Expr) : P Expr :=
  p <- get ;;
  match Type_ (cur p) with
  | TOKEN_PLUS => parseBinary left OpAdd
  | TOKEN_MINUS => parseBinary left OpSub
  | TOKEN_MULTIPLY => parseBinary left OpMul
  | TOKEN_DIVIDE => parseBinary left OpDiv
  | TOKEN_CONCAT => parseBinary left OpConcat
  | TOKEN_EQ => parseBinary left OpEq
  | TOKEN_NEQ => parseBinary left OpNEq
  | TOKEN_LT => parseBinary left OpLT
  | TOKEN_GT => parseBinary left OpGT
  | TOKEN_LTE => parseBinary left OpLTE
  | TOKEN_GTE => parseBinary left OpGTE
  | TOKEN_AND => parseBinary left OpAnd
  | TOKEN_OR_OP => parseBinary left OpOr
  | TOKEN_IMPL => parseBinary left OpImpl
  | TOKEN_DOT => parseSelect left
  | TOKEN_QUESTION => parseHasAttr left
  | TOKEN_OR => parseOrDefault left
  | _ =>
      errorAtCur (fun t => "no infix parse function for "
                             ++ tokenName (Type_ t))%string ;;;
      ret NilExpr
  end.

(** The infix loop of [parseExpression]. *)
Fixpoint parseInfixLoop (n : nat) (precedence : nat) (prefix : Expr) : P Expr :=
  match n with
  | O => diverge
  | S n' =>
      semi <- peekIs TOKEN_SEMICOLON ;;
      eof <- peekIs TOKEN_EOF ;;
      if semi || eof then ret prefix
      else
        pp <- peekPrecedence ;;
        arg <- couldBeArgument ;;
        if (pp <=? precedence) && negb arg then ret prefix
        else
          p <- get ;;
          if isInfixOperator (Type_ (peek p)) then
            advance ;;;
            prefix <- parseInfixExpression prefix ;;
            parseInfixLoop n' precedence prefix
          else if arg && (precedence <? precedenceCall) then
            advance ;;;
            prefix <- parseFunctionApplication prefix ;;
            parseInfixLoop n' precedence prefix
          else ret prefix
  end.

Definition parseExpressionBody (precedence : nat) : P Expr :=
  prefix <- parsePrefixExpression ;;
  if isNil prefix then ret NilExpr
  else parseInfixLoop fuel precedence prefix.

End Grammar.

(** [parseExpression]: [fuel] bounds the nesting of the recursive calls
    and the iterations of each loop. *)
Fixpoint parseExpression (fuel : nat) (precedence : nat) : P Expr :=
  match fuel with
  | O => diverge
  | S n => parseExpressionBody (parseExpression n) n precedence
  end.

(** [parser.New]. *)
Definition New (lx : Lexer) : Outcome Parser :=
  let zero := mkToken TOKEN_EOF "" 0 0 in
  match (advance ;;; advance) {| l := lx; cur := zero; peek := zero; errors := [] |} with
  | Done (_, p) => Done p
  | Panic => Panic
  | OutOfFuel => OutOfFuel
  end.

(** [Parser.Parse]: the tree, or the collected errors. *)
Definition Parse (fuel : nat) (p : Parser) : Outcome (Expr + list ParseError) :=
  match parseExpression fuel precedenceLowest p with
  | Done (expr, p') =>
      match errors p' with
      | [] => Done (inl expr)
      | errs => Done (inr errs)
      end
  | Panic => Panic
  | OutOfFuel => OutOfFuel
  end.

(** Lexing and parsing a source text, as [evalExpression] in [main.go]
    starts. *)
Definition parseSource (fuel : nat) (src : string) : Outcome (Expr + list ParseError) :=
  match New (lexer.New src) with
  | Done p => Parse fuel p
  | Panic => Panic
  | OutOfFuel => OutOfFuel
  end.

End parser.

Example parse_sum : parser.parseSource 10 "1 + 2 * 3"
  = Done (inl (types.BinaryExpr (types.IntExpr 1) types.OpAdd
                 (types.BinaryExpr (types.IntExpr 2) types.OpMul (types.IntExpr 3)))).
Proof. vm_compute. reflexivity. Qed.

(* ===================================================================== *)
(** * Values and environments ([internal/value]) *)
(* ===================================================================== *)

Module value.
Import types.

(** A location: the address of an [*Attrs] or of an [*Env]. *)
Definition loc : Set := nat.

(** The Go functions that implement the built-ins. *)
Inductive BuiltinImpl : Set :=
| builtinIsNull | builtinIsBool | builtinIsInt | builtinIsFloat
| builtinIsString | builtinIsList | builtinIsAttrs | builtinIsFunction
| builtinToString
| builtinLength | builtinHead | builtinTail | builtinElem
| builtinAttrNames | builtinAttrValues | builtinHasAttr | builtinGetAttr
| builtinAdd | builtinSub | builtinMul | builtinDiv
| builtinDerivation.

(** The values. An attribute set is a pointer to a mutable map and a
    function holds a pointer to its environment: both are locations. A
    list is never written after [NewList] copied its elements, so it is
    its sequence of elements. A built-in is the closure that
    [registerBuiltin] wraps around an implementation: its name, its
    arity and the implementation. *)
Inductive Value : Type :=
| VNull
| VBool (b : bool)
| VInt (i : Z)
| VFloat (f : float)
| VString (s : string)
| VPath (p : string)
| VList (elems : list Value)
| VAttrs (ptr : loc)
| VFunction (param : string) (body : Expr) (env : loc)
| VBuiltin (name : string) (arity : nat) (fn : BuiltinImpl).

Inductive Type_ : Set :=
| TypeNull | TypeBool | TypeInt | TypeFloat | TypeString | TypePath
| TypeList | TypeAttrs | TypeFunction | TypeBuiltin.

Definition typeOf (v : Value) : Type_ :=
  match v with
  | VNull => TypeNull | VBool _ => TypeBool | VInt _ => TypeInt
  | VFloat _ => TypeFloat | VString _ => TypeString | VPath _ => TypePath
  | VList _ => TypeList | VAttrs _ => TypeAttrs
  | VFunction _ _ _ => TypeFunction | VBuiltin _ _ _ => TypeBuiltin
  end.

(** [%v] of a [Type]: it is a byte and has no [String] method. *)
Definition typeText (t : Type_) : string :=
  match t with
  | TypeNull => "0" | TypeBool => "1" | TypeInt => "2" | TypeFloat => "3"
  | TypeString => "4" | TypePath => "5" | TypeList => "6" | TypeAttrs => "7"
  | TypeFunction => "8" | TypeBuiltin => "9"
  end.

(** An environment frame. *)
Record Env : Type := mkEnv {
  bindings : gmap string Value;
  parent : option loc
}.

(** The heap: the attribute sets and the frames allocated so far, each
    at the index that is its address. *)
Record Store : Type := mkStore {
  attrsHeap : list (gmap string Value);
  envHeap : list Env
}.

Definition emptyStore : Store := mkStore [] [].

(** ** Attribute sets *)

(** The map behind an [*Attrs]. *)
Definition attrsAt (σ : Store) (a : loc) : gmap string Value :=
  default ∅ (attrsHeap σ !! a).

(** [NewAttrs]. *)
Definition NewAttrs (σ : Store) : loc * Store :=
  (length (attrsHeap σ), mkStore (attrsHeap σ ++ [∅]) (envHeap σ)).

(** [Attrs.Get]. *)
Definition AttrsGet (σ : Store) (a : loc) (key : string) : option Value :=
  attrsAt σ a !! key.

(** [Attrs.Set]. *)
Definition AttrsSet (a : loc) (key : string) (val : Value) (σ : Store) : Store :=
  mkStore (<[a := <[key := val]> (attrsAt σ a)]> (attrsHeap σ)) (envHeap σ).

(** The keys of a map in ascending order. *)
Definition sortedKeys {A} (m : gmap string A) : list string :=
  Bytes.sortStrings ((map_to_list m).*1).

(** [Attrs.Keys]. *)
Definition AttrsKeys (σ : Store) (a : loc) : list string :=
  sortedKeys (attrsAt σ a).

(** [Attrs.Len]. *)
Definition AttrsLen (σ : Store) (a : loc) : nat := size (attrsAt σ a).

(** ** Environments *)

Definition envAt (σ : Store) (e : loc) : Env :=
  default (mkEnv ∅ None) (envHeap σ !! e).

(** [NewEnv]. *)
Definition NewEnv (σ : Store) : loc * Store :=
  (length (envHeap σ), mkStore (attrsHeap σ) (envHeap σ ++ [mkEnv ∅ None])).

(** [Env.Extend]. *)
Definition EnvExtend (e : loc) (σ : Store) : loc * Store :=
  (length (envHeap σ), mkStore (attrsHeap σ) (envHeap σ ++ [mkEnv ∅ (Some e)])).

(** [Env.Set]. *)
Definition EnvSet (e : loc) (name : string) (val : Value) (σ : Store) : Store :=
  mkStore (attrsHeap σ)
          (<[e := mkEnv (<[name := val]> (bindings (envAt σ e))) (parent (envAt σ e))]>
             (envHeap σ)).

(** [Env.Get]: the frame, then its parents. [n] bounds the length of
    the chain. *)
Fixpoint EnvGetFrom (n : nat) (σ : Store) (e : loc) (name : string) : option Value :=
  match bindings (envAt σ e) !! name with
  | Some v => Some v
  | None =>
      match n, parent (envAt σ e) with
      | S n', Some p => EnvGetFrom n' σ p name
      | _, _ => None
      end
  end.

Definition EnvGet (σ : Store) (e : loc) (name : string) : option Value :=
  EnvGetFrom (length (envHeap σ)) σ e name.

(** ** Equality and printing *)

(** The methods [Equals] and [String] follow pointers, and a set that
    was made to contain itself sends them into an unbounded recursion;
    [fuel] bounds the depth. Go ranges over a map in an unspecified
    order; the key order used here is the ascending one, which gives the
    same result whenever the method returns. *)
Section WithStore.
Variable σ : Store.

Fixpoint Equals (fuel : nat) (a b : Value) : Outcome bool :=
  match fuel with
  | O => OutOfFuel
  | S n =>
      let fix all2 (xs ys : list Value) : Outcome bool :=
        match xs, ys with
        | x :: xs', y :: ys' =>
            match Equals n x y with
            | Done true => all2 xs' ys'
            | r => r
            end
        | _, _ => Done true
        end in
      let fix allKeys (ks : list string) (m m' : gmap string Value) : Outcome bool :=
        match ks with
        | [] => Done true
        | k :: ks' =>
            match m !! k, m' !! k with
            | Some v, Some v' =>
                match Equals n v v' with
                | Done true => allKeys ks' m m'
                | r => r
                end
            | _, _ => Done false
            end
        end in
      match a, b with
      | VNull, VNull => Done true
      | VBool x, VBool y => Done (Bool.eqb x y)
      | VInt x, VInt y => Done (x =? y)%Z
      | VFloat x, VFloat y => Done (PrimFloat.eqb x y)
      | VString x, VString y => Done (String.eqb x y)
      | VPath x, VPath y => Done (String.eqb x y)
      | VList xs, VList ys =>
          if negb (length xs =? length ys)%nat then Done false else all2 xs ys
      | VAttrs x, VAttrs y =>
          if negb (AttrsLen σ x =? AttrsLen σ y)%nat then Done false
          else allKeys (AttrsKeys σ x) (attrsAt σ x) (attrsAt σ y)
      | VFunction _ _ _, _ => Done false
      | VBuiltin x _ _, VBuiltin y _ _ => Done (String.eqb x y)
      | _, _ => Done false
      end
  end.

Fixpoint String_ (fuel : nat) (v : Value) : Outcome string :=
  match fuel with
  | O => OutOfFuel
  | S n =>
      let fix parts (xs : list Value) : Outcome (list string) :=
        match xs with
        | [] => Done []
        | x :: xs' =>
            match String_ n x with
            | Done s =>
                match parts xs' with
                | Done r => Done (s :: r)
                | Panic => Panic
                | OutOfFuel => OutOfFuel
                end
            | Panic => Panic
            | OutOfFuel => OutOfFuel
            end
        end in
      let fix fields (ks : list string) (m : gmap string Value)
        : Outcome (list string) :=
        match ks with
        | [] => Done []
        | k :: ks' =>
            match String_ n (default VNull (m !! k)) with
            | Done s =>
                match fields ks' m with
                | Done r => Done ((k ++ " = " ++ s ++ ";") :: r)
                | Panic => Panic
                | OutOfFuel => OutOfFuel
                end
            | Panic => Panic
            | OutOfFuel => OutOfFuel
            end
        end in
      match v with
      | VNull => Done "null"
      | VBool b => Done (if b then "true" else "false")
      | VInt i => Done (strconv.FormatInt i)
      | VFloat f => Done (strconv.FormatFloat f true)
      | VString s => Done (Bytes.quoted s)
      | VPath p => Done p
      | VList xs =>
          match parts xs with
          | Done ps => Done ("[ " ++ Bytes.join " " ps ++ " ]")
          | Panic => Panic
          | OutOfFuel => OutOfFuel
          end
      | VAttrs a =>
          if (AttrsLen σ a =? 0)%nat then Done "{ }"
          else
            match fields (AttrsKeys σ a) (attrsAt σ a) with
            | Done ps => Done ("{ " ++ Bytes.join " " ps ++ " }")
            | Panic => Panic
            | OutOfFuel => OutOfFuel
            end
      | VFunction param _ _ => Done ("<LAMBDA " ++ param ++ ">")
      | VBuiltin name _ _ => Done ("<BUILTIN " ++ name ++ ">")
      end
  end.
End WithStore.

Arguments VAttrs ptr%_nat.
Arguments AttrsSet a%_nat key%_string val σ.
Arguments AttrsGet σ a%_nat key%_string.
Arguments attrsAt σ a%_nat.
Arguments EnvSet e%_nat name%_string val σ.
Arguments EnvGet σ e%_nat name%_string.
Arguments envAt σ e%_nat.

End value.

(* ===================================================================== *)
(** * SHA-256 and paths (Go's [crypto/sha256], [encoding/hex], [path/filepath]) *)
(* ===================================================================== *)

Module sha256.

Definition mask32 (x : Z) : Z := Z.land x (2 ^ 32 - 1).
Definition add32 (x y : Z) : Z := mask32 (x + y).
Definition rotr (x n : Z) : Z :=
  mask32 (Z.lor (Z.shiftr x n) (Z.shiftl x (32 - n))).

Definition K : list Z :=
  [ 1116352408; 1899447441; 3049323471; 3921009573; 961987163; 1508970993;
    2453635748; 2870763221; 3624381080; 310598401; 607225278; 1426881987;
    1925078388; 2162078206; 2614888103; 3248222580; 3835390401; 4022224774;
    264347078; 604807628; 770255983; 1249150122; 1555081692; 1996064986;
    2554220882; 2821834349; 2952996808; 3210313671; 3336571891; 3584528711;
    113926993; 338241895; 666307205; 773529912; 1294757372; 1396182291;
    1695183700; 1986661051; 2177026350; 2456956037; 2730485921; 2820302411;
    3259730800; 3345764771; 3516065817; 3600352804; 4094571909; 275423344;
    430227734; 506948616; 659060556; 883997877; 958139571; 1322822218;
    1537002063; 1747873779; 1955562222; 2024104815; 2227730452; 2361852424;
    2428436474; 2756734187; 3204031479; 3329325298 ].

Definition H0 : list Z :=
  [ 1779033703; 3144134277; 1013904242; 2773480762; 1359893119; 2600822924;
    528734635; 1541459225 ].

Definition bytesOf (s : string) : list Z :=
  (fun c => Z.of_nat (nat_of_ascii c)) <$> list_ascii_of_string s.

(** The message with its padding: a 1 bit, zeros, and the length in
    bits as a 64-bit big-endian number. *)
Definition pad (msg : list Z) : list Z :=
  let n := Z.of_nat (length msg) in
  let zeros := Z.to_nat ((55 - n) mod 64) in
  let bits := 8 * n in
  msg ++ [128] ++ repeat 0 zeros
      ++ ((fun i => Z.land (Z.shiftr bits (8 * (7 - Z.of_nat i))) 255) <$> seq 0 8).

Fixpoint words (bs : list Z) : list Z :=
  match bs with
  | a :: b :: c :: d :: r =>
      (Z.shiftl a 24 + Z.shiftl b 16 + Z.shiftl c 8 + d) :: words r
  | _ => []
  end.

Fixpoint chunks (n : nat) (ws : list Z) : list (list Z) :=
  match n with
  | O => []
  | S n' => match ws with
            | [] => []
            | _ => take 16 ws :: chunks n' (drop 16 ws)
            end
  end.

Definition nth (l : list Z) (i : nat) : Z := default 0 (l !! i).

(** The message schedule, most recent word first. *)
Fixpoint schedule (n : nat) (w : list Z) : list Z :=
  match n with
  | O => w
  | S n' =>
      let s0 x := Z.lxor (Z.lxor (rotr x 7) (rotr x 18)) (Z.shiftr x 3) in
      let s1 x := Z.lxor (Z.lxor (rotr x 17) (rotr x 19)) (Z.shiftr x 10) in
      let next := add32 (add32 (s1 (nth w 1)) (nth w 6))
                        (add32 (s0 (nth w 14)) (nth w 15)) in
      schedule n' (next :: w)
  end.

Definition round (st : list Z) (kw : Z * Z) : list Z :=
  match st with
  | [a; b; c; d; e; f; g; h] =>
      let S1 := Z.lxor (Z.lxor (rotr e 6) (rotr e 11)) (rotr e 25) in
      let ch := Z.lxor (Z.land e f) (Z.land (Z.lxor e (2 ^ 32 - 1)) g) in
      let t1 := add32 (add32 (add32 h S1) (add32 ch (fst kw))) (snd kw) in
      let S0 := Z.lxor (Z.lxor (rotr a 2) (rotr a 13)) (rotr a 22) in
      let maj := Z.lxor (Z.lxor (Z.land a b) (Z.land a c)) (Z.land b c) in
      let t2 := add32 S0 maj in
      [add32 t1 t2; a; b; c; add32 d t1; e; f; g]
  | _ => st
  end.

Definition compress (h : list Z) (chunk : list Z) : list Z :=
  let w := rev (schedule 48 (rev chunk)) in
  let st := fold_left round (zip K w) h in
  zip_with add32 h st.

Definition hexDigit (n : Z) : ascii :=
  if n <? 10 then ascii_of_nat (Z.to_nat (48 + n)) else ascii_of_nat (Z.to_nat (87 + n)).

Definition hexWord (w : Z) : string :=
  string_of_list_ascii
    ((fun i => hexDigit (Z.land (Z.shiftr w (4 * (7 - Z.of_nat i))) 15)) <$> seq 0 8).

(** [hex.EncodeToString(sha256.Sum256([]byte(s))[:])]. *)
Definition Sum256Hex (s : string) : string :=
  let ws := words (pad (bytesOf s)) in
  let h := fold_left compress (chunks (length ws) ws) H0 in
  String.concat "" (hexWord <$> h).

End sha256.

Example sha256_abc :
  sha256.Sum256Hex "abc"
  = "ba7816bf8f01cfea414140de5dae2223b00361a396177a9cb410ff61f20015ad".
Proof. vm_compute. reflexivity. Qed.
Example sha256_empty :
  sha256.Sum256Hex ""
  = "e3b0c44298fc1c149afbf4c8996fb92427ae41e4649b934ca495991b7852b855".
Proof. vm_compute. reflexivity. Qed.
Example sha256_two_blocks :
  sha256.Sum256Hex "abcdbcdecdefdefgefghfghighijhijkijkljklmklmnlmnomnopnopq"
  = "248d6a61d20638b8e5c026930c3e6039a33ce45964ff2167f6ecedd419db06c1".
Proof. vm_compute. reflexivity. Qed.

Module filepath.

(** The components of a path between its slashes. *)
Fixpoint split (s : string) : list string :=
  match s with
  | EmptyString => [EmptyString]
  | String c r =>
      if Ascii.eqb c "/" then EmptyString :: split r
      else match split r with
           | x :: xs => String c x :: xs
           | [] => [String c EmptyString]
           end
  end.

Definition IsAbs (path : string) : bool :=
  match path with String "/" _ => true | _ => false end.

(** One component of [Clean]; the stack holds the kept components, the
    last one first. *)
Definition cleanStep (rooted : bool) (stack : list string) (c : string)
  : list string :=
  if String.eqb c "" || String.eqb c "." then stack
  else if String.eqb c ".." then
    match stack with
    | top :: rest => if String.eqb top ".." then c :: stack else rest
    | [] => if rooted then [] else [c]
    end
  else c :: stack.

(** [filepath.Clean] (on Unix). *)
Definition Clean (path : string) : string :=
  let rooted := IsAbs path in
  let stack := fold_left (cleanStep rooted) (split path) [] in
  let out := (if rooted then "/" else "") ++ Bytes.join "/" (rev stack) in
  if String.eqb out "" then "." else out.

(** [filepath.Join] of two elements: empty elements are ignored, the
    result is cleaned, and it is empty when both are. *)
Definition Join (a b : string) : string :=
  if String.eqb a "" then (if String.eqb b "" then "" else Clean b)
  else if String.eqb b "" then Clean a
  else Clean (a ++ "/" ++ b).

End filepath.

Example Join_examples :
  [ filepath.Join "." "a/b"; filepath.Join "/x/y" "../z"; filepath.Join "a" "../../b";
    filepath.Join "/" ".."; filepath.Join "." "./" ]
  = [ "a/b"; "/x/z"; "../b"; "/"; "." ].
Proof. vm_compute. reflexivity. Qed.

(* ===================================================================== *)
(** * Derivations ([pkg/derivation]) *)
(* ===================================================================== *)

Module derivation.
Import value.

Record Derivation : Type := mkDerivation {
  Name : string;
  Builder : string;
  Args : list string;
  Env : gmap string string;
  Outputs : gmap string string;
  InputDrvs : gmap string (list string);
  InputSrcs : list string;
  System : string;
  Hash : string;
  StorePath : string
}.

(** [NewDerivation]. *)
Definition NewDerivation (name : string) : Derivation :=
  {| Name := name; Builder := ""; Args := []; Env := ∅; Outputs := ∅;
     InputDrvs := ∅; InputSrcs := []; System := "x86_64-linux";
     Hash := ""; StorePath := "" |}.

Definition SetBuilder (builder : string) (d : Derivation) : Derivation :=
  {| Name := Name d; Builder := builder; Args := Args d; Env := Env d;
     Outputs := Outputs d; InputDrvs := InputDrvs d; InputSrcs := InputSrcs d;
     System := System d; Hash := Hash d; StorePath := StorePath d |}.

Definition SetArgs (args : list string) (d : Derivation) : Derivation :=
  {| Name := Name d; Builder := Builder d; Args := args; Env := Env d;
     Outputs := Outputs d; InputDrvs := InputDrvs d; InputSrcs := InputSrcs d;
     System := System d; Hash := Hash d; StorePath := StorePath d |}.

Definition SetSystem (system : string) (d : Derivation) : Derivation :=
  {| Name := Name d; Builder := Builder d; Args := Args d; Env := Env d;
     Outputs := Outputs d; InputDrvs := InputDrvs d; InputSrcs := InputSrcs d;
     System := system; Hash := Hash d; StorePath := StorePath d |}.

Definition AddEnv (key val : string) (d : Derivation) : Derivation :=
  {| Name := Name d; Builder := Builder d; Args := Args d;
     Env := <[key := val]> (Env d);
     Outputs := Outputs d; InputDrvs := InputDrvs d; InputSrcs := InputSrcs d;
     System := System d; Hash := Hash d; StorePath := StorePath d |}.

Definition AddOutput (name path : string) (d : Derivation) : Derivation :=
  {| Name := Name d; Builder := Builder d; Args := Args d; Env := Env d;
     Outputs := <[name := path]> (Outputs d);
     InputDrvs := InputDrvs d; InputSrcs := InputSrcs d;
     System := System d; Hash := Hash d; StorePath := StorePath d |}.

Definition AddInputDrv (path : string) (outputs : list string) (d : Derivation)
  : Derivation :=
  {| Name := Name d; Builder := Builder d; Args := Args d; Env := Env d;
     Outputs := Outputs d; InputDrvs := <[path := outputs]> (InputDrvs d);
     InputSrcs := InputSrcs d;
     System := System d; Hash := Hash d; StorePath := StorePath d |}.

Definition AddInputSrc (path : string) (d : Derivation) : Derivation :=
  {| Name := Name d; Builder := Builder d; Args := Args d; Env := Env d;
     Outputs := Outputs d; InputDrvs := InputDrvs d;
     InputSrcs := InputSrcs d ++ [path];
     System := System d; Hash := Hash d; StorePath := StorePath d |}.

(** The lines that [computeHash] collects in [parts]. *)
Definition hashParts (d : Derivation) : list string :=
  [ "name=" ++ Name d;
    "builder=" ++ Builder d;
    "args=" ++ Bytes.join "," (Args d);
    "system=" ++ System d ]
  ++ ((fun k => "env." ++ k ++ "=" ++ default "" (Env d !! k))
        <$> sortedKeys (Env d))
  ++ ((fun k => "inputDrv." ++ k ++ "="
                  ++ Bytes.join "," (Bytes.sortStrings (default [] (InputDrvs d !! k))))
        <$> sortedKeys (InputDrvs d))
  ++ ((fun src => "inputSrc=" ++ src) <$> Bytes.sortStrings (InputSrcs d)).

(** [computeHash]. *)
Definition computeHash (d : Derivation) : string :=
  let content := Bytes.join (String (ascii_of_nat 10) "") (hashParts d) in
  String.substring 0 32 (sha256.Sum256Hex content).

(** [computeStorePath]. *)
Definition computeStorePath (d : Derivation) : string :=
  "/nix/store/" ++ Hash d ++ "-" ++ Name d.

(** [DerivationBuilder.Build]. [computeHash] sorts the output lists of
    [InputDrvs] in place, which the result keeps. *)
Definition Build (d : Derivation) : Derivation :=
  let outputs := if (size (Outputs d) =? 0)%nat
                 then <["out" := ""]> (Outputs d) else Outputs d in
  let env := <["pname" := Name d]> (Env d) in
  let d1 := {| Name := Name d; Builder := Builder d; Args := Args d; Env := env;
               Outputs := outputs;
               InputDrvs := Bytes.sortStrings <$> InputDrvs d;
               InputSrcs := InputSrcs d; System := System d;
               Hash := Hash d; StorePath := StorePath d |} in
  let hash := computeHash d1 in
  let storePath := "/nix/store/" ++ hash ++ "-" ++ Name d in
  {| Name := Name d; Builder := Builder d; Args := Args d; Env := env;
     Outputs := map_imap (fun name path =>
                  Some (if String.eqb path "" then filepath.Join storePath name
                        else path)) outputs;
     InputDrvs := InputDrvs d1; InputSrcs := InputSrcs d; System := System d;
     Hash := hash; StorePath := storePath |}.

(** [FromAttrs]: the derivation of an attribute set, or an error. *)
Definition FromAttrs (σ : Store) (attrs : loc) : Derivation + string :=
  match AttrsGet σ attrs "name" with
  | None => inr "derivation missing required 'name' attribute"
  | Some (VString nameStr) =>
      match AttrsGet σ attrs "builder" with
      | None => inr "derivation missing required 'builder' attribute"
      | Some (VString builderStr) =>
          let db := SetBuilder builderStr (NewDerivation nameStr) in
          let db := match AttrsGet σ attrs "system" with
                    | Some (VString systemStr) => SetSystem systemStr db
                    | _ => db
                    end in
          let db := match AttrsGet σ attrs "args" with
                    | Some (VList argsList) =>
                        SetArgs ((fun arg => match arg with
                                             | VString s => s
                                             | _ => ""
                                             end) <$> argsList) db
                    | _ => db
                    end in
          let db := fold_left
                      (fun db key =>
                         if String.eqb key "name" || String.eqb key "builder"
                            || String.eqb key "system" || String.eqb key "args"
                            || String.eqb key "outputs"
                         then db
                         else match AttrsGet σ attrs key with
                              | Some (VString strVal) => AddEnv key strVal db
                              | _ => db
                              end)
                      (AttrsKeys σ attrs) db in
          inl (Build db)
      | Some _ => inr "derivation 'builder' must be a string"
      end
  | Some _ => inr "derivation 'name' must be a string"
  end.

(** [Derivation.ToAttrs]: two fresh attribute sets. *)
Definition ToAttrs (d : Derivation) (σ : Store) : loc * Store :=
  let '(attrs, σ) := NewAttrs σ in
  let σ := AttrsSet attrs "name" (VString (Name d)) σ in
  let σ := AttrsSet attrs "builder" (VString (Builder d)) σ in
  let σ := AttrsSet attrs "system" (VString (System d)) σ in
  let σ := AttrsSet attrs "drvPath" (VString (StorePath d ++ ".drv")) σ in
  let σ := AttrsSet attrs "args" (VList (VString <$> Args d)) σ in
  let '(outAttrs, σ) := NewAttrs σ in
  let outs := sortedKeys (Outputs d) in
  let σ := fold_left (fun σ name =>
             AttrsSet outAttrs name (VString (default "" (Outputs d !! name))) σ)
             outs σ in
  let σ := AttrsSet attrs "outputs" (VAttrs outAttrs) σ in
  let σ := fold_left (fun σ name =>
             AttrsSet attrs name (VString (default "" (Outputs d !! name))) σ)
             outs σ in
  (attrs, σ).

End derivation.

(* ===================================================================== *)
(** * Evaluator ([pkg/eval]) *)
(* ===================================================================== *)

Module eval.
Import types value.

(** A Go result [(T, error)]. *)
Inductive Res (A : Type) : Type :=
| Ok (a : A)
| Err (msg : string).
Arguments Ok {A} a.
Arguments Err {A} msg.

(** An evaluation step: it reads and writes the heap and returns a
    value or an error. *)
Definition M (A : Type) : Type := Store → Outcome (Res A * Store).

Definition ret {A} (a : A) : M A := fun σ => Done (Ok a, σ).
Definition fail {A} (msg : string) : M A := fun σ => Done (Err msg, σ).
Definition bind {A B} (m : M A) (k : A → M B) : M B :=
  fun σ => match m σ with
           | Done (Ok a, σ') => k a σ'
           | Done (Err msg, σ') => Done (Err msg, σ')
           | Panic => Panic
           | OutOfFuel => OutOfFuel
           end.
Definition getStore : M Store := fun σ => Done (Ok σ, σ).
Definition modify (f : Store → Store) : M unit := fun σ => Done (Ok tt, f σ).
Definition alloc {A} (f : Store → A * Store) : M A :=
  fun σ => let '(a, σ') := f σ in Done (Ok a, σ').
Definition liftRes {A} (r : Res A) : M A := fun σ => Done (r, σ).
Definition liftOutcome {A} (o : Outcome A) : M A :=
  fun σ => match o with
           | Done a => Done (Ok a, σ)
           | Panic => Panic
           | OutOfFuel => OutOfFuel
           end.
Definition diverge {A} : M A := fun _ => OutOfFuel.
Definition panic {A} : M A := fun _ => Panic.

Declare Scope eval_scope.
Delimit Scope eval_scope with eval.
Notation "x <- m ;; k" := (bind m (fun x => k))
  (at level 100, m at next level, right associativity) : eval_scope.
Notation "m ;;; k" := (bind m (fun _ => k))
  (at level 100, right associativity) : eval_scope.
Local Open Scope eval_scope.

Definition typeName (v : Value) : string := typeText (typeOf v).
Definition wrap64 := strconv.wrap64.
Definition toFloat := strconv.floatOfInt.

(** ** Arithmetic ([operators.go]) *)

Definition evalAdd (left right : Value) : Res Value :=
  match left with
  | VInt l =>
      match right with
      | VInt r => Ok (VInt (wrap64 (l + r)))
      | VFloat r => Ok (VFloat (toFloat l + r)%float)
      | _ => Err ("cannot add " ++ typeName right ++ " to int")
      end
  | VFloat l =>
      match right with
      | VInt r => Ok (VFloat (l + toFloat r)%float)
      | VFloat r => Ok (VFloat (l + r)%float)
      | _ => Err ("cannot add " ++ typeName right ++ " to float")
      end
  | VString l =>
      match right with
      | VString r => Ok (VString (l ++ r))
      | _ => Err ("cannot add " ++ typeName right ++ " to string")
      end
  | _ => Err ("cannot add values of type " ++ typeName left)
  end.

Definition evalSub (left right : Value) : Res Value :=
  match left with
  | VInt l =>
      match right with
      | VInt r => Ok (VInt (wrap64 (l - r)))
      | VFloat r => Ok (VFloat (toFloat l - r)%float)
      | _ => Err ("cannot subtract " ++ typeName right ++ " from int")
      end
  | VFloat l =>
      match right with
      | VInt r => Ok (VFloat (l - toFloat r)%float)
      | VFloat r => Ok (VFloat (l - r)%float)
      | _ => Err ("cannot subtract " ++ typeName right ++ " from float")
      end
  | _ => Err ("cannot subtract from " ++ typeName left)
  end.

Definition evalMul (left right : Value) : Res Value :=
  match left with
  | VInt l =>
      match right with
      | VInt r => Ok (VInt (wrap64 (l * r)))
      | VFloat r => Ok (VFloat (toFloat l * r)%float)
      | _ => Err ("cannot multiply int by " ++ typeName right)
      end
  | VFloat l =>
      match right with
      | VInt r => Ok (VFloat (l * toFloat r)%float)
      | VFloat r => Ok (VFloat (l * r)%float)
      | _ => Err ("cannot multiply float by " ++ typeName right)
      end
  | _ => Err ("cannot multiply " ++ typeName left)
  end.

(** The first [switch] of [evalDiv]: is the divisor zero? *)
Definition divisorIsZero (right : Value) : bool :=
  match right with
  | VInt r => (r =? 0)%Z
  | VFloat r => PrimFloat.eqb r PrimFloat.zero
  | _ => false
  end.

Definition evalDiv (left right : Value) : Res Value :=
  if divisorIsZero right then Err "division by zero"
  else
    match left with
    | VInt l =>
        match right with
        | VInt r => Ok (VFloat (toFloat l / toFloat r)%float)
        | VFloat r => Ok (VFloat (toFloat l / r)%float)
        | _ => Err ("cannot divide int by " ++ typeName right)
        end
    | VFloat l =>
        match right with
        | VInt r => Ok (VFloat (l / toFloat r)%float)
        | VFloat r => Ok (VFloat (l / r)%float)
        | _ => Err ("cannot divide float by " ++ typeName right)
        end
    | _ => Err ("cannot divide " ++ typeName left)
    end.

Definition evalConcat (left right : Value) : Res Value :=
  match left, right with
  | VList l, VList r => Ok (VList (l ++ r))
  | _, _ => Err ("++ operator requires two lists, got " ++ typeName left
                   ++ " and " ++ typeName right)
  end.

Definition evalLess (left right : Value) : Res Value :=
  match left with
  | VInt l =>
      match right with
      | VInt r => Ok (VBool (l <? r)%Z)
      | VFloat r => Ok (VBool (toFloat l <? r)%float)
      | _ => Err ("cannot compare int with " ++ typeName right)
      end
  | VFloat l =>
      match right with
      | VInt r => Ok (VBool (l <? toFloat r)%float)
      | VFloat r => Ok (VBool (l <? r)%float)
      | _ => Err ("cannot compare float with " ++ typeName right)
      end
  | VString l =>
      match right with
      | VString r => Ok (VBool (String.ltb l r))
      | _ => Err ("cannot compare string with " ++ typeName right)
      end
  | _ => Err ("cannot compare " ++ typeName left)
  end.

Definition evalGreater (left right : Value) : Res Value := evalLess right left.

(** [left.Equals(right)] in the current heap. *)
Definition equals (fuel : nat) (left right : Value) : M bool :=
  σ <- getStore ;; liftOutcome (Equals σ fuel left right).

Definition evalLessEq (fuel : nat) (left right : Value) : M Value :=
  less <- liftRes (evalLess left right) ;;
  match less with
  | VBool true => ret (VBool true)
  | _ => b <- equals fuel left right ;; ret (VBool b)
  end.

Definition evalGreaterEq (fuel : nat) (left right : Value) : M Value :=
  greater <- liftRes (evalGreater left right) ;;
  match greater with
  | VBool true => ret (VBool true)
  | _ => b <- equals fuel left right ;; ret (VBool b)
  end.

(** The two copying loops of [evalUpdate]: every key of [from], in
    ascending order, is set in [result]. *)
Definition copyAttrs (from result : loc) : M unit :=
  σ <- getStore ;;
  modify (fold_left (fun acc k =>
                       AttrsSet result k (default VNull (AttrsGet acc from k)) acc)
                    (AttrsKeys σ from)).

Definition evalUpdate (left right : Value) : M Value :=
  match left, right with
  | VAttrs lAttrs, VAttrs rAttrs =>
      result <- alloc NewAttrs ;;
      copyAttrs lAttrs result ;;;
      copyAttrs rAttrs result ;;;
      ret (VAttrs result)
  | _, _ =>
      fail ("// operator requires two attribute sets, got " ++ typeName left
              ++ " and " ++ typeName right)
  end.

(** ** Built-ins ([builtins.go]) *)

(** [args[i]]; an index out of range panics. *)
Definition arg (args : list Value) (i : nat) : M Value :=
  match args !! i with
  | Some v => ret v
  | None => panic
  end.

Definition decimal (n : nat) : string := strconv.FormatInt (Z.of_nat n).

(** The loop of [builtinElem]. *)
Fixpoint elemLoop (fuel : nat) (elem : Value) (l : list Value) : M Value :=
  match l with
  | [] => ret (VBool false)
  | e :: r =>
      b <- equals fuel elem e ;;
      if b : bool then ret (VBool true) else elemLoop fuel elem r
  end.

Definition callImpl (fuel : nat) (fn : BuiltinImpl) (args : list Value) : M Value :=
  match fn with
  | builtinIsNull =>
      a <- arg args 0 ;;
      ret (VBool match a with VNull => true | _ => false end)
  | builtinIsBool =>
      a <- arg args 0 ;;
      ret (VBool match a with VBool _ => true | _ => false end)
  | builtinIsInt =>
      a <- arg args 0 ;;
      ret (VBool match a with VInt _ => true | _ => false end)
  | builtinIsFloat =>
      a <- arg args 0 ;;
      ret (VBool match a with VFloat _ => true | _ => false end)
  | builtinIsString =>
      a <- arg args 0 ;;
      ret (VBool match a with VString _ => true | _ => false end)
  | builtinIsList =>
      a <- arg args 0 ;;
      ret (VBool match a with VList _ => true | _ => false end)
  | builtinIsAttrs =>
      a <- arg args 0 ;;
      ret (VBool match a with VAttrs _ => true | _ => false end)
  | builtinIsFunction =>
      a <- arg args 0 ;;
      ret (VBool match a with
                 | VFunction _ _ _ | VBuiltin _ _ _ => true
                 | _ => false
                 end)
  | builtinToString =>
      a <- arg args 0 ;;
      match a with
      | VString _ => ret a
      | VInt v => ret (VString (strconv.FormatInt v))
      | VFloat v => ret (VString (strconv.FormatFloat v false))
      | VBool v => ret (VString (if v then "true" else "false"))
      | VNull => ret (VString "null")
      | VPath v => ret (VString v)
      | _ => fail ("cannot convert " ++ typeName a ++ " to string")
      end
  | builtinLength =>
      a <- arg args 0 ;;
      match a with
      | VList v => ret (VInt (Z.of_nat (length v)))
      | VString v => ret (VInt (Z.of_nat (String.length v)))
      | VAttrs v => σ <- getStore ;; ret (VInt (Z.of_nat (AttrsLen σ v)))
      | _ => fail ("length expects a list, string, or attrset, got " ++ typeName a)
      end
  | builtinHead =>
      a <- arg args 0 ;;
      match a with
      | VList [] => fail "head called on empty list"
      | VList (x :: _) => ret x
      | _ => fail ("head expects a list, got " ++ typeName a)
      end
  | builtinTail =>
      a <- arg args 0 ;;
      match a with
      | VList [] => fail "tail called on empty list"
      | VList (_ :: r) => ret (VList r)
      | _ => fail ("tail expects a list, got " ++ typeName a)
      end
  | builtinElem =>
      elem <- arg args 0 ;;
      a1 <- arg args 1 ;;
      match a1 with
      | VList l => elemLoop fuel elem l
      | _ => fail ("elem expects a list as second argument, got " ++ typeName a1)
      end
  | builtinAttrNames =>
      a <- arg args 0 ;;
      match a with
      | VAttrs attrs =>
          σ <- getStore ;; ret (VList (VString <$> AttrsKeys σ attrs))
      | _ => fail ("attrNames expects an attribute set, got " ++ typeName a)
      end
  | builtinAttrValues =>
      a <- arg args 0 ;;
      match a with
      | VAttrs attrs =>
          σ <- getStore ;;
          ret (VList ((fun k => default VNull (AttrsGet σ attrs k))
                        <$> AttrsKeys σ attrs))
      | _ => fail ("attrValues expects an attribute set, got " ++ typeName a)
      end
  | builtinHasAttr =>
      a0 <- arg args 0 ;;
      match a0 with
      | VString name =>
          a1 <- arg args 1 ;;
          match a1 with
          | VAttrs attrs =>
              σ <- getStore ;;
              ret (VBool (bool_decide (is_Some (AttrsGet σ attrs name))))
          | _ => fail ("hasAttr expects an attribute set as second argument, got "
                         ++ typeName a1)
          end
      | _ => fail ("hasAttr expects a string as first argument, got " ++ typeName a0)
      end
  | builtinGetAttr =>
      a0 <- arg args 0 ;;
      match a0 with
      | VString name =>
          a1 <- arg args 1 ;;
          match a1 with
          | VAttrs attrs =>
              σ <- getStore ;;
              match AttrsGet σ attrs name with
              | Some val => ret val
              | None => fail ("attribute '" ++ Bytes.quoted name ++ "' not found")
              end
          | _ => fail ("getAttr expects an attribute set as second argument, got "
                         ++ typeName a1)
          end
      | _ => fail ("getAttr expects a string as first argument, got " ++ typeName a0)
      end
  | builtinAdd => a <- arg args 0 ;; b <- arg args 1 ;; liftRes (evalAdd a b)
  | builtinSub => a <- arg args 0 ;; b <- arg args 1 ;; liftRes (evalSub a b)
  | builtinMul => a <- arg args 0 ;; b <- arg args 1 ;; liftRes (evalMul a b)
  | builtinDiv => a <- arg args 0 ;; b <- arg args 1 ;; liftRes (evalDiv a b)
  | builtinDerivation =>
      a <- arg args 0 ;;
      match a with
      | VAttrs attrs =>
          σ <- getStore ;;
          match derivation.FromAttrs σ attrs with
          | inl drv => r <- alloc (derivation.ToAttrs drv) ;; ret (VAttrs r)
          | inr err => fail ("invalid derivation: " ++ err)
          end
      | _ => fail ("derivation expects an attribute set, got " ++ typeName a)
      end
  end.

(** [Builtin.Apply]: the closure [wrapped] of [registerBuiltin], which
    checks the number of arguments and then calls the implementation. *)
Definition BuiltinApply (fuel : nat) (name : string) (arity : nat)
           (fn : BuiltinImpl) (args : list Value) : M Value :=
  if negb (length args =? arity)%nat then
    fail (name ++ " expects " ++ decimal arity ++ " argument(s), got "
            ++ decimal (length args))
  else callImpl fuel fn args.

(** [registerBuiltins]: the table [e.builtins]. *)
Definition registerBuiltins : gmap string Value :=
  let reg name arity fn (m : gmap string Value) :=
    <[name := VBuiltin name arity fn]> m in
  reg "derivation" 1%nat builtinDerivation
  (reg "div" 2%nat builtinDiv (reg "mul" 2%nat builtinMul
  (reg "sub" 2%nat builtinSub (reg "add" 2%nat builtinAdd
  (reg "getAttr" 2%nat builtinGetAttr (reg "hasAttr" 2%nat builtinHasAttr
  (reg "attrValues" 1%nat builtinAttrValues (reg "attrNames" 1%nat builtinAttrNames
  (reg "elem" 2%nat builtinElem (reg "tail" 1%nat builtinTail
  (reg "head" 1%nat builtinHead (reg "length" 1%nat builtinLength
  (reg "toString" 1%nat builtinToString
  (reg "isFunction" 1%nat builtinIsFunction (reg "isAttrs" 1%nat builtinIsAttrs
  (reg "isList" 1%nat builtinIsList (reg "isString" 1%nat builtinIsString
  (reg "isFloat" 1%nat builtinIsFloat (reg "isInt" 1%nat builtinIsInt
  (reg "isBool" 1%nat builtinIsBool (reg "isNull" 1%nat builtinIsNull
  (<["null" := VNull]> (<["false" := VBool false]> (<["true" := VBool true]> ∅)))
  ))))))))))))))))))))).

(** [Evaluator]. *)
Record Evaluator : Type := mkEvaluator {
  baseDir : string;
  builtins : gmap string Value
}.

(** [eval.New]. *)
Definition New (baseDir : string) : Evaluator :=
  mkEvaluator baseDir registerBuiltins.

(** [isSimpleExpr]. *)
Definition isSimpleExpr (expr : Expr) : bool :=
  match expr with
  | IntExpr _ | FloatExpr _ | StringExpr _ | BoolExpr _ | NullExpr | PathExpr _ => true
  | _ => false
  end.

(** The methods of the evaluator call each other through [evalExpr];
    they are written against the recursive call as a variable, and
    [evalExpr] below closes the recursion. [fuel] is what is left for
    [Equals]. *)
Section Methods.
Variable e : Evaluator.
Variable evalExpr : Expr → loc → M Value.
Variable fuel : nat.

Definition resolvePath (path : string) : string :=
  if filepath.IsAbs path then path else filepath.Join (baseDir e) path.

Definition evalIdent (name : string) (env : loc) : M Value :=
  σ <- getStore ;;
  match EnvGet σ env name with
  | Some val => ret val
  | None => fail ("undefined variable: " ++ name)
  end.

Fixpoint evalElements (elems : list Expr) (env : loc) : M (list Value) :=
  match elems with
  | [] => ret []
  | x :: r =>
      val <- evalExpr x env ;;
      vals <- evalElements r env ;;
      ret (val :: vals)
  end.

Definition evalList (elements : list Expr) (env : loc) : M Value :=
  vals <- evalElements elements env ;; ret (VList vals).

(** The navigation loop of [setNestedAttr] over all but the last
    component of the path. *)
Fixpoint setNestedLoop (current : loc) (path : list string) (val : Value)
  : M unit :=
  match path with
  | [] => ret tt
  | [last] => modify (AttrsSet current last val)
  | key :: rest =>
      σ <- getStore ;;
      match AttrsGet σ current key with
      | Some (VAttrs nested) => setNestedLoop nested rest val
      | Some _ => fail ("attribute path conflict at " ++ key)
      | None =>
          nested <- alloc NewAttrs ;;
          modify (AttrsSet current key (VAttrs nested)) ;;;
          setNestedLoop nested rest val
      end
  end.

Definition setNestedAttr (attrs : loc) (path : list string) (expr : Expr)
           (env : loc) : M unit :=
  match path with
  | [] => fail "empty attribute path"
  | _ =>
      val <- evalExpr expr env ;;
      setNestedLoop attrs path val
  end.

(** First pass of a recursive set. *)
Fixpoint recFirstPass (attrs recEnv : loc) (bindings : list AttrBinding)
  : M unit :=
  match bindings with
  | [] => ret tt
  | (path, value) :: rest =>
      match path with
      | [name] =>
          if isSimpleExpr value then
            val <- evalExpr value recEnv ;;
            modify (AttrsSet attrs name val) ;;;
            modify (EnvSet recEnv name val) ;;;
            recFirstPass attrs recEnv rest
          else recFirstPass attrs recEnv rest
      | _ => recFirstPass attrs recEnv rest
      end
  end.

(** Second pass of a recursive set. *)
Fixpoint recSecondPass (attrs recEnv : loc) (bindings : list AttrBinding)
  : M unit :=
  match bindings with
  | [] => ret tt
  | (path, value) :: rest =>
      match path with
      | [name] =>
          if negb (isSimpleExpr value) then
            val <- evalExpr value recEnv ;;
            modify (AttrsSet attrs name val) ;;;
            recSecondPass attrs recEnv rest
          else recSecondPass attrs recEnv rest
      | _ :: _ :: _ =>
          setNestedAttr attrs path value recEnv ;;;
          recSecondPass attrs recEnv rest
      | [] => recSecondPass attrs recEnv rest
      end
  end.

(** The loop of a non-recursive set. *)
Fixpoint plainPass (attrs evalEnv : loc) (bindings : list AttrBinding)
  : M unit :=
  match bindings with
  | [] => ret tt
  | (path, value) :: rest =>
      match path with
      | [name] =>
          val <- evalExpr value evalEnv ;;
          modify (AttrsSet attrs name val) ;;;
          plainPass attrs evalEnv rest
      | _ =>
          setNestedAttr attrs path value evalEnv ;;;
          plainPass attrs evalEnv rest
      end
  end.

Definition evalAttrSet (recursive : bool) (bindings : list AttrBinding)
           (env : loc) : M Value :=
  attrs <- alloc NewAttrs ;;
  if recursive then
    recEnv <- alloc (EnvExtend env) ;;
    recFirstPass attrs recEnv bindings ;;;
    recSecondPass attrs recEnv bindings ;;;
    ret (VAttrs attrs)
  else
    plainPass attrs env bindings ;;;
    ret (VAttrs attrs).

Definition evalAnd (left right : Expr) (env : loc) : M Value :=
  l <- evalExpr left env ;;
  match l with
  | VBool leftBool =>
      if negb leftBool then ret (VBool false)
      else
        r <- evalExpr right env ;;
        match r with
        | VBool rightBool => ret (VBool rightBool)
        | _ => fail ("&& requires boolean operands, got " ++ typeName r)
        end
  | _ => fail ("&& requires boolean operands, got " ++ typeName l)
  end.

Definition evalOr (left right : Expr) (env : loc) : M Value :=
  l <- evalExpr left env ;;
  match l with
  | VBool leftBool =>
      if leftBool then ret (VBool true)
      else
        r <- evalExpr right env ;;
        match r with
        | VBool rightBool => ret (VBool rightBool)
        | _ => fail ("|| requires boolean operands, got " ++ typeName r)
        end
  | _ => fail ("|| requires boolean operands, got " ++ typeName l)
  end.

Definition evalImpl (left right : Expr) (env : loc) : M Value :=
  l <- evalExpr left env ;;
  match l with
  | VBool leftBool =>
      if negb leftBool then ret (VBool true)
      else
        r <- evalExpr right env ;;
        match r with
        | VBool rightBool => ret (VBool rightBool)
        | _ => fail ("-> requires boolean operands, got " ++ typeName r)
        end
  | _ => fail ("-> requires boolean operands, got " ++ typeName l)
  end.

Definition evalBinary (left : Expr) (op : BinaryOp) (right : Expr) (env : loc)
  : M Value :=
  match op with
  | OpAnd => evalAnd left right env
  | OpOr => evalOr left right env
  | OpImpl => evalImpl left right env
  | _ =>
      l <- evalExpr left env ;;
      r <- evalExpr right env ;;
      match op with
      | OpAdd => liftRes (evalAdd l r)
      | OpSub => liftRes (evalSub l r)
      | OpMul => liftRes (evalMul l r)
      | OpDiv => liftRes (evalDiv l r)
      | OpConcat => liftRes (evalConcat l r)
      | OpEq => b <- equals fuel l r ;; ret (VBool b)
      | OpNEq => b <- equals fuel l r ;; ret (VBool (negb b))
      | OpLT => liftRes (evalLess l r)
      | OpGT => liftRes (evalGreater l r)
      | OpLTE => evalLessEq fuel l r
      | OpGTE => evalGreaterEq fuel l r
      | OpUpdate => evalUpdate l r
      | OpAnd => fail "unknown binary operator: &&"
      | OpOr => fail "unknown binary operator: ||"
      | OpImpl => fail "unknown binary operator: ->"
      end
  end.

Definition evalUnary (op : UnaryOp) (expr : Expr) (env : loc) : M Value :=
  operand <- evalExpr expr env ;;
  match op with
  | OpNot =>
      match operand with
      | VBool b => ret (VBool (negb b))
      | _ => fail ("! operator requires boolean operand, got " ++ typeName operand)
      end
  | OpNeg =>
      match operand with
      | VInt v => ret (VInt (wrap64 (- v)))
      | VFloat v => ret (VFloat (- v)%float)
      | _ => fail ("- operator requires numeric operand, got " ++ typeName operand)
      end
  end.

Definition evalIf (cond then_ else_ : Expr) (env : loc) : M Value :=
  c <- evalExpr cond env ;;
  match c with
  | VBool condBool =>
      if condBool then evalExpr then_ env else evalExpr else_ env
  | _ => fail ("if condition must be boolean, got " ++ typeName c)
  end.

(** The loop of [evalLet]; an error of a binding is wrapped. *)
Fixpoint letLoop (letEnv : loc) (bindings : list Binding) : M unit :=
  match bindings with
  | [] => ret tt
  | (name, value) :: rest =>
      fun σ =>
        match evalExpr value letEnv σ with
        | Done (Ok val, σ') =>
            (modify (EnvSet letEnv name val) ;;; letLoop letEnv rest) σ'
        | Done (Err msg, σ') =>
            Done (Err ("error in let binding " ++ name ++ ": " ++ msg), σ')
        | Panic => Panic
        | OutOfFuel => OutOfFuel
        end
  end.

Definition evalLet (bindings : list Binding) (body : Expr) (env : loc) : M Value :=
  letEnv <- alloc (EnvExtend env) ;;
  letLoop letEnv bindings ;;;
  evalExpr body letEnv.

(** The loop of [evalWith]: every key of the set, in ascending order,
    is bound in [withEnv]. *)
Definition bindAttrs (attrs withEnv : loc) : M unit :=
  σ <- getStore ;;
  modify (fold_left (fun acc key =>
                       EnvSet withEnv key (default VNull (AttrsGet acc attrs key)) acc)
                    (AttrsKeys σ attrs)).

Definition evalWith (expr body : Expr) (env : loc) : M Value :=
  scopeVal <- evalExpr expr env ;;
  match scopeVal with
  | VAttrs attrs =>
      withEnv <- alloc (EnvExtend env) ;;
      bindAttrs attrs withEnv ;;;
      evalExpr body withEnv
  | _ => fail ("with expression requires attribute set, got " ++ typeName scopeVal)
  end.

Definition evalAssert (cond body : Expr) (env : loc) : M Value :=
  c <- evalExpr cond env ;;
  match c with
  | VBool condBool =>
      if negb condBool then fail "assertion failed" else evalExpr body env
  | _ => fail ("assert condition must be boolean, got " ++ typeName c)
  end.

Definition evalApply (func argExpr : Expr) (env : loc) : M Value :=
  fnVal <- evalExpr func env ;;
  argVal <- evalExpr argExpr env ;;
  match fnVal with
  | VFunction param body fenv =>
      fnEnv <- alloc (EnvExtend fenv) ;;
      modify (EnvSet fnEnv param argVal) ;;;
      if isNil body then fail "invalid function body"
      else evalExpr body fnEnv
  | VBuiltin name arity fn => BuiltinApply fuel name arity fn [argVal]
  | _ => fail ("cannot apply non-function value of type " ++ typeName fnVal)
  end.

(** The loop of [evalSelect] along the attribute path. *)
Fixpoint selectLoop (current : Value) (path : list string) (dflt : Expr)
         (env : loc) : M Value :=
  match path with
  | [] => fail "unexpected end of attribute path"
  | key :: rest =>
      match current with
      | VAttrs attrs =>
          σ <- getStore ;;
          match AttrsGet σ attrs key with
          | Some next =>
              match rest with
              | [] => ret next
              | _ => selectLoop next rest dflt env
              end
          | None =>
              if negb (isNil dflt) then evalExpr dflt env
              else fail ("attribute '" ++ key ++ "' not found")
          end
      | _ =>
          if negb (isNil dflt) then evalExpr dflt env
          else fail ("cannot select attribute '" ++ key ++ "' from "
                       ++ typeName current)
      end
  end.

Definition evalSelect (expr : Expr) (path : list string) (dflt : Expr)
           (env : loc) : M Value :=
  val <- evalExpr expr env ;;
  selectLoop val path dflt env.

Fixpoint hasAttrLoop (σ : Store) (current : Value) (path : list string) : bool :=
  match path with
  | [] => true
  | key :: rest =>
      match current with
      | VAttrs attrs =>
          match AttrsGet σ attrs key with
          | Some next => hasAttrLoop σ next rest
          | None => false
          end
      | _ => false
      end
  end.

Definition evalHasAttr (expr : Expr) (path : list string) (env : loc) : M Value :=
  val <- evalExpr expr env ;;
  σ <- getStore ;;
  ret (VBool (hasAttrLoop σ val path)).

(** The dispatch of [evalExpr]. *)
Definition evalExprBody (expr : Expr) (env : loc) : M Value :=
  match expr with
  | IntExpr v => ret (VInt v)
  | FloatExpr v => ret (VFloat v)
  | StringExpr v => ret (VString v)
  | BoolExpr v => ret (VBool v)
  | NullExpr => ret VNull
  | PathExpr v => ret (VPath (resolvePath v))
  | IdentExpr name => evalIdent name env
  | ListExpr elements => evalList elements env
  | AttrSetExpr recursive bindings => evalAttrSet recursive bindings env
  | BinaryExpr lhs op rhs => evalBinary lhs op rhs env
  | UnaryExpr op x => evalUnary op x env
  | IfExpr c t f => evalIf c t f env
  | LetExpr bindings body => evalLet bindings body env
  | WithExpr x body => evalWith x body env
  | AssertExpr c body => evalAssert c body env
  | FunctionExpr param body => ret (VFunction param body env)
  | ApplyExpr f a => evalApply f a env
  | SelectExpr x path d => evalSelect x path d env
  | HasAttrExpr x path => evalHasAttr x path env
  | NilExpr => fail "unknown expression type: <nil>"
  end.

End Methods.

(** [Evaluator.evalExpr]: [fuel] bounds the depth of the recursion. *)
Fixpoint evalExpr (fuel : nat) (e : Evaluator) (expr : Expr) (env : loc) : M Value :=
  match fuel with
  | O => diverge
  | S n => evalExprBody e (evalExpr n e) n expr env
  end.

(** [Evaluator.Eval]: a fresh environment holding the built-ins. *)
Definition Eval (fuel : nat) (e : Evaluator) (expr : Expr) : M Value :=
  env <- alloc NewEnv ;;
  modify (fun σ => map_fold (fun name builtin acc => EnvSet env name builtin acc)
                            σ (builtins e)) ;;;
  evalExpr fuel e expr env.

(** [Evaluator.EvalWithEnv]. *)
Definition EvalWithEnv (fuel : nat) (e : Evaluator) (expr : Expr) (env : loc)
  : M Value :=
  evalExpr fuel e expr env.

End eval.

(* ===================================================================== *)
(** * The command line ([main.go]) *)
(* ===================================================================== *)

Module main.
Import value eval.

(** What [evalExpression] prints or reports. *)
Inductive Report : Set :=
| Printed (text : string)
| ParseErrors (errs : list parser.ParseError)
| EvaluationError (msg : string).

(** [evalExpression]: lex, parse, evaluate in a fresh evaluator and
    print the value. *)
Definition evalExpression (fuel : nat) (expr baseDir : string) : Outcome Report :=
  match parser.parseSource fuel expr with
  | Done (inl ast) =>
      match Eval fuel (New baseDir) ast emptyStore with
      | Done (Ok result, σ) =>
          match String_ σ fuel result with
          | Done s => Done (Printed s)
          | Panic => Panic
          | OutOfFuel => OutOfFuel
          end
      | Done (Err msg, _) => Done (EvaluationError msg)
      | Panic => Panic
      | OutOfFuel => OutOfFuel
      end
  | Done (inr errs) => Done (ParseErrors errs)
  | Panic => Panic
  | OutOfFuel => OutOfFuel
  end.

End main.

(* ===================================================================== *)
(** * Properties *)
(* ===================================================================== *)

(** ** Sorted keys *)

Section SortedKeys.
Context {A : Type}.
Implicit Types m : gmap string A.

#[local] Instance le_total : Total Bytes.le.
Proof. intros a b. apply String.leb_total. Qed.

Lemma sortedKeys_perm m : value.sortedKeys m ≡ₚ (map_to_list m).*1.
Proof. apply merge_sort_Permutation. Qed.

Lemma sortedKeys_sorted m : Sorted Bytes.le (value.sortedKeys m).
Proof. apply (Sorted_merge_sort Bytes.le). Qed.

Lemma elem_of_sortedKeys m k : k ∈ value.sortedKeys m ↔ is_Some (m !! k).
Proof.
  rewrite sortedKeys_perm, list_elem_of_fmap. split.
  - intros [[k' v] [-> Hin]]. apply elem_of_map_to_list in Hin. by exists v.
  - intros [v Hv]. exists (k, v). split; [done|]. by apply elem_of_map_to_list.
Qed.

Lemma sortedKeys_NoDup m : NoDup (value.sortedKeys m).
Proof. rewrite sortedKeys_perm. apply NoDup_fst_map_to_list. Qed.

Lemma sortedKeys_empty : value.sortedKeys (∅ : gmap string A) = [].
Proof.
  apply Permutation_nil_r. rewrite sortedKeys_perm, map_to_list_empty. done.
Qed.
End SortedKeys.

(** ** The heap operations *)

Section Heap.
Import value.
Implicit Types (σ : Store) (a : loc).

Lemma attrsAt_AttrsSet_eq σ a k v :
  (a < length (attrsHeap σ))%nat →
  attrsAt (AttrsSet a k v σ) a = <[k := v]> (attrsAt σ a).
Proof.
  intros Hlt. unfold attrsAt, AttrsSet; simpl.
  by rewrite list_lookup_insert_eq by done.
Qed.

Lemma attrsAt_AttrsSet_ne σ a b k v :
  a ≠ b → attrsAt (AttrsSet a k v σ) b = attrsAt σ b.
Proof.
  intros Hne. unfold attrsAt, AttrsSet; simpl.
  by rewrite list_lookup_insert_ne by done.
Qed.

Lemma AttrsSet_length σ a k v :
  length (attrsHeap (AttrsSet a k v σ)) = length (attrsHeap σ).
Proof. unfold AttrsSet; simpl. by rewrite length_insert. Qed.

Lemma AttrsSet_envHeap σ a k v : envHeap (AttrsSet a k v σ) = envHeap σ.
Proof. done. Qed.

Lemma AttrsSet_lookup_ne σ a b k v :
  a ≠ b → attrsHeap (AttrsSet a k v σ) !! b = attrsHeap σ !! b.
Proof. intros. unfold AttrsSet; simpl. by rewrite list_lookup_insert_ne. Qed.

(** What the copying loop of [evalUpdate] leaves in the heap. *)
Lemma copy_fold σ from result ks :
  from ≠ result →
  (result < length (attrsHeap σ))%nat →
  let σ' := fold_left (fun acc k =>
              AttrsSet result k (default VNull (AttrsGet acc from k)) acc) ks σ in
  length (attrsHeap σ') = length (attrsHeap σ)
  ∧ envHeap σ' = envHeap σ
  ∧ (∀ b, b ≠ result → attrsHeap σ' !! b = attrsHeap σ !! b)
  ∧ (∀ j, attrsAt σ' result !! j
           = if decide (j ∈ ks) then Some (default VNull (attrsAt σ from !! j))
             else attrsAt σ result !! j).
Proof.
  intros Hne. revert σ. induction ks as [|k ks IH]; intros σ Hlt; simpl.
  - repeat split; done.
  - set (σ1 := AttrsSet result k (default VNull (AttrsGet σ from k)) σ).
    destruct (IH σ1) as (Hlen & Henv & Hother & Hres).
    { unfold σ1. by rewrite AttrsSet_length. }
    assert (Hfrom : attrsAt σ1 from = attrsAt σ from).
    { unfold σ1. by apply attrsAt_AttrsSet_ne. }
    repeat split.
    + rewrite Hlen. unfold σ1. by rewrite AttrsSet_length.
    + by rewrite Henv.
    + intros b Hb. rewrite Hother by done. unfold σ1.
      by rewrite AttrsSet_lookup_ne.
    + intros j. rewrite Hres, Hfrom.
      destruct (decide (j ∈ ks)) as [Hin|Hnin].
      * by rewrite decide_True by set_solver.
      * unfold σ1. rewrite attrsAt_AttrsSet_eq by done.
        destruct (decide (j = k)) as [->|Hjk].
        -- rewrite lookup_insert_eq, decide_True by set_solver. done.
        -- rewrite lookup_insert_ne by done.
           by rewrite decide_False by set_solver.
Qed.
End Heap.

(** ** Attribute update *)

Section Update.
Import value eval.

(** [evalUpdate] on two allocated sets: the result is a new set at the
    next free address; it holds the right-biased merge; nothing that
    was allocated before is written. *)
Lemma evalUpdate_spec σ la lb :
  (la < length (attrsHeap σ))%nat →
  (lb < length (attrsHeap σ))%nat →
  ∃ σ', evalUpdate (VAttrs la) (VAttrs lb) σ
          = Done (Ok (VAttrs (length (attrsHeap σ))), σ')
        ∧ attrsAt σ' (length (attrsHeap σ)) = attrsAt σ lb ∪ attrsAt σ la
        ∧ (∀ b, (b < length (attrsHeap σ))%nat → attrsHeap σ' !! b = attrsHeap σ !! b)
        ∧ length (attrsHeap σ') = S (length (attrsHeap σ))
        ∧ envHeap σ' = envHeap σ.
Proof.
  intros Hla Hlb.
  set (r := length (attrsHeap σ)).
  set (σ0 := mkStore (attrsHeap σ ++ [∅]) (envHeap σ)).
  assert (Hr0 : (r < length (attrsHeap σ0))%nat).
  { unfold σ0, r; simpl. rewrite length_app; simpl. lia. }
  assert (Hat0 : ∀ b, (b < r)%nat → attrsHeap σ0 !! b = attrsHeap σ !! b).
  { intros b Hb. unfold σ0; simpl. by rewrite lookup_app_l. }
  assert (Hres0 : attrsAt σ0 r = ∅).
  { unfold attrsAt, σ0, r; simpl. by rewrite list_lookup_middle. }
  assert (Hk0 : ∀ b, (b < r)%nat → attrsAt σ0 b = attrsAt σ b).
  { intros b Hb. unfold attrsAt. by rewrite Hat0. }
  pose proof (copy_fold σ0 la r (AttrsKeys σ0 la) ltac:(lia) Hr0) as H1.
  cbv zeta in H1. set (σ1 := fold_left _ _ σ0) in H1.
  destruct H1 as (Hlen1 & Henv1 & Hoth1 & Hres1).
  pose proof (copy_fold σ1 lb r (AttrsKeys σ1 lb) ltac:(lia) ltac:(lia)) as H2.
  cbv zeta in H2. set (σ2 := fold_left _ _ σ1) in H2.
  destruct H2 as (Hlen2 & Henv2 & Hoth2 & Hres2).
  exists σ2. split; [reflexivity|].
  assert (Ha1 : attrsAt σ1 lb = attrsAt σ lb).
  { unfold attrsAt at 1. rewrite Hoth1 by lia. fold (attrsAt σ0 lb). by apply Hk0. }
  repeat split.
  - apply map_eq. intros j. rewrite Hres2, Hres1, Ha1, (Hk0 la), Hres0 by done.
    unfold AttrsKeys. rewrite Ha1, (Hk0 la) by done.
    destruct (decide (j ∈ sortedKeys (attrsAt σ lb))) as [Hb|Hb].
    + apply elem_of_sortedKeys in Hb as [v Hv]. rewrite Hv; simpl.
      symmetry. by apply lookup_union_Some_l.
    + assert (attrsAt σ lb !! j = None) as Hn.
      { apply eq_None_not_Some. by rewrite <- elem_of_sortedKeys. }
      rewrite lookup_union_r by done.
      destruct (decide (j ∈ sortedKeys (attrsAt σ la))) as [Ha|Ha].
      * apply elem_of_sortedKeys in Ha as [v Hv]. by rewrite Hv.
      * rewrite lookup_empty. symmetry. apply eq_None_not_Some.
        by rewrite <- elem_of_sortedKeys.
  - intros b Hb. rewrite Hoth2, Hoth1 by lia. by apply Hat0.
  - rewrite Hlen2, Hlen1. unfold σ0; simpl. rewrite length_app; simpl. lia.
  - by rewrite Henv2, Henv1.
Qed.
End Update.

(** The printed form of a result, in the heap it was computed in. *)
Definition printed (fuel : nat) (r : Outcome (eval.Res value.Value * value.Store))
  : Outcome string :=
  match r with
  | Done (eval.Ok v, σ) => value.String_ σ fuel v
  | Done (eval.Err msg, _) => Done ("error: " ++ msg)
  | Panic => Panic
  | OutOfFuel => OutOfFuel
  end.

(** A heap with the two sets [{ a = 1; b = 2; }] (at 0) and
    [{ b = 3; c = 4; }] (at 1). *)
Definition twoSets : value.Store :=
  value.AttrsSet 1 "c" (value.VInt 4) (value.AttrsSet 1 "b" (value.VInt 3)
    (value.AttrsSet 0 "b" (value.VInt 2) (value.AttrsSet 0 "a" (value.VInt 1)
       (value.NewAttrs (value.NewAttrs value.emptyStore).2).2))).

Section UpdateClaims.
Import value eval types.

(** On the values of the example of the specification the update gives
    the expected set. *)
Example update_example :
  printed 5 (evalUpdate (VAttrs 0) (VAttrs 1) twoSets)
  = Done "{ a = 1; b = 3; c = 4; }".
Proof. vm_compute. reflexivity. Qed.

(** The keys of [A // B] are the keys of [A] and of [B]; on a key of
    [B] the value is [B]'s, on another key of [A] it is [A]'s. *)
Lemma update_merges σ la lb :
  (la < length (attrsHeap σ))%nat →
  (lb < length (attrsHeap σ))%nat →
  ∃ r σ',
    evalUpdate (VAttrs la) (VAttrs lb) σ = Done (Ok (VAttrs r), σ')
    ∧ dom (attrsAt σ' r) = dom (attrsAt σ la) ∪ dom (attrsAt σ lb)
    ∧ (∀ k v, AttrsGet σ lb k = Some v → AttrsGet σ' r k = Some v)
    ∧ (∀ k, AttrsGet σ lb k = None → AttrsGet σ' r k = AttrsGet σ la k).
Proof.
  intros Hla Hlb.
  destruct (evalUpdate_spec σ la lb Hla Hlb) as (σ' & Hrun & Hmap & _).
  exists (length (attrsHeap σ)), σ'. unfold AttrsGet. rewrite Hmap.
  repeat split; [done| | |].
  - rewrite dom_union_L. set_solver.
  - intros k v Hk. by apply lookup_union_Some_l.
  - intros k Hk. by apply lookup_union_r.
Qed.

(** C1 (failing input). The source text of the example does not reach
    the evaluator: the lexer has no token for [//], it reads two
    [TOKEN_DIVIDE], and the parser reports an error at the second one. *)
Theorem C1_update_source_does_not_parse :
  main.evalExpression 30 "{ a = 1; b = 2; } // { b = 3; c = 4; }" "."
  = Done (main.ParseErrors
            [parser.mkParseError "no prefix parse function for DIVIDE" 1 20]).
Proof. vm_compute. reflexivity. Qed.

(** C10. [A // B] on two allocated sets returns a set at an address that
    was not allocated before, hence different from both operands, and
    leaves every set that was allocated, the operands among them, and
    every environment frame as it was. *)
Theorem C10_update_allocates σ la lb :
  (la < length (attrsHeap σ))%nat →
  (lb < length (attrsHeap σ))%nat →
  ∃ r σ',
    evalUpdate (VAttrs la) (VAttrs lb) σ = Done (Ok (VAttrs r), σ')
    ∧ attrsHeap σ !! r = None
    ∧ r ≠ la ∧ r ≠ lb
    ∧ attrsAt σ' la = attrsAt σ la
    ∧ attrsAt σ' lb = attrsAt σ lb
    ∧ (∀ b, (b < length (attrsHeap σ))%nat → attrsHeap σ' !! b = attrsHeap σ !! b)
    ∧ envHeap σ' = envHeap σ.
Proof.
  intros Hla Hlb.
  destruct (evalUpdate_spec σ la lb Hla Hlb) as (σ' & Hrun & _ & Hframe & _ & Henv).
  exists (length (attrsHeap σ)), σ'. repeat split; try done.
  - by apply lookup_ge_None_2.
  - lia.
  - lia.
  - unfold attrsAt. by rewrite Hframe.
  - unfold attrsAt. by rewrite Hframe.
Qed.

Lemma C10_witness :
  (0 < length (attrsHeap twoSets))%nat ∧ (1 < length (attrsHeap twoSets))%nat
  ∧ ∃ r σ',
      evalUpdate (VAttrs 0) (VAttrs 1) twoSets = Done (Ok (VAttrs r), σ')
      ∧ attrsHeap twoSets !! r = None
      ∧ r ≠ 0%nat ∧ r ≠ 1%nat
      ∧ attrsAt σ' 0 = attrsAt twoSets 0
      ∧ attrsAt σ' 1 = attrsAt twoSets 1
      ∧ (∀ b, (b < length (attrsHeap twoSets))%nat
              → attrsHeap σ' !! b = attrsHeap twoSets !! b)
      ∧ envHeap σ' = envHeap twoSets.
Proof.
  assert (H0 : (0 < length (attrsHeap twoSets))%nat) by (vm_compute; lia).
  assert (H1 : (1 < length (attrsHeap twoSets))%nat) by (vm_compute; lia).
  exact (conj H0 (conj H1 (C10_update_allocates twoSets 0 1 H0 H1))).
Defined.
End UpdateClaims.

(** ** Division *)

Section Division.
Import value eval.

Definition isNumber (v : Value) : Prop :=
  match v with VInt _ | VFloat _ => True | _ => False end.

(** The divisor is zero: the integer 0, or a float that compares equal
    to zero (either zero of IEEE 754). *)
Definition isZeroNumber (v : Value) : Prop :=
  match v with
  | VInt r => r = 0%Z
  | VFloat r => PrimFloat.is_zero r = true
  | _ => False
  end.

(** C7. On two numbers, division returns a float when the divisor is
    not zero, fails with "division by zero" exactly when it is, and has
    no other outcome. *)
Theorem C7_division l r :
  isNumber l → isNumber r →
  (¬ isZeroNumber r → ∃ f, evalDiv l r = Ok (VFloat f))
  ∧ (evalDiv l r = Err "division by zero" ↔ isZeroNumber r)
  ∧ ((∃ f, evalDiv l r = Ok (VFloat f)) ∨ evalDiv l r = Err "division by zero").
Proof.
  intros Hl Hr.
  destruct l as [| | l | l | | | | | |]; try done;
  destruct r as [| | r | r | | | | | |]; try done;
  unfold evalDiv, divisorIsZero, isZeroNumber, PrimFloat.is_zero.
  all: try (destruct (Z.eqb_spec r 0) as [->|Hne]).
  all: try (destruct (PrimFloat.eqb r PrimFloat.zero) eqn:Hz).
  all: repeat split; try (intros; congruence); eauto.
Qed.

Lemma C7_witness :
  isNumber (VInt 7) ∧ isNumber (VFloat 2)
  ∧ (¬ isZeroNumber (VFloat 2) → ∃ f, evalDiv (VInt 7) (VFloat 2) = Ok (VFloat f))
  ∧ (evalDiv (VInt 7) (VFloat 2) = Err "division by zero" ↔ isZeroNumber (VFloat 2))
  ∧ ((∃ f, evalDiv (VInt 7) (VFloat 2) = Ok (VFloat f))
     ∨ evalDiv (VInt 7) (VFloat 2) = Err "division by zero").
Proof.
  exact (conj I (conj I (C7_division (VInt 7) (VFloat 2) I I))).
Defined.

Example division_examples :
  [ evalDiv (VInt 7) (VInt 2); evalDiv (VInt 1) (VInt 0);
    evalDiv (VFloat 1) (VFloat (-0)); evalDiv (VInt 3) (VString "x") ]
  = [ Ok (VFloat 3.5); Err "division by zero"; Err "division by zero";
      Err "cannot divide int by 4" ].
Proof. vm_compute. reflexivity. Qed.
End Division.

(** ** Scopes: [with] *)

Section With.
Import value eval types.

(** What the binding loop of [evalWith] leaves in the frame [w]. *)
Lemma bind_fold σ attrs w ks :
  (w < length (envHeap σ))%nat →
  let σ' := fold_left (fun acc key =>
              EnvSet w key (default VNull (AttrsGet acc attrs key)) acc) ks σ in
  attrsHeap σ' = attrsHeap σ
  ∧ length (envHeap σ') = length (envHeap σ)
  ∧ parent (envAt σ' w) = parent (envAt σ w)
  ∧ (∀ b, b ≠ w → envHeap σ' !! b = envHeap σ !! b)
  ∧ (∀ j, bindings (envAt σ' w) !! j
           = if decide (j ∈ ks) then Some (default VNull (AttrsGet σ attrs j))
             else bindings (envAt σ w) !! j).
Proof.
  revert σ. induction ks as [|k ks IH]; intros σ Hlt; simpl.
  - repeat split; done.
  - set (σ1 := EnvSet w k (default VNull (AttrsGet σ attrs k)) σ).
    assert (Hlen1 : length (envHeap σ1) = length (envHeap σ)).
    { unfold σ1, EnvSet; simpl. by rewrite length_insert. }
    assert (Hat1 : envAt σ1 w
                   = mkEnv (<[k := default VNull (AttrsGet σ attrs k)]>
                              (bindings (envAt σ w)))
                           (parent (envAt σ w))).
    { unfold σ1, EnvSet, envAt at 1; simpl. by rewrite list_lookup_insert_eq. }
    destruct (IH σ1) as (Hattrs & Hlen & Hpar & Hoth & Hres); [lia|].
    repeat split.
    + by rewrite Hattrs.
    + lia.
    + by rewrite Hpar, Hat1.
    + intros b Hb. rewrite Hoth by done. unfold σ1, EnvSet; simpl.
      by rewrite list_lookup_insert_ne.
    + intros j. rewrite Hres, Hat1; simpl.
      assert (AttrsGet σ1 attrs j = AttrsGet σ attrs j) as -> by done.
      destruct (decide (j ∈ ks)) as [Hin|Hnin].
      * by rewrite decide_True by set_solver.
      * destruct (decide (j = k)) as [->|Hjk].
        -- rewrite lookup_insert_eq, decide_True by set_solver. done.
        -- rewrite lookup_insert_ne by done.
           by rewrite decide_False by set_solver.
Qed.

(** A name bound in the frame itself is found there, whatever the
    parents bind. *)
Lemma EnvGet_innermost σ w n v :
  bindings (envAt σ w) !! n = Some v → EnvGet σ w n = Some v.
Proof.
  intros H. unfold EnvGet. destruct (length (envHeap σ)); simpl; by rewrite H.
Qed.

(** The frame that [evalWith] makes for the body: its bindings are the
    attributes of the set, its parent is the environment of the [with];
    the sets and the frames that existed are as they were. *)
Lemma with_frame σ a env :
  let w := length (envHeap σ) in
  let σ' := fold_left (fun acc key =>
              EnvSet w key (default VNull (AttrsGet acc a key)) acc)
              (AttrsKeys (EnvExtend env σ).2 a) (EnvExtend env σ).2 in
  envAt σ' w = mkEnv (attrsAt σ a) (Some env)
  ∧ attrsHeap σ' = attrsHeap σ
  ∧ length (envHeap σ') = S w
  ∧ (∀ i, (i < w)%nat → envAt σ' i = envAt σ i).
Proof.
  cbv zeta. cbn [EnvExtend snd].
  set (w := length (envHeap σ)).
  set (σa := mkStore (attrsHeap σ) (envHeap σ ++ [mkEnv ∅ (Some env)])).
  assert (Hw : (w < length (envHeap σa))%nat).
  { unfold σa, w; simpl. rewrite length_app; simpl. lia. }
  assert (Hnew : envAt σa w = mkEnv ∅ (Some env)).
  { unfold envAt, σa, w; simpl. by rewrite list_lookup_middle. }
  pose proof (bind_fold σa a w (AttrsKeys σa a) Hw) as Hf.
  cbv zeta in Hf. set (σb := fold_left _ _ σa) in *.
  destruct Hf as (Hattrs & Hlen & Hpar & Hoth & Hres).
  split; [|split; [|split]].
  - destruct (envAt σb w) as [bs par] eqn:E. cbn [bindings parent] in *.
    rewrite Hnew in Hpar, Hres. cbn [bindings parent] in *. subst par. f_equal.
    apply map_eq. intros j. rewrite Hres, lookup_empty.
    assert (Hsame : AttrsGet σa a j = attrsAt σ a !! j) by done.
    destruct (decide (j ∈ AttrsKeys σa a)) as [Hin|Hnin].
    + apply elem_of_sortedKeys in Hin as [v Hv].
      change (attrsAt σa a !! j) with (attrsAt σ a !! j) in Hv.
      by rewrite Hsame, Hv.
    + symmetry. apply eq_None_not_Some. intros Hsome. apply Hnin.
      apply elem_of_sortedKeys. exact Hsome.
  - by rewrite Hattrs.
  - rewrite Hlen. unfold σa; simpl. rewrite length_app; simpl. unfold w. lia.
  - intros i Hi. unfold envAt. rewrite Hoth by lia.
    unfold σa; simpl. by rewrite lookup_app_l.
Qed.

(** C9. When the scope of [with S; body] evaluates to a set, the body,
    whatever it is, is evaluated in a new frame [w] whose own bindings
    are exactly the attributes of the set and whose parent is the
    environment of the [with]; the sets and the frames that existed are
    as they were. So a name [n] that the set holds with the value [v] is
    found from [w] with the value [v], whatever the enclosing frames bind
    it to; the identifier [n] evaluates to [v] in [w], in every heap in
    which the frame [w] is as it was made; and [with S; n] evaluates to
    [v]. *)
Theorem C9_with_shadows fuel e scope body env σ σ1 a :
  evalExpr fuel e scope env σ = Done (Ok (VAttrs a), σ1) →
  let w := length (envHeap σ1) in
  ∃ σ2,
    evalExpr (S fuel) e (WithExpr scope body) env σ = evalExpr fuel e body w σ2
    ∧ envAt σ2 w = mkEnv (attrsAt σ1 a) (Some env)
    ∧ attrsHeap σ2 = attrsHeap σ1
    ∧ (∀ i, (i < w)%nat → envAt σ2 i = envAt σ1 i)
    ∧ ∀ n v, AttrsGet σ1 a n = Some v →
        EnvGet σ2 w n = Some v
        ∧ (∀ k σ3, envAt σ3 w = envAt σ2 w →
             evalExpr (S k) e (IdentExpr n) w σ3 = Done (Ok v, σ3))
        ∧ ∃ σ4, evalExpr (S fuel) e (WithExpr scope (IdentExpr n)) env σ
                = Done (Ok v, σ4).
Proof.
  intros Hscope. cbv zeta.
  destruct (with_frame σ1 a env) as (Hnew & Hattrs & Hlen & Hold).
  cbv zeta in Hnew, Hattrs, Hlen, Hold.
  set (w := length (envHeap σ1)) in *.
  set (σ2 := fold_left _ _ _) in *.
  assert (Hrun : ∀ b, evalExpr (S fuel) e (WithExpr scope b) env σ
                      = evalExpr fuel e b w σ2).
  { intros b.
    change (evalExpr (S fuel) e (WithExpr scope b) env σ)
      with (evalWith (evalExpr fuel e) scope b env σ).
    unfold evalWith.
    unfold bind at 1. rewrite Hscope.
    unfold bind at 1, alloc. cbn [EnvExtend fst snd].
    unfold bind at 1, bindAttrs. unfold bind at 1, getStore, modify. reflexivity. }
  assert (Hid : ∀ n v, AttrsGet σ1 a n = Some v →
                ∀ k σ3, envAt σ3 w = envAt σ2 w →
                  evalExpr (S k) e (IdentExpr n) w σ3 = Done (Ok v, σ3)).
  { intros n v Hn k σ3 H3.
    change (evalExpr (S k) e (IdentExpr n) w σ3) with (evalIdent n w σ3).
    unfold evalIdent, bind, getStore.
    rewrite (EnvGet_innermost σ3 w n v); [done|].
    by rewrite H3, Hnew. }
  exists σ2. split; [apply Hrun|]. split; [done|]. split; [done|]. split; [done|].
  intros n v Hn. split; [|split].
  - apply EnvGet_innermost. by rewrite Hnew.
  - by apply Hid.
  - exists σ2. rewrite Hrun. destruct fuel as [|k]; [done|]. by apply Hid.
Qed.

(** An environment whose only frame binds [n] to 1. *)
Definition outerN : Store :=
  EnvSet 0 "n" (VInt 1) (NewEnv emptyStore).2.

(** The scope [{ n = 2; }]. *)
Definition scopeN : Expr := AttrSetExpr false [(["n"], IntExpr 2)].

(** The heap after the scope was evaluated. *)
Definition afterScopeN : Store :=
  match evalExpr 3 (New ".") scopeN 0%nat outerN with
  | Done (_, σ) => σ
  | _ => outerN
  end.

(** The body [n + n]. *)
Definition bodyN : Expr := BinaryExpr (IdentExpr "n") OpAdd (IdentExpr "n").

(** [with { n = 2; }; n + n] where the enclosing frame binds [n] to 1:
    the result is 4. *)
Lemma C9_witness :
  EnvGet outerN 0 "n" = Some (VInt 1)
  ∧ AttrsGet afterScopeN 0 "n" = Some (VInt 2)
  ∧ match evalExpr 4 (New ".") (WithExpr scopeN bodyN) 0%nat outerN with
    | Done (r, _) => r = Ok (VInt 4)
    | _ => False
    end
  ∧ ∃ σ2,
      evalExpr 4 (New ".") (WithExpr scopeN bodyN) 0%nat outerN
      = evalExpr 3 (New ".") bodyN (length (envHeap afterScopeN)) σ2
      ∧ envAt σ2 (length (envHeap afterScopeN))
        = mkEnv (attrsAt afterScopeN 0) (Some 0%nat)
      ∧ attrsHeap σ2 = attrsHeap afterScopeN
      ∧ (∀ i, (i < length (envHeap afterScopeN))%nat
              → envAt σ2 i = envAt afterScopeN i)
      ∧ ∀ n v, AttrsGet afterScopeN 0 n = Some v →
          EnvGet σ2 (length (envHeap afterScopeN)) n = Some v
          ∧ (∀ k σ3, envAt σ3 (length (envHeap afterScopeN))
                     = envAt σ2 (length (envHeap afterScopeN)) →
               evalExpr (S k) (New ".") (IdentExpr n)
                 (length (envHeap afterScopeN)) σ3
               = Done (Ok v, σ3))
          ∧ ∃ σ4, evalExpr 4 (New ".") (WithExpr scopeN (IdentExpr n)) 0%nat outerN
                  = Done (Ok v, σ4).
Proof.
  split; [vm_compute; reflexivity|]. split; [vm_compute; reflexivity|].
  split; [vm_compute; reflexivity|].
  apply (C9_with_shadows 3 (New ".") scopeN bodyN 0%nat outerN afterScopeN 0%nat).
  vm_compute. reflexivity.
Defined.
End With.

(** ** Parsing: unary operators and application *)

Section UnaryApplication.
Import lexer types parser.

Lemma advance_inv p p' :
  advance p = Done (tt, p') → cur p' = peek p ∧ errors p' = errors p.
Proof.
  unfold advance. destruct (NextToken (l p)) as [[t l']| |]; [|done..].
  intros [= <-]. done.
Qed.


(** Symbolic execution of the parser's monadic code: the plumbing and
    the token tests are unfolded, the parsing functions stay folded. *)
Ltac pstep :=
  cbv beta iota zeta delta
    [parser.bind parser.get parser.ret curIs peekIs peekPrecedence curPrecedence
     couldBeArgument startsArgument isInfixOperator precedenceMap isNil
     parser.l cur peek errors Type_ Literal Line Column
     lexer.eqb lexer.code Nat.eqb Nat.leb Nat.ltb andb orb negb
     default from_option
     precedenceLowest precedenceCall precedenceSum precedenceSelect].

#[local] Opaque parseExpression.


#[local] Transparent parseExpression.

(** The parser after [n] more tokens were read. *)
Fixpoint advanced (n : nat) (p : Parser) : Parser :=
  match n with
  | O => p
  | S n' => match advance p with
            | Done (_, p') => advanced n' p'
            | _ => p
            end
  end.

(** The parser at the start of a source text. *)
Definition startOf (src : string) : Parser :=
  advanced 2 (mkParser (lexer.New src) (mkToken TOKEN_EOF "" 0 0)
                       (mkToken TOKEN_EOF "" 0 0) []).


(** The same from the source text, and what the other reading would
    be. *)
Example unary_application_source :
  parseSource 10 "-f x"
  = Done (inl (ApplyExpr (UnaryExpr OpNeg (IdentExpr "f")) (IdentExpr "x"))).
Proof. vm_compute. reflexivity. Qed.

(** An argument that starts with [-]: the token can start an argument,
    and [-x] alone is the negation of [x]; but [-f -x] is not the
    application of [-f] to [-x]: the identifier and what follows are read
    as a subtraction, under the unary operator. *)
Lemma C8_counterexample :
  startsArgument TOKEN_MINUS = true
  ∧ parseSource 10 "-x" = Done (inl (UnaryExpr OpNeg (IdentExpr "x")))
  ∧ parseSource 10 "-f -x"
    = Done (inl (UnaryExpr OpNeg (BinaryExpr (IdentExpr "f") OpSub (IdentExpr "x"))))
  ∧ parseSource 10 "-f -x"
    ≠ Done (inl (ApplyExpr (UnaryExpr OpNeg (IdentExpr "f"))
                   (UnaryExpr OpNeg (IdentExpr "x")))).
Proof.
  assert (H : parseSource 10 "-f -x"
              = Done (inl (UnaryExpr OpNeg
                             (BinaryExpr (IdentExpr "f") OpSub (IdentExpr "x")))))
    by (vm_compute; reflexivity).
  split; [reflexivity|]. split; [vm_compute; reflexivity|]. split; [exact H|].
  rewrite H. discriminate.
Qed.

(** When the argument starts with [-] there is no application: the
    identifier and what follows are read as a subtraction, under the
    unary operator. *)
Example unary_then_minus :
  parseSource 10 "-f -x"
  = Done (inl (UnaryExpr OpNeg (BinaryExpr (IdentExpr "f") OpSub (IdentExpr "x")))).
Proof. vm_compute. reflexivity. Qed.
End UnaryApplication.

(** ** Logical conjunction *)

Section Conjunction.
Import value eval types.

Lemma evalExpr_unfold fuel e expr env :
  evalExpr (S fuel) e expr env = evalExprBody e (evalExpr fuel e) fuel expr env.
Proof. reflexivity. Qed.

(** When the left operand is false the right one is not evaluated: the
    result and the heap are those of the left operand, whatever [r] is. *)
Lemma and_short_circuit fuel e l r env σ σ1 :
  evalExpr fuel e l env σ = Done (Ok (VBool false), σ1) →
  evalExpr (S fuel) e (BinaryExpr l OpAnd r) env σ = Done (Ok (VBool false), σ1).
Proof.
  intros Hl. rewrite evalExpr_unfold. simpl.
  unfold evalAnd, bind. by rewrite Hl.
Qed.

(** A left operand that is not a boolean is a type mismatch. *)
Lemma and_left_type_mismatch fuel e l r env σ σ1 v :
  evalExpr fuel e l env σ = Done (Ok v, σ1) →
  typeOf v ≠ TypeBool →
  evalExpr (S fuel) e (BinaryExpr l OpAnd r) env σ
  = Done (Err ("&& requires boolean operands, got " ++ typeName v), σ1).
Proof.
  intros Hl Hv. rewrite evalExpr_unfold. simpl.
  unfold evalAnd, bind. rewrite Hl. by destruct v.
Qed.

(** When the left operand is true the result is the right operand, which
    must be a boolean. *)
Lemma and_right fuel e l r env σ σ1 σ2 v :
  evalExpr fuel e l env σ = Done (Ok (VBool true), σ1) →
  evalExpr fuel e r env σ1 = Done (Ok v, σ2) →
  evalExpr (S fuel) e (BinaryExpr l OpAnd r) env σ
  = Done (match v with
          | VBool b => Ok (VBool b)
          | _ => Err ("&& requires boolean operands, got " ++ typeName v)
          end, σ2).
Proof.
  intros Hl Hr. rewrite evalExpr_unfold. simpl.
  unfold evalAnd, bind. rewrite Hl. simpl. rewrite Hr. by destruct v.
Qed.

(** The keyword [and] is what the parser reads as the conjunction. *)
Example and_keyword_parses :
  parser.parseSource 10 "true and false"
  = Done (inl (BinaryExpr (BoolExpr true) OpAnd (BoolExpr false))).
Proof. vm_compute. reflexivity. Qed.

(** The lexer gives [&&] the type [TOKEN_AND_OP]. *)
Example and_operator_token :
  lexer.tokens 3 (lexer.New "a && b")
  = [ (lexer.TOKEN_IDENT, "a"); (lexer.TOKEN_AND_OP, "&&"); (lexer.TOKEN_IDENT, "b") ].
Proof. vm_compute. reflexivity. Qed.

(** C2 (failing input). [true && false] is parsed as [true] alone and
    prints [true]: the lexer emits [TOKEN_AND_OP] for [&&], but the
    precedence table and the infix dispatch of the parser know only
    [TOKEN_AND], so the expression ends before the operator. *)
Theorem C2_and_operator_is_not_parsed :
  parser.parseSource 30 "true && false" = Done (inl (BoolExpr true))
  /\ main.evalExpression 30 "true && false" "." = Done (main.Printed "true").
Proof. split; vm_compute; reflexivity. Qed.
End Conjunction.

(** ** Built-ins of two arguments *)

Section Arity.
Import value eval types.

(** [evalApply] passes exactly one argument: a built-in registered with
    another arity reports an arity error at its first application. *)
Lemma builtin_of_other_arity_fails fuel e f x env σ σ1 σ2 name arity fn v :
  evalExpr fuel e f env σ = Done (Ok (VBuiltin name arity fn), σ1) →
  evalExpr fuel e x env σ1 = Done (Ok v, σ2) →
  arity ≠ 1%nat →
  evalExpr (S fuel) e (ApplyExpr f x) env σ
  = Done (Err (name ++ " expects " ++ decimal arity ++ " argument(s), got 1"), σ2).
Proof.
  intros Hf Hx Har. rewrite evalExpr_unfold. simpl.
  unfold evalApply, bind. rewrite Hf, Hx. unfold BuiltinApply. simpl.
  destruct arity as [|[|n]]; done.
Qed.

(** C3 (failing input). [elem 1 ([] ++ [1])] fails with an arity error:
    [elem] is registered with arity 2 and every application passes one
    argument. *)
Theorem C3_elem_is_never_applied :
  main.evalExpression 30 "elem 1 ([] ++ [1])" "."
  = Done (main.EvaluationError "elem expects 2 argument(s), got 1").
Proof. vm_compute. reflexivity. Qed.

(** Called with its two arguments at once, the implementation finds the
    element. *)
Example elem_implementation :
  printed 5 (callImpl 5 builtinElem [VInt 1; VList [VInt 0; VInt 1]] emptyStore)
  = Done "true".
Proof. vm_compute. reflexivity. Qed.
End Arity.

(** ** Recursive attribute sets *)

Section Recursive.
Import value eval types.

(** The value of a simple literal. *)
Definition literalValue (e : Evaluator) (expr : Expr) : Value :=
  match expr with
  | IntExpr v => VInt v
  | FloatExpr v => VFloat v
  | StringExpr v => VString v
  | BoolExpr v => VBool v
  | PathExpr v => VPath (resolvePath e v)
  | _ => VNull
  end.

(** Phase 1 on one binding: a top-level binding of a simple literal is
    put in the result set and in the recursive frame; another binding is
    left for phase 2. *)
Definition seedStep (e : Evaluator) (attrs recEnv : loc) (σ : Store) (b : AttrBinding)
  : Store :=
  match b with
  | ([name], value) =>
      if isSimpleExpr value
      then EnvSet recEnv name (literalValue e value)
             (AttrsSet attrs name (literalValue e value) σ)
      else σ
  | _ => σ
  end.

(** Phase 1 is [seedStep] over the bindings in textual order. *)
Lemma recFirstPass_seeds fuel e attrs recEnv bindings σ :
  recFirstPass (evalExpr (S fuel) e) attrs recEnv bindings σ
  = Done (Ok tt, fold_left (seedStep e attrs recEnv) bindings σ).
Proof.
  revert σ. induction bindings as [|[path value] rest IH]; intros σ; [done|].
  simpl. destruct path as [|name [|? ?]]; try apply IH.
  destruct value; simpl; try apply IH; unfold bind; simpl; apply IH.
Qed.

(** The tree of [rec { x = 1; y = x + 1; }]. *)
Definition recXY : Expr :=
  AttrSetExpr true
    [ (["x"], IntExpr 1);
      (["y"], BinaryExpr (IdentExpr "x") OpAdd (IntExpr 1)) ].

(** Evaluated as a tree, the recursive set of the example gives the
    expected set. *)
Example rec_tree_evaluates :
  printed 5 (Eval 5 (New ".") recXY emptyStore) = Done "{ x = 1; y = 2; }".
Proof. vm_compute. reflexivity. Qed.

(** Phase 1 runs over all bindings before phase 2: a literal may follow
    its use. *)
Example rec_tree_order :
  printed 5 (Eval 5 (New ".")
               (AttrSetExpr true
                  [ (["y"], BinaryExpr (IdentExpr "x") OpAdd (IntExpr 1));
                    (["x"], IntExpr 1) ]) emptyStore)
  = Done "{ x = 1; y = 2; }".
Proof. vm_compute. reflexivity. Qed.

(** The parser builds that tree from the text with [rec] inside the
    braces. *)
Example rec_inside_braces :
  parser.parseSource 30 "{ rec x = 1; y = x + 1; }" = Done (inl recXY).
Proof. vm_compute. reflexivity. Qed.

(** C5 (failing input). The source text [rec { x = 1; y = x + 1; }] is a
    parse error: the parser looks for [rec] after the opening brace and
    has no prefix rule for a leading [rec]. *)
Theorem C5_rec_source_does_not_parse :
  main.evalExpression 30 "rec { x = 1; y = x + 1; }" "."
  = Done (main.ParseErrors
            [parser.mkParseError "no prefix parse function for REC" 1 1]).
Proof. vm_compute. reflexivity. Qed.
End Recursive.

(* ================================================================= *)
(** * The hash of a derivation *)

Section DerivationHash.
Import value derivation.

(** The separator of the hashed lines. *)
Definition newline : string := String (ascii_of_nat 10) "".

(** The names that [FromAttrs] does not take as environment variables. *)
Definition reserved (key : string) : bool :=
  String.eqb key "name" || String.eqb key "builder" || String.eqb key "system"
  || String.eqb key "args" || String.eqb key "outputs".

(** The environment variable that an attribute supplies: its value when
    the key is not reserved and the value is a string. *)
Definition suppliedEnv (σ : Store) (attrs : loc) (key : string) : option string :=
  if reserved key then None
  else match AttrsGet σ attrs key with
       | Some (VString s) => Some s
       | _ => None
       end.

(** One turn of the loop of [FromAttrs] over the keys of the set. *)
Definition envStep (σ : Store) (attrs : loc) (db : Derivation) (key : string)
  : Derivation :=
  if String.eqb key "name" || String.eqb key "builder"
     || String.eqb key "system" || String.eqb key "args"
     || String.eqb key "outputs"
  then db
  else match AttrsGet σ attrs key with
       | Some (VString strVal) => AddEnv key strVal db
       | _ => db
       end.

Lemma envStep_fold σ attrs ks db :
  let db' := fold_left (envStep σ attrs) ks db in
  Name db' = Name db ∧ Builder db' = Builder db ∧ Args db' = Args db
  ∧ Outputs db' = Outputs db ∧ InputDrvs db' = InputDrvs db
  ∧ InputSrcs db' = InputSrcs db ∧ System db' = System db
  ∧ ∀ j, Env db' !! j
         = if decide (j ∈ ks)
           then match suppliedEnv σ attrs j with
                | Some s => Some s
                | None => Env db !! j
                end
           else Env db !! j.
Proof.
  revert db. induction ks as [|k ks IH]; intros db; simpl.
  - repeat split; done.
  - destruct (IH (envStep σ attrs db k)) as (H1 & H2 & H3 & H4 & H5 & H6 & H7 & H8).
    assert (Hstep : Name (envStep σ attrs db k) = Name db
                    ∧ Builder (envStep σ attrs db k) = Builder db
                    ∧ Args (envStep σ attrs db k) = Args db
                    ∧ Outputs (envStep σ attrs db k) = Outputs db
                    ∧ InputDrvs (envStep σ attrs db k) = InputDrvs db
                    ∧ InputSrcs (envStep σ attrs db k) = InputSrcs db
                    ∧ System (envStep σ attrs db k) = System db
                    ∧ ∀ j, Env (envStep σ attrs db k) !! j
                           = if decide (j = k)
                             then match suppliedEnv σ attrs j with
                                  | Some s => Some s
                                  | None => Env db !! j
                                  end
                             else Env db !! j).
    { unfold envStep, suppliedEnv, reserved.
      destruct (_ || _) eqn:Hres.
      - repeat split; try done. intros j. destruct (decide (j = k)) as [->|]; [|done].
        by rewrite Hres.
      - destruct (AttrsGet σ attrs k) as [[]|] eqn:Hk; simpl;
          repeat split; try done; intros j;
          destruct (decide (j = k)) as [->|Hne];
          rewrite ?Hres, ?Hk, ?lookup_insert_eq, ?lookup_insert_ne by done; done. }
    destruct Hstep as (S1 & S2 & S3 & S4 & S5 & S6 & S7 & S8).
    repeat split; try congruence.
    intros j. rewrite H8, S8.
    destruct (decide (j ∈ ks)) as [Hin|Hnin].
    + rewrite (decide_True (P := j ∈ k :: ks)) by (by apply list_elem_of_further).
      destruct (suppliedEnv σ attrs j); [done|].
      by destruct (decide (j = k)).
    + destruct (decide (j = k)) as [->|Hne].
      * by rewrite (decide_True (P := k ∈ k :: ks)) by apply list_elem_of_here.
      * rewrite (decide_False (P := j ∈ k :: ks)); [done|]. rewrite not_elem_of_cons. done.
Qed.

(** The environment that [FromAttrs] hands to [Build]. *)
Definition userEnv (σ : Store) (attrs : loc) : gmap string string :=
  omap (fun v => match v with VString s => Some s | _ => None end)
       (filter (fun kv => reserved kv.1 = false) (attrsAt σ attrs)).

Lemma userEnv_lookup σ attrs j : userEnv σ attrs !! j = suppliedEnv σ attrs j.
Proof.
  unfold userEnv, suppliedEnv, AttrsGet. rewrite lookup_omap.
  destruct (reserved j) eqn:Hr.
  - rewrite map_lookup_filter_None_2; [done|]. right. intros x _. simpl. congruence.
  - destruct (attrsAt σ attrs !! j) as [v|] eqn:Hj.
    + rewrite (map_lookup_filter_Some_2 _ _ j v) by done. done.
    + rewrite map_lookup_filter_None_2; [done|]. by left.
Qed.

(** The system that [FromAttrs] takes from the set: the attribute
    [system] when it is a string, the default of [NewDerivation]
    otherwise. *)
Definition suppliedSystem (σ : Store) (attrs : loc) : string :=
  match AttrsGet σ attrs "system" with
  | Some (VString systemStr) => systemStr
  | _ => "x86_64-linux"
  end.

(** The arguments that [FromAttrs] takes from the set: the elements of
    the list [args], an element that is not a string as the empty
    string; none when [args] is absent or not a list. *)
Definition suppliedArgs (σ : Store) (attrs : loc) : list string :=
  match AttrsGet σ attrs "args" with
  | Some (VList argsList) =>
      (fun arg => match arg with VString s => s | _ => "" end) <$> argsList
  | _ => []
  end.

(** The line of one environment variable. *)
Definition envLine (env : gmap string string) (k : string) : string :=
  "env." ++ k ++ "=" ++ default "" (env !! k).

(** The text that is hashed, as the claim describes it for a derivation
    made from an attribute set: the four fields and the supplied
    environment variables (such a derivation has no inputs). *)
Definition claimedContent (σ : Store) (attrs : loc) (d : Derivation) : string :=
  Bytes.join newline
    ([ "name=" ++ Name d; "builder=" ++ Builder d;
       "args=" ++ Bytes.join "," (Args d); "system=" ++ System d ]
     ++ (envLine (userEnv σ attrs) <$> sortedKeys (userEnv σ attrs))).

(** The text that is hashed: the same with the variable [pname], set to
    the name, among the environment variables. *)
Definition hashedContent (σ : Store) (attrs : loc) (d : Derivation) : string :=
  let env := <["pname" := Name d]> (userEnv σ attrs) in
  Bytes.join newline
    ([ "name=" ++ Name d; "builder=" ++ Builder d;
       "args=" ++ Bytes.join "," (Args d); "system=" ++ System d ]
     ++ (envLine env <$> sortedKeys env)).

Lemma sortStrings_nil : Bytes.sortStrings [] = [].
Proof. reflexivity. Qed.

Lemma FromAttrs_inv σ attrs d :
  FromAttrs σ attrs = inl d →
  ∃ db, d = Build db
        ∧ AttrsGet σ attrs "name" = Some (VString (Name db))
        ∧ AttrsGet σ attrs "builder" = Some (VString (Builder db))
        ∧ Env db = userEnv σ attrs
        ∧ Outputs db = ∅ ∧ InputDrvs db = ∅ ∧ InputSrcs db = []
        ∧ System db = suppliedSystem σ attrs
        ∧ Args db = suppliedArgs σ attrs.
Proof.
  unfold FromAttrs.
  destruct (AttrsGet σ attrs "name") as [[]|] eqn:Hn; try done.
  destruct (AttrsGet σ attrs "builder") as [[]|] eqn:Hb; try done.
  intros [= <-].
  match goal with
  | |- context [fold_left ?f ?ks ?db0] =>
      change f with (envStep σ attrs);
      pose proof (envStep_fold σ attrs ks db0) as Hf; cbv zeta in Hf;
      set (db := fold_left (envStep σ attrs) ks db0) in *
  end.
  destruct Hf as (H1 & H2 & H3 & H4 & H5 & H6 & H7 & H8).
  exists db. repeat split.
  - rewrite H1. by destruct (AttrsGet σ attrs "system") as [[]|], (AttrsGet σ attrs "args") as [[]|].
  - rewrite H2. by destruct (AttrsGet σ attrs "system") as [[]|], (AttrsGet σ attrs "args") as [[]|].
  - apply map_eq. intros j. rewrite H8, userEnv_lookup.
    assert (Hempty : ∀ {A} (x : option A), match x with Some s => Some s | None => None end = x)
      by (by intros A []).
    destruct (decide (j ∈ AttrsKeys σ attrs)) as [Hin|Hnin].
    + destruct (suppliedEnv σ attrs j) eqn:Hs; [done|].
      by destruct (AttrsGet σ attrs "system") as [[]|], (AttrsGet σ attrs "args") as [[]|].
    + assert (AttrsGet σ attrs j = None) as Hnone.
      { apply eq_None_not_Some. intros Hsome. apply Hnin.
        by apply elem_of_sortedKeys. }
      unfold suppliedEnv. rewrite Hnone.
      destruct (reserved j);
        by destruct (AttrsGet σ attrs "system") as [[]|], (AttrsGet σ attrs "args") as [[]|].
  - rewrite H4. by destruct (AttrsGet σ attrs "system") as [[]|], (AttrsGet σ attrs "args") as [[]|].
  - rewrite H5. by destruct (AttrsGet σ attrs "system") as [[]|], (AttrsGet σ attrs "args") as [[]|].
  - rewrite H6. by destruct (AttrsGet σ attrs "system") as [[]|], (AttrsGet σ attrs "args") as [[]|].
  - rewrite H7. unfold suppliedSystem.
    by destruct (AttrsGet σ attrs "system") as [[]|], (AttrsGet σ attrs "args") as [[]|].
  - rewrite H3. unfold suppliedArgs.
    by destruct (AttrsGet σ attrs "system") as [[]|], (AttrsGet σ attrs "args") as [[]|].
Qed.

Lemma sortedKeys_singleton {A} (k : string) (x : A) :
  sortedKeys ({[k := x]} : gmap string A) = [k].
Proof.
  apply Permutation_singleton_r.
  rewrite sortedKeys_perm, map_to_list_singleton. done.
Qed.

Lemma Build_outputs db :
  Outputs db = ∅ →
  Outputs (Build db)
  = {["out" := filepath.Join (StorePath (Build db)) "out"]}.
Proof.
  intros Ho. unfold Build; simpl. rewrite Ho, map_size_empty; simpl.
  erewrite map_imap_insert_Some by done. rewrite map_imap_empty, insert_empty. done.
Qed.

Lemma AttrsGet_AttrsSet_other σ a b k v j :
  k ≠ j → AttrsGet (AttrsSet b k v σ) a j = AttrsGet σ a j.
Proof.
  intros Hne. unfold AttrsGet, attrsAt, AttrsSet; simpl.
  destruct (decide (a = b)) as [->|Hab].
  - destruct (decide (b < length (attrsHeap σ))%nat) as [Hlt|Hge].
    + rewrite list_lookup_insert_eq by done. simpl.
      by rewrite lookup_insert_ne.
    + by rewrite list_insert_ge by lia.
  - by rewrite list_lookup_insert_ne.
Qed.

Lemma AttrsGet_AttrsSet_same σ a k v :
  (a < length (attrsHeap σ))%nat → AttrsGet (AttrsSet a k v σ) a k = Some v.
Proof.
  intros Hlt. unfold AttrsGet. rewrite attrsAt_AttrsSet_eq by done.
  by rewrite lookup_insert_eq.
Qed.

Lemma AttrsGet_alloc_old σ a j :
  (a < length (attrsHeap σ))%nat →
  AttrsGet (mkStore (attrsHeap σ ++ [∅]) (envHeap σ)) a j = AttrsGet σ a j.
Proof.
  intros Hlt. unfold AttrsGet, attrsAt; simpl. by rewrite lookup_app_l.
Qed.

Lemma ToAttrs_drvPath d σ out path :
  Outputs d = {[out := path]} →
  out ≠ "drvPath" →
  AttrsGet (ToAttrs d σ).2 (ToAttrs d σ).1 "drvPath"
  = Some (VString (StorePath d ++ ".drv")).
Proof.
  intros Ho Hne. unfold ToAttrs. rewrite Ho, sortedKeys_singleton.
  unfold NewAttrs. cbn [fold_left fst snd].
  set (a := length (attrsHeap σ)).
  set (σ0 := mkStore (attrsHeap σ ++ [∅]) (envHeap σ)).
  assert (Ha : (a < length (attrsHeap σ0))%nat).
  { unfold σ0, a; simpl. rewrite length_app; simpl. lia. }
  rewrite AttrsGet_AttrsSet_other by done.
  rewrite AttrsGet_AttrsSet_other by done.
  rewrite AttrsGet_AttrsSet_other by done.
  rewrite AttrsGet_alloc_old by (by rewrite !AttrsSet_length).
  rewrite AttrsGet_AttrsSet_other by done.
  apply AttrsGet_AttrsSet_same.
  by rewrite !AttrsSet_length.
Qed.

(** C4. For a derivation made from an attribute set, the name and the
    builder are the attributes [name] and [builder] of the set, the
    system is its attribute [system] (the default when it is not a
    string), the arguments are the elements of its list [args], and the
    environment is made of its other string attributes with [pname] set
    to the name. The hash is the first 32 hexadecimal characters of the
    SHA-256 of the four fields followed by one [env.] line for each key
    of that environment, in ascending order; the store path is
    [/nix/store/<hash>-<name>], and [drvPath] is the store path followed
    by [.drv]. *)
Theorem C4_derivation_hash σ attrs d :
  FromAttrs σ attrs = inl d →
  AttrsGet σ attrs "name" = Some (VString (Name d))
  ∧ AttrsGet σ attrs "builder" = Some (VString (Builder d))
  ∧ System d = suppliedSystem σ attrs
  ∧ Args d = suppliedArgs σ attrs
  ∧ Env d = <["pname" := Name d]> (userEnv σ attrs)
  ∧ Hash d = String.substring 0 32 (sha256.Sum256Hex (hashedContent σ attrs d))
  ∧ StorePath d = "/nix/store/" ++ Hash d ++ "-" ++ Name d
  ∧ ∀ σ', AttrsGet (ToAttrs d σ').2 (ToAttrs d σ').1 "drvPath"
          = Some (VString (StorePath d ++ ".drv")).
Proof.
  intros Hd.
  apply FromAttrs_inv in Hd
    as (db & -> & Hn & Hb & Henv & Hout & Hdrv & Hsrc & Hsys & Hargs).
  split; [exact Hn|]. split; [exact Hb|].
  split; [exact Hsys|]. split; [exact Hargs|].
  split; [unfold Build; cbn [Env Name]; by rewrite Henv|].
  split; [|split; [reflexivity|]].
  - unfold Build. cbn [Hash Name Builder Args System].
    unfold computeHash, hashedContent, hashParts.
    cbn [Name Builder Args Env InputDrvs InputSrcs System].
    rewrite Hdrv. rewrite Hsrc. rewrite Henv. rewrite fmap_empty. rewrite (sortedKeys_empty (A := list string)).
    rewrite sortStrings_nil.
    rewrite !fmap_nil, !app_nil_r. reflexivity.
  - intros σ'. eapply ToAttrs_drvPath; [by apply Build_outputs|done].
Qed.

(** The heap with the set [{ name = "hello"; builder = "/bin/sh"; }]. *)
Definition helloStore : Store :=
  AttrsSet 0%nat "builder" (VString "/bin/sh")
    (AttrsSet 0%nat "name" (VString "hello") (NewAttrs emptyStore).2).

(** Its derivation. *)
Definition helloDrv : Derivation :=
  Build (SetBuilder "/bin/sh" (NewDerivation "hello")).

Example hello_lines :
  hashParts helloDrv
  = [ "name=hello"; "builder=/bin/sh"; "args="; "system=x86_64-linux";
      "env.pname=hello" ].
Proof. vm_compute. reflexivity. Qed.

(** The hash of the derivation of [{ name = "hello"; builder = "/bin/sh"; }]
    is not that of the four fields alone: the hashed text has the line
    [env.pname=hello] as well. *)
Lemma C4_counterexample :
  FromAttrs helloStore 0%nat = inl helloDrv
  ∧ userEnv helloStore 0%nat = ∅
  ∧ Hash helloDrv = "50a9046272132b727c225169ada8b1b2"
  ∧ String.substring 0 32 (sha256.Sum256Hex (claimedContent helloStore 0%nat helloDrv))
    = "e312ccd34e36ae801e573ad7551a430a"
  ∧ Hash helloDrv
    ≠ String.substring 0 32 (sha256.Sum256Hex (claimedContent helloStore 0%nat helloDrv)).
Proof.
  assert (H1 : Hash helloDrv = "50a9046272132b727c225169ada8b1b2")
    by (vm_compute; reflexivity).
  assert (H2 : String.substring 0 32
                 (sha256.Sum256Hex (claimedContent helloStore 0%nat helloDrv))
               = "e312ccd34e36ae801e573ad7551a430a")
    by (vm_compute; reflexivity).
  split; [vm_compute; reflexivity|].
  split; [vm_compute; reflexivity|].
  split; [exact H1|]. split; [exact H2|].
  rewrite H1, H2. discriminate.
Qed.

(** The derivation of [{ name = "hello"; builder = "/bin/sh"; }]. *)
Lemma C4_witness :
  FromAttrs helloStore 0%nat = inl helloDrv
  ∧ AttrsGet helloStore 0%nat "name" = Some (VString (Name helloDrv))
  ∧ AttrsGet helloStore 0%nat "builder" = Some (VString (Builder helloDrv))
  ∧ System helloDrv = suppliedSystem helloStore 0%nat
  ∧ Args helloDrv = suppliedArgs helloStore 0%nat
  ∧ Env helloDrv = <["pname" := Name helloDrv]> (userEnv helloStore 0%nat)
  ∧ Hash helloDrv
    = String.substring 0 32 (sha256.Sum256Hex (hashedContent helloStore 0%nat helloDrv))
  ∧ StorePath helloDrv = "/nix/store/" ++ Hash helloDrv ++ "-" ++ Name helloDrv
  ∧ ∀ σ', AttrsGet (ToAttrs helloDrv σ').2 (ToAttrs helloDrv σ').1 "drvPath"
          = Some (VString (StorePath helloDrv ++ ".drv")).
Proof.
  assert (H : FromAttrs helloStore 0%nat = inl helloDrv) by (vm_compute; reflexivity).
  exact (conj H (C4_derivation_hash helloStore 0%nat helloDrv H)).
Defined.
End DerivationHash.

(* ================================================================= *)
(** * Printing and reading back *)

Section RoundTrip.
Import value eval types.

(** What reading a printed value back gives: a value and whether
    [Equals] finds it equal to the printed one, or the errors of the
    parser, or the error of the evaluator. *)
Inductive Trip : Type :=
| Back (w : Value) (same : bool)
| NoParse (errs : list parser.ParseError)
| NoValue (msg : string).

(** The property in the words of the specification: print [v], parse
    the text, evaluate the tree in an environment without bindings, and
    compare the result with [v]. *)
Definition roundTrip (fuel : nat) (σ : Store) (v : Value) : Outcome Trip :=
  match String_ σ fuel v with
  | Done s =>
      match parser.parseSource fuel s with
      | Done (inl expr) =>
          match (env <- alloc NewEnv ;; evalExpr fuel (New ".") expr env)%eval σ with
          | Done (Ok w, σ') =>
              match Equals σ' fuel v w with
              | Done b => Done (Back w b)
              | Panic => Panic
              | OutOfFuel => OutOfFuel
              end
          | Done (Err msg, _) => Done (NoValue msg)
          | Panic => Panic
          | OutOfFuel => OutOfFuel
          end
      | Done (inr errs) => Done (NoParse errs)
      | Panic => Panic
      | OutOfFuel => OutOfFuel
      end
  | Panic => Panic
  | OutOfFuel => OutOfFuel
  end.

(** Functions and built-ins, which the property leaves out. *)
Definition isFunction (v : Value) : bool :=
  match v with
  | VFunction _ _ _ | VBuiltin _ _ _ => true
  | _ => false
  end.

(** Values that are not read back as they were printed. *)
Example round_trip_failures :
  [ roundTrip 30 emptyStore (VFloat 1);
    roundTrip 30 emptyStore (VFloat 1e21);
    roundTrip 30 emptyStore (VPath "/a");
    roundTrip 30 emptyStore (VString (String Bytes.DQUOTE ""));
    roundTrip 30 emptyStore (VInt strconv.minInt64);
    roundTrip 30 emptyStore (VList [VInt 1; VInt (-5)]) ]
  = [ Done (Back (VInt 1) false);
      Done (NoValue "undefined variable: e");
      Done (NoParse [parser.mkParseError "no prefix parse function for DIVIDE" 1 1]);
      Done (NoValue "cannot apply non-function value of type 4");
      Done (NoParse [parser.mkParseError
                       ("could not parse " ++ parser.quote "9223372036854775808"
                          ++ " as integer") 1 2]);
      Done (Back (VList [VInt (-4)]) false) ].
Proof. vm_compute. reflexivity. Qed.

(** The float 1 is printed as [1], which is read back as the integer 1,
    and a float is not equal to an integer: whatever the fuel, the
    comparison does not succeed. *)
Lemma C6_counterexample :
  ¬ (∀ v, isFunction v = false →
          ∃ fuel w, roundTrip fuel emptyStore v = Done (Back w true)).
Proof.
  intros H. destruct (H (VFloat 1) eq_refl) as (fuel & w & Hrt).
  do 5 (destruct fuel as [|fuel]; [vm_compute in Hrt; discriminate|]).
  vm_compute in Hrt. discriminate.
Qed.
End RoundTrip.

(* ================================================================= *)
(** * Reading a printed value back *)

(** The values that the printer, the lexer, the parser and the evaluator
    take back to themselves, with the proof: how the lexer scans the
    printed text, which tokens it gives, which tree the parser builds
    from them, and what the evaluator makes of that tree. *)

Local Close Scope Z_scope.

(** Normal form of an expression made of string concatenations. *)
Lemma app_cons_s (c : ascii) (s t : string) : String c s ++ t = String c (s ++ t).
Proof. reflexivity. Qed.

Lemma app_nil_l_s (t : string) : "" ++ t = t.
Proof. reflexivity. Qed.

Ltac sapp := rewrite ?app_cons_s, ?app_nil_l_s in *; simpl.

Section Text.

Lemma app_nil_r_s (s : string) : s ++ "" = s.
Proof. induction s as [|c s IH]; sapp; congruence. Qed.

Lemma app_assoc_s (a b c : string) : (a ++ b) ++ c = a ++ b ++ c.
Proof. induction a as [|x a IH]; sapp; congruence. Qed.

Lemma length_app_s (a b : string) :
  String.length (a ++ b) = (String.length a + String.length b)%nat.
Proof. induction a as [|x a IH]; sapp; congruence. Qed.

Lemma substring_all (s t : string) :
  String.substring 0 (String.length s) (s ++ t) = s.
Proof. induction s as [|c s IH]; sapp; [by destruct t|congruence]. Qed.

Lemma substring_middle (a b c : string) :
  String.substring (String.length a) (String.length b) (a ++ b ++ c) = b.
Proof. induction a as [|x a IH]; sapp; [apply substring_all|exact IH]. Qed.

(** The first character of a text, or NUL at its end. *)
Definition first (s : string) : ascii :=
  match s with String c _ => c | EmptyString => lexer.NUL end.

Lemma at_app (a s : string) :
  (if decide (String.length (a ++ s) ≤ String.length a)%nat
   then lexer.NUL else Bytes.at_ (a ++ s) (String.length a)) = first s.
Proof.
  unfold Bytes.at_. induction a as [|x a IH]; sapp.
  - destruct s; simpl; done.
  - rewrite <- IH. repeat case_decide; try lia; done.
Qed.

Fixpoint forallc (f : ascii → bool) (s : string) : bool :=
  match s with
  | EmptyString => true
  | String c r => f c && forallc f r
  end.

End Text.

Ltac snorm :=
  repeat first [ rewrite app_assoc_s | rewrite app_nil_r_s
               | rewrite app_cons_s | rewrite app_nil_l_s ].

Section Scanning.
Import lexer.

(** The lexer [l] has read [pre] and has [s] before it. *)
Record Sits (l : Lexer) (pre s : string) : Prop := mkSits {
  sits_input : input l = pre ++ s;
  sits_position : position l = String.length pre;
  sits_readPosition : readPosition l = S (String.length pre);
  sits_ch : ch l = first s
}.

Lemma New_sits (inp : string) : Sits (New inp) "" inp.
Proof.
  split; try reflexivity. unfold New, readChar; simpl.
  destruct inp; done.
Qed.

Lemma readChar_sits l pre c s :
  Sits l pre (String c s) → Sits (readChar l) (pre ++ String c "") s.
Proof.
  intros [Hi Hp Hr Hc].
  assert (Hlen : String.length (pre ++ String c "") = S (String.length pre)).
  { rewrite length_app_s. simpl. lia. }
  assert (Hin : input l = (pre ++ String c "") ++ s).
  { by rewrite app_assoc_s. }
  split; unfold readChar; simpl.
  - done.
  - by rewrite Hlen.
  - by rewrite Hlen, Hr.
  - rewrite Hr, Hin, <- Hlen. apply at_app.
Qed.

Lemma peekChar_sits l pre c s :
  Sits l pre (String c s) → peekChar l = first s.
Proof.
  intros [Hi Hp Hr Hc]. unfold peekChar.
  assert (Hlen : String.length (pre ++ String c "") = S (String.length pre)).
  { rewrite length_app_s. simpl. lia. }
  assert (Hin : input l = (pre ++ String c "") ++ s).
  { by rewrite app_assoc_s. }
  rewrite Hr, Hin, <- Hlen. apply at_app.
Qed.

Lemma budget_sits l pre s : Sits l pre s → budget l = S (String.length s).
Proof.
  intros [Hi Hp Hr Hc]. unfold budget. rewrite Hi, Hp, length_app_s. f_equal. lia.
Qed.

Lemma readWhile_sits cond n l pre w s :
  Sits l pre (w ++ s) → forallc cond w = true → cond (first s) = false →
  (String.length w ≤ n)%nat →
  Sits (readWhile cond n l) (pre ++ w) s.
Proof.
  revert n l pre. induction w as [|c w IH]; intros n l pre Hs Hw Hstop Hn.
  - rewrite app_nil_l_s in Hs. rewrite app_nil_r_s.
    destruct n; simpl; [done|]. by rewrite (sits_ch _ _ _ Hs), Hstop.
  - rewrite app_cons_s in Hs. simpl in Hw, Hn. apply andb_prop in Hw as [Hc Hw].
    destruct n as [|n]; [lia|]. simpl.
    rewrite (sits_ch _ _ _ Hs). simpl. rewrite Hc.
    apply readChar_sits in Hs.
    replace (pre ++ String c w) with ((pre ++ String c "") ++ w)
      by (by rewrite app_assoc_s).
    apply IH; [done..|lia].
Qed.

Lemma taken_sits l pre w s :
  Sits l (pre ++ w) s → taken (String.length pre) l = w.
Proof.
  intros [Hi Hp Hr Hc]. unfold taken.
  rewrite Hp, Hi, length_app_s, app_assoc_s.
  replace (String.length pre + String.length w - String.length pre)%nat
    with (String.length w) by lia.
  apply substring_middle.
Qed.

(** Characters at which the scan of the trivia stops. *)
Definition startsToken (c : ascii) : bool :=
  negb (isWhitespace c) && negb (Ascii.eqb c "#") && negb (Ascii.eqb c "/").

Lemma skipTrivia_sits l pre w s :
  Sits l pre (w ++ s) → forallc isWhitespace w = true →
  startsToken (first s) = true →
  Sits (skipTrivia (budget l) l) (pre ++ w) s.
Proof.
  intros Hs Hw Hst. unfold startsToken in Hst.
  apply andb_prop in Hst as [Hst H3]. apply andb_prop in Hst as [H1 H2].
  apply negb_true_iff in H1, H2, H3.
  rewrite (budget_sits _ _ _ Hs). simpl.
  assert (Hk : Sits (skipWhitespace l) (pre ++ w) s).
  { unfold skipWhitespace. apply readWhile_sits; try done.
    rewrite (budget_sits _ _ _ Hs), length_app_s. lia. }
  rewrite (sits_ch _ _ _ Hk), H2, H3. simpl. done.
Qed.

End Scanning.

Section Tokens.
Import lexer.

(** The type and the text of a token. *)
Definition tok (t : Token) : TokenType * string := (Type_ t, Literal t).

(** [NextToken] reads the token [t] and leaves the lexer at [l']. *)
Definition Reads (l : Lexer) (t : TokenType * string) (l' : Lexer) : Prop :=
  ∃ tk, NextToken l = Done (tk, l') ∧ tok tk = t.

Definition isSpaces (w : string) : bool := forallc isWhitespace w.

(** The characters that [NextToken] tests before it looks for a letter
    or a digit. *)
Definition special (c : ascii) : bool :=
  existsb (Ascii.eqb c)
    (list_ascii_of_string "=+-*/!<>&|?.;:,(){}[]" ++ [Bytes.DQUOTE; NUL]).

Lemma special_letter c : special c = true → isLetter c = false.
Proof. destruct c as [[] [] [] [] [] [] [] []]; vm_compute; congruence. Qed.

Lemma special_digit c : special c = true → isDigit c = false.
Proof. destruct c as [[] [] [] [] [] [] [] []]; vm_compute; congruence. Qed.

Lemma digit_letter c : isDigit c = true → isLetter c = false.
Proof. destruct c as [[] [] [] [] [] [] [] []]; vm_compute; congruence. Qed.

Lemma letter_eqb c x : isLetter c = true → special x = true → Ascii.eqb c x = false.
Proof.
  intros Hc Hx. destruct (Ascii.eqb_spec c x) as [->|]; [|done].
  apply special_letter in Hx. congruence.
Qed.

Lemma digit_eqb c x : isDigit c = true → special x = true → Ascii.eqb c x = false.
Proof.
  intros Hc Hx. destruct (Ascii.eqb_spec c x) as [->|]; [|done].
  apply special_digit in Hx. congruence.
Qed.

Lemma letter_starts c : isLetter c = true → startsToken c = true.
Proof. destruct c as [[] [] [] [] [] [] [] []]; vm_compute; congruence. Qed.

Lemma digit_starts c : isDigit c = true → startsToken c = true.
Proof. destruct c as [[] [] [] [] [] [] [] []]; vm_compute; congruence. Qed.

Ltac lex_start Hs Hw Hst l0 H0 :=
  unfold Reads, NextToken; cbv zeta;
  match goal with
  | |- context [skipTrivia (budget ?l) ?l] =>
      pose proof (skipTrivia_sits _ _ _ _ Hs Hw Hst) as H0;
      set (l0 := skipTrivia (budget l) l) in *
  end;
  rewrite (sits_ch _ _ _ H0); simpl first.

(** The tokens of one character that the printed values contain. *)
Definition single (c : ascii) : option (TokenType * string) :=
  if Ascii.eqb c "[" then Some (TOKEN_LBRACKET, "[")
  else if Ascii.eqb c "]" then Some (TOKEN_RBRACKET, "]")
  else if Ascii.eqb c "{" then Some (TOKEN_LBRACE, "{")
  else if Ascii.eqb c "}" then Some (TOKEN_RBRACE, "}")
  else if Ascii.eqb c ";" then Some (TOKEN_SEMICOLON, ";")
  else None.

Lemma Reads_single l pre w c s t :
  Sits l pre (w ++ String c s) → isSpaces w = true → single c = Some t →
  ∃ l', Reads l t l' ∧ Sits l' (pre ++ w ++ String c "") s.
Proof.
  intros Hs Hw Hc. unfold single in Hc.
  repeat match type of Hc with
         | (if Ascii.eqb c ?x then _ else _) = _ =>
             destruct (Ascii.eqb_spec c x) as [->|_]; [injection Hc as <-|]
         end; try discriminate.
  all: lex_start Hs Hw (eq_refl true) l0 H0.
  all: eexists; split; [eexists; split; [reflexivity|reflexivity]|].
  all: rewrite <- app_assoc_s; by apply readChar_sits.
Qed.

(** The sign of a negative number. *)
Lemma Reads_minus l pre w s :
  Sits l pre (w ++ String "-" s) → isSpaces w = true →
  isDigit (first s) = true →
  ∃ l', Reads l (TOKEN_MINUS, "-") l' ∧ Sits l' (pre ++ w ++ "-") s.
Proof.
  intros Hs Hw Hd.
  lex_start Hs Hw (eq_refl true) l0 H0.
  rewrite (peekChar_sits _ _ _ _ H0), (digit_eqb _ ">" Hd eq_refl).
  eexists; split; [eexists; split; [reflexivity|reflexivity]|].
  rewrite <- app_assoc_s; by apply readChar_sits.
Qed.

(** The sign [=] of a binding. *)
Lemma Reads_assign l pre w s :
  Sits l pre (w ++ String "=" s) → isSpaces w = true →
  Ascii.eqb (first s) "=" = false →
  ∃ l', Reads l (TOKEN_ASSIGN, "=") l' ∧ Sits l' (pre ++ w ++ "=") s.
Proof.
  intros Hs Hw Hd.
  lex_start Hs Hw (eq_refl true) l0 H0.
  rewrite (peekChar_sits _ _ _ _ H0), Hd.
  eexists; split; [eexists; split; [reflexivity|reflexivity]|].
  rewrite <- app_assoc_s; by apply readChar_sits.
Qed.

(** The end of the input. *)
Lemma Reads_eof l pre w :
  Sits l pre w → isSpaces w = true → ∃ l', Reads l (TOKEN_EOF, "") l'.
Proof.
  intros Hs Hw. rewrite <- (app_nil_r_s w) in Hs.
  lex_start Hs Hw (eq_refl true) l0 H0.
  eexists; eexists; split; reflexivity.
Qed.

Definition isWordChar (c : ascii) : bool := isLetter c || isDigit c.

(** An identifier or a keyword. *)
Lemma Reads_word l pre w c word s :
  Sits l pre (w ++ String c word ++ s) → isSpaces w = true →
  isLetter c = true → forallc isWordChar word = true →
  isWordChar (first s) = false →
  ∃ l', Reads l (LookupIdent (String c word), String c word) l'
        ∧ Sits l' (pre ++ w ++ String c word) s.
Proof.
  intros Hs Hw Hc Hword Hstop. rewrite app_cons_s in Hs.
  lex_start Hs Hw (letter_starts _ Hc) l0 H0.
  rewrite !(letter_eqb c _ Hc) by reflexivity. rewrite Hc.
  unfold readIdentifier.
  rewrite <- app_cons_s in H0.
  assert (H1 : Sits (readWhile (λ c, isLetter c || isDigit c) (budget l0) l0)
                 ((pre ++ w) ++ String c word) s).
  { apply readWhile_sits; try done.
    - simpl. rewrite Hc. exact Hword.
    - rewrite (budget_sits _ _ _ H0), length_app_s. lia. }
  rewrite (sits_position _ _ _ H0), (taken_sits _ _ _ _ H1).
  eexists; split; [eexists; split; [reflexivity|reflexivity]|].
  by rewrite <- app_assoc_s.
Qed.

(** An integer literal. *)
Lemma Reads_int l pre w c ds s :
  Sits l pre (w ++ String c ds ++ s) → isSpaces w = true →
  isDigit c = true → forallc isDigit ds = true →
  isDigit (first s) = false → Ascii.eqb (first s) "." = false →
  ∃ l', Reads l (TOKEN_INT, String c ds) l'
        ∧ Sits l' (pre ++ w ++ String c ds) s.
Proof.
  intros Hs Hw Hc Hds Hstop Hdot. rewrite app_cons_s in Hs.
  lex_start Hs Hw (digit_starts _ Hc) l0 H0.
  rewrite !(digit_eqb c _ Hc) by reflexivity.
  rewrite (digit_letter _ Hc), Hc.
  unfold readNumber.
  rewrite <- app_cons_s in H0.
  assert (H1 : Sits (readWhile isDigit (budget l0) l0)
                 ((pre ++ w) ++ String c ds) s).
  { apply readWhile_sits; try done.
    - simpl. by rewrite Hc, Hds.
    - rewrite (budget_sits _ _ _ H0), length_app_s. lia. }
  rewrite (sits_ch _ _ _ H1), Hdot. cbn [andb].
  rewrite (sits_position _ _ _ H0), (taken_sits _ _ _ _ H1).
  eexists; split; [eexists; split; [reflexivity|reflexivity]|].
  by rewrite <- app_assoc_s.
Qed.

(** The characters that a string literal holds as they are. *)
Definition isPlainChar (c : ascii) : bool :=
  negb (Ascii.eqb c Bytes.DQUOTE) && negb (Ascii.eqb c NUL)
  && negb (Ascii.eqb c "\").

Lemma readStringLoop_S n l :
  readStringLoop (S n) l
  = if Ascii.eqb (ch (readChar l)) Bytes.DQUOTE || Ascii.eqb (ch (readChar l)) NUL
    then readChar l
    else if Ascii.eqb (ch (readChar l)) "\"
         then readStringLoop n (readChar (readChar l))
         else readStringLoop n (readChar l).
Proof. reflexivity. Qed.

Lemma readStringLoop_sits n l p c0 body s :
  Sits l p (String c0 (body ++ String Bytes.DQUOTE s)) →
  forallc isPlainChar body = true →
  (String.length body < n)%nat →
  Sits (readStringLoop n l) (p ++ String c0 body) (String Bytes.DQUOTE s).
Proof.
  revert n l p c0. induction body as [|b body IH]; intros n l p c0 Hs Hb Hn.
  - rewrite app_nil_l_s in Hs. destruct n as [|n]; [simpl in Hn; lia|].
    apply readChar_sits in Hs. rewrite readStringLoop_S.
    rewrite (sits_ch _ _ _ Hs). simpl. done.
  - rewrite app_cons_s in Hs. destruct n as [|n]; [simpl in Hn; lia|].
    apply readChar_sits in Hs. simpl in Hb, Hn.
    apply andb_prop in Hb as [Hb Hbody].
    unfold isPlainChar in Hb.
    apply andb_prop in Hb as [Hb H3]. apply andb_prop in Hb as [H1 H2].
    apply negb_true_iff in H1, H2, H3.
    rewrite readStringLoop_S.
    rewrite (sits_ch _ _ _ Hs). simpl first. rewrite H1, H2, H3. simpl.
    replace (p ++ String c0 (String b body))
      with ((p ++ String c0 "") ++ String b body)
      by (by rewrite app_assoc_s).
    apply IH; [done|done|lia].
Qed.

(** A string literal without quote, backslash and NUL. *)
Lemma Reads_string l pre w body s :
  Sits l pre (w ++ Bytes.quoted body ++ s) → isSpaces w = true →
  forallc isPlainChar body = true →
  ∃ l', Reads l (TOKEN_STRING, body) l'
        ∧ Sits l' (pre ++ w ++ Bytes.quoted body) s.
Proof.
  intros Hs Hw Hb. unfold Bytes.quoted in *.
  rewrite app_cons_s, app_assoc_s, app_cons_s, app_nil_l_s in Hs.
  lex_start Hs Hw (eq_refl true) l0 H0.
  unfold readString.
  assert (H1 : Sits (readStringLoop (budget l0) l0)
                 ((pre ++ w) ++ String Bytes.DQUOTE body)
                 (String Bytes.DQUOTE s)).
  { apply readStringLoop_sits; try done.
    rewrite (budget_sits _ _ _ H0). simpl. rewrite length_app_s. lia. }
  set (l1 := readStringLoop (budget l0) l0) in *.
  assert (Hslice : Bytes.slice (input l1) (S (position l0)) (position l1)
                   = Some body).
  { unfold Bytes.slice.
    rewrite (sits_position _ _ _ H0), (sits_position _ _ _ H1), (sits_input _ _ _ H1).
    rewrite !length_app_s. simpl.
    rewrite decide_True by lia.
    replace (String.length pre + String.length w + S (String.length body)
             - S (String.length pre + String.length w))%nat
      with (String.length body) by lia.
    f_equal.
    replace (S (String.length pre + String.length w))
      with (String.length ((pre ++ w) ++ String Bytes.DQUOTE "")).
    2:{ rewrite !length_app_s. simpl. lia. }
    replace (((pre ++ w) ++ String Bytes.DQUOTE body) ++ String Bytes.DQUOTE s)
      with (((pre ++ w) ++ String Bytes.DQUOTE "") ++ body ++ String Bytes.DQUOTE s).
    2:{ by rewrite !app_assoc_s. }
    apply substring_middle. }
  rewrite Hslice.
  eexists; split; [eexists; split; [reflexivity|reflexivity]|].
  apply readChar_sits in H1.
  replace (pre ++ w ++ String Bytes.DQUOTE (body ++ String Bytes.DQUOTE ""))
    with (((pre ++ w) ++ String Bytes.DQUOTE body) ++ String Bytes.DQUOTE "").
  2:{ by rewrite !app_assoc_s. }
  done.
Qed.

End Tokens.

(** ** The values that are read back *)

(** A value as a tree: the heap is followed, so that an attribute set
    is the list of its fields in the order of its keys. *)
Inductive Plain : Type :=
| PNull
| PBool (b : bool)
| PInt (i : Z)
| PStr (s : string)
| PList (xs : Plains)
| PAttrs (fs : Fields)
with Plains : Type :=
| PNil
| PCons (x : Plain) (r : Plains)
with Fields : Type :=
| FNil
| FCons (k : string) (x : Plain) (r : Fields).

Scheme Plain_mut := Induction for Plain Sort Prop
  with Plains_mut := Induction for Plains Sort Prop
  with Fields_mut := Induction for Fields Sort Prop.
Combined Scheme Plain_mutind from Plain_mut, Plains_mut, Fields_mut.

Section Trees.
Import lexer types.

(** The printed form, as [String] builds it. *)
Fixpoint show (t : Plain) : string :=
  match t with
  | PNull => "null"
  | PBool b => if b then "true" else "false"
  | PInt i => strconv.FormatInt i
  | PStr s => Bytes.quoted s
  | PList xs => "[ " ++ Bytes.join " " (shows xs) ++ " ]"
  | PAttrs FNil => "{ }"
  | PAttrs fs => "{ " ++ Bytes.join " " (showFields fs) ++ " }"
  end
with shows (xs : Plains) : list string :=
  match xs with
  | PNil => []
  | PCons x r => show x :: shows r
  end
with showFields (fs : Fields) : list string :=
  match fs with
  | FNil => []
  | FCons k x r => (k ++ " = " ++ show x ++ ";") :: showFields r
  end.

(** The tokens of the printed form. *)
Definition intTokens (i : Z) : list (TokenType * string) :=
  if (i <? 0)%Z then [(TOKEN_MINUS, "-"); (TOKEN_INT, strconv.digitsOfN (Z.to_N (- i)))]
  else [(TOKEN_INT, strconv.digitsOfN (Z.to_N i))].

Fixpoint toks (t : Plain) : list (TokenType * string) :=
  match t with
  | PNull => [(TOKEN_IDENT, "null")]
  | PBool b => [(TOKEN_IDENT, if b then "true" else "false")]
  | PInt i => intTokens i
  | PStr s => [(TOKEN_STRING, s)]
  | PList xs => (TOKEN_LBRACKET, "[") :: toksList xs ++ [(TOKEN_RBRACKET, "]")]
  | PAttrs fs => (TOKEN_LBRACE, "{") :: toksFields fs ++ [(TOKEN_RBRACE, "}")]
  end
with toksList (xs : Plains) : list (TokenType * string) :=
  match xs with
  | PNil => []
  | PCons x r => toks x ++ toksList r
  end
with toksFields (fs : Fields) : list (TokenType * string) :=
  match fs with
  | FNil => []
  | FCons k x r =>
      (TOKEN_IDENT, k) :: (TOKEN_ASSIGN, "=") :: toks x
        ++ (TOKEN_SEMICOLON, ";") :: toksFields r
  end.

(** The tree that the parser builds from these tokens. *)
Definition intExpr (i : Z) : Expr :=
  if (i <? 0)%Z then UnaryExpr OpNeg (IntExpr (- i)) else IntExpr i.

Fixpoint exprOf (t : Plain) : Expr :=
  match t with
  | PNull => NullExpr
  | PBool b => BoolExpr b
  | PInt i => intExpr i
  | PStr s => StringExpr s
  | PList xs => ListExpr (exprsOf xs)
  | PAttrs fs => AttrSetExpr false (bindingsOf fs)
  end
with exprsOf (xs : Plains) : list Expr :=
  match xs with
  | PNil => []
  | PCons x r => exprOf x :: exprsOf r
  end
with bindingsOf (fs : Fields) : list AttrBinding :=
  match fs with
  | FNil => []
  | FCons k x r => ([k], exprOf x) :: bindingsOf r
  end.

(** A bound on the fuel that reading a tree back takes. *)
Fixpoint weight (t : Plain) : nat :=
  match t with
  | PList xs => S (weights xs)
  | PAttrs fs => S (weightFields fs)
  | _ => 3
  end
with weights (xs : Plains) : nat :=
  match xs with
  | PNil => 3
  | PCons x r => S (weight x + weights r)
  end
with weightFields (fs : Fields) : nat :=
  match fs with
  | FNil => 3
  | FCons _ x r => S (weight x + weightFields r)
  end.

(** An identifier that is not a keyword. *)
Definition isName (k : string) : bool :=
  match k with
  | EmptyString => false
  | String c word =>
      isLetter c && forallc isWordChar word
      && lexer.eqb (LookupIdent k) TOKEN_IDENT
  end.

Definition isNegative (t : Plain) : bool :=
  match t with PInt i => (i <? 0)%Z | _ => false end.

Fixpoint keysOf (fs : Fields) : list string :=
  match fs with
  | FNil => []
  | FCons k _ r => k :: keysOf r
  end.

(** The key [k] is below the first key of [fs]. *)
Definition precedes (k : string) (fs : Fields) : bool :=
  match fs with
  | FNil => true
  | FCons k' _ _ => String.ltb k k'
  end.

(** The trees whose printed form is read back as the same tree: no
    least integer; no quote, backslash or NUL in a string; no negative
    integer in a list after its first element; the keys of a set are
    identifiers other than keywords, in ascending order. *)
Fixpoint readable (t : Plain) : bool :=
  match t with
  | PNull | PBool _ => true
  | PInt i => (strconv.minInt64 <? i)%Z && (i <=? strconv.maxInt64)%Z
  | PStr s => forallc isPlainChar s
  | PList PNil => true
  | PList (PCons x r) => readable x && readableTail r
  | PAttrs fs => readableFields fs
  end
with readableTail (xs : Plains) : bool :=
  match xs with
  | PNil => true
  | PCons x r => negb (isNegative x) && readable x && readableTail r
  end
with readableFields (fs : Fields) : bool :=
  match fs with
  | FNil => true
  | FCons k x r => isName k && precedes k r && readable x && readableFields r
  end.

Fixpoint readableAll (xs : Plains) : bool :=
  match xs with
  | PNil => true
  | PCons x r => readable x && readableAll r
  end.

Lemma readableTail_all xs : readableTail xs = true → readableAll xs = true.
Proof.
  induction xs as [|x r IH]; simpl; [done|].
  intros H. apply andb_prop in H as [H Hr]. apply andb_prop in H as [_ Hx].
  by rewrite Hx, IH.
Qed.

End Trees.

Section Lexing.
Import lexer.

(** [NextToken] reads the tokens [ts] one after the other. *)
Fixpoint LexSeg (lx : Lexer) (ts : list (TokenType * string)) (lx' : Lexer) : Prop :=
  match ts with
  | [] => lx' = lx
  | t :: r => ∃ l1, Reads lx t l1 ∧ LexSeg l1 r lx'
  end.

Lemma LexSeg_app lx a l1 b l2 :
  LexSeg lx a l1 → LexSeg l1 b l2 → LexSeg lx (a ++ b) l2.
Proof.
  revert lx. induction a as [|t a IH]; intros lx; simpl.
  - by intros ->.
  - intros (l0 & Hr & Ha) Hb. exists l0. split; [done|]. by apply IH.
Qed.

Lemma LexSeg_one lx t l1 : Reads lx t l1 → LexSeg lx [t] l1.
Proof. intros. by exists l1. Qed.

(** What follows a printed value: the end, a space or a semicolon. *)
Definition delimiter (c : ascii) : bool :=
  isWhitespace c || Ascii.eqb c NUL || Ascii.eqb c ";".

Lemma delimiter_word c : delimiter c = true → isWordChar c = false.
Proof. destruct c as [[] [] [] [] [] [] [] []]; vm_compute; congruence. Qed.

Lemma delimiter_digit c : delimiter c = true → isDigit c = false.
Proof. destruct c as [[] [] [] [] [] [] [] []]; vm_compute; congruence. Qed.

Lemma delimiter_dot c : delimiter c = true → Ascii.eqb c "." = false.
Proof. destruct c as [[] [] [] [] [] [] [] []]; vm_compute; congruence. Qed.

(** The decimal numerals. *)
Lemma digits_uint (d : Decimal.uint) :
  forallc isDigit (NilEmpty.string_of_uint d) = true.
Proof. induction d; simpl; try done. Qed.

Lemma digitsOfN_shape (n : N) :
  ∃ c ds, strconv.digitsOfN n = String c ds
          ∧ isDigit c = true ∧ forallc isDigit ds = true.
Proof.
  unfold strconv.digitsOfN, NilZero.string_of_uint.
  pose proof (digits_uint (N.to_uint n)) as H.
  destruct (N.to_uint n) eqn:E; simpl in *;
    first [ by exists "0"%char, ""
          | eexists _, _; split; [reflexivity|]; split; [reflexivity|exact H] ].
Qed.

(** The printed elements of a list, each after a space, and the printed
    fields of a set. *)
Fixpoint spaced (xs : Plains) : string :=
  match xs with
  | PNil => ""
  | PCons x r => " " ++ show x ++ spaced r
  end.

Fixpoint spacedFields (fs : Fields) : string :=
  match fs with
  | FNil => ""
  | FCons k x r => " " ++ k ++ " = " ++ show x ++ ";" ++ spacedFields r
  end.

Lemma join_spaced x r :
  " " ++ Bytes.join " " (shows (PCons x r)) = spaced (PCons x r).
Proof.
  revert x. induction r as [|y r IH]; intros x.
  - simpl. by snorm.
  - change (shows (PCons x (PCons y r))) with (show x :: shows (PCons y r)).
    change (Bytes.join " " (show x :: shows (PCons y r)))
      with (show x ++ " " ++ Bytes.join " " (shows (PCons y r))).
    rewrite IH. reflexivity.
Qed.

Lemma join_spacedFields k x r :
  " " ++ Bytes.join " " (showFields (FCons k x r)) = spacedFields (FCons k x r).
Proof.
  revert k x. induction r as [|k' y r IH]; intros k x.
  - simpl. by snorm.
  - change (showFields (FCons k x (FCons k' y r)))
      with ((k ++ " = " ++ show x ++ ";") :: showFields (FCons k' y r)).
    change (Bytes.join " " ((k ++ " = " ++ show x ++ ";") :: showFields (FCons k' y r)))
      with ((k ++ " = " ++ show x ++ ";") ++ " "
              ++ Bytes.join " " (showFields (FCons k' y r))).
    rewrite IH. simpl. by snorm.
Qed.

Lemma show_list xs :
  show (PList xs)
  = "[" ++ (match xs with PNil => " " | _ => spaced xs end) ++ " ]".
Proof.
  destruct xs as [|x r]; [reflexivity|].
  rewrite <- join_spaced. cbn [show]. by snorm.
Qed.

Lemma show_attrs fs :
  show (PAttrs fs) = "{" ++ spacedFields fs ++ " }".
Proof.
  destruct fs as [|k x r]; [reflexivity|].
  rewrite <- join_spacedFields. cbn [show]. by snorm.
Qed.

Lemma Sits_cast lx p s p' s' :
  Sits lx p s → p = p' → s = s' → Sits lx p' s'.
Proof. by intros ? <- <-. Qed.

Lemma first_spaced r s :
  first s = " "%char → first (spaced r ++ s) = " "%char.
Proof. by destruct r. Qed.

Lemma token_eqb_eq (a b : TokenType) : lexer.eqb a b = true → a = b.
Proof. destruct a, b; cbv; congruence. Qed.

Lemma lex_tree :
  (∀ t, readable t = true → ∀ lx pre w s,
     Sits lx pre (w ++ show t ++ s) → isSpaces w = true →
     delimiter (first s) = true →
     ∃ lx', LexSeg lx (toks t) lx' ∧ Sits lx' (pre ++ w ++ show t) s)
  ∧ (∀ xs, readableAll xs = true → ∀ lx pre s,
       Sits lx pre (spaced xs ++ s) → first s = " "%char →
       ∃ lx', LexSeg lx (toksList xs) lx' ∧ Sits lx' (pre ++ spaced xs) s)
  ∧ (∀ fs, readableFields fs = true → ∀ lx pre s,
       Sits lx pre (spacedFields fs ++ s) → first s = " "%char →
       ∃ lx', LexSeg lx (toksFields fs) lx' ∧ Sits lx' (pre ++ spacedFields fs) s).
Proof.
  apply Plain_mutind.
  - (* null *)
    intros _ lx pre w s Hs Hw Hd.
    destruct (Reads_word lx pre w "n" "ull" s Hs Hw eq_refl eq_refl
                (delimiter_word _ Hd)) as (lx' & Hr & Hs').
    exists lx'. split; [by apply LexSeg_one|done].
  - (* booleans *)
    intros [] _ lx pre w s Hs Hw Hd.
    + destruct (Reads_word lx pre w "t" "rue" s Hs Hw eq_refl eq_refl
                  (delimiter_word _ Hd)) as (lx' & Hr & Hs').
      exists lx'. split; [by apply LexSeg_one|done].
    + destruct (Reads_word lx pre w "f" "alse" s Hs Hw eq_refl eq_refl
                  (delimiter_word _ Hd)) as (lx' & Hr & Hs').
      exists lx'. split; [by apply LexSeg_one|done].
  - (* integers *)
    intros i _ lx pre w s Hs Hw Hd.
    cbn [show toks] in *. unfold strconv.FormatInt, intTokens in *.
    destruct (i <? 0)%Z.
    + destruct (digitsOfN_shape (Z.to_N (- i))) as (c & ds & E & Hc & Hds).
      rewrite E in *.
      destruct (Reads_minus lx pre w (String c ds ++ s) Hs Hw Hc)
        as (l1 & Hr1 & Hs1).
      destruct (Reads_int l1 (pre ++ w ++ "-") "" c ds s Hs1 eq_refl Hc Hds
                  (delimiter_digit _ Hd) (delimiter_dot _ Hd))
        as (l2 & Hr2 & Hs2).
      exists l2. split.
      * exists l1. split; [done|]. by apply LexSeg_one.
      * eapply Sits_cast; [exact Hs2|by snorm|done].
    + destruct (digitsOfN_shape (Z.to_N i)) as (c & ds & E & Hc & Hds).
      rewrite E in *.
      destruct (Reads_int lx pre w c ds s Hs Hw Hc Hds
                  (delimiter_digit _ Hd) (delimiter_dot _ Hd))
        as (l2 & Hr2 & Hs2).
      exists l2. split; [by apply LexSeg_one|done].
  - (* strings *)
    intros body Hb lx pre w s Hs Hw Hd. cbn [show toks readable] in *.
    destruct (Reads_string lx pre w body s Hs Hw Hb) as (l2 & Hr2 & Hs2).
    exists l2. split; [by apply LexSeg_one|done].
  - (* lists *)
    intros xs IH Hxs lx pre w s Hs Hw Hd.
    rewrite show_list in *. cbn [toks].
    assert (Hs0 : Sits lx pre
                    (w ++ String "[" ((match xs with PNil => " " | _ => spaced xs end)
                                        ++ " ]" ++ s))).
    { eapply Sits_cast; [exact Hs|done|by snorm]. }
    destruct (Reads_single lx pre w "[" _ _ Hs0 Hw eq_refl) as (l1 & Hr1 & Hs1).
    destruct xs as [|x r].
    + destruct (Reads_single l1 (pre ++ w ++ "[") "  " "]" s _
                  ltac:(eapply Sits_cast; [exact Hs1|done|by snorm])
                  eq_refl eq_refl) as (l2 & Hr2 & Hs2).
      exists l2. split.
      * exists l1. split; [done|]. by apply LexSeg_one.
      * eapply Sits_cast; [exact Hs2|by snorm|done].
    + assert (Hall : readableAll (PCons x r) = true).
      { cbn [readable] in Hxs. apply andb_prop in Hxs as [Hx Hr].
        simpl. by rewrite Hx, readableTail_all. }
      destruct (IH Hall l1 (pre ++ w ++ "[") (" ]" ++ s) Hs1 eq_refl)
        as (l2 & Hseg & Hs2).
      destruct (Reads_single l2 ((pre ++ w ++ "[") ++ spaced (PCons x r))
                  " " "]" s _
                  ltac:(eapply Sits_cast; [exact Hs2|done|by snorm])
                  eq_refl eq_refl) as (l3 & Hr3 & Hs3).
      exists l3. split.
      * exists l1. split; [done|].
        eapply LexSeg_app; [exact Hseg|by apply LexSeg_one].
      * eapply Sits_cast; [exact Hs3|by snorm|done].
  - (* attribute sets *)
    intros fs IH Hfs lx pre w s Hs Hw Hd.
    rewrite show_attrs in *. cbn [toks].
    assert (Hs0 : Sits lx pre (w ++ String "{" (spacedFields fs ++ " }" ++ s))).
    { eapply Sits_cast; [exact Hs|done|by snorm]. }
    destruct (Reads_single lx pre w "{" _ _ Hs0 Hw eq_refl) as (l1 & Hr1 & Hs1).
    destruct (IH Hfs l1 (pre ++ w ++ "{") (" }" ++ s) Hs1 eq_refl)
      as (l2 & Hseg & Hs2).
    destruct (Reads_single l2 ((pre ++ w ++ "{") ++ spacedFields fs)
                " " "}" s _
                ltac:(eapply Sits_cast; [exact Hs2|done|by snorm])
                eq_refl eq_refl) as (l3 & Hr3 & Hs3).
    exists l3. split.
    + exists l1. split; [done|].
      eapply LexSeg_app; [exact Hseg|by apply LexSeg_one].
    + eapply Sits_cast; [exact Hs3|by snorm|done].
  - (* no element *)
    intros _ lx pre s Hs _. exists lx. split; [done|].
    eapply Sits_cast; [exact Hs|by snorm|done].
  - (* an element *)
    intros x IHx r IHr Hxr lx pre s Hs Hsp.
    cbn [readableAll] in Hxr. apply andb_prop in Hxr as [Hx Hr].
    cbn [spaced toksList] in *.
    assert (Hd : delimiter (first (spaced r ++ s)) = true).
    { by rewrite first_spaced. }
    destruct (IHx Hx lx pre " " (spaced r ++ s)
                ltac:(eapply Sits_cast; [exact Hs|done|by snorm]) eq_refl Hd)
      as (l1 & Hseg1 & Hs1).
    destruct (IHr Hr l1 (pre ++ " " ++ show x) s Hs1 Hsp) as (l2 & Hseg2 & Hs2).
    exists l2. split; [by eapply LexSeg_app|].
    eapply Sits_cast; [exact Hs2|by snorm|done].
  - (* no field *)
    intros _ lx pre s Hs _. exists lx. split; [done|].
    eapply Sits_cast; [exact Hs|by snorm|done].
  - (* a field *)
    intros k x IHx r IHr Hf lx pre s Hs Hsp.
    cbn [readableFields] in Hf.
    apply andb_prop in Hf as [Hf Hr]. apply andb_prop in Hf as [Hf Hx].
    apply andb_prop in Hf as [Hk _].
    destruct k as [|c word]; [done|]. cbn [isName] in Hk.
    apply andb_prop in Hk as [Hk Hid]. apply andb_prop in Hk as [Hc Hword].
    apply token_eqb_eq in Hid.
    cbn [spacedFields toksFields] in *.
    destruct (Reads_word lx pre " " c word
                (" = " ++ show x ++ ";" ++ spacedFields r ++ s)
                ltac:(eapply Sits_cast; [exact Hs|done|by snorm])
                eq_refl Hc Hword eq_refl) as (l1 & Hr1 & Hs1).
    rewrite Hid in Hr1.
    destruct (Reads_assign l1 (pre ++ " " ++ String c word) " "
                (" " ++ show x ++ ";" ++ spacedFields r ++ s)
                ltac:(eapply Sits_cast; [exact Hs1|done|by snorm])
                eq_refl eq_refl) as (l2 & Hr2 & Hs2).
    destruct (IHx Hx l2 ((pre ++ " " ++ String c word) ++ " " ++ "=") " "
                (";" ++ spacedFields r ++ s)
                ltac:(eapply Sits_cast; [exact Hs2|done|by snorm])
                eq_refl eq_refl) as (l3 & Hseg3 & Hs3).
    destruct (Reads_single l3 (((pre ++ " " ++ String c word) ++ " " ++ "=")
                                 ++ " " ++ show x) "" ";"
                (spacedFields r ++ s) _
                ltac:(eapply Sits_cast; [exact Hs3|done|by snorm])
                eq_refl eq_refl) as (l4 & Hr4 & Hs4).
    destruct (IHr Hr l4 _ s Hs4 Hsp) as (l5 & Hseg5 & Hs5).
    exists l5. split.
    + exists l1. split; [done|]. exists l2. split; [done|].
      eapply LexSeg_app; [exact Hseg3|].
      exists l4. split; [done|]. exact Hseg5.
    + eapply Sits_cast; [exact Hs5|by snorm|done].
Qed.

End Lexing.

Section Parsing.
Import lexer types parser.

(** The lexer has the tokens [ts] before it. *)
Fixpoint Lexes (lx : Lexer) (ts : list (TokenType * string)) : Prop :=
  match ts with
  | [] => True
  | t :: r => ∃ l1, Reads lx t l1 ∧ Lexes l1 r
  end.

Lemma LexSeg_Lexes lx a l1 b : LexSeg lx a l1 → Lexes l1 b → Lexes lx (a ++ b).
Proof.
  revert lx. induction a as [|t a IH]; intros lx; simpl.
  - by intros ->.
  - intros (l0 & Hr & Ha) Hb. exists l0. split; [done|]. by apply IH.
Qed.

(** The parser has the tokens [ts] before it, the current one first. *)
Definition Feeds (p : Parser) (ts : list (TokenType * string)) : Prop :=
  match ts with
  | t0 :: t1 :: r => tok (cur p) = t0 ∧ tok (peek p) = t1 ∧ Lexes (l p) r
  | _ => False
  end.

Lemma Feeds_cur p ty lit ts :
  Feeds p ((ty, lit) :: ts) → Type_ (cur p) = ty ∧ Literal (cur p) = lit.
Proof.
  destruct ts as [|t1 r]; [done|]. intros (H & _). unfold tok in H.
  by injection H.
Qed.

Lemma Feeds_peek p t0 ty lit ts :
  Feeds p (t0 :: (ty, lit) :: ts) → Type_ (peek p) = ty ∧ Literal (peek p) = lit.
Proof. intros (_ & H & _). unfold tok in H. by injection H. Qed.

Lemma advance_feeds p t0 t1 t2 r :
  Feeds p (t0 :: t1 :: t2 :: r) →
  ∃ p', advance p = Done (tt, p') ∧ errors p' = errors p
        ∧ Feeds p' (t1 :: t2 :: r).
Proof.
  intros (H0 & H1 & (l1 & (tk & Hn & Htk) & Hr)).
  unfold advance. rewrite Hn. eexists. split; [reflexivity|]. by repeat split.
Qed.

(** The token types after which the infix loop of [parseExpression] at
    the precedence [prec] returns what it has. *)
Definition ends (prec : nat) (ty : TokenType) : bool :=
  match ty with
  | TOKEN_EOF | TOKEN_SEMICOLON | TOKEN_RBRACKET => true
  | TOKEN_INT | TOKEN_STRING | TOKEN_IDENT | TOKEN_LBRACKET | TOKEN_LBRACE =>
      (precedenceCall <=? prec)%nat
  | _ => false
  end.

Lemma ends_call prec ty : ends prec ty = true → ends precedenceCall ty = true.
Proof. by destruct ty. Qed.

(** Symbolic execution of the parser's monadic code on a parser whose
    tokens are known. *)
Ltac pstep :=
  cbv beta iota zeta delta
    [parser.bind parser.get parser.ret curIs peekIs peekPrecedence curPrecedence
     expectPeek couldBeArgument startsArgument isInfixOperator precedenceMap isNil
     parser.l cur peek errors Type_ Literal Line Column
     lexer.eqb lexer.code Nat.eqb Nat.leb andb orb negb
     default from_option precedenceLowest].

Lemma infix_ends pe fuel n prec prefix p :
  ends prec (Type_ (peek p)) = true →
  parseInfixLoop pe fuel (S n) prec prefix p = Done (prefix, p).
Proof.
  intros He. cbn [parseInfixLoop].
  destruct p as [lx c [ty lit ln col] errs]. cbn [peek Type_] in He.
  destruct ty; try discriminate He; pstep; try reflexivity.
  all: cbn [ends] in He; apply Nat.leb_le in He.
  all: rewrite ?(proj2 (Nat.ltb_ge _ _) He); try reflexivity.
Qed.

Tactic Notation "expose" constr(p) "as" ident(cty) ident(pty) :=
  destruct p as [? [cty ? ? ?] [pty ? ? ?] ?];
  cbn [cur peek parser.l errors Type_ Literal] in *.
Tactic Notation "expose" constr(p) :=
  let cty := fresh "cty" in let pty := fresh "pty" in expose p as cty pty.

Lemma parseExpression_S n prec :
  parseExpression (S n) prec = parseExpressionBody (parseExpression n) n prec.
Proof. reflexivity. Qed.

Section Steps.
Variable pe : nat → P Expr.
Variables fuel prec : nat.

(** The identifiers that the parser reads as literals. *)
Definition literalOf (lit : string) : option Expr :=
  if String.eqb lit "true" then Some (BoolExpr true)
  else if String.eqb lit "false" then Some (BoolExpr false)
  else if String.eqb lit "null" then Some NullExpr
  else None.

Lemma step_literal p e :
  Type_ (cur p) = TOKEN_IDENT → literalOf (Literal (cur p)) = Some e →
  ends prec (Type_ (peek p)) = true →
  parseExpressionBody pe (S fuel) prec p = Done (e, p).
Proof.
  intros Hty Hlit He. unfold literalOf in Hlit.
  unfold parseExpressionBody, parsePrefixExpression, parseIdentifierOrFunction.
  pose proof (infix_ends pe (S fuel) fuel prec) as Hi.
  expose p; subst; pstep.
  repeat match type of Hlit with
         | (if ?c then _ else _) = _ => destruct c
         end; try discriminate Hlit; injection Hlit as <-; pstep; by apply Hi.
Qed.

Lemma step_string p :
  Type_ (cur p) = TOKEN_STRING →
  ends prec (Type_ (peek p)) = true →
  parseExpressionBody pe (S fuel) prec p = Done (StringExpr (Literal (cur p)), p).
Proof.
  intros Hty He. unfold parseExpressionBody, parsePrefixExpression, parseString.
  pose proof (infix_ends pe (S fuel) fuel prec) as Hi.
  expose p; subst; pstep. by apply Hi.
Qed.

Lemma step_int p z :
  Type_ (cur p) = TOKEN_INT →
  strconv.ParseInt (Literal (cur p)) = Some z →
  ends prec (Type_ (peek p)) = true →
  parseExpressionBody pe (S fuel) prec p = Done (IntExpr z, p).
Proof.
  intros Hty Hz He. unfold parseExpressionBody, parsePrefixExpression, parseInt.
  pose proof (infix_ends pe (S fuel) fuel prec) as Hi.
  expose p; subst; pstep. rewrite Hz. pstep. by apply Hi.
Qed.

Lemma step_neg p p1 p2 e :
  Type_ (cur p) = TOKEN_MINUS →
  advance p = Done (tt, p1) →
  pe precedenceCall p1 = Done (e, p2) →
  ends prec (Type_ (peek p2)) = true →
  parseExpressionBody pe (S fuel) prec p = Done (UnaryExpr OpNeg e, p2).
Proof.
  intros Hty Ha He Hend. unfold parseExpressionBody, parsePrefixExpression, parseUnary.
  pose proof (infix_ends pe (S fuel) fuel prec) as Hi.
  expose p; subst; pstep. rewrite Ha. pstep. rewrite He. pstep. by apply Hi.
Qed.

Lemma step_list_empty p p1 :
  Type_ (cur p) = TOKEN_LBRACKET →
  advance p = Done (tt, p1) →
  Type_ (cur p1) = TOKEN_RBRACKET →
  ends prec (Type_ (peek p1)) = true →
  parseExpressionBody pe (S fuel) prec p = Done (ListExpr [], p1).
Proof.
  intros Hty Ha Hc Hend. unfold parseExpressionBody, parsePrefixExpression, parseList.
  pose proof (infix_ends pe (S fuel) fuel prec) as Hi.
  expose p; subst; pstep. rewrite Ha. expose p1; subst; pstep. by apply Hi.
Qed.

(** The token types with which a printed value that is not a negative
    number starts. *)
Definition opens (ty : TokenType) : bool :=
  match ty with
  | TOKEN_INT | TOKEN_STRING | TOKEN_IDENT | TOKEN_LBRACKET | TOKEN_LBRACE => true
  | _ => false
  end.

Lemma step_list p p1 p2 p3 p4 e1 es :
  Type_ (cur p) = TOKEN_LBRACKET →
  advance p = Done (tt, p1) →
  (opens (Type_ (cur p1)) = true ∨ Type_ (cur p1) = TOKEN_MINUS) →
  pe (precedenceCall + 1)%nat p1 = Done (e1, p2) →
  parseListLoop pe (S fuel) [e1] p2 = Done (es, p3) →
  Type_ (peek p3) = TOKEN_RBRACKET →
  advance p3 = Done (tt, p4) →
  ends prec (Type_ (peek p4)) = true →
  parseExpressionBody pe (S fuel) prec p = Done (ListExpr es, p4).
Proof.
  intros Hty Ha Hc He1 Hloop Hpk Ha3 Hend.
  unfold parseExpressionBody, parsePrefixExpression, parseList.
  pose proof (infix_ends pe (S fuel) fuel prec) as Hi.
  expose p; expose p1 as cty1 pty1; expose p3; subst.
  destruct Hc as [Hc | ->]; [destruct cty1; try discriminate Hc|].
  all: pstep; rewrite Ha; pstep; rewrite He1; pstep; rewrite Hloop; pstep;
       rewrite Ha3; pstep; by apply Hi.
Qed.

Lemma step_listLoop_stop p acc k :
  Type_ (peek p) = TOKEN_RBRACKET →
  parseListLoop pe (S k) acc p = Done (acc, p).
Proof. intros Hpk. cbn [parseListLoop]. expose p; subst. by pstep. Qed.

Lemma step_listLoop p p1 p2 e acc k :
  opens (Type_ (peek p)) = true →
  advance p = Done (tt, p1) →
  opens (Type_ (cur p1)) = true →
  pe (precedenceCall + 1)%nat p1 = Done (e, p2) →
  parseListLoop pe (S k) acc p = parseListLoop pe k (acc ++ [e]) p2.
Proof.
  intros Hpk Ha Hc He. cbn [parseListLoop].
  expose p as cty pty; expose p1 as cty1 pty1.
  destruct pty; try discriminate Hpk.
  all: destruct cty1; try discriminate Hc.
  all: pstep; rewrite Ha; pstep; rewrite He; reflexivity.
Qed.

Lemma step_attrs_empty p p1 :
  Type_ (cur p) = TOKEN_LBRACE →
  advance p = Done (tt, p1) →
  Type_ (cur p1) = TOKEN_RBRACE →
  ends prec (Type_ (peek p1)) = true →
  parseExpressionBody pe (S fuel) prec p = Done (AttrSetExpr false [], p1).
Proof.
  intros Hty Ha Hc Hend.
  unfold parseExpressionBody, parsePrefixExpression, parseAttrSet.
  pose proof (infix_ends pe (S fuel) fuel prec) as Hi.
  expose p; expose p1; subst. pstep. rewrite Ha. pstep. by apply Hi.
Qed.

Lemma step_attrs p p1 p2 bs :
  Type_ (cur p) = TOKEN_LBRACE →
  advance p = Done (tt, p1) →
  Type_ (cur p1) = TOKEN_IDENT →
  parseAttrSetLoop pe (S fuel) (S fuel) [] p1 = Done (bs, p2) →
  Type_ (cur p2) = TOKEN_RBRACE →
  ends prec (Type_ (peek p2)) = true →
  parseExpressionBody pe (S fuel) prec p = Done (AttrSetExpr false bs, p2).
Proof.
  intros Hty Ha Hc Hloop Hc2 Hend.
  unfold parseExpressionBody, parsePrefixExpression, parseAttrSet.
  pose proof (infix_ends pe (S fuel) fuel prec) as Hi.
  expose p; expose p1; expose p2; subst.
  pstep. rewrite Ha. pstep. rewrite Hloop. pstep. by apply Hi.
Qed.

Lemma step_attrLoop_stop p acc k :
  Type_ (cur p) = TOKEN_RBRACE →
  parseAttrSetLoop pe fuel (S k) acc p = Done (acc, p).
Proof. intros Hc. cbn [parseAttrSetLoop]. expose p; subst. by pstep. Qed.

Lemma step_attrLoop p p1 p2 p3 p4 p5 e acc k :
  Type_ (cur p) = TOKEN_IDENT →
  Type_ (peek p) = TOKEN_ASSIGN →
  advance p = Done (tt, p1) →
  advance p1 = Done (tt, p2) →
  pe precedenceLowest p2 = Done (e, p3) →
  Type_ (peek p3) = TOKEN_SEMICOLON →
  advance p3 = Done (tt, p4) →
  advance p4 = Done (tt, p5) →
  parseAttrSetLoop pe (S fuel) (S k) acc p
  = if lexer.eqb (Type_ (cur p5)) TOKEN_RBRACE
    then Done ((acc ++ [([Literal (cur p)], e)])%list, p5)
    else parseAttrSetLoop pe (S fuel) k (acc ++ [([Literal (cur p)], e)])%list p5.
Proof.
  intros Hc Hpk Ha Ha1 He Hpk3 Ha3 Ha4.
  cbn [parseAttrSetLoop]. unfold parseBinding, parseAttrPath.
  cbn [parseAttrPathLoop]. unfold precedenceLowest in He.
  expose p; expose p3; subst.
  pstep. rewrite Ha. pstep. rewrite Ha1. pstep.
  rewrite He. pstep. rewrite Ha3. pstep. rewrite Ha4. pstep.
  expose p5 as cty5 pty5. pstep. by destruct cty5.
Qed.

End Steps.

Lemma Feeds_advance p t0 ts :
  Feeds p (t0 :: ts) → (2 ≤ length ts)%nat →
  ∃ p', advance p = Done (tt, p') ∧ errors p' = errors p ∧ Feeds p' ts.
Proof.
  destruct ts as [|t1 [|t2 r]]; simpl; try lia. intros H _.
  by apply advance_feeds in H.
Qed.

(** [ParseInt] reads the decimal numeral of [n] as [n]. *)
Lemma forallb_forallc f s :
  forallb f (list_ascii_of_string s) = forallc f s.
Proof. induction s as [|c s IH]; simpl; congruence. Qed.

Lemma ParseInt_digits (n : N) :
  (Z.of_N n <= strconv.maxInt64)%Z →
  strconv.ParseInt (strconv.digitsOfN n) = Some (Z.of_N n).
Proof.
  intros Hmax.
  destruct (digitsOfN_shape n) as (c & ds & E & Hc & Hds).
  assert (Hnat : strconv.natOfDigits (strconv.digitsOfN n) = Some n).
  { unfold strconv.natOfDigits, strconv.allDigits.
    rewrite forallb_forallc. rewrite E at 1 2. simpl. rewrite Hc, Hds. simpl.
    unfold strconv.digitsOfN. rewrite NilZero.usu.
    - simpl. by rewrite DecimalN.Unsigned.of_to.
    - destruct n as [|q]; [done|]. apply DecimalPos.Unsigned.to_uint_nonnil. }
  unfold strconv.ParseInt.
  assert (Hsplit : (match strconv.digitsOfN n with
                    | String "-" r => (true, r)
                    | String "+" r => (false, r)
                    | _ => (false, strconv.digitsOfN n)
                    end) = (false, strconv.digitsOfN n)).
  { rewrite E. clear -Hc.
    destruct c as [[] [] [] [] [] [] [] []]; try discriminate Hc; reflexivity. }
  rewrite Hsplit, Hnat. simpl.
  assert (strconv.minInt64 <= Z.of_N n)%Z by (unfold strconv.minInt64; lia).
  rewrite (proj2 (Z.leb_le _ _)) by done.
  rewrite (proj2 (Z.leb_le _ _)) by done. done.
Qed.

Lemma toks_head t :
  ∃ ty lit more, toks t = (ty, lit) :: more
                 ∧ if isNegative t then ty = TOKEN_MINUS else opens ty = true.
Proof.
  destruct t as [|b|i|s0|xs|fs]; cbn [toks isNegative]; try by eexists _, _, _.
  unfold intTokens. destruct (i <? 0)%Z; by eexists _, _, _.
Qed.

Lemma opens_ends ty : opens ty = true → ends (precedenceCall + 1) ty = true.
Proof. by destruct ty. Qed.

Lemma toksList_next r f rest :
  readableTail r = true →
  ∃ ty lit more,
    (toksList r ++ (TOKEN_RBRACKET, "]") :: f :: rest)%list = (ty, lit) :: more
    ∧ ends (precedenceCall + 1) ty = true
    ∧ (if ty is TOKEN_RBRACKET then True else opens ty = true)
    ∧ (1 ≤ length more)%nat.
Proof.
  destruct r as [|y r]; intros Hr.
  - exists TOKEN_RBRACKET, "]", (f :: rest). repeat split; simpl; lia.
  - cbn [readableTail] in Hr. apply andb_prop in Hr as [Hr _].
    apply andb_prop in Hr as [Hy _]. apply negb_true_iff in Hy.
    destruct (toks_head y) as (ty & lit & more & E & Hty). rewrite Hy in Hty.
    cbn [toksList]. rewrite E. eexists _, _, _. split; [reflexivity|].
    split; [by apply opens_ends|]. split; [by destruct ty|].
    rewrite !length_app. simpl. lia.
Qed.

Lemma toksFields_next r f rest :
  ∃ t0 t1 more,
    (toksFields r ++ (TOKEN_RBRACE, "}") :: f :: rest)%list = t0 :: t1 :: more
    ∧ (t0.1 = TOKEN_RBRACE ∧ r = FNil ∨ t0.1 = TOKEN_IDENT ∧ r ≠ FNil).
Proof.
  destruct r as [|k y r].
  - eexists _, _, _. split; [reflexivity|]. by left.
  - eexists _, _, _. split; [reflexivity|]. by right.
Qed.

Lemma weightFields_min fs : (3 ≤ weightFields fs)%nat.
Proof. induction fs; simpl; lia. Qed.

Lemma weights_min xs : (3 ≤ weights xs)%nat.
Proof. induction xs; simpl; lia. Qed.

(** What the parser does on the tokens of a readable tree, on those of
    the elements of a list after the first, and on those of the fields
    of a set. *)
Definition ParsesTree (t : Plain) : Prop :=
  readable t = true → ∀ n prec p f rest,
    (weight t ≤ n)%nat → Feeds p (toks t ++ f :: rest) →
    ends prec f.1 = true →
    ∃ p' tl, parseExpression n prec p = Done (exprOf t, p')
             ∧ errors p' = errors p ∧ Feeds p' (tl :: f :: rest).

Definition ParsesTail (xs : Plains) : Prop :=
  readableTail xs = true → ∀ m k acc p tl f rest,
    (weights xs ≤ m)%nat → (weights xs ≤ k)%nat →
    Feeds p (tl :: toksList xs ++ (TOKEN_RBRACKET, "]") :: f :: rest) →
    ∃ p' tl', parseListLoop (parseExpression m) k acc p
              = Done ((acc ++ exprsOf xs)%list, p')
              ∧ errors p' = errors p
              ∧ Feeds p' (tl' :: (TOKEN_RBRACKET, "]") :: f :: rest).

Definition ParsesFields (fs : Fields) : Prop :=
  readableFields fs = true → ∀ m fuel k acc p f rest,
    (weightFields fs ≤ m)%nat → (weightFields fs ≤ k)%nat →
    Feeds p (toksFields fs ++ (TOKEN_RBRACE, "}") :: f :: rest) →
    ∃ p', parseAttrSetLoop (parseExpression m) (S fuel) k acc p
          = Done ((acc ++ bindingsOf fs)%list, p')
          ∧ errors p' = errors p
          ∧ Feeds p' ((TOKEN_RBRACE, "}") :: f :: rest).

Lemma parse_tree :
  (∀ t, ParsesTree t)
  ∧ (∀ xs, ParsesTail xs
           ∧ match xs with
             | PNil => True
             | PCons x r => ParsesTree x ∧ ParsesTail r
             end)
  ∧ (∀ fs, ParsesFields fs).
Proof.
  apply Plain_mutind.
  - (* null *)
    intros _ n prec p [fty flit] rest Hn Hf He. cbn [weight toks exprOf] in *.
    destruct n as [|[|n]]; [lia..|]. rewrite parseExpression_S.
    destruct (Feeds_cur _ _ _ _ Hf) as [Hty Hlit].
    destruct (Feeds_peek _ _ _ _ _ Hf) as [Hpty _].
    exists p, (TOKEN_IDENT, "null"). split; [|done].
    apply step_literal; [done|by rewrite Hlit|by rewrite Hpty].
  - (* booleans *)
    intros b _ n prec p [fty flit] rest Hn Hf He. cbn [weight toks exprOf] in *.
    destruct n as [|[|n]]; [lia..|]. rewrite parseExpression_S.
    destruct (Feeds_cur _ _ _ _ Hf) as [Hty Hlit].
    destruct (Feeds_peek _ _ _ _ _ Hf) as [Hpty _].
    exists p, (TOKEN_IDENT, if b then "true" else "false"). split; [|done].
    apply step_literal; [done|rewrite Hlit; by destruct b|by rewrite Hpty].
  - (* integers *)
    intros i Hi n prec p [fty flit] rest Hn Hf He.
    cbn [weight toks exprOf readable] in *.
    apply andb_prop in Hi as [Hmin Hmax].
    apply Z.ltb_lt in Hmin. apply Z.leb_le in Hmax.
    unfold intTokens, intExpr in *.
    destruct n as [|[|[|n]]]; [lia..|].
    destruct (Z.ltb_spec i 0) as [Hneg|Hpos].
    + destruct (Feeds_cur _ _ _ _ Hf) as [Hty _].
      destruct (Feeds_advance _ _ _ Hf ltac:(simpl; lia))
        as (p1 & Ha & Herr & Hf1).
      destruct (Feeds_cur _ _ _ _ Hf1) as [Hty1 Hlit1].
      destruct (Feeds_peek _ _ _ _ _ Hf1) as [Hpty1 _].
      exists p1, (TOKEN_INT, strconv.digitsOfN (Z.to_N (- i))).
      split; [|done].
      rewrite parseExpression_S.
      eapply step_neg; [done|exact Ha| |by rewrite Hpty1].
      rewrite parseExpression_S.
      apply step_int; [done| |rewrite Hpty1; by eapply ends_call].
      rewrite Hlit1, ParseInt_digits.
      * f_equal. lia.
      * unfold strconv.minInt64, strconv.maxInt64 in *. lia.
    + destruct (Feeds_cur _ _ _ _ Hf) as [Hty Hlit].
      destruct (Feeds_peek _ _ _ _ _ Hf) as [Hpty _].
      exists p, (TOKEN_INT, strconv.digitsOfN (Z.to_N i)). split; [|done].
      rewrite parseExpression_S.
      apply step_int; [done| |by rewrite Hpty].
      rewrite Hlit, ParseInt_digits.
      * f_equal. lia.
      * lia.
  - (* strings *)
    intros s0 _ n prec p [fty flit] rest Hn Hf He. cbn [weight toks exprOf] in *.
    destruct n as [|[|n]]; [lia..|]. rewrite parseExpression_S.
    destruct (Feeds_cur _ _ _ _ Hf) as [Hty Hlit].
    destruct (Feeds_peek _ _ _ _ _ Hf) as [Hpty _].
    exists p, (TOKEN_STRING, s0). split; [|done].
    rewrite <- Hlit. apply step_string; [done|by rewrite Hpty].
  - (* lists *)
    intros xs [_ IH] Hxs n prec p [fty flit] rest Hn Hf He.
    cbn [weight toks exprOf] in *.
    destruct n as [|n]; [lia|]. apply le_S_n in Hn.
    rewrite parseExpression_S.
    destruct (Feeds_cur _ _ _ _ Hf) as [Hty _].
    destruct xs as [|x r].
    + cbn [toksList weights] in *.
      destruct n as [|n]; [lia|].
      destruct (Feeds_advance _ _ _ Hf ltac:(simpl; lia))
        as (p1 & Ha & Herr & Hf1).
      destruct (Feeds_cur _ _ _ _ Hf1) as [Hty1 _].
      destruct (Feeds_peek _ _ _ _ _ Hf1) as [Hpty1 _].
      exists p1, (TOKEN_RBRACKET, "]"). split; [|done].
      eapply step_list_empty; [done|exact Ha|done|by rewrite Hpty1].
    + destruct IH as [IHx IHr].
      cbn [readable] in Hxs. apply andb_prop in Hxs as [Hx Hr].
      cbn [toksList weights exprsOf] in *.
      destruct n as [|n]; [lia|].
      destruct (toks_head x) as (ty & lit & more & E & Hhead).
      destruct (toksList_next r (fty, flit) rest Hr)
        as (nty & nlit & nmore & En & Hnends & _ & Hnlen).
      assert (Hf0 : Feeds p ((TOKEN_LBRACKET, "[")
                               :: (toks x ++ (nty, nlit) :: nmore)%list)).
      { rewrite <- En. revert Hf. simpl. by rewrite <- !app_assoc. }
      destruct (Feeds_advance _ _ _ Hf0
                  ltac:(rewrite E; simpl; rewrite length_app; simpl; lia))
        as (p1 & Ha & Herr1 & Hf1).
      assert (Hc1 : opens (Type_ (cur p1)) = true ∨ Type_ (cur p1) = TOKEN_MINUS).
      { rewrite E in Hf1. destruct (Feeds_cur _ _ _ _ Hf1) as [-> _].
        destruct (isNegative x); [by right|by left]. }
      destruct (IHx Hx (S n) (precedenceCall + 1)%nat p1 (nty, nlit) nmore
                  ltac:(lia) Hf1 Hnends) as (p2 & tl2 & Hp2 & Herr2 & Hf2).
      rewrite <- En in Hf2.
      destruct (IHr Hr (S n) (S n) [exprOf x] p2 tl2 (fty, flit) rest
                  ltac:(lia) ltac:(lia) Hf2) as (p3 & tl3 & Hp3 & Herr3 & Hf3).
      destruct (Feeds_peek _ _ _ _ _ Hf3) as [Hpk3 _].
      destruct (Feeds_advance _ _ _ Hf3 ltac:(simpl; lia))
        as (p4 & Ha4 & Herr4 & Hf4).
      destruct (Feeds_peek _ _ _ _ _ Hf4) as [Hpk4 _].
      exists p4, (TOKEN_RBRACKET, "]"). split; [|split; [congruence|done]].
      eapply step_list; [done|exact Ha|exact Hc1|exact Hp2|exact Hp3|done
                         |exact Ha4|by rewrite Hpk4].
  - (* attribute sets *)
    intros fs IH Hfs n prec p [fty flit] rest Hn Hf He.
    cbn [weight toks exprOf readable] in *.
    destruct n as [|n]; [lia|]. apply le_S_n in Hn.
    rewrite parseExpression_S.
    destruct (Feeds_cur _ _ _ _ Hf) as [Hty _].
    assert (Hf0 : Feeds p ((TOKEN_LBRACE, "{")
                    :: (toksFields fs ++ (TOKEN_RBRACE, "}") :: (fty, flit) :: rest)%list)).
    { revert Hf. simpl. by rewrite <- !app_assoc. }
    destruct (toksFields_next fs (fty, flit) rest) as (t0 & t1 & more & En & Hcase).
    destruct (Feeds_advance _ _ _ Hf0 ltac:(rewrite En; simpl; lia))
      as (p1 & Ha & Herr1 & Hf1).
    assert (Hn3 : (3 ≤ n)%nat) by (pose proof (weightFields_min fs); lia).
    destruct n as [|n]; [lia|].
    destruct Hcase as [[Ht0 ->]|[Ht0 Hne]].
    + cbn [toksFields bindingsOf] in *.
      change (Feeds p1 ((TOKEN_RBRACE, "}") :: (fty, flit) :: rest)) in Hf1.
      destruct (Feeds_cur _ _ _ _ Hf1) as [Hty1 _].
      destruct (Feeds_peek _ _ _ _ _ Hf1) as [Hpty1 _].
      exists p1, (TOKEN_RBRACE, "}"). split; [|done].
      eapply step_attrs_empty; [done|exact Ha|done|by rewrite Hpty1].
    + destruct (IH Hfs (S n) n (S n) [] p1 (fty, flit) rest
                  ltac:(lia) ltac:(lia) Hf1) as (p2 & Hp2 & Herr2 & Hf2).
      destruct (Feeds_cur _ _ _ _ Hf2) as [Hty2 _].
      destruct (Feeds_peek _ _ _ _ _ Hf2) as [Hpty2 _].
      exists p2, (TOKEN_RBRACE, "}"). split; [|split; [congruence|done]].
      eapply step_attrs; [done|exact Ha| |exact Hp2|done|by rewrite Hpty2].
      rewrite En in Hf1. destruct t0 as [ty0 lit0].
      by destruct (Feeds_cur _ _ _ _ Hf1) as [-> _].
  - (* no element *)
    split; [|done].
    intros _ m k acc p tl [fty flit] rest Hm Hk Hf. cbn [weights toksList exprsOf] in *.
    destruct k as [|k]; [lia|].
    destruct (Feeds_peek _ _ _ _ _ Hf) as [Hpk _].
    exists p, tl. rewrite app_nil_r. split; [|done].
    by apply step_listLoop_stop.
  - (* an element *)
    intros x IHx r [IHr _]. split; [|done].
    intros Hxr m k acc p tl [fty flit] rest Hm Hk Hf.
    cbn [readableTail] in Hxr. apply andb_prop in Hxr as [Hxr Hr].
    apply andb_prop in Hxr as [Hneg Hx]. apply negb_true_iff in Hneg.
    cbn [weights toksList exprsOf] in *.
    destruct k as [|k]; [lia|].
    destruct (toks_head x) as (ty & lit & more & E & Hhead). rewrite Hneg in Hhead.
    destruct (toksList_next r (fty, flit) rest Hr)
      as (nty & nlit & nmore & En & Hnends & _ & Hnlen).
    assert (Hf0 : Feeds p (tl :: (toks x ++ (nty, nlit) :: nmore)%list)).
    { rewrite <- En. revert Hf. by rewrite <- !app_assoc. }
    assert (Hpk : opens (Type_ (peek p)) = true).
    { rewrite E in Hf0. by destruct (Feeds_peek _ _ _ _ _ Hf0) as [-> _]. }
    destruct (Feeds_advance _ _ _ Hf0
                ltac:(rewrite E; simpl; rewrite length_app; simpl; lia))
      as (p1 & Ha & Herr1 & Hf1).
    assert (Hc1 : opens (Type_ (cur p1)) = true).
    { rewrite E in Hf1. by destruct (Feeds_cur _ _ _ _ Hf1) as [-> _]. }
    destruct (IHx Hx m (precedenceCall + 1)%nat p1 (nty, nlit) nmore
                ltac:(lia) Hf1 Hnends) as (p2 & tl2 & Hp2 & Herr2 & Hf2).
    rewrite <- En in Hf2.
    destruct (IHr Hr m k (acc ++ [exprOf x])%list p2 tl2 (fty, flit) rest
                ltac:(lia) ltac:(lia) Hf2) as (p3 & tl3 & Hp3 & Herr3 & Hf3).
    exists p3, tl3. split; [|split; [congruence|done]].
    rewrite (step_listLoop _ _ _ _ _ _ _ Hpk Ha Hc1 Hp2), Hp3.
    by rewrite <- app_assoc.
  - (* no field *)
    intros _ m fuel k acc p [fty flit] rest Hm Hk Hf.
    cbn [weightFields toksFields bindingsOf] in *.
    change (Feeds p ((TOKEN_RBRACE, "}") :: (fty, flit) :: rest)) in Hf.
    destruct k as [|k]; [lia|].
    destruct (Feeds_cur _ _ _ _ Hf) as [Hc _].
    exists p. rewrite app_nil_r. split; [|done].
    by apply step_attrLoop_stop.
  - (* a field *)
    intros k0 x IHx r IHr Hf m fuel k acc p [fty flit] rest Hm Hk Hfeed.
    cbn [readableFields] in Hf.
    apply andb_prop in Hf as [Hf Hr]. apply andb_prop in Hf as [_ Hx].
    cbn [weightFields toksFields bindingsOf] in *.
    destruct k as [|k]; [lia|].
    destruct (toksFields_next r (fty, flit) rest) as (t0 & t1 & more & En & Hcase).
    assert (Hf0 : Feeds p ((TOKEN_IDENT, k0) :: (TOKEN_ASSIGN, "=")
                    :: (toks x ++ (TOKEN_SEMICOLON, ";") :: t0 :: t1 :: more)%list)).
    { rewrite <- En. revert Hfeed. simpl. by rewrite <- !app_assoc. }
    destruct (Feeds_cur _ _ _ _ Hf0) as [Hc Hlit].
    destruct (Feeds_peek _ _ _ _ _ Hf0) as [Hpk _].
    destruct (Feeds_advance _ _ _ Hf0
                ltac:(simpl; rewrite length_app; simpl; lia))
      as (p1 & Ha & Herr1 & Hf1).
    destruct (Feeds_advance _ _ _ Hf1 ltac:(rewrite length_app; simpl; lia))
      as (p2 & Ha1 & Herr2 & Hf2).
    destruct (IHx Hx m precedenceLowest p2 (TOKEN_SEMICOLON, ";") (t0 :: t1 :: more)
                ltac:(lia) Hf2 eq_refl) as (p3 & tl3 & Hp3 & Herr3 & Hf3).
    destruct (Feeds_peek _ _ _ _ _ Hf3) as [Hpk3 _].
    destruct (Feeds_advance _ _ _ Hf3 ltac:(simpl; lia))
      as (p4 & Ha3 & Herr4 & Hf4).
    destruct (Feeds_advance _ _ _ Hf4 ltac:(simpl; lia))
      as (p5 & Ha4 & Herr5 & Hf5).
    rewrite (step_attrLoop _ _ _ _ _ _ _ _ _ _ _ Hc Hpk Ha Ha1 Hp3 Hpk3 Ha3 Ha4).
    rewrite Hlit. rewrite <- En in Hf5.
    destruct Hcase as [[Ht0 ->]|[Ht0 Hne]].
    + rewrite En in Hf5. destruct t0 as [ty0 lit0]. simpl in Ht0. subst ty0.
      destruct (Feeds_cur _ _ _ _ Hf5) as [-> _]. simpl.
      injection En as <- <- <-.
      exists p5. split; [done|]. split; [congruence|done].
    + assert (Hcur5 : Type_ (cur p5) = TOKEN_IDENT).
      { rewrite En in Hf5. destruct t0 as [ty0 lit0]. simpl in Ht0. subst ty0.
        by destruct (Feeds_cur _ _ _ _ Hf5) as [-> _]. }
      rewrite Hcur5. simpl.
      destruct (IHr Hr m fuel k (acc ++ [([k0], exprOf x)])%list p5 (fty, flit) rest
                  ltac:(lia) ltac:(lia) Hf5) as (p6 & Hp6 & Herr6 & Hf6).
      exists p6. split; [|split; [congruence|done]].
      rewrite Hp6. by rewrite <- app_assoc.
Qed.

Lemma New_feeds lx t0 t1 r :
  Lexes lx (t0 :: t1 :: r) →
  ∃ p, parser.New lx = Done p ∧ errors p = [] ∧ Feeds p (t0 :: t1 :: r).
Proof.
  intros (l1 & (tk0 & Hn0 & Ht0) & (l2 & (tk1 & Hn1 & Ht1) & Hr)).
  unfold parser.New, parser.bind, advance. cbn [parser.l cur peek errors].
  rewrite Hn0. cbn [parser.l cur peek errors]. rewrite Hn1.
  eexists. split; [reflexivity|]. by repeat split.
Qed.

(** The parser reads the printed form of a readable tree as the tree of
    that value. *)
Lemma parseSource_show t n :
  readable t = true → (weight t ≤ n)%nat →
  parseSource n (show t) = Done (inl (exprOf t)).
Proof.
  intros Ht Hn.
  destruct (proj1 lex_tree t Ht (lexer.New (show t)) "" "" "")
    as (lx' & Hseg & Hs').
  { eapply Sits_cast; [apply New_sits|done|by snorm]. }
  { done. }
  { done. }
  destruct (Reads_eof lx' _ "" ltac:(eapply Sits_cast; [exact Hs'|done|done]) eq_refl)
    as (lx2 & Heof).
  assert (Hlex : Lexes (lexer.New (show t)) (toks t ++ [(TOKEN_EOF, "")])).
  { eapply LexSeg_Lexes; [exact Hseg|]. by exists lx2. }
  destruct (toks_head t) as (ty & lit & more & E & _).
  assert (Hshape : ∃ t1 r, (toks t ++ [(TOKEN_EOF, "")])%list = (ty, lit) :: t1 :: r).
  { rewrite E. destruct more; by eexists _, _. }
  destruct Hshape as (t1 & r & Eq).
  rewrite Eq in Hlex.
  destruct (New_feeds _ _ _ _ Hlex) as (p & HNew & Herr & Hfeed).
  rewrite <- Eq in Hfeed.
  destruct (proj1 parse_tree t Ht n precedenceLowest p (TOKEN_EOF, "") [] Hn Hfeed eq_refl)
    as (p' & tl & Hp & Herr' & _).
  unfold parseSource, Parse. rewrite HNew, Hp, Herr', Herr. done.
Qed.

End Parsing.

Section Denotation.
Import value types eval.

(** The value [v] of the heap [σ] is the tree [t], and the attribute
    sets it is made of are at the addresses from [lo] on. *)
Fixpoint Denotes (lo : nat) (σ : Store) (v : Value) (t : Plain) {struct t} : Prop :=
  match t, v with
  | PNull, VNull => True
  | PBool b, VBool b' => b' = b
  | PInt i, VInt i' => i' = i
  | PStr s, VString s' => s' = s
  | PList xs, VList vs => DenotesList lo σ vs xs
  | PAttrs fs, VAttrs a =>
      (lo ≤ a < length (attrsHeap σ))%nat
      ∧ AttrsKeys σ a = keysOf fs
      ∧ DenotesFields lo σ (attrsAt σ a) fs
  | _, _ => False
  end
with DenotesList (lo : nat) (σ : Store) (vs : list Value) (xs : Plains)
       {struct xs} : Prop :=
  match xs, vs with
  | PNil, [] => True
  | PCons x r, v :: vs' => Denotes lo σ v x ∧ DenotesList lo σ vs' r
  | _, _ => False
  end
with DenotesFields (lo : nat) (σ : Store) (m : gmap string Value) (fs : Fields)
       {struct fs} : Prop :=
  match fs with
  | FNil => True
  | FCons k x r =>
      (∃ v, m !! k = Some v ∧ Denotes lo σ v x) ∧ DenotesFields lo σ m r
  end.

(** The loops of [String] and of [Equals] over the elements of a list
    and the keys of a set. *)
Definition partsOf (σ : Store) (n : nat) : list Value → Outcome (list string) :=
  fix parts (xs : list Value) : Outcome (list string) :=
    match xs with
    | [] => Done []
    | x :: xs' =>
        match String_ σ n x with
        | Done s =>
            match parts xs' with
            | Done r => Done (s :: r)
            | Panic => Panic
            | OutOfFuel => OutOfFuel
            end
        | Panic => Panic
        | OutOfFuel => OutOfFuel
        end
    end.

Definition fieldsOf (σ : Store) (n : nat)
  : list string → gmap string Value → Outcome (list string) :=
  fix fields (ks : list string) (m : gmap string Value) : Outcome (list string) :=
    match ks with
    | [] => Done []
    | k :: ks' =>
        match String_ σ n (default VNull (m !! k)) with
        | Done s =>
            match fields ks' m with
            | Done r => Done ((k ++ " = " ++ s ++ ";") :: r)
            | Panic => Panic
            | OutOfFuel => OutOfFuel
            end
        | Panic => Panic
        | OutOfFuel => OutOfFuel
        end
    end.

Lemma String_list σ n vs :
  String_ σ (S n) (VList vs)
  = match partsOf σ n vs with
    | Done ps => Done ("[ " ++ Bytes.join " " ps ++ " ]")
    | Panic => Panic
    | OutOfFuel => OutOfFuel
    end.
Proof. reflexivity. Qed.

Lemma String_attrs σ n a :
  String_ σ (S n) (VAttrs a)
  = if (AttrsLen σ a =? 0)%nat then Done "{ }"
    else match fieldsOf σ n (AttrsKeys σ a) (attrsAt σ a) with
         | Done ps => Done ("{ " ++ Bytes.join " " ps ++ " }")
         | Panic => Panic
         | OutOfFuel => OutOfFuel
         end.
Proof. reflexivity. Qed.

Lemma partsOf_cons σ n v vs :
  partsOf σ n (v :: vs)
  = match String_ σ n v with
    | Done s =>
        match partsOf σ n vs with
        | Done r => Done (s :: r)
        | Panic => Panic
        | OutOfFuel => OutOfFuel
        end
    | Panic => Panic
    | OutOfFuel => OutOfFuel
    end.
Proof. reflexivity. Qed.

Lemma fieldsOf_cons σ n k ks m :
  fieldsOf σ n (k :: ks) m
  = match String_ σ n (default VNull (m !! k)) with
    | Done s =>
        match fieldsOf σ n ks m with
        | Done r => Done ((k ++ " = " ++ s ++ ";") :: r)
        | Panic => Panic
        | OutOfFuel => OutOfFuel
        end
    | Panic => Panic
    | OutOfFuel => OutOfFuel
    end.
Proof. reflexivity. Qed.

Lemma AttrsLen_keys σ a : AttrsLen σ a = length (AttrsKeys σ a).
Proof.
  unfold AttrsLen, AttrsKeys. rewrite sortedKeys_perm, length_fmap.
  symmetry. apply length_map_to_list.
Qed.

(** [String] prints a value as its tree is shown. *)
Lemma print_tree lo σ :
  (∀ t n v, Denotes lo σ v t → (weight t ≤ n)%nat → String_ σ n v = Done (show t))
  ∧ (∀ xs n vs, DenotesList lo σ vs xs → (weights xs ≤ n)%nat →
       partsOf σ n vs = Done (shows xs))
  ∧ (∀ fs n m, DenotesFields lo σ m fs → (weightFields fs ≤ n)%nat →
       fieldsOf σ n (keysOf fs) m = Done (showFields fs)).
Proof.
  apply Plain_mutind.
  - intros n [] H Hn; try done. destruct n; [simpl in Hn; lia|done].
  - intros b n [] H Hn; try done. destruct n; [simpl in Hn; lia|].
    simpl in H. by subst.
  - intros i n [] H Hn; try done. destruct n; [simpl in Hn; lia|].
    simpl in H. by subst.
  - intros s n [] H Hn; try done. destruct n; [simpl in Hn; lia|].
    simpl in H. by subst.
  - intros xs IH n [] H Hn; try done. cbn [Denotes weight] in *.
    destruct n as [|n]; [lia|]. rewrite String_list, (IH n _ H ltac:(lia)).
    done.
  - intros fs IH n [] H Hn; try done. cbn [Denotes weight] in *.
    destruct H as (Hr & Hk & Hf).
    destruct n as [|n]; [lia|]. rewrite String_attrs, AttrsLen_keys, Hk.
    destruct fs as [|k x r]; [done|].
    rewrite (IH n _ Hf ltac:(lia)). done.
  - intros n [] H Hn; done.
  - intros x IHx r IHr n [|v vs] H Hn; try done. cbn [DenotesList weights] in *.
    destruct H as [Hv Hvs]. rewrite partsOf_cons.
    rewrite (IHx n v Hv ltac:(lia)), (IHr n vs Hvs ltac:(lia)). done.
  - done.
  - intros k x IHx r IHr n m H Hn. cbn [DenotesFields weightFields keysOf] in *.
    destruct H as [(v & Hkv & Hv) Hr]. rewrite fieldsOf_cons.
    rewrite Hkv. change (default VNull (Some v)) with v.
    rewrite (IHx n v Hv ltac:(lia)), (IHr n m Hr ltac:(lia)). done.
Qed.

Definition all2Of (σ : Store) (n : nat) : list Value → list Value → Outcome bool :=
  fix all2 (xs ys : list Value) : Outcome bool :=
    match xs, ys with
    | x :: xs', y :: ys' =>
        match Equals σ n x y with
        | Done true => all2 xs' ys'
        | r => r
        end
    | _, _ => Done true
    end.

Definition allKeysOf (σ : Store) (n : nat)
  : list string → gmap string Value → gmap string Value → Outcome bool :=
  fix allKeys (ks : list string) (m m' : gmap string Value) : Outcome bool :=
    match ks with
    | [] => Done true
    | k :: ks' =>
        match m !! k, m' !! k with
        | Some v, Some v' =>
            match Equals σ n v v' with
            | Done true => allKeys ks' m m'
            | r => r
            end
        | _, _ => Done false
        end
    end.

Lemma Equals_list σ n xs ys :
  Equals σ (S n) (VList xs) (VList ys)
  = if negb (length xs =? length ys)%nat then Done false else all2Of σ n xs ys.
Proof. reflexivity. Qed.

Lemma Equals_attrs σ n x y :
  Equals σ (S n) (VAttrs x) (VAttrs y)
  = if negb (AttrsLen σ x =? AttrsLen σ y)%nat then Done false
    else allKeysOf σ n (AttrsKeys σ x) (attrsAt σ x) (attrsAt σ y).
Proof. reflexivity. Qed.

Lemma all2Of_cons σ n x xs y ys :
  all2Of σ n (x :: xs) (y :: ys)
  = match Equals σ n x y with
    | Done true => all2Of σ n xs ys
    | r => r
    end.
Proof. reflexivity. Qed.

Lemma allKeysOf_cons σ n k ks m m' :
  allKeysOf σ n (k :: ks) m m'
  = match m !! k, m' !! k with
    | Some v, Some v' =>
        match Equals σ n v v' with
        | Done true => allKeysOf σ n ks m m'
        | r => r
        end
    | _, _ => Done false
    end.
Proof. reflexivity. Qed.

(** [Equals] finds two values of the same tree equal. *)
Lemma equal_tree lo lo' σ :
  (∀ t n v w, Denotes lo σ v t → Denotes lo' σ w t → (weight t ≤ n)%nat →
     Equals σ n v w = Done true)
  ∧ (∀ xs n vs ws, DenotesList lo σ vs xs → DenotesList lo' σ ws xs →
       (weights xs ≤ n)%nat →
       all2Of σ n vs ws = Done true ∧ length vs = length ws)
  ∧ (∀ fs n m m', DenotesFields lo σ m fs → DenotesFields lo' σ m' fs →
       (weightFields fs ≤ n)%nat →
       allKeysOf σ n (keysOf fs) m m' = Done true).
Proof.
  apply Plain_mutind.
  - intros n [] [] H H' Hn; try done. destruct n; [simpl in Hn; lia|done].
  - intros b n [] [] H H' Hn; try done. destruct n; [simpl in Hn; lia|].
    simpl in *. subst. by destruct b.
  - intros i n [] [] H H' Hn; try done. destruct n; [simpl in Hn; lia|].
    simpl in *. subst. by rewrite Z.eqb_refl.
  - intros s n [] [] H H' Hn; try done. destruct n; [simpl in Hn; lia|].
    simpl in *. subst. by rewrite String.eqb_refl.
  - intros xs IH n [] [] H H' Hn; try done. cbn [Denotes weight] in *.
    destruct n as [|n]; [lia|].
    destruct (IH n _ _ H H' ltac:(lia)) as [Hall Hlen].
    rewrite Equals_list, Hlen, Nat.eqb_refl. done.
  - intros fs IH n [] [] H H' Hn; try done. cbn [Denotes weight] in *.
    destruct H as (Hr & Hk & Hf). destruct H' as (Hr' & Hk' & Hf').
    destruct n as [|n]; [lia|].
    rewrite Equals_attrs, !AttrsLen_keys, Hk, Hk', Nat.eqb_refl. simpl.
    by apply IH; [| |lia].
  - intros n [] [] H H' Hn; done.
  - intros x IHx r IHr n [|v vs] [|w ws] H H' Hn; try done.
    cbn [DenotesList weights] in *.
    destruct H as [Hv Hvs]. destruct H' as [Hw Hws].
    destruct (IHr n _ _ Hvs Hws ltac:(lia)) as [Hall Hlen].
    rewrite all2Of_cons, (IHx n v w Hv Hw ltac:(lia)). simpl. by rewrite Hlen.
  - done.
  - intros k x IHx r IHr n m m' H H' Hn.
    cbn [DenotesFields weightFields keysOf] in *.
    destruct H as [(v & Hkv & Hv) Hr]. destruct H' as [(w & Hkw & Hw) Hr'].
    rewrite allKeysOf_cons, Hkv, Hkw, (IHx n v w Hv Hw ltac:(lia)).
    by apply IHr; [| |lia].
Qed.

(** A tree that a value denotes stays its tree when the heap grows and
    keeps what it held from [lo] on. *)
Lemma Denotes_mono lo σ σ' :
  (length (attrsHeap σ) ≤ length (attrsHeap σ'))%nat →
  (∀ a, (lo ≤ a < length (attrsHeap σ))%nat → attrsHeap σ' !! a = attrsHeap σ !! a) →
  (∀ t v, Denotes lo σ v t → Denotes lo σ' v t)
  ∧ (∀ xs vs, DenotesList lo σ vs xs → DenotesList lo σ' vs xs)
  ∧ (∀ fs m, DenotesFields lo σ m fs → DenotesFields lo σ' m fs).
Proof.
  intros Hlen Hsame. apply Plain_mutind.
  - by intros [].
  - by intros b [].
  - by intros i [].
  - by intros s [].
  - intros xs IH [] H; try done. by apply IH.
  - intros fs IH [] H; try done. cbn [Denotes] in *.
    destruct H as (Hr & Hk & Hf).
    assert (Hat : attrsAt σ' ptr = attrsAt σ ptr).
    { unfold attrsAt. by rewrite Hsame. }
    split; [lia|]. split.
    + unfold AttrsKeys. by rewrite Hat.
    + rewrite Hat. by apply IH.
  - by intros [].
  - intros x IHx r IHr [|v vs] H; try done. cbn [DenotesList] in *.
    destruct H as [Hv Hvs]. split; [by apply IHx|by apply IHr].
  - done.
  - intros k x IHx r IHr m H. cbn [DenotesFields] in *.
    destruct H as [(v & Hkv & Hv) Hr]. split; [|by apply IHr].
    exists v. split; [done|by apply IHx].
Qed.

Lemma Denotes_weaken lo lo' σ :
  (lo' ≤ lo)%nat →
  (∀ t v, Denotes lo σ v t → Denotes lo' σ v t)
  ∧ (∀ xs vs, DenotesList lo σ vs xs → DenotesList lo' σ vs xs)
  ∧ (∀ fs m, DenotesFields lo σ m fs → DenotesFields lo' σ m fs).
Proof.
  intros Hlo. apply Plain_mutind.
  - by intros [].
  - by intros b [].
  - by intros i [].
  - by intros s [].
  - intros xs IH [] H; try done. by apply IH.
  - intros fs IH [] H; try done. cbn [Denotes] in *.
    destruct H as (Hr & Hk & Hf). split; [lia|]. split; [done|by apply IH].
  - by intros [].
  - intros x IHx r IHr [|v vs] H; try done. cbn [DenotesList] in *.
    destruct H as [Hv Hvs]. split; [by apply IHx|by apply IHr].
  - done.
  - intros k x IHx r IHr m H. cbn [DenotesFields] in *.
    destruct H as [(v & Hkv & Hv) Hr]. split; [|by apply IHr].
    exists v. split; [done|by apply IHx].
Qed.

End Denotation.

Section Order.

#[local] Instance Bytes_le_trans : Transitive Bytes.le.
Proof.
  intros a b c Hab Hbc. unfold Bytes.le in *.
  apply Is_true_true. apply Is_true_true in Hab, Hbc.
  exact (transitivity (R := String.le) Hab Hbc).
Qed.

#[local] Instance Bytes_le_antisym : AntiSymm (=) Bytes.le.
Proof. intros a b Hab Hba. by apply String.leb_antisym. Qed.

Lemma ltb_le a b : String.ltb a b = true → Bytes.le a b.
Proof.
  unfold String.ltb, Bytes.le, String.leb. by destruct (String.compare a b).
Qed.

Lemma ltb_ne a b : String.ltb a b = true → a ≠ b.
Proof.
  unfold String.ltb. intros H ->.
  pose proof (String.compare_antisym b b) as E.
  destruct (String.compare b b); simpl in *; congruence.
Qed.

Lemma ltb_le_trans a b c : String.ltb a b = true → Bytes.le b c → String.ltb a c = true.
Proof.
  intros Hab Hbc.
  assert (Hac : Bytes.le a c) by (etrans; [by apply ltb_le|done]).
  destruct (String.ltb a c) eqn:E; [done|]. exfalso.
  assert (a = c).
  { unfold String.ltb, Bytes.le, String.leb in *.
    destruct (String.compare a c) eqn:Ec; try done.
    by apply String.compare_eq_iff. }
  subst c. apply (ltb_ne a b Hab).
  apply (anti_symm Bytes.le); [by apply ltb_le|done].
Qed.

(** The keys of a readable set are in strictly ascending order. *)
Lemma keys_above k fs :
  readableFields fs = true → precedes k fs = true →
  ∀ j, j ∈ keysOf fs → String.ltb k j = true.
Proof.
  revert k. induction fs as [|k' x r IH]; intros k Hfs Hk j Hj.
  - by apply elem_of_nil in Hj.
  - cbn [readableFields precedes keysOf] in *.
    apply andb_prop in Hfs as [Hfs Hr]. apply andb_prop in Hfs as [Hfs _].
    apply andb_prop in Hfs as [_ Hp].
    apply elem_of_cons in Hj as [->|Hj]; [done|].
    eapply ltb_le_trans; [exact Hk|]. apply ltb_le. by apply IH.
Qed.

Lemma keys_sorted fs :
  readableFields fs = true → Sorted Bytes.le (keysOf fs) ∧ NoDup (keysOf fs).
Proof.
  induction fs as [|k x r IH]; intros Hfs.
  - split; constructor.
  - pose proof (keys_above k r) as Habove.
    cbn [readableFields keysOf] in *.
    apply andb_prop in Hfs as [Hfs Hr]. apply andb_prop in Hfs as [Hfs _].
    apply andb_prop in Hfs as [_ Hp].
    destruct (IH Hr) as [Hs Hn]. split.
    + constructor; [done|]. destruct r as [|k' ? ?]; constructor.
      apply ltb_le. apply Habove; [done..|]. simpl. apply elem_of_cons. by left.
    + constructor; [|done]. intros Hin.
      by apply (ltb_ne k k); [apply Habove|].
Qed.

(** A map whose keys are those of a sorted list without repetition has
    that list as its sorted keys. *)
Lemma sortedKeys_eq {A} (m : gmap string A) ks :
  Sorted Bytes.le ks → NoDup ks → (∀ j, j ∈ ks ↔ is_Some (m !! j)) →
  value.sortedKeys m = ks.
Proof.
  intros Hs Hn Hdom.
  apply (Sorted_unique Bytes.le); [apply sortedKeys_sorted|done|].
  apply NoDup_Permutation; [apply sortedKeys_NoDup|done|].
  intros j. by rewrite elem_of_sortedKeys, Hdom.
Qed.

End Order.

Section Evaluation.
Import value types eval.

(** The heap [σ'] has what [σ] had, and maybe more. *)
Definition Extends (σ σ' : Store) : Prop :=
  (length (attrsHeap σ) ≤ length (attrsHeap σ'))%nat
  ∧ ∀ a, (a < length (attrsHeap σ))%nat → attrsHeap σ' !! a = attrsHeap σ !! a.

Lemma Extends_refl σ : Extends σ σ.
Proof. by split. Qed.

Lemma Extends_trans σ1 σ2 σ3 : Extends σ1 σ2 → Extends σ2 σ3 → Extends σ1 σ3.
Proof.
  intros [H1 H1'] [H2 H2']. split; [lia|].
  intros a Ha. rewrite H2' by lia. by apply H1'.
Qed.

Lemma wrap64_id i :
  (strconv.minInt64 <= i <= strconv.maxInt64)%Z → wrap64 i = i.
Proof.
  unfold wrap64, strconv.wrap64, strconv.minInt64, strconv.maxInt64. intros H.
  rewrite Z.mod_small; lia.
Qed.

Lemma weaken_tree lo lo' σ v t :
  (lo' ≤ lo)%nat → Denotes lo σ v t → Denotes lo' σ v t.
Proof. intros H. apply (Denotes_weaken lo lo' σ H). Qed.

Lemma weaken_list lo lo' σ vs xs :
  (lo' ≤ lo)%nat → DenotesList lo σ vs xs → DenotesList lo' σ vs xs.
Proof. intros H. apply (Denotes_weaken lo lo' σ H). Qed.

Lemma weaken_fields lo lo' σ m fs :
  (lo' ≤ lo)%nat → DenotesFields lo σ m fs → DenotesFields lo' σ m fs.
Proof. intros H. apply (Denotes_weaken lo lo' σ H). Qed.

Lemma mono_tree lo σ σ' v t :
  (length (attrsHeap σ) ≤ length (attrsHeap σ'))%nat →
  (∀ a, (lo ≤ a < length (attrsHeap σ))%nat → attrsHeap σ' !! a = attrsHeap σ !! a) →
  Denotes lo σ v t → Denotes lo σ' v t.
Proof. intros H1 H2. apply (Denotes_mono lo σ σ' H1 H2). Qed.

Definition EvalsTree (e : Evaluator) (env : loc) (t : Plain) : Prop :=
  readable t = true → ∀ n σ, (weight t ≤ n)%nat →
    ∃ w σ', evalExpr n e (exprOf t) env σ = Done (Ok w, σ')
            ∧ Denotes (length (attrsHeap σ)) σ' w t ∧ Extends σ σ'.

Definition EvalsList (e : Evaluator) (env : loc) (xs : Plains) : Prop :=
  readableAll xs = true → ∀ n σ, (weights xs ≤ n)%nat →
    ∃ ws σ', evalElements (evalExpr n e) (exprsOf xs) env σ = Done (Ok ws, σ')
             ∧ DenotesList (length (attrsHeap σ)) σ' ws xs ∧ Extends σ σ'.

Definition EvalsFields (e : Evaluator) (env : loc) (fs : Fields) : Prop :=
  readableFields fs = true → ∀ n a σ, (weightFields fs ≤ n)%nat →
    (a < length (attrsHeap σ))%nat →
    ∃ σ', plainPass (evalExpr n e) a env (bindingsOf fs) σ = Done (Ok tt, σ')
          ∧ (length (attrsHeap σ) ≤ length (attrsHeap σ'))%nat
          ∧ (∀ b, (b < length (attrsHeap σ))%nat → b ≠ a →
                  attrsHeap σ' !! b = attrsHeap σ !! b)
          ∧ (∀ j, j ∉ keysOf fs → attrsAt σ' a !! j = attrsAt σ a !! j)
          ∧ (∀ j, j ∈ keysOf fs → is_Some (attrsAt σ' a !! j))
          ∧ DenotesFields (length (attrsHeap σ)) σ' (attrsAt σ' a) fs.

Lemma eval_tree e env :
  (∀ t, EvalsTree e env t) ∧ (∀ xs, EvalsList e env xs)
  ∧ (∀ fs, EvalsFields e env fs).
Proof.
  apply Plain_mutind.
  - intros _ n σ Hn. destruct n; [simpl in Hn; lia|].
    exists VNull, σ. split; [done|]. split; [done|apply Extends_refl].
  - intros b _ n σ Hn. destruct n; [simpl in Hn; lia|].
    exists (VBool b), σ. split; [done|]. split; [done|apply Extends_refl].
  - intros i Hi n σ Hn. cbn [readable weight exprOf] in *.
    apply andb_prop in Hi as [Hmin Hmax].
    apply Z.ltb_lt in Hmin. apply Z.leb_le in Hmax.
    destruct n as [|[|n]]; [lia..|].
    exists (VInt i), σ. split; [|split; [done|apply Extends_refl]].
    unfold intExpr. destruct (i <? 0)%Z; [|done].
    rewrite evalExpr_unfold. cbn [evalExprBody]. unfold evalUnary, bind.
    rewrite evalExpr_unfold. cbn [evalExprBody]. unfold ret.
    rewrite Z.opp_involutive, wrap64_id; [done|lia].
  - intros s _ n σ Hn. destruct n; [simpl in Hn; lia|].
    exists (VString s), σ. split; [done|]. split; [done|apply Extends_refl].
  - intros xs IH Hxs n σ Hn. cbn [weight exprOf] in *.
    destruct n as [|n]; [lia|].
    assert (Hall : readableAll xs = true).
    { destruct xs as [|x r]; [done|]. cbn [readable] in Hxs.
      apply andb_prop in Hxs as [Hx Hr]. simpl. by rewrite Hx, readableTail_all. }
    destruct (IH Hall n σ ltac:(lia)) as (ws & σ' & Hev & Hd & Hext).
    exists (VList ws), σ'. split; [|done].
    rewrite evalExpr_unfold. cbn [evalExprBody]. unfold evalList, bind.
    by rewrite Hev.
  - intros fs IH Hfs n σ Hn. cbn [weight exprOf readable] in *.
    destruct n as [|n]; [lia|].
    set (a := length (attrsHeap σ)).
    set (σ1 := mkStore (attrsHeap σ ++ [∅]) (envHeap σ)).
    assert (Ha1 : (a < length (attrsHeap σ1))%nat).
    { unfold σ1, a; simpl. rewrite length_app; simpl. lia. }
    assert (Hlen1 : length (attrsHeap σ1) = S a).
    { unfold σ1, a; simpl. rewrite length_app; simpl. lia. }
    destruct (IH Hfs n a σ1 ltac:(lia) Ha1)
      as (σ' & Hev & Hlen & Hother & Hout & Hin & Hd).
    exists (VAttrs a), σ'. split; [|split].
    + rewrite evalExpr_unfold. cbn [evalExprBody].
      unfold evalAttrSet, bind, alloc, NewAttrs. fold a. fold σ1.
      by rewrite Hev.
    + cbn [Denotes]. split; [lia|]. split.
      * destruct (keys_sorted fs Hfs) as [Hs Hnd].
        apply sortedKeys_eq; [done..|]. intros j. split; [by apply Hin|].
        intros Hsome. destruct (decide (j ∈ keysOf fs)) as [|Hnin]; [done|].
        rewrite (Hout j Hnin) in Hsome.
        unfold attrsAt, σ1 in Hsome; simpl in Hsome.
        rewrite list_lookup_middle in Hsome by done. simpl in Hsome.
        rewrite lookup_empty in Hsome. by destruct Hsome.
      * apply (weaken_fields (length (attrsHeap σ1))); [lia|done].
    + split; [lia|]. intros b Hb. rewrite Hother by lia.
      unfold σ1; simpl. by rewrite lookup_app_l.
  - intros _ n σ Hn. exists [], σ. split; [done|]. split; [done|apply Extends_refl].
  - intros x IHx r IHr Hxr n σ Hn. cbn [readableAll weights exprsOf] in *.
    apply andb_prop in Hxr as [Hx Hr].
    destruct (IHx Hx n σ ltac:(lia)) as (w & σ1 & Hev1 & Hd1 & Hext1).
    destruct (IHr Hr n σ1 ltac:(lia)) as (ws & σ' & Hev2 & Hd2 & Hext2).
    exists (w :: ws), σ'. split; [|split].
    + cbn [evalElements]. unfold bind. by rewrite Hev1, Hev2.
    + cbn [DenotesList]. destruct Hext1 as [Hl1 _]. destruct Hext2 as [Hl2 Hs2].
      split.
      * apply (mono_tree _ σ1); [done| |done]. intros b Hb. apply Hs2. lia.
      * apply (weaken_list (length (attrsHeap σ1))); [lia|done].
    + by eapply Extends_trans.
  - intros _ n a σ Hn Ha. exists σ. split; [done|]. repeat split; try done.
    intros j Hj. by apply elem_of_nil in Hj.
  - intros k x IHx r IHr Hf n a σ Hn Ha.
    pose proof (keys_above k r) as Habove.
    cbn [readableFields weightFields bindingsOf keysOf] in *.
    apply andb_prop in Hf as [Hf Hr]. apply andb_prop in Hf as [Hf Hx].
    apply andb_prop in Hf as [_ Hp].
    assert (Hk : k ∉ keysOf r).
    { intros Hin. by apply (ltb_ne k k); [apply Habove|]. }
    destruct (IHx Hx n σ ltac:(lia)) as (w & σ1 & Hev1 & Hd1 & [Hl1 Hs1]).
    set (σ2 := AttrsSet a k w σ1).
    assert (Hl2 : length (attrsHeap σ2) = length (attrsHeap σ1)).
    { unfold σ2. by rewrite AttrsSet_length. }
    destruct (IHr Hr n a σ2 ltac:(lia) ltac:(lia))
      as (σ' & Hev2 & Hlen & Hother & Hout & Hin & Hd).
    assert (Hat2 : attrsAt σ2 a = <[k := w]> (attrsAt σ1 a)).
    { unfold σ2. apply attrsAt_AttrsSet_eq. lia. }
    assert (Hat1 : attrsAt σ1 a = attrsAt σ a).
    { unfold attrsAt. by rewrite Hs1. }
    exists σ'. split; [|repeat split].
    + cbn [plainPass]. unfold bind, modify. rewrite Hev1. fold σ2. by rewrite Hev2.
    + lia.
    + intros b Hb Hba. rewrite Hother by lia. unfold σ2.
      rewrite AttrsSet_lookup_ne by done. by apply Hs1.
    + intros j Hj. apply not_elem_of_cons in Hj as [Hjk Hj].
      rewrite Hout by done. rewrite Hat2, lookup_insert_ne by done. by rewrite Hat1.
    + intros j Hj. apply elem_of_cons in Hj as [->|Hj]; [|by apply Hin].
      rewrite Hout by done. rewrite Hat2, lookup_insert_eq. done.
    + exists w. split.
      * rewrite Hout by done. by rewrite Hat2, lookup_insert_eq.
      * apply (mono_tree _ σ2); [lia|intros b Hb; apply Hother; lia|].
        apply (mono_tree _ σ1); [lia| |done].
        intros b Hb. unfold σ2. apply AttrsSet_lookup_ne. lia.
    + apply (weaken_fields (length (attrsHeap σ2))); [lia|done].
Qed.

End Evaluation.

Section ReadBack.
Import value types eval.

(** X1. A value whose tree is readable is printed, parsed and evaluated
    back to a value of the same tree, which [Equals] finds equal to it. *)
Theorem read_back σ v t n :
  Denotes 0 σ v t → readable t = true → (weight t ≤ n)%nat →
  ∃ w σ',
    String_ σ n v = Done (show t)
    ∧ parser.parseSource n (show t) = Done (inl (exprOf t))
    ∧ roundTrip n σ v = Done (Back w true)
    ∧ Denotes 0 σ' w t.
Proof.
  intros Hv Ht Hn.
  pose proof (proj1 (print_tree 0 σ) t n v Hv Hn) as Hprint.
  pose proof (parseSource_show t n Ht Hn) as Hparse.
  set (σ0 := mkStore (attrsHeap σ) (envHeap σ ++ [mkEnv ∅ None])).
  destruct (proj1 (eval_tree (New ".") (length (envHeap σ))) t Ht n σ0 Hn)
    as (w & σ' & Hev & Hw & [Hlen Hsame]).
  assert (Hv' : Denotes 0 σ' v t).
  { apply (mono_tree 0 σ); [done| |done]. intros a Ha. apply Hsame. simpl. lia. }
  assert (Hw' : Denotes 0 σ' w t).
  { apply (weaken_tree (length (attrsHeap σ0))); [lia|done]. }
  pose proof (proj1 (equal_tree 0 0 σ') t n v w Hv' Hw' Hn) as Heq.
  exists w, σ'. split; [done|]. split; [done|]. split; [|done].
  unfold roundTrip. rewrite Hprint, Hparse.
  unfold bind, alloc, NewEnv. fold σ0. rewrite Hev, Heq. done.
Qed.

(** The heap with the set [{ a = -2; b = [ 1 "x y" null ]; }], and its
    tree. *)
Definition sampleStore : Store :=
  AttrsSet 0 "b" (VList [VInt 1; VString "x y"; VNull])
    (AttrsSet 0 "a" (VInt (-2)) (NewAttrs emptyStore).2).

Definition sampleTree : Plain :=
  PAttrs (FCons "a" (PInt (-2))
            (FCons "b" (PList (PCons (PInt 1) (PCons (PStr "x y") (PCons PNull PNil))))
               FNil)).

Lemma read_back_witness :
  ∃ w σ',
    String_ sampleStore 30 (VAttrs 0) = Done (show sampleTree)
    ∧ parser.parseSource 30 (show sampleTree) = Done (inl (exprOf sampleTree))
    ∧ roundTrip 30 sampleStore (VAttrs 0) = Done (Back w true)
    ∧ Denotes 0 σ' w sampleTree.
Proof.
  apply (read_back sampleStore (VAttrs 0) sampleTree 30).
  - cbn [Denotes DenotesFields DenotesList sampleTree]. split; [vm_compute; lia|].
    split; [vm_compute; reflexivity|].
    split; [exists (VInt (-2)); split; [vm_compute; reflexivity|reflexivity]|].
    split; [|exact I].
    exists (VList [VInt 1; VString "x y"; VNull]).
    split; [vm_compute; reflexivity|]. cbn. repeat split.
  - vm_compute. reflexivity.
  - vm_compute. lia.
Defined.

End ReadBack.

Section LexerEdges.
Import lexer.

Lemma LookupIdent_not_path s : LookupIdent s ≠ TOKEN_PATH.
Proof.
  unfold LookupIdent, keywords. cbn [assoc].
  repeat match goal with
         | |- context [String.eqb s ?k] => destruct (String.eqb s k); [done|]
         end.
  done.
Qed.

(** X2. No call of [NextToken] returns a token of type [TOKEN_PATH]:
    the branch that reads a path is behind the case of the character
    [/], which returns [TOKEN_DIVIDE]. *)
Theorem NextToken_never_path lx t lx' :
  NextToken lx = Done (t, lx') → Type_ t ≠ TOKEN_PATH.
Proof.
  unfold NextToken. cbv zeta.
  set (l0 := skipTrivia (budget lx) lx).
  repeat match goal with
         | |- (if ?c then _ else _) = _ → _ => destruct c eqn:?
         end;
    try (intros [= <- <-]; done).
  - destruct (readString l0) as [[lit|] l1]; [|done]. by intros [= <- <-].
  - destruct (readIdentifier l0) as [lit l1]. intros [= <- <-].
    apply LookupIdent_not_path.
  - destruct (readNumber l0) as [[lit ty] l1] eqn:E. intros [= <- <-]. simpl.
    unfold readNumber in E.
    destruct (_ && _) in E; by injection E as <- <- <-.
Qed.

Lemma NextToken_never_path_witness :
  match NextToken (New "/a") with
  | Done (t, _) => Type_ t = TOKEN_DIVIDE ∧ Type_ t ≠ TOKEN_PATH
  | _ => False
  end.
Proof.
  destruct (NextToken (New "/a")) as [[t lx']| |] eqn:E;
    [|by vm_compute in E..].
  split; [|exact (NextToken_never_path _ _ _ E)].
  vm_compute in E. by injection E as <- <-.
Defined.

(** The lexer has read the whole input. *)
Definition AtEnd (lx : Lexer) : Prop :=
  (String.length (input lx) ≤ position lx)%nat
  ∧ (position lx < readPosition lx)%nat
  ∧ ch lx = NUL.

Lemma AtEnd_NextToken lx :
  AtEnd lx →
  ∃ t lx', NextToken lx = Done (t, lx') ∧ Type_ t = TOKEN_EOF
           ∧ Literal t = "" ∧ AtEnd lx'.
Proof.
  intros (Hlen & Hpos & Hch).
  assert (Hb : budget lx = 1%nat).
  { unfold budget. f_equal. lia. }
  assert (Hskip : skipTrivia (budget lx) lx = lx).
  { rewrite Hb. cbn [skipTrivia]. unfold skipWhitespace. rewrite Hb.
    cbn [readWhile]. rewrite Hch. change (isWhitespace NUL) with false.
    cbv iota. rewrite Hch. reflexivity. }
  unfold NextToken. cbv zeta. rewrite Hskip, Hch. cbn.
  eexists _, _. split; [reflexivity|]. split; [done|]. split; [done|].
  unfold AtEnd, readChar. cbn [input position readPosition ch].
  split; [lia|]. split; [lia|]. by rewrite decide_True by lia.
Qed.

(** X3. Once the input is exhausted every call of [NextToken] returns
    [TOKEN_EOF] with an empty literal: the parser can read ahead past the
    end as often as it likes. *)
Theorem eof_is_sticky lx n :
  AtEnd lx → tokens n lx = replicate n (TOKEN_EOF, "").
Proof.
  revert lx. induction n as [|n IH]; intros lx Hend; [done|].
  destruct (AtEnd_NextToken lx Hend) as (t & lx' & Hn & Hty & Hlit & Hend').
  cbn [tokens replicate]. rewrite Hn, Hty, Hlit. f_equal. by apply IH.
Qed.

Lemma eof_is_sticky_witness :
  AtEnd (New "") ∧ tokens 5 (New "") = replicate 5 (TOKEN_EOF, "").
Proof.
  assert (H : AtEnd (New "")) by (vm_compute; repeat split; lia).
  exact (conj H (eof_is_sticky (New "") 5 H)).
Defined.

Lemma readStringLoop_body n lx p c0 body rest :
  Sits lx p (String c0 (body ++ rest)) →
  forallc isPlainChar body = true →
  ∃ lx' p' c',
    readStringLoop (String.length body + n) lx = readStringLoop n lx'
    ∧ Sits lx' p' (String c' rest)
    ∧ p' ++ String c' "" = p ++ String c0 body.
Proof.
  revert lx p c0. induction body as [|b body IH]; intros lx p c0 Hs Hb.
  - exists lx, p, c0. by rewrite app_nil_l_s in Hs.
  - rewrite app_cons_s in Hs. apply readChar_sits in Hs.
    simpl in Hb. apply andb_prop in Hb as [Hb Hbody].
    unfold isPlainChar in Hb.
    apply andb_prop in Hb as [Hb H3]. apply andb_prop in Hb as [H1 H2].
    apply negb_true_iff in H1, H2, H3.
    destruct (IH (readChar lx) (p ++ String c0 "") b Hs Hbody)
      as (lx' & p' & c' & Heq & Hs' & Hp).
    exists lx', p', c'. split; [|split; [done|]].
    + cbn [String.length Nat.add]. rewrite readStringLoop_S.
      rewrite (sits_ch _ _ _ Hs). cbn [first]. rewrite H1, H2, H3. exact Heq.
    + rewrite Hp. by snorm.
Qed.

(** X4. A string literal that is still open at the end of the input:
    when its text has no quote, backslash or NUL it is accepted as if it
    were closed there, without any error; when a backslash follows as
    the last character of the input, the scan runs past the end and the
    slice of [readString] is out of range, which is a run-time panic. *)
Theorem string_open_at_end lx pre w body (slash : bool) :
  Sits lx pre (w ++ String Bytes.DQUOTE (body ++ (if slash then "\" else ""))) →
  isSpaces w = true → forallc isPlainChar body = true →
  if slash then NextToken lx = Panic
  else ∃ t lx', NextToken lx = Done (t, lx') ∧ tok t = (TOKEN_STRING, body).
Proof.
  intros Hs Hw Hb.
  pose proof (skipTrivia_sits _ _ _ _ Hs Hw eq_refl) as H0.
  unfold NextToken. cbv zeta.
  set (l0 := skipTrivia (budget lx) lx) in *.
  rewrite (sits_ch _ _ _ H0). simpl first.
  unfold readString.
  destruct slash.
  - destruct (readStringLoop_body 3 l0 _ _ body "\" H0 Hb)
      as (l1 & p' & c' & Heq & Hs1 & Hp).
    assert (Hbud : budget l0 = (String.length body + 3)%nat).
    { rewrite (budget_sits _ _ _ H0). simpl. rewrite length_app_s. simpl. lia. }
    rewrite Hbud, Heq. rewrite readStringLoop_S.
    apply readChar_sits in Hs1. rewrite (sits_ch _ _ _ Hs1). simpl first.
    apply readChar_sits in Hs1.
    set (l3 := readChar (readChar l1)) in *.
    change (Ascii.eqb "\" Bytes.DQUOTE || Ascii.eqb "\" NUL) with false.
    change (Ascii.eqb "\" "\") with true. cbv iota.
    rewrite readStringLoop_S.
    assert (Hlen : readPosition l3 = S (String.length (input l3))).
    { rewrite (sits_input _ _ _ Hs1), (sits_readPosition _ _ _ Hs1).
      by rewrite app_nil_r_s. }
    assert (Hch : ch (readChar l3) = NUL).
    { unfold readChar at 1. cbn [ch]. rewrite decide_True; [done|lia]. }
    rewrite Hch.
    change (Ascii.eqb NUL Bytes.DQUOTE || Ascii.eqb NUL NUL) with true. cbv iota.
    assert (Hslice : Bytes.slice (input (readChar l3)) (S (position l0))
                       (position (readChar l3)) = None).
    { unfold Bytes.slice. rewrite decide_False; [done|].
      change (input (readChar l3)) with (input l3).
      change (position (readChar l3)) with (readPosition l3). lia. }
    by rewrite Hslice.
  - destruct (readStringLoop_body 2 l0 _ _ body "" H0 Hb)
      as (l1 & p' & c' & Heq & Hs1 & Hp).
    assert (Hbud : budget l0 = (String.length body + 2)%nat).
    { rewrite (budget_sits _ _ _ H0). simpl. rewrite length_app_s. simpl. lia. }
    rewrite Hbud, Heq. rewrite readStringLoop_S.
    apply readChar_sits in Hs1. rewrite (sits_ch _ _ _ Hs1). simpl first.
    change (Ascii.eqb NUL Bytes.DQUOTE || Ascii.eqb NUL NUL) with true. cbv iota.
    assert (Hslice : Bytes.slice (input (readChar l1)) (S (position l0))
                       (position (readChar l1)) = Some body).
    { unfold Bytes.slice.
      rewrite (sits_position _ _ _ H0), (sits_position _ _ _ Hs1),
        (sits_input _ _ _ Hs1), Hp.
      rewrite !app_nil_r_s, !length_app_s. simpl.
      rewrite decide_True by lia. f_equal.
      replace (String.length pre + String.length w + S (String.length body)
               - S (String.length pre + String.length w))%nat
        with (String.length body) by lia.
      replace (S (String.length pre + String.length w))
        with (String.length ((pre ++ w) ++ String Bytes.DQUOTE ""))
        by (rewrite !length_app_s; simpl; lia).
      replace ((pre ++ w) ++ String Bytes.DQUOTE body)
        with (((pre ++ w) ++ String Bytes.DQUOTE "") ++ body ++ "")
        by (by snorm).
      apply substring_middle. }
    rewrite Hslice. by eexists _, _.
Qed.

Lemma string_open_at_end_witness :
  NextToken (New (String Bytes.DQUOTE "ab\")) = Panic.
Proof.
  apply (string_open_at_end (New (String Bytes.DQUOTE "ab\")) "" "" "ab" true);
    [apply New_sits|reflexivity|reflexivity].
Defined.

End LexerEdges.

Section ParserLoops.
Import lexer types parser.

(** A current and a next token from which [parseBinding] returns nil
    without reading a token: the current one cannot start an attribute
    path, or it can and the next one is neither a dot nor [=]. *)
Definition stuck (c n : TokenType) : bool :=
  match c with
  | TOKEN_RBRACE | TOKEN_EOF | TOKEN_INHERIT => false
  | TOKEN_IDENT | TOKEN_STRING =>
      match n with
      | TOKEN_DOT | TOKEN_ASSIGN => false
      | _ => true
      end
  | _ => true
  end.

Ltac prun :=
  cbv beta iota zeta delta
    [parser.bind parser.get parser.ret curIs peekIs expectPeek addError errorAtCur
     parser.l cur peek errors Type_ Literal Line Column
     lexer.eqb lexer.code Nat.eqb andb orb negb].

Lemma parseAttrSetLoop_stuck pe fuel n acc p :
  stuck (Type_ (cur p)) (Type_ (peek p)) = true →
  parseAttrSetLoop pe fuel n acc p = OutOfFuel.
Proof.
  revert p. induction n as [|n IH]; intros p Hst; [done|].
  destruct p as [lx [cty clit cln ccol] [pty plit pln pcol] errs].
  cbn [cur peek Type_] in Hst.
  cbn [parseAttrSetLoop]. unfold parseBinding, parseAttrPath.
  destruct cty; try discriminate Hst.
  all: try (prun; apply IH; exact Hst).
  all: destruct fuel as [|fuel]; [reflexivity|].
  all: cbn [parseAttrPathLoop].
  all: destruct pty; try discriminate Hst; prun; apply IH; exact Hst.
Qed.

(** X5. An attribute set whose braces hold something that is not a
    binding is never parsed to the end: when the token after [{] (other
    than [rec]) cannot start a binding, [parseBinding] returns nil
    without reading a token and the loop of [parseAttrSet] runs again on
    the same token, adding the same error each time. Whatever the fuel,
    [parseExpression] does not return. *)
Theorem attrset_loop_diverges fuel prec p p1 :
  Type_ (cur p) = TOKEN_LBRACE →
  advance p = Done (tt, p1) →
  Type_ (cur p1) ≠ TOKEN_REC →
  stuck (Type_ (cur p1)) (Type_ (peek p1)) = true →
  parseExpression fuel prec p = OutOfFuel.
Proof.
  intros Hc Ha Hrec Hst. destruct fuel as [|fuel]; [done|].
  change (parseExpression (S fuel) prec p)
    with (parseExpressionBody (parseExpression fuel) fuel prec p).
  unfold parseExpressionBody, parsePrefixExpression, parseAttrSet.
  pose proof (parseAttrSetLoop_stuck (parseExpression fuel) fuel fuel [] p1 Hst) as Hloop.
  destruct p as [lx [cty clit cln ccol] [pty plit pln pcol] errs].
  destruct p1 as [lx1 [cty1 clit1 cln1 ccol1] [pty1 plit1 pln1 pcol1] errs1].
  cbn [cur peek Type_] in *. subst cty.
  prun. rewrite Ha.
  destruct cty1; try discriminate Hst; try done; prun; by rewrite Hloop.
Qed.

Lemma attrset_loop_diverges_witness :
  parseSource 50 "{ 1 }" = OutOfFuel.
Proof.
  unfold parseSource, Parse.
  destruct (New (lexer.New "{ 1 }")) as [p| |] eqn:E; [|by vm_compute in E..].
  assert (Hp : p = startOf "{ 1 }").
  { vm_compute in E. injection E as <-. vm_compute. reflexivity. }
  subst p.
  rewrite (attrset_loop_diverges 50 precedenceLowest (startOf "{ 1 }")
             (advanced 1 (startOf "{ 1 }")));
    [done|vm_compute; reflexivity..|vm_compute; discriminate|vm_compute; reflexivity].
Defined.

End ParserLoops.

Section AttrsLaws.
Import value.

(** X6. [Keys] returns every key of the set exactly once, in ascending
    byte order, and [Len] is their number. *)
Theorem AttrsKeys_spec σ a :
  Sorted Bytes.le (AttrsKeys σ a)
  ∧ NoDup (AttrsKeys σ a)
  ∧ (∀ k, k ∈ AttrsKeys σ a ↔ is_Some (AttrsGet σ a k))
  ∧ length (AttrsKeys σ a) = AttrsLen σ a.
Proof.
  unfold AttrsKeys, AttrsGet, AttrsLen.
  split; [apply sortedKeys_sorted|]. split; [apply sortedKeys_NoDup|].
  split; [intros k; apply elem_of_sortedKeys|].
  rewrite sortedKeys_perm, length_fmap. apply length_map_to_list.
Qed.

(** X7. [Set] then [Get]: on an allocated set, the key that was set
    gives the new value, every other key gives what it gave before, every
    other set is as it was, and the number of keys grows by one exactly
    when the key is new. *)
Theorem Attrs_Set_Get σ a k v :
  (a < length (attrsHeap σ))%nat →
  AttrsGet (AttrsSet a k v σ) a k = Some v
  ∧ (∀ j, j ≠ k → AttrsGet (AttrsSet a k v σ) a j = AttrsGet σ a j)
  ∧ (∀ b j, b ≠ a → AttrsGet (AttrsSet a k v σ) b j = AttrsGet σ b j)
  ∧ AttrsLen (AttrsSet a k v σ) a
    = (if AttrsGet σ a k is Some _ then AttrsLen σ a else S (AttrsLen σ a)).
Proof.
  intros Ha. unfold AttrsGet, AttrsLen.
  rewrite attrsAt_AttrsSet_eq by done.
  split; [by rewrite lookup_insert_eq|].
  split; [intros j Hj; by rewrite lookup_insert_ne|].
  split; [intros b j Hb; by rewrite attrsAt_AttrsSet_ne|].
  destruct (attrsAt σ a !! k) as [w|] eqn:E.
  - rewrite <- (insert_delete_id (attrsAt σ a) k w E) at 2.
    rewrite <- insert_delete_eq. rewrite !map_size_insert_None; [done|..];
      by rewrite lookup_delete_eq.
  - by rewrite map_size_insert_None.
Qed.

Lemma Attrs_Set_Get_witness :
  (0 < length (attrsHeap twoSets))%nat
  ∧ AttrsGet (AttrsSet 0 "z" (VInt 9) twoSets) 0 "z" = Some (VInt 9)
  ∧ (∀ j, j ≠ "z" → AttrsGet (AttrsSet 0 "z" (VInt 9) twoSets) 0 j
                     = AttrsGet twoSets 0 j)
  ∧ (∀ b j, b ≠ 0%nat → AttrsGet (AttrsSet 0 "z" (VInt 9) twoSets) b j
                         = AttrsGet twoSets b j)
  ∧ AttrsLen (AttrsSet 0 "z" (VInt 9) twoSets) 0
    = (if AttrsGet twoSets 0 "z" is Some _ then AttrsLen twoSets 0
       else S (AttrsLen twoSets 0)).
Proof.
  assert (H : (0 < length (attrsHeap twoSets))%nat) by (vm_compute; lia).
  exact (conj H (Attrs_Set_Get twoSets 0 "z" (VInt 9) H)).
Defined.

End AttrsLaws.

(** ** Environment frames *)

Section Frames.
Import value.

(** [Env.WithBindings]: a child frame with the given bindings. *)
Definition WithBindings (e : loc) (m : gmap string Value) (σ : Store) : loc * Store :=
  let '(child, σ) := EnvExtend e σ in
  (child, map_fold (fun k v acc => EnvSet child k v acc) σ m).

(** [Env.Clone]: a frame with a copy of the bindings and the same
    parent. *)
Definition Clone (e : loc) (σ : Store) : loc * Store :=
  (length (envHeap σ),
   mkStore (attrsHeap σ)
           (envHeap σ ++ [mkEnv (bindings (envAt σ e)) (parent (envAt σ e))])).

(** The parent of a frame was allocated before the frame: what
    [NewEnv], [Extend], [WithBindings] and [Clone] build. *)
Definition parentsBelow (σ : Store) : Prop :=
  ∀ i p, parent (envAt σ i) = Some p → (p < i)%nat.

Lemma EnvGetFrom_fuel σ k :
  parentsBelow σ →
  ∀ n m e, (e ≤ n)%nat → (e ≤ m)%nat →
    EnvGetFrom n σ e k = EnvGetFrom m σ e k.
Proof.
  intros Hwf. induction n as [|n IH]; intros m e Hn Hm.
  - assert (e = 0%nat) by lia. subst e.
    destruct m as [|m]; [done|]. simpl.
    destruct (bindings (envAt σ 0) !! k); [done|].
    destruct (parent (envAt σ 0)) as [p|] eqn:E; [|done].
    apply Hwf in E. lia.
  - destruct m as [|m].
    + assert (e = 0%nat) by lia. subst e. simpl.
      destruct (bindings (envAt σ 0) !! k); [done|].
      destruct (parent (envAt σ 0)) as [p|] eqn:E; [|done].
      apply Hwf in E. lia.
    + simpl. destruct (bindings (envAt σ e) !! k); [done|].
      destruct (parent (envAt σ e)) as [p|] eqn:E; [|done].
      apply Hwf in E. apply IH; lia.
Qed.

Lemma EnvGetFrom_ext σ σ' k :
  parentsBelow σ →
  ∀ n e, (∀ i, (i ≤ e)%nat → envAt σ' i = envAt σ i) →
    EnvGetFrom n σ' e k = EnvGetFrom n σ e k.
Proof.
  intros Hwf. induction n as [|n IH]; intros e Hsame; simpl.
  - by rewrite Hsame.
  - rewrite Hsame by done. destruct (bindings (envAt σ e) !! k); [done|].
    destruct (parent (envAt σ e)) as [p|] eqn:E; [|done].
    apply Hwf in E. apply IH. intros i Hi. apply Hsame. lia.
Qed.

(** Lookup from an old frame in a heap that grew and kept the old
    frames. *)
Lemma EnvGet_old σ σ' e k :
  parentsBelow σ →
  (e < length (envHeap σ))%nat →
  (length (envHeap σ) ≤ length (envHeap σ'))%nat →
  (∀ i, (i ≤ e)%nat → envAt σ' i = envAt σ i) →
  EnvGet σ' e k = EnvGet σ e k.
Proof.
  intros Hwf He Hlen Hsame. unfold EnvGet.
  rewrite (EnvGetFrom_ext σ σ' k Hwf _ e Hsame).
  apply EnvGetFrom_fuel; [done|lia..].
Qed.

Lemma envAt_app_old σ f i :
  (i < length (envHeap σ))%nat →
  envAt (mkStore (attrsHeap σ) (envHeap σ ++ [f])) i = envAt σ i.
Proof. intros Hi. unfold envAt; simpl. by rewrite lookup_app_l. Qed.

Lemma envAt_app_new σ f :
  envAt (mkStore (attrsHeap σ) (envHeap σ ++ [f])) (length (envHeap σ)) = f.
Proof. unfold envAt; simpl. by rewrite list_lookup_middle. Qed.

Lemma envAt_EnvSet_eq σ e k v :
  (e < length (envHeap σ))%nat →
  envAt (EnvSet e k v σ) e
  = mkEnv (<[k := v]> (bindings (envAt σ e))) (parent (envAt σ e)).
Proof.
  intros He. unfold EnvSet. unfold envAt at 1; simpl.
  by rewrite list_lookup_insert_eq.
Qed.

Lemma envAt_EnvSet_ne σ e i k v :
  i ≠ e → envAt (EnvSet e k v σ) i = envAt σ i.
Proof.
  intros Hne. unfold EnvSet. unfold envAt at 1; simpl.
  by rewrite list_lookup_insert_ne.
Qed.

Lemma EnvSet_length σ e k v :
  length (envHeap (EnvSet e k v σ)) = length (envHeap σ).
Proof. unfold EnvSet; simpl. by rewrite length_insert. Qed.

(** What [WithBindings] leaves in the heap. *)
Lemma WithBindings_frames e m σ :
  let c := length (envHeap σ) in
  let σ' := (WithBindings e m σ).2 in
  (WithBindings e m σ).1 = c
  ∧ length (envHeap σ') = S c
  ∧ envAt σ' c = mkEnv m (Some e)
  ∧ (∀ i, (i < c)%nat → envAt σ' i = envAt σ i)
  ∧ attrsHeap σ' = attrsHeap σ.
Proof.
  unfold WithBindings, EnvExtend. cbn [fst snd].
  set (c := length (envHeap σ)).
  set (σ0 := mkStore (attrsHeap σ) (envHeap σ ++ [mkEnv ∅ (Some e)])).
  cbv zeta. split; [done|].
  apply (map_fold_weak_ind
           (fun acc m' => length (envHeap acc) = S c
                          ∧ envAt acc c = mkEnv m' (Some e)
                          ∧ (∀ i, (i < c)%nat → envAt acc i = envAt σ i)
                          ∧ attrsHeap acc = attrsHeap σ)).
  - split; [unfold σ0; simpl; rewrite length_app; simpl; lia|].
    split; [apply envAt_app_new|]. split; [|done].
    intros i Hi. by apply envAt_app_old.
  - intros k v m' acc Hk (Hlen & Hc & Hold & Hattrs).
    split; [by rewrite EnvSet_length|]. split; [|split].
    + rewrite envAt_EnvSet_eq by lia. by rewrite Hc.
    + intros i Hi. rewrite envAt_EnvSet_ne by lia. by apply Hold.
    + done.
Qed.

(** X8. A child frame made by [WithBindings] finds a name among its
    own bindings first and otherwise where the parent finds it; the
    frames that existed are not changed. ([Extend] followed by [Set] is
    the case of one binding.) *)
Theorem WithBindings_Get σ e m :
  parentsBelow σ → (e < length (envHeap σ))%nat →
  let c := (WithBindings e m σ).1 in
  let σ' := (WithBindings e m σ).2 in
  (∀ k, EnvGet σ' c k = match m !! k with
                         | Some v => Some v
                         | None => EnvGet σ e k
                         end)
  ∧ (∀ f k, (f < length (envHeap σ))%nat → EnvGet σ' f k = EnvGet σ f k)
  ∧ parentsBelow σ'.
Proof.
  intros Hwf He. cbv zeta.
  destruct (WithBindings_frames e m σ) as (Hc & Hlen & Hnew & Hold & _).
  rewrite Hc. set (σ' := (WithBindings e m σ).2) in *.
  assert (Hget : ∀ f k, (f < length (envHeap σ))%nat → EnvGet σ' f k = EnvGet σ f k).
  { intros f k Hf. apply EnvGet_old; [done|done|lia|].
    intros i Hi. apply Hold. lia. }
  split; [|split; [done|]].
  - intros k. unfold EnvGet at 1. rewrite Hlen. cbn [EnvGetFrom].
    rewrite Hnew. cbn [bindings parent].
    destruct (m !! k); [done|].
    fold (EnvGetFrom (length (envHeap σ)) σ' e k).
    rewrite (EnvGetFrom_ext σ σ' k Hwf _ e) by (intros i Hi; apply Hold; lia).
    done.
  - intros i p. destruct (decide (i < length (envHeap σ))%nat) as [Hi|Hi].
    + rewrite Hold by done. apply Hwf.
    + destruct (decide (i = length (envHeap σ))) as [->|Hne].
      * rewrite Hnew. cbn. intros [= <-]. done.
      * unfold envAt. rewrite lookup_ge_None_2 by lia. done.
Qed.

Lemma WithBindings_Get_witness :
  let σ := (NewEnv emptyStore).2 in
  let m : gmap string Value := {[ "x" := VInt 1 ]} in
  parentsBelow σ ∧ (0 < length (envHeap σ))%nat
  ∧ (∀ k, EnvGet (WithBindings 0 m σ).2 (WithBindings 0 m σ).1 k
          = match m !! k with Some v => Some v | None => EnvGet σ 0 k end)
  ∧ (∀ f k, (f < length (envHeap σ))%nat
            → EnvGet (WithBindings 0 m σ).2 f k = EnvGet σ f k)
  ∧ parentsBelow (WithBindings 0 m σ).2.
Proof.
  cbv zeta.
  assert (H1 : parentsBelow (NewEnv emptyStore).2).
  { intros [|[|i]] p; cbn; intros [=]. }
  assert (H2 : (0 < length (envHeap (NewEnv emptyStore).2))%nat) by (cbn; lia).
  exact (conj H1 (conj H2 (WithBindings_Get _ 0 {[ "x" := VInt 1 ]} H1 H2))).
Defined.

(** Lookup from a frame that has the bindings and the parent of an old
    frame [e], in a heap that kept the frames below [e]. *)
Lemma EnvGet_like σ σ' c e k :
  parentsBelow σ →
  (e < length (envHeap σ))%nat →
  (length (envHeap σ) ≤ length (envHeap σ'))%nat →
  bindings (envAt σ' c) = bindings (envAt σ e) →
  parent (envAt σ' c) = parent (envAt σ e) →
  (∀ i, (i < e)%nat → envAt σ' i = envAt σ i) →
  EnvGet σ' c k = EnvGet σ e k.
Proof.
  intros Hwf He Hlen Hb Hp Hsame. unfold EnvGet.
  destruct (length (envHeap σ')) as [|n'] eqn:E'; [lia|].
  destruct (length (envHeap σ)) as [|n] eqn:E; [lia|].
  cbn [EnvGetFrom]. rewrite Hb, Hp.
  destruct (bindings (envAt σ e) !! k); [done|].
  destruct (parent (envAt σ e)) as [p|] eqn:Ep; [|done].
  apply Hwf in Ep.
  rewrite (EnvGetFrom_ext σ σ' k Hwf _ p) by (intros i Hi; apply Hsame; lia).
  apply EnvGetFrom_fuel; [done|lia..].
Qed.

(** X9. A clone finds every name where the original finds it, and the
    two are independent afterwards: a binding set in the clone is not
    seen from the original, and a binding set in the original is not seen
    from the clone. *)
Theorem Clone_independent σ e :
  parentsBelow σ → (e < length (envHeap σ))%nat →
  let c := (Clone e σ).1 in
  let σ' := (Clone e σ).2 in
  c ≠ e
  ∧ (∀ j, EnvGet σ' c j = EnvGet σ e j)
  ∧ (∀ k v j, EnvGet (EnvSet c k v σ') e j = EnvGet σ e j)
  ∧ (∀ k v j, EnvGet (EnvSet e k v σ') c j = EnvGet σ e j).
Proof.
  intros Hwf He. unfold Clone. cbn [fst snd].
  set (c := length (envHeap σ)).
  set (σ' := mkStore _ _).
  assert (Hnew : envAt σ' c = mkEnv (bindings (envAt σ e)) (parent (envAt σ e))).
  { apply envAt_app_new. }
  assert (Hold : ∀ i, (i < c)%nat → envAt σ' i = envAt σ i).
  { intros i Hi. by apply envAt_app_old. }
  assert (Hlen : length (envHeap σ') = S c).
  { unfold σ'; simpl. rewrite length_app; simpl. lia. }
  split; [lia|]. split; [|split].
  - intros j. apply EnvGet_like; try done; [lia|by rewrite Hnew..|].
    intros i Hi. apply Hold. lia.
  - intros k v j. apply EnvGet_like; try done.
    + rewrite EnvSet_length. lia.
    + rewrite envAt_EnvSet_ne by lia. by rewrite Hold.
    + rewrite envAt_EnvSet_ne by lia. by rewrite Hold.
    + intros i Hi. rewrite envAt_EnvSet_ne by lia. apply Hold. lia.
  - intros k v j. apply EnvGet_like; try done.
    + rewrite EnvSet_length. lia.
    + rewrite envAt_EnvSet_ne by lia. by rewrite Hnew.
    + rewrite envAt_EnvSet_ne by lia. by rewrite Hnew.
    + intros i Hi. rewrite envAt_EnvSet_ne by lia. apply Hold. lia.
Qed.

Lemma Clone_independent_witness :
  let σ := EnvSet 0 "x" (VInt 1) (NewEnv emptyStore).2 in
  parentsBelow σ ∧ (0 < length (envHeap σ))%nat
  ∧ (Clone 0 σ).1 ≠ 0%nat
  ∧ (∀ j, EnvGet (Clone 0 σ).2 (Clone 0 σ).1 j = EnvGet σ 0 j)
  ∧ (∀ k v j, EnvGet (EnvSet (Clone 0 σ).1 k v (Clone 0 σ).2) 0 j = EnvGet σ 0 j)
  ∧ (∀ k v j, EnvGet (EnvSet 0 k v (Clone 0 σ).2) (Clone 0 σ).1 j = EnvGet σ 0 j).
Proof.
  cbv zeta.
  assert (H1 : parentsBelow (EnvSet 0 "x" (VInt 1) (NewEnv emptyStore).2)).
  { intros [|[|i]] p; cbn; intros [=]. }
  assert (H2 : (0 < length (envHeap (EnvSet 0 "x" (VInt 1) (NewEnv emptyStore).2)))%nat)
    by (cbn; lia).
  exact (conj H1 (conj H2 (Clone_independent _ 0 H1 H2))).
Defined.

End Frames.

(* ================================================================= *)
(** ** Building a derivation *)
(* ================================================================= *)

Section Building.
Import value derivation.

#[local] Existing Instance le_total.
#[local] Existing Instance Bytes_le_trans.
#[local] Existing Instance Bytes_le_antisym.

(** Sorting gives the same list for every order of the same strings. *)
Lemma sortStrings_perm l l' : l ≡ₚ l' → Bytes.sortStrings l = Bytes.sortStrings l'.
Proof.
  intros Hp. unfold Bytes.sortStrings.
  apply (Sorted_unique Bytes.le); try apply (Sorted_merge_sort Bytes.le).
  by rewrite !merge_sort_Permutation.
Qed.

Lemma sortStrings_sorted l : Sorted Bytes.le l → Bytes.sortStrings l = l.
Proof.
  intros Hs. unfold Bytes.sortStrings.
  apply (Sorted_unique Bytes.le); [apply (Sorted_merge_sort Bytes.le)|done|].
  apply merge_sort_Permutation.
Qed.

Lemma sortStrings_idemp l : Bytes.sortStrings (Bytes.sortStrings l) = Bytes.sortStrings l.
Proof. apply sortStrings_sorted. apply (Sorted_merge_sort Bytes.le). Qed.

(** Maps with the same keys have the same sorted keys. *)
Lemma sortedKeys_dom {A B} (m : gmap string A) (m' : gmap string B) :
  (∀ k, is_Some (m !! k) ↔ is_Some (m' !! k)) → sortedKeys m = sortedKeys m'.
Proof.
  intros Hdom. apply sortedKeys_eq; [apply sortedKeys_sorted|apply sortedKeys_NoDup|].
  intros j. by rewrite elem_of_sortedKeys.
Qed.

(** The input derivations of [d] and [d'] are the same up to the order
    of their lists of outputs. *)
Definition sameInputDrvs (m m' : gmap string (list string)) : Prop :=
  ∀ k, option_Forall2 Permutation (m !! k) (m' !! k).

(** The hashed lines depend on the listed fields only. *)
Lemma hashParts_ext d d' :
  Name d = Name d' → Builder d = Builder d' → Args d = Args d' →
  System d = System d' → Env d = Env d' →
  sameInputDrvs (InputDrvs d) (InputDrvs d') → InputSrcs d ≡ₚ InputSrcs d' →
  hashParts d = hashParts d'.
Proof.
  intros Hn Hb Ha Hs He Hi Hsrc. unfold hashParts.
  rewrite Hn, Hb, Ha, Hs, He, (sortStrings_perm _ _ Hsrc).
  do 2 f_equal. f_equal.
  assert (Hk : sortedKeys (InputDrvs d) = sortedKeys (InputDrvs d')).
  { apply sortedKeys_dom. intros k. specialize (Hi k).
    inversion Hi; split; intros [? ?]; by eauto || congruence. }
  rewrite Hk. apply list_fmap_ext. intros _ k _.
  specialize (Hi k). inversion Hi as [x y Hxy|]; simpl; [|done].
  by rewrite (sortStrings_perm _ _ Hxy).
Qed.

Lemma sameInputDrvs_sorted m : sameInputDrvs (Bytes.sortStrings <$> m) m.
Proof.
  intros k. rewrite lookup_fmap. destruct (m !! k); constructor.
  apply merge_sort_Permutation.
Qed.

#[local] Instance sameInputDrvs_equiv : Equivalence sameInputDrvs.
Proof.
  split.
  - intros m k. by destruct (m !! k); constructor.
  - intros m m' H k. specialize (H k). inversion H; constructor. done.
  - intros m1 m2 m3 H1 H2 k. specialize (H1 k). specialize (H2 k).
    inversion H1 as [? ? E1|]; inversion H2 as [? ? E2|]; try congruence; constructor.
    etrans; [exact E1|]. congruence.
Qed.

(** X10. The hash and the store path that [Build] computes depend on the
    name, the builder, the arguments, the system, the environment, the
    input derivations up to the order of their outputs and the input
    sources up to their order; they do not depend on the outputs of the
    derivation, nor on the order in which the input sources were added. *)
Theorem Build_hash_invariant d d' :
  Name d = Name d' → Builder d = Builder d' → Args d = Args d' →
  System d = System d' → Env d = Env d' →
  sameInputDrvs (InputDrvs d) (InputDrvs d') → InputSrcs d ≡ₚ InputSrcs d' →
  Hash (Build d) = Hash (Build d') ∧ StorePath (Build d) = StorePath (Build d').
Proof.
  intros Hn Hb Ha Hs He Hi Hsrc.
  assert (Hh : Hash (Build d) = Hash (Build d')).
  { unfold Build. cbn [Hash]. unfold computeHash. cbv zeta. do 3 f_equal.
    apply hashParts_ext; cbn [Name Builder Args System Env InputDrvs InputSrcs];
      try congruence.
    etrans; [apply sameInputDrvs_sorted|]. etrans; [exact Hi|].
    symmetry. apply sameInputDrvs_sorted. }
  split; [exact Hh|].
  unfold Build in *. cbn [Hash StorePath] in *. by rewrite Hh, Hn.
Qed.

(** Two builders of [pkg]: the sources added in opposite orders, and an
    output given to one of them only. *)
Definition pkgA : Derivation :=
  AddInputSrc "b.c" (AddInputSrc "a.c" (SetBuilder "/bin/sh" (NewDerivation "pkg"))).
Definition pkgB : Derivation :=
  AddOutput "dev" "/tmp/dev"
    (AddInputSrc "a.c" (AddInputSrc "b.c" (SetBuilder "/bin/sh" (NewDerivation "pkg")))).

Lemma Build_hash_invariant_witness :
  InputSrcs pkgA ≠ InputSrcs pkgB ∧ Outputs pkgA ≠ Outputs pkgB
  ∧ Hash (Build pkgA) = Hash (Build pkgB)
  ∧ StorePath (Build pkgA) = StorePath (Build pkgB).
Proof.
  split; [discriminate|]. split.
  { intros H. apply (f_equal (fun m => m !! "dev")) in H. vm_compute in H. discriminate. }
  apply (Build_hash_invariant pkgA pkgB); try reflexivity.
  simpl. apply Permutation_swap.
Defined.

Lemma Clean_nonempty p : filepath.Clean p ≠ "".
Proof.
  unfold filepath.Clean. cbv zeta.
  destruct (String.eqb _ "") eqn:E; [discriminate|].
  by apply String.eqb_neq in E.
Qed.

Lemma Join_nonempty a b : a ≠ "" → filepath.Join a b ≠ "".
Proof.
  intros Ha. unfold filepath.Join.
  apply String.eqb_neq in Ha. rewrite Ha.
  destruct (String.eqb b ""); apply Clean_nonempty.
Qed.

(** X11. Building a derivation that is already built changes nothing:
    the environment, the sorted input derivations, the hash, the store
    path and the output paths are those of the first build. *)
Theorem Build_idempotent d : Build (Build d) = Build d.
Proof.
  set (b := Build d).
  assert (Henv : <["pname" := Name b]> (Env b) = Env b).
  { unfold b, Build. cbn [Env Name]. by rewrite insert_insert_eq. }
  assert (Hdrv : Bytes.sortStrings <$> InputDrvs b = InputDrvs b).
  { unfold b, Build. cbn [InputDrvs]. rewrite <- map_fmap_compose.
    apply map_fmap_ext. intros k l _. simpl. apply sortStrings_idemp. }
  assert (Hsize : (size (Outputs b) =? 0)%nat = false).
  { apply Nat.eqb_neq. unfold b, Build. cbn [Outputs]. intros Hz.
    apply map_size_empty_inv in Hz.
    destruct (size (Outputs d) =? 0)%nat eqn:E.
    - apply (f_equal (fun m => m !! "out")) in Hz.
      rewrite map_lookup_imap, lookup_insert_eq, lookup_empty in Hz. done.
    - apply Nat.eqb_neq in E. apply E. apply map_size_empty_iff.
      apply map_eq. intros k. apply (f_equal (fun m => m !! k)) in Hz.
      rewrite map_lookup_imap, lookup_empty in Hz. rewrite lookup_empty.
      by destruct (Outputs d !! k). }
  assert (Hhash : ∀ o h s,
    computeHash {| Name := Name b; Builder := Builder b; Args := Args b;
                   Env := Env b; Outputs := o; InputDrvs := InputDrvs b;
                   InputSrcs := InputSrcs b; System := System b;
                   Hash := h; StorePath := s |} = Hash b).
  { intros o h s. reflexivity. }
  unfold Build at 1. fold b. rewrite Henv, Hdrv, Hsize. cbn [InputDrvs]. rewrite Hhash.
  assert (Hpath : "/nix/store/" ++ Hash b ++ "-" ++ Name b = StorePath b).
  { unfold b, Build. reflexivity. }
  rewrite Hpath.
  assert (Hout : map_imap (λ name path, Some (if String.eqb path "" then filepath.Join (StorePath b) name else path)) (Outputs b) = Outputs b).
  { apply map_eq. intros k. rewrite map_lookup_imap.
    destruct (Outputs b !! k) as [p|] eqn:Hk; [|done]. simpl. f_equal.
    destruct (String.eqb p "") eqn:Hp; [|done]. exfalso.
    apply String.eqb_eq in Hp. subst p. revert Hk.
    unfold b at 1. unfold Build. cbn [Outputs]. rewrite map_lookup_imap.
    match goal with |- context [?m !! k] => destruct (m !! k) as [q|]; [|done] end.
    simpl. intros [= Hq]. destruct (String.eqb q "") eqn:Eq.
    - revert Hq. apply Join_nonempty. done.
    - apply String.eqb_neq in Eq. done. }
  rewrite Hout. by destruct b.
Qed.

End Building.

(* ================================================================= *)
(** ** A derivation as an attribute set, and back *)
(* ================================================================= *)

Section AsAttrs.
Import value derivation.

(** What a loop of [Set] over the keys [ks] leaves in the set [a]. *)
Lemma set_fold (f : string → Value) σ a ks :
  (a < length (attrsHeap σ))%nat →
  let σ' := fold_left (fun σ name => AttrsSet a name (f name) σ) ks σ in
  length (attrsHeap σ') = length (attrsHeap σ)
  ∧ (∀ b, b ≠ a → attrsAt σ' b = attrsAt σ b)
  ∧ (∀ j, attrsAt σ' a !! j
          = if decide (j ∈ ks) then Some (f j) else attrsAt σ a !! j).
Proof.
  revert σ. induction ks as [|k ks IH]; intros σ Hlt; simpl.
  - repeat split; done.
  - destruct (IH (AttrsSet a k (f k) σ)) as (Hlen & Hoth & Hres).
    { by rewrite AttrsSet_length. }
    repeat split.
    + by rewrite Hlen, AttrsSet_length.
    + intros b Hb. rewrite Hoth by done. by apply attrsAt_AttrsSet_ne.
    + intros j. rewrite Hres, attrsAt_AttrsSet_eq by done.
      destruct (decide (j ∈ ks)) as [Hin|Hnin].
      * by rewrite decide_True by set_solver.
      * destruct (decide (j = k)) as [->|Hjk].
        -- by rewrite lookup_insert_eq, decide_True by set_solver.
        -- rewrite lookup_insert_ne by done. by rewrite decide_False by set_solver.
Qed.

(** The attributes that [ToAttrs] sets before the outputs. *)
Definition basicAttrs (d : Derivation) (outAttrs : loc) : gmap string Value :=
  <["outputs" := VAttrs outAttrs]>
    (<["args" := VList (VString <$> Args d)]>
       (<["drvPath" := VString (StorePath d ++ ".drv")]>
          (<["system" := VString (System d)]>
             (<["builder" := VString (Builder d)]>
                (<["name" := VString (Name d)]> ∅))))).

(** The set that [ToAttrs] makes: the basic attributes, and over them
    one attribute for each output; the set of the outputs is the next
    one in the heap. *)
Lemma ToAttrs_contents d σ :
  let a := length (attrsHeap σ) in
  (ToAttrs d σ).1 = a
  ∧ attrsAt (ToAttrs d σ).2 a = (VString <$> Outputs d) ∪ basicAttrs d (S a)
  ∧ attrsAt (ToAttrs d σ).2 (S a) = VString <$> Outputs d.
Proof.
  intros a. unfold ToAttrs, NewAttrs. cbn [fst snd]. fold a.
  set (σ0 := mkStore (attrsHeap σ ++ [∅]) (envHeap σ)).
  assert (Ha0 : attrsAt σ0 a = ∅).
  { unfold attrsAt, σ0, a; simpl. by rewrite list_lookup_middle. }
  assert (Hl0 : length (attrsHeap σ0) = S a).
  { unfold σ0, a; simpl. rewrite length_app; simpl. lia. }
  match goal with
  | |- context [AttrsSet a "args" ?v ?s] => set (σ1 := AttrsSet a "args" v s)
  end.
  assert (Hl1 : length (attrsHeap σ1) = S a).
  { unfold σ1. by rewrite !AttrsSet_length. }
  assert (Ha1 : attrsAt σ1 a
                = <["args" := VList (VString <$> Args d)]>
                    (<["drvPath" := VString (StorePath d ++ ".drv")]>
                       (<["system" := VString (System d)]>
                          (<["builder" := VString (Builder d)]>
                             (<["name" := VString (Name d)]> ∅))))).
  { unfold σ1. rewrite !attrsAt_AttrsSet_eq by (rewrite ?AttrsSet_length; lia).
    by rewrite Ha0. }
  rewrite Hl1.
  set (σ2 := mkStore (attrsHeap σ1 ++ [∅]) (envHeap σ1)).
  assert (Hl2 : length (attrsHeap σ2) = S (S a)).
  { unfold σ2. cbn [attrsHeap]. rewrite length_app, Hl1. simpl. lia. }
  assert (Ha2 : attrsAt σ2 a = attrsAt σ1 a).
  { unfold attrsAt, σ2. cbn [attrsHeap]. by rewrite lookup_app_l by lia. }
  assert (Ho2 : attrsAt σ2 (S a) = ∅).
  { unfold attrsAt, σ2. cbn [attrsHeap]. rewrite <- Hl1. by rewrite list_lookup_middle. }
  set (f := fun name => VString (default "" (Outputs d !! name))).
  pose proof (set_fold f σ2 (S a) (sortedKeys (Outputs d)) ltac:(lia)) as H3.
  cbv zeta in H3. set (σ3 := fold_left _ _ σ2) in *.
  destruct H3 as (Hl3 & Hoth3 & Hres3).
  set (σ4 := AttrsSet a "outputs" (VAttrs (S a)) σ3).
  assert (Hl4 : length (attrsHeap σ4) = S (S a)).
  { unfold σ4. by rewrite AttrsSet_length, Hl3. }
  pose proof (set_fold f σ4 a (sortedKeys (Outputs d)) ltac:(lia)) as H5.
  cbv zeta in H5. set (σ5 := fold_left _ _ σ4) in *.
  destruct H5 as (Hl5 & Hoth5 & Hres5).
  assert (Hout : ∀ m : gmap string Value, ∀ j,
            (if decide (j ∈ sortedKeys (Outputs d)) then Some (f j) else m !! j)
            = ((VString <$> Outputs d) ∪ m) !! j).
  { intros m j. destruct (decide _) as [Hin|Hnin].
    - apply elem_of_sortedKeys in Hin as [p Hp]. symmetry.
      apply lookup_union_Some_l. rewrite lookup_fmap, Hp. unfold f. by rewrite Hp.
    - rewrite lookup_union_r; [done|]. rewrite lookup_fmap.
      destruct (Outputs d !! j) eqn:Hj; [|done].
      exfalso. apply Hnin. apply elem_of_sortedKeys. by rewrite Hj. }
  split; [done|]. split.
  - apply map_eq. intros j. rewrite Hres5, Hout. f_equal. f_equal.
    unfold σ4. rewrite attrsAt_AttrsSet_eq by lia.
    rewrite Hoth3 by lia. by rewrite Ha2, Ha1.
  - rewrite Hoth5 by lia. unfold σ4. rewrite attrsAt_AttrsSet_ne by lia.
    apply map_eq. intros j. rewrite Hres3, Hout, Ho2.
    by rewrite (right_id ∅ (∪)).
Qed.

(** [Build] does not read the hash and the store path of its argument. *)
Lemma Build_ext d d' :
  Name d = Name d' → Builder d = Builder d' → Args d = Args d' →
  Env d = Env d' → Outputs d = Outputs d' → InputDrvs d = InputDrvs d' →
  InputSrcs d = InputSrcs d' → System d = System d' → Build d = Build d'.
Proof.
  destruct d, d'; simpl. intros. subst. reflexivity.
Qed.

(** The builder that [FromAttrs] fills from the set of [d]. *)
Definition readBack (d : Derivation) : Derivation :=
  {| Name := Name d; Builder := Builder d; Args := Args d;
     Env := Outputs d ∪ {["drvPath" := StorePath d ++ ".drv"]};
     Outputs := ∅; InputDrvs := ∅; InputSrcs := []; System := System d;
     Hash := ""; StorePath := "" |}.

(** X12. The attribute set of a derivation, none of whose outputs is
    named [name], [builder], [system], [args] or [outputs], is read back
    as a derivation with the same name, builder, arguments and system;
    its environment is not the original one but the outputs and
    [drvPath], and it has no inputs and the default output only. *)
Theorem ToAttrs_FromAttrs d σ :
  (∀ k, reserved k = true → Outputs d !! k = None) →
  FromAttrs (ToAttrs d σ).2 (ToAttrs d σ).1 = inl (Build (readBack d)).
Proof.
  intros Hres.
  destruct (ToAttrs_contents d σ) as (Ha & Hat & _).
  set (a := length (attrsHeap σ)) in *. rewrite Ha.
  set (σ' := (ToAttrs d σ).2) in *.
  assert (Hget : ∀ j, AttrsGet σ' a j
                      = match Outputs d !! j with
                        | Some p => Some (VString p)
                        | None => basicAttrs d (S a) !! j
                        end).
  { intros j. unfold AttrsGet. rewrite Hat.
    destruct (Outputs d !! j) as [p|] eqn:Hj.
    - apply lookup_union_Some_l. by rewrite lookup_fmap, Hj.
    - rewrite lookup_union_r; [done|]. by rewrite lookup_fmap, Hj. }
  unfold FromAttrs.
  rewrite !Hget, !Hres by done. unfold basicAttrs.
  rewrite !lookup_insert_ne, lookup_insert_eq by done.
  rewrite (lookup_insert_ne _ "outputs" "builder"), (lookup_insert_ne _ "args" "builder"),
    (lookup_insert_ne _ "drvPath" "builder"), (lookup_insert_ne _ "system" "builder"),
    lookup_insert_eq by done.
  rewrite (lookup_insert_ne _ "outputs" "system"), (lookup_insert_ne _ "args" "system"),
    (lookup_insert_ne _ "drvPath" "system"), lookup_insert_eq by done.
  rewrite (lookup_insert_ne _ "outputs" "args"), lookup_insert_eq by done.
  f_equal.
  match goal with
  | |- context [fold_left ?f ?ks ?db0] =>
      change f with (envStep σ' a);
      pose proof (envStep_fold σ' a ks db0) as Hf; cbv zeta in Hf;
      set (db := fold_left (envStep σ' a) ks db0) in *
  end.
  destruct Hf as (H1 & H2 & H3 & H4 & H5 & H6 & H7 & H8).
  apply Build_ext; rewrite ?H1, ?H2, ?H3, ?H4, ?H5, ?H6, ?H7; try reflexivity.
  - simpl. rewrite <- list_fmap_compose. apply list_fmap_id.
  - apply map_eq. intros j. rewrite H8. simpl. rewrite lookup_empty.
    assert (Hs : suppliedEnv σ' a j
                 = (Outputs d ∪ {["drvPath" := StorePath d ++ ".drv"]}) !! j).
    { unfold suppliedEnv. rewrite Hget.
      destruct (reserved j) eqn:Hr.
      - rewrite lookup_union_r by (by apply Hres).
        rewrite lookup_singleton_ne; [done|]. by intros <-.
      - destruct (Outputs d !! j) as [p|] eqn:Hj.
        + symmetry. by apply lookup_union_Some_l.
        + rewrite lookup_union_r by done.
          unfold reserved in Hr. rewrite !orb_false_iff in Hr.
          destruct Hr as ((((Hn & Hb) & Hy) & Hg) & Ho).
          apply String.eqb_neq in Hn, Hb, Hy, Hg, Ho.
          unfold basicAttrs. rewrite !(lookup_insert_ne _ _ j) by done.
          destruct (decide (j = "drvPath")) as [->|Hne].
          * by rewrite lookup_insert_eq, lookup_singleton_eq.
          * rewrite !lookup_insert_ne, lookup_empty by done.
            by rewrite lookup_singleton_ne. }
    destruct (decide (j ∈ AttrsKeys σ' a)) as [Hin|Hnin].
    + rewrite Hs. by destruct (_ !! j).
    + rewrite <- Hs. symmetry. unfold suppliedEnv.
      destruct (reserved j); [done|].
      assert (AttrsGet σ' a j = None) as ->; [|done].
      apply eq_None_not_Some. intros Hsome. apply Hnin. by apply elem_of_sortedKeys.
Qed.

(** The set of the derivation of [{ name = "hello"; builder = "/bin/sh"; }]
    is read back with another environment, hence another hash. *)
Lemma ToAttrs_FromAttrs_witness :
  FromAttrs (ToAttrs helloDrv emptyStore).2 (ToAttrs helloDrv emptyStore).1
  = inl (Build (readBack helloDrv))
  ∧ Hash (Build (readBack helloDrv)) ≠ Hash helloDrv.
Proof.
  split.
  - apply (ToAttrs_FromAttrs helloDrv emptyStore).
    intros k Hk. unfold helloDrv. rewrite Build_outputs by done.
    apply lookup_singleton_ne. by intros <-.
  - vm_compute. discriminate.
Defined.

End AsAttrs.

(* ================================================================= *)
(** ** The trees that the parser builds *)
(* ================================================================= *)

Section ParserShape.
Import lexer types parser.

(** A tree without the update operator, without a path literal, without
    an attribute test and without a default in a selection. *)
Fixpoint parserShape (e : Expr) : bool :=
  match e with
  | NilExpr | IntExpr _ | FloatExpr _ | StringExpr _ | BoolExpr _
  | NullExpr | IdentExpr _ => true
  | PathExpr _ => false
  | ListExpr es => forallb parserShape es
  | AttrSetExpr _ bs => forallb (fun '(_, x) => parserShape x) bs
  | BinaryExpr a op b =>
      match op with OpUpdate => false | _ => parserShape a && parserShape b end
  | UnaryExpr _ a => parserShape a
  | IfExpr c a b => parserShape c && parserShape a && parserShape b
  | LetExpr bs b => forallb (fun '(_, x) => parserShape x) bs && parserShape b
  | WithExpr a b | AssertExpr a b | ApplyExpr a b => parserShape a && parserShape b
  | FunctionExpr _ b => parserShape b
  | SelectExpr a _ d => isNil d && parserShape a
  | HasAttrExpr _ _ => false
  end.

Definition good (e : Expr) : Prop := parserShape e = true.
Definition goods (es : list Expr) : Prop := forallb parserShape es = true.
Definition goodFields {K} (bs : list (K * Expr)) : Prop :=
  forallb (fun '(_, x) => parserShape x) bs = true.
Definition whatever {A} (_ : A) : Prop := True.

(** The two tokens that the parser holds are not paths. *)
Definition NoPath (p : Parser) : Prop :=
  Type_ (cur p) ≠ TOKEN_PATH ∧ Type_ (peek p) ≠ TOKEN_PATH.

(** The action [m] keeps [NoPath], and what it returns satisfies [Q]. *)
Definition Keeps {A} (Q : A → Prop) (m : P A) : Prop :=
  ∀ p a p', NoPath p → m p = Done (a, p') → NoPath p' ∧ Q a.

Lemma Keeps_ret {A} (Q : A → Prop) a : Q a → Keeps Q (parser.ret a).
Proof. intros Ha p b p' Hp [= <- <-]. done. Qed.

Lemma Keeps_bind {A B} (Q : A → Prop) (R : B → Prop) m k :
  Keeps Q m → (∀ a, Q a → Keeps R (k a)) → Keeps R (parser.bind m k).
Proof.
  intros Hm Hk p b p' Hp. unfold parser.bind.
  destruct (m p) as [[a p1]| |] eqn:E; [|done..].
  destruct (Hm _ _ _ Hp E) as [Hp1 Ha]. by apply Hk.
Qed.

Lemma Keeps_bind_get {B} (R : B → Prop) k :
  (∀ q, NoPath q → Keeps R (k q)) → Keeps R (parser.bind parser.get k).
Proof. intros Hk p b p' Hp. unfold parser.bind, parser.get. by apply Hk. Qed.

(** The same of one run, from the parser [q]. *)
Definition KeepsAt {A} (q : Parser) (Q : A → Prop) (m : P A) : Prop :=
  NoPath q → ∀ a p', m q = Done (a, p') → NoPath p' ∧ Q a.

Lemma Keeps_bind_get_at {B} (R : B → Prop) k :
  (∀ q, KeepsAt q R (k q)) → Keeps R (parser.bind parser.get k).
Proof. intros Hk p b p' Hp. unfold parser.bind, parser.get. by apply Hk. Qed.

Lemma KeepsAt_of_Keeps {A} q (Q : A → Prop) m : Keeps Q m → KeepsAt q Q m.
Proof. intros Hm Hq a p'. by apply Hm. Qed.

(** The token that [advance] reads is not a path: the case of [/] comes
    before the case that reads one. *)
Lemma read_no_path lx t lx' :
  NextToken lx = Done (t, lx') → Type_ t ≠ TOKEN_PATH.
Proof.
  unfold NextToken. cbv zeta.
  set (l0 := skipTrivia (budget lx) lx).
  repeat match goal with
         | |- (if ?c then _ else _) = _ → _ => destruct c eqn:?
         end;
    try (intros [= <- <-]; done).
  - destruct (readString l0) as [[lit|] l1]; [|done]. by intros [= <- <-].
  - destruct (readIdentifier l0) as [lit l1]. intros [= <- <-].
    apply LookupIdent_not_path.
  - destruct (readNumber l0) as [[lit ty] l1] eqn:E. intros [= <- <-]. simpl.
    unfold readNumber in E.
    destruct (_ && _) in E; by injection E as <- <- <-.
Qed.

Lemma advance_at q a q1 :
  NoPath q → advance q = Done (a, q1) →
  NoPath q1 ∧ Type_ (cur q1) = Type_ (peek q).
Proof.
  intros [Hc Hp]. unfold advance.
  destruct (NextToken (l q)) as [[t l']| |] eqn:E; [|done..].
  intros [= <- <-]. repeat split; simpl; [done|].
  by eapply read_no_path.
Qed.

Lemma Keeps_weaken {A} (Q Q' : A → Prop) m :
  Keeps Q m → (∀ a, Q a → Q' a) → Keeps Q' m.
Proof. intros Hm HQ p a p' Hp E. destruct (Hm _ _ _ Hp E). auto. Qed.

Lemma Keeps_diverge {A} (Q : A → Prop) : Keeps Q parser.diverge.
Proof. intros p a p' _ [=]. Qed.

Lemma Keeps_advance : Keeps whatever advance.
Proof. intros p a p' Hp E. by destruct (advance_at _ _ _ Hp E). Qed.

Lemma Keeps_addError line col msg : Keeps whatever (addError line col msg).
Proof. intros p a p' Hp [= <- <-]. done. Qed.

Lemma Keeps_skip : Keeps whatever (parser.ret tt).
Proof. by apply Keeps_ret. Qed.

Create HintDb keeps.
#[local] Hint Resolve Keeps_advance Keeps_addError Keeps_diverge Keeps_skip : keeps.

(** One step through the code of a parsing function. *)
Ltac finish :=
  repeat match goal with
         | H : good _ |- _ => unfold good in H
         | H : goods _ |- _ => unfold goods in H
         | H : goodFields _ |- _ => unfold goodFields in H
         | H : whatever _ |- _ => clear H
         end;
  unfold good, goods, goodFields, whatever;
  cbn [parserShape forallb isNil];
  rewrite ?forallb_app; cbn [forallb];
  repeat (apply andb_true_intro; split);
  first [done | assumption | idtac].

Ltac keeps :=
  repeat lazymatch goal with
    | |- Keeps _ (parser.bind parser.get _) => apply Keeps_bind_get; intros ? ?
    | |- Keeps _ (parser.bind (if ?b then _ else _) _) => destruct b
    | |- Keeps _ (parser.bind _ _) =>
        eapply Keeps_bind; [solve [eauto with keeps]|intros ? ?]
    | |- Keeps _ (parser.ret _) => apply Keeps_ret; finish
    | |- Keeps _ (if ?b then _ else _) => destruct b
    | |- Keeps _ (match ?x with _ => _ end) => destruct x
    | |- Keeps _ parser.diverge => apply Keeps_diverge
    end.

Lemma Keeps_errorAtCur msg : Keeps whatever (errorAtCur msg).
Proof. unfold errorAtCur. keeps. eauto with keeps. Qed.
Lemma Keeps_curIs t : Keeps whatever (curIs t).
Proof. unfold curIs. keeps. Qed.
Lemma Keeps_peekIs t : Keeps whatever (peekIs t).
Proof. unfold peekIs. keeps. Qed.
#[local] Hint Resolve Keeps_errorAtCur Keeps_curIs Keeps_peekIs : keeps.
Lemma Keeps_expectPeek t : Keeps whatever (expectPeek t).
Proof. unfold expectPeek. keeps. Qed.
Lemma Keeps_peekPrecedence : Keeps whatever peekPrecedence.
Proof. unfold peekPrecedence. keeps. Qed.
Lemma Keeps_curPrecedence : Keeps whatever curPrecedence.
Proof. unfold curPrecedence. keeps. Qed.
Lemma Keeps_couldBeArgument : Keeps whatever couldBeArgument.
Proof. unfold couldBeArgument. keeps. Qed.
Lemma Keeps_parseInt : Keeps good parseInt.
Proof. unfold parseInt. keeps. Qed.
Lemma Keeps_parseFloat : Keeps good parseFloat.
Proof. unfold parseFloat. keeps. Qed.
Lemma Keeps_parseString : Keeps good parseString.
Proof. unfold parseString. keeps. Qed.
#[local] Hint Resolve Keeps_expectPeek Keeps_peekPrecedence Keeps_curPrecedence
  Keeps_couldBeArgument Keeps_parseInt Keeps_parseFloat Keeps_parseString : keeps.

Section Functions.
Variable pe : nat → P Expr.
Hypothesis Hpe : ∀ prec, Keeps good (pe prec).
Variable fuel : nat.
#[local] Hint Resolve Hpe : keeps.

Lemma Keeps_parseUnary op : Keeps good (parseUnary pe op).
Proof. unfold parseUnary. keeps. Qed.

Lemma Keeps_parseBinary left op :
  good left → op ≠ OpUpdate → Keeps good (parseBinary pe left op).
Proof. intros Hl Hop. unfold parseBinary. keeps. destruct op; try done; finish. Qed.

Lemma Keeps_parseGrouped : Keeps good (parseGrouped pe).
Proof. unfold parseGrouped. keeps. Qed.

Lemma Keeps_parseFunction : Keeps good (parseFunction pe).
Proof. unfold parseFunction. keeps. Qed.

Lemma Keeps_parseFunctionApplication fn :
  good fn → Keeps good (parseFunctionApplication pe fn).
Proof. intros Hf. unfold parseFunctionApplication. keeps. Qed.

Lemma Keeps_parseListLoop n es : goods es → Keeps goods (parseListLoop pe n es).
Proof.
  revert es. induction n as [|n IH]; intros es Hes; cbn [parseListLoop]; keeps.
  all: apply IH; finish.
Qed.
#[local] Hint Resolve Keeps_parseListLoop : keeps.

Lemma Keeps_parseList : Keeps good (parseList pe fuel).
Proof.
  unfold parseList. keeps.
  eapply Keeps_bind; [apply Keeps_parseListLoop; finish|intros ? ?]. keeps.
Qed.

Lemma Keeps_parseAttrPathLoop n path : Keeps whatever (parseAttrPathLoop n path).
Proof.
  revert path. induction n as [|n IH]; intros path; cbn [parseAttrPathLoop]; keeps.
  apply IH.
Qed.
#[local] Hint Resolve Keeps_parseAttrPathLoop : keeps.

Lemma Keeps_parseAttrPath : Keeps whatever (parseAttrPath fuel).
Proof. unfold parseAttrPath. keeps. eauto with keeps. Qed.
#[local] Hint Resolve Keeps_parseAttrPath : keeps.

Definition goodBinding (b : option AttrBinding) : Prop :=
  match b with Some (_, x) => good x | None => True end.

Lemma Keeps_parseBinding : Keeps goodBinding (parseBinding pe fuel).
Proof. unfold parseBinding. keeps. Qed.
#[local] Hint Resolve Keeps_parseBinding : keeps.

Lemma Keeps_skipToSemicolon n : Keeps whatever (skipToSemicolon n).
Proof. induction n as [|n IH]; cbn [skipToSemicolon]; keeps. apply IH. Qed.
#[local] Hint Resolve Keeps_skipToSemicolon : keeps.

Lemma Keeps_parseInherit : Keeps whatever (parseInherit fuel).
Proof. unfold parseInherit. keeps; eauto with keeps. Qed.
#[local] Hint Resolve Keeps_parseInherit : keeps.

Lemma Keeps_parseAttrSetLoop n bs :
  goodFields bs → Keeps goodFields (parseAttrSetLoop pe fuel n bs).
Proof.
  revert bs. induction n as [|n IH]; intros bs Hbs; cbn [parseAttrSetLoop]; keeps.
  - eapply Keeps_bind with (Q := goodFields); [|intros bs' Hbs'; keeps; by apply IH].
    keeps.
  - eapply Keeps_bind with (Q := goodFields); [|intros bs' Hbs'; keeps; by apply IH].
    keeps. unfold goodBinding in *. destruct a1 as [path x]. finish.
Qed.

Lemma Keeps_parseAttrSet : Keeps good (parseAttrSet pe fuel).
Proof.
  unfold parseAttrSet. keeps.
  all: eapply Keeps_bind with (Q := goodFields);
    [by apply Keeps_parseAttrSetLoop|intros ? ?]; keeps.
Qed.

Lemma Keeps_parseSelect x : good x → Keeps good (parseSelect fuel x).
Proof. intros Hx. unfold parseSelect. keeps. Qed.

Lemma Keeps_parseIf : Keeps good (parseIf pe).
Proof. unfold parseIf. keeps. Qed.

Definition goodBindings (bs : option (list Binding)) : Prop :=
  match bs with Some bs => goodFields bs | None => True end.

Lemma Keeps_parseLetLoop n bs :
  goodFields bs → Keeps goodBindings (parseLetLoop pe n bs).
Proof.
  revert bs. induction n as [|n IH]; intros bs Hbs; cbn [parseLetLoop]; keeps.
  apply IH. finish.
Qed.

Lemma Keeps_parseLet : Keeps good (parseLet pe fuel).
Proof.
  unfold parseLet. keeps.
  eapply Keeps_bind; [by apply Keeps_parseLetLoop|intros ? ?]. keeps.
Qed.

Lemma Keeps_parseWith : Keeps good (parseWith pe).
Proof. unfold parseWith. keeps. Qed.

Lemma Keeps_parseAssert : Keeps good (parseAssert pe).
Proof. unfold parseAssert. keeps. Qed.

Lemma Keeps_parseIdentifierOrFunction : Keeps good (parseIdentifierOrFunction pe).
Proof. unfold parseIdentifierOrFunction. keeps. apply Keeps_parseFunction. Qed.

Lemma Keeps_parsePrefixExpression : Keeps good (parsePrefixExpression pe fuel).
Proof.
  unfold parsePrefixExpression. apply Keeps_bind_get. intros q [Hq _].
  destruct (Type_ (cur q)); try done;
    first [ apply Keeps_parseInt | apply Keeps_parseFloat | apply Keeps_parseString
          | apply Keeps_parseIdentifierOrFunction | apply Keeps_parseIf
          | apply Keeps_parseLet | apply Keeps_parseWith | apply Keeps_parseAssert
          | apply Keeps_parseUnary | apply Keeps_parseAttrSet | apply Keeps_parseList
          | apply Keeps_parseGrouped | keeps ].
Qed.

(** [parseInfixExpression] is called on an operator of the precedence
    table: the cases of [?] and of [or] are not reached. *)
Lemma parseInfixExpression_at left q :
  isInfixOperator (Type_ (cur q)) = true → good left →
  KeepsAt q good (parseInfixExpression pe fuel left).
Proof.
  intros Hi Hl Hq a p'. unfold parseInfixExpression, parser.bind at 1, parser.get.
  destruct (Type_ (cur q)); try discriminate Hi;
    first [ by apply Keeps_parseBinary | by apply Keeps_parseSelect ].
Qed.

Lemma Keeps_parseInfixLoop n prec prefix :
  good prefix → Keeps good (parseInfixLoop pe fuel n prec prefix).
Proof.
  revert prefix. induction n as [|n IH]; intros prefix Hp; cbn [parseInfixLoop];
    [apply Keeps_diverge|].
  eapply Keeps_bind; [eauto with keeps|intros semi _].
  eapply Keeps_bind; [eauto with keeps|intros eof _].
  destruct (semi || eof); [keeps|].
  eapply Keeps_bind; [eauto with keeps|intros pp _].
  eapply Keeps_bind; [eauto with keeps|intros arg _].
  destruct (_ && _); [keeps|].
  apply Keeps_bind_get_at. intros q.
  destruct (isInfixOperator (Type_ (peek q))) eqn:Hi.
  - intros Hq a p'. unfold parser.bind at 1.
    destruct (advance q) as [[[] q1]| |] eqn:Ea; [|done..].
    destruct (advance_at _ _ _ Hq Ea) as [H1 Hcur].
    unfold parser.bind.
    destruct (parseInfixExpression pe fuel prefix q1) as [[x q2]| |] eqn:Ex; [|done..].
    rewrite <- Hcur in Hi.
    destruct (parseInfixExpression_at prefix q1 Hi Hp H1 _ _ Ex) as [H2 Hx].
    by apply IH.
  - apply KeepsAt_of_Keeps. keeps.
    eapply Keeps_bind; [by apply Keeps_parseFunctionApplication|intros ? ?].
    by apply IH.
Qed.

Lemma Keeps_parseExpressionBody prec : Keeps good (parseExpressionBody pe fuel prec).
Proof.
  unfold parseExpressionBody.
  eapply Keeps_bind; [apply Keeps_parsePrefixExpression|intros prefix Hp].
  destruct (isNil prefix); keeps. by apply Keeps_parseInfixLoop.
Qed.

End Functions.

Lemma Keeps_parseExpression fuel prec : Keeps good (parseExpression fuel prec).
Proof.
  revert prec. induction fuel as [|n IH]; intros prec; cbn [parseExpression].
  - apply Keeps_diverge.
  - by apply Keeps_parseExpressionBody.
Qed.

(** X13. Whatever the source text, the tree that the parser returns has
    no update operator, no path literal, no attribute test [?] and no
    default [or] in a selection: no token stands for [//], the lexer
    gives no path token, and [?] and [or] are not in the precedence
    table, so that the expression ends before them. *)
Theorem parser_output_shape fuel src ast :
  parseSource fuel src = Done (inl ast) → parserShape ast = true.
Proof.
  unfold parseSource, parser.New, Parse.
  set (p0 := mkParser _ _ _ _).
  assert (H0 : NoPath p0) by (by split).
  assert (Hadv : Keeps whatever (parser.bind advance (fun _ => advance))).
  { keeps. eauto with keeps. }
  destruct (parser.bind advance _ p0) as [[[] p1]| |] eqn:E1; [|done..].
  destruct (Hadv _ _ _ H0 E1) as [H1 _].
  destruct (parseExpression fuel precedenceLowest p1) as [[x p2]| |] eqn:E2; [|done..].
  destruct (Keeps_parseExpression fuel _ _ _ _ H1 E2) as [_ Hx].
  destruct (errors p2); [|done]. by intros [= <-].
Qed.

(** The default of [s.a or 0] and the test of [s ? a] are left out of
    the tree, without an error. *)
Lemma parser_output_shape_witness :
  parseSource 30 "s.a or 0" = Done (inl (SelectExpr (IdentExpr "s") ["a"] NilExpr))
  ∧ parseSource 30 "s ? a" = Done (inl (IdentExpr "s"))
  ∧ parserShape (SelectExpr (IdentExpr "s") ["a"] NilExpr) = true.
Proof.
  assert (H : parseSource 30 "s.a or 0"
              = Done (inl (SelectExpr (IdentExpr "s") ["a"] NilExpr)))
    by (vm_compute; reflexivity).
  split; [exact H|]. split; [vm_compute; reflexivity|].
  exact (parser_output_shape _ _ _ H).
Defined.

End ParserShape.

(* ================================================================= *)
(** ** A subtraction after another operator *)
(* ================================================================= *)

Section Subtraction.
Import lexer types parser.

(** The arithmetic operators of one character other than [/], their
    character and their token. *)
Definition symbol (op : BinaryOp) : option (ascii * TokenType) :=
  match op with
  | OpAdd => Some ("+"%char, TOKEN_PLUS)
  | OpSub => Some ("-"%char, TOKEN_MINUS)
  | OpMul => Some ("*"%char, TOKEN_MULTIPLY)
  | _ => None
  end.

(** An operator between two spaces. *)
Lemma Reads_operator lx pre op c ty s :
  symbol op = Some (c, ty) →
  Sits lx pre (" " ++ String c (String " " s)) →
  ∃ l', Reads lx (ty, String c "") l' ∧ Sits l' (pre ++ " " ++ String c "") (String " " s).
Proof.
  intros Hop Hs.
  assert (Hw : isSpaces " " = true) by reflexivity.
  destruct op; try discriminate Hop; injection Hop as <- <-.
  all: unfold Reads, NextToken; cbv zeta.
  all: match goal with
       | |- context [skipTrivia (budget ?l) ?l] =>
           pose proof (skipTrivia_sits _ _ _ _ Hs Hw (eq_refl true)) as H0;
           set (l0 := skipTrivia (budget l) l) in *
       end.
  all: rewrite (sits_ch _ _ _ H0), ?(peekChar_sits _ _ _ _ H0); simpl first.
  all: eexists; split; [eexists; split; [reflexivity|reflexivity]|].
  all: rewrite <- app_assoc_s; by apply readChar_sits.
Qed.

(** Symbolic execution of the parser's monadic code on a parser whose
    tokens are known. *)
Ltac pcalc :=
  cbv beta iota zeta delta
    [parser.bind parser.get parser.ret curIs peekIs peekPrecedence curPrecedence
     expectPeek couldBeArgument startsArgument isInfixOperator precedenceMap isNil
     parser.l cur peek errors Type_ Literal Line Column
     lexer.eqb lexer.code Nat.eqb Nat.leb andb orb negb
     default from_option id precedenceLowest precedenceSum precedenceProduct].

Ltac pskip :=
  cbv beta iota zeta delta
    [parser.bind parser.get parser.ret curIs peekIs peekPrecedence curPrecedence
     couldBeArgument startsArgument isInfixOperator precedenceMap
     parser.l cur peek errors Type_ Literal Line Column
     lexer.eqb lexer.code Nat.eqb orb negb
     default from_option precedenceSum];
  rewrite Bool.andb_false_r.

Tactic Notation "opened" constr(p) :=
  destruct p as [? [? ? ? ?] [? ? ? ?] ?];
  cbn [cur peek parser.l errors Type_ Literal] in *.

(** The infix loop takes a [-] at every precedence: the token may start
    an argument, and the test of the precedence is skipped for it. *)
Lemma loop_takes_minus pe fuel n prec prefix p p1 p2 p3 r :
  Type_ (peek p) = TOKEN_MINUS →
  advance p = Done (tt, p1) → advance p1 = Done (tt, p2) →
  pe precedenceSum p2 = Done (r, p3) →
  parseInfixLoop pe fuel (S n) prec prefix p
  = parseInfixLoop pe fuel n prec (BinaryExpr prefix OpSub r) p3.
Proof.
  intros Hpk Ha Ha1 Hr.
  destruct (advance_inv _ _ Ha) as [Hc1 _].
  assert (Hty : Type_ (cur p1) = TOKEN_MINUS) by (by rewrite Hc1, Hpk).
  cbn [parseInfixLoop]. unfold parseInfixExpression, parseBinary.
  unfold precedenceSum in Hr.
  opened p; subst. pskip. pcalc. rewrite Ha. opened p1; subst. pcalc.
  rewrite Ha1. pcalc. rewrite Hr. reflexivity.
Qed.

(** At the lowest precedence the loop takes the three operators. *)
Lemma loop_takes_operator pe fuel n op c ty prefix p p1 p2 p3 r :
  symbol op = Some (c, ty) →
  Type_ (peek p) = ty →
  advance p = Done (tt, p1) → advance p1 = Done (tt, p2) →
  pe (default 0%nat (precedenceMap ty)) p2 = Done (r, p3) →
  parseInfixLoop pe fuel (S n) precedenceLowest prefix p
  = parseInfixLoop pe fuel n precedenceLowest (BinaryExpr prefix op r) p3.
Proof.
  intros Hop Hpk Ha Ha1 Hr.
  destruct (advance_inv _ _ Ha) as [Hc1 _].
  assert (Hty : Type_ (cur p1) = ty) by (by rewrite Hc1, Hpk).
  cbn [parseInfixLoop]. unfold parseInfixExpression, parseBinary.
  destruct op; try discriminate Hop; injection Hop as <- <-.
  all: cbn [precedenceMap default from_option id] in Hr;
       unfold precedenceSum, precedenceProduct in Hr.
  all: opened p; subst; pcalc; rewrite Ha; opened p1; subst; pcalc.
  all: rewrite Ha1; pcalc; rewrite Hr; reflexivity.
Qed.

(** The tokens of [a op b - c]. *)
Definition chain (op : TokenType * string) (da db dc : string)
  : list (TokenType * string) :=
  [ (TOKEN_INT, da); op; (TOKEN_INT, db); (TOKEN_MINUS, "-"); (TOKEN_INT, dc);
    (TOKEN_EOF, "") ].

Lemma parse_chain k op c ty da db dc a b z p :
  symbol op = Some (c, ty) →
  Feeds p (chain (ty, String c "") da db dc) →
  strconv.ParseInt da = Some a → strconv.ParseInt db = Some b →
  strconv.ParseInt dc = Some z →
  ∃ p', parseExpression (S (S (S (S k)))) precedenceLowest p
        = Done (BinaryExpr (IntExpr a) op (BinaryExpr (IntExpr b) OpSub (IntExpr z)), p')
        ∧ errors p' = errors p.
Proof.
  intros Hop Hf Ha Hb Hz. unfold chain in Hf.
  destruct (Feeds_cur _ _ _ _ Hf) as [Hc0 Hl0].
  destruct (Feeds_peek _ _ _ _ _ Hf) as [Hk0 _].
  destruct (Feeds_advance _ _ _ Hf ltac:(simpl; lia)) as (p1 & A1 & E1 & F1).
  destruct (Feeds_advance _ _ _ F1 ltac:(simpl; lia)) as (p2 & A2 & E2 & F2).
  destruct (Feeds_cur _ _ _ _ F2) as [Hc2 Hl2].
  destruct (Feeds_peek _ _ _ _ _ F2) as [Hk2 _].
  destruct (Feeds_advance _ _ _ F2 ltac:(simpl; lia)) as (p3 & A3 & E3 & F3).
  destruct (Feeds_advance _ _ _ F3 ltac:(simpl; lia)) as (p4 & A4 & E4 & F4).
  destruct (Feeds_cur _ _ _ _ F4) as [Hc4 Hl4].
  destruct (Feeds_peek _ _ _ _ _ F4) as [Hk4 _].
  exists p4. split; [|congruence].
  (* the right operand of the subtraction *)
  assert (Hright : ∀ prec, parseExpression (S (S k)) prec p4 = Done (IntExpr z, p4)).
  { intros prec. rewrite parseExpression_S.
    apply step_int; [done|by rewrite Hl4|by rewrite Hk4]. }
  (* the right operand of the first operator takes the subtraction *)
  assert (Hmid : ∀ prec, parseExpression (S (S (S k))) prec p2
                         = Done (BinaryExpr (IntExpr b) OpSub (IntExpr z), p4)).
  { intros prec. rewrite parseExpression_S.
    unfold parseExpressionBody, parsePrefixExpression, parseInt.
    unfold parser.bind at 1. unfold parser.bind at 1, parser.get. rewrite Hc2.
    unfold parser.bind at 1, parser.get. rewrite Hl2, Hb. unfold parser.ret at 1.
    cbn [isNil].
    rewrite (loop_takes_minus _ _ _ _ _ _ _ _ _ _ Hk2 A3 A4 (Hright _)).
    apply infix_ends. by rewrite Hk4. }
  rewrite parseExpression_S.
  unfold parseExpressionBody, parsePrefixExpression, parseInt.
  unfold parser.bind at 1. unfold parser.bind at 1, parser.get. rewrite Hc0.
  unfold parser.bind at 1, parser.get. rewrite Hl0, Ha. unfold parser.ret at 1.
  cbn [isNil].
  rewrite (loop_takes_operator _ _ _ _ _ _ _ _ _ _ _ _ Hop Hk0 A1 A2 (Hmid _)).
  apply infix_ends. by rewrite Hk4.
Qed.

(** The source text [a op b - c]. *)
Definition chainText (c : ascii) (a b z : N) : string :=
  strconv.digitsOfN a ++ " " ++ String c " " ++ strconv.digitsOfN b
    ++ " - " ++ strconv.digitsOfN z.

Lemma lex_chain op c ty a b z :
  symbol op = Some (c, ty) →
  Lexes (lexer.New (chainText c a b z))
    (chain (ty, String c "") (strconv.digitsOfN a) (strconv.digitsOfN b)
       (strconv.digitsOfN z)).
Proof.
  intros Hop. unfold chainText, chain.
  destruct (digitsOfN_shape a) as (ca & dsa & Ea & Hca & Hdsa).
  destruct (digitsOfN_shape b) as (cb & dsb & Eb & Hcb & Hdsb).
  destruct (digitsOfN_shape z) as (cz & dsz & Ez & Hcz & Hdsz).
  rewrite Ea, Eb, Ez.
  pose proof (New_sits (String ca dsa ++ " " ++ String c " " ++ String cb dsb
                          ++ " - " ++ String cz dsz)) as S0.
  set (rest1 := " " ++ String c " " ++ String cb dsb ++ " - " ++ String cz dsz) in *.
  destruct (Reads_int _ "" "" ca dsa rest1
              ltac:(eapply Sits_cast; [exact S0|done|by snorm])
              eq_refl Hca Hdsa eq_refl eq_refl) as (l1 & R1 & S1).
  destruct (Reads_operator l1 _ op c ty (String cb dsb ++ " - " ++ String cz dsz) Hop
              ltac:(eapply Sits_cast; [exact S1|done|unfold rest1; by snorm]))
    as (l2 & R2 & S2).
  destruct (Reads_int l2 _ " " cb dsb (" - " ++ String cz dsz)
              ltac:(eapply Sits_cast; [exact S2|done|by snorm])
              eq_refl Hcb Hdsb eq_refl eq_refl) as (l3 & R3 & S3).
  destruct (Reads_operator l3 _ OpSub _ _ (String cz dsz) eq_refl
              ltac:(eapply Sits_cast; [exact S3|done|by snorm])) as (l4 & R4 & S4).
  destruct (Reads_int l4 _ " " cz dsz ""
              ltac:(eapply Sits_cast; [exact S4|done|by snorm])
              eq_refl Hcz Hdsz eq_refl eq_refl) as (l5 & R5 & S5).
  destruct (Reads_eof l5 _ "" S5 eq_refl) as (l6 & R6).
  cbn [Lexes].
  exists l1; split; [exact R1|]. exists l2; split; [exact R2|].
  exists l3; split; [exact R3|]. exists l4; split; [exact R4|].
  exists l5; split; [exact R5|]. exists l6; split; [exact R6|done].
Qed.

(** X14. A subtraction that follows an addition, a subtraction or a
    multiplication is its right operand: [a op b - c] is parsed as
    [a op (b - c)], for all numerals [a], [b] and [c]. *)
Theorem subtraction_is_right_operand k op c ty (a b z : N) :
  symbol op = Some (c, ty) →
  (Z.of_N a ≤ strconv.maxInt64)%Z → (Z.of_N b ≤ strconv.maxInt64)%Z →
  (Z.of_N z ≤ strconv.maxInt64)%Z →
  parseSource (4 + k) (chainText c a b z)
  = Done (inl (BinaryExpr (IntExpr (Z.of_N a)) op
                 (BinaryExpr (IntExpr (Z.of_N b)) OpSub (IntExpr (Z.of_N z))))).
Proof.
  intros Hop Ha Hb Hz.
  pose proof (lex_chain op c ty a b z Hop) as Hlex. unfold chain in Hlex.
  destruct (New_feeds _ _ _ _ Hlex) as (p & HNew & Herr & Hfeed).
  destruct (parse_chain k op c ty _ _ _ _ _ _ p Hop Hfeed
              (ParseInt_digits a Ha) (ParseInt_digits b Hb) (ParseInt_digits z Hz))
    as (p' & Hp & Herr').
  unfold parseSource, Parse. rewrite HNew. cbn [Nat.add]. rewrite Hp, Herr', Herr. done.
Qed.

(** [10 - 4 - 3] is [10 - (4 - 3)], and [2 * 3 - 1] is [2 * (3 - 1)]. *)
Lemma subtraction_is_right_operand_witness :
  parseSource 4 "10 - 4 - 3"
  = Done (inl (BinaryExpr (IntExpr 10) OpSub (BinaryExpr (IntExpr 4) OpSub (IntExpr 3))))
  ∧ main.evalExpression 10 "10 - 4 - 3" "." = Done (main.Printed "9")
  ∧ main.evalExpression 10 "2 * 3 - 1" "." = Done (main.Printed "4").
Proof.
  split; [|split; vm_compute; reflexivity].
  apply (subtraction_is_right_operand 0 OpSub "-" TOKEN_MINUS 10 4 3);
    [reflexivity|vm_compute; discriminate..].
Defined.

End Subtraction.

(* ================================================================= *)
(** ** Nested bindings and shared sets *)
(* ================================================================= *)

Section Sharing.
Import value eval types.

(** [Env.Get] reads the frames only. *)
Lemma EnvGet_frames σ σ' e k : envHeap σ' = envHeap σ → EnvGet σ' e k = EnvGet σ e k.
Proof.
  intros H. unfold EnvGet. rewrite H.
  generalize (length (envHeap σ)). intros n. revert e.
  induction n as [|n IH]; intros e; simpl; unfold envAt; rewrite H; [done|].
  destruct (bindings _ !! k); [done|]. destruct (parent _); [apply IH|done].
Qed.

Lemma evalExpr_simple n e ex env σ :
  isSimpleExpr ex = true →
  evalExpr (S n) e ex env σ = Done (Ok (literalValue e ex), σ).
Proof. by destruct ex. Qed.

(** X15. A nested binding writes into the set that its first component
    is bound to: in [{ a = x; a.b = v; }], where [x] is a set [s] that
    exists already, the attribute [b] is set in [s] itself. Every holder
    of [s] sees the new attribute. *)
Theorem nested_binding_writes_through n e env σ x s a b ex :
  EnvGet σ env x = Some (VAttrs s) →
  (s < length (attrsHeap σ))%nat →
  isSimpleExpr ex = true →
  ∃ σ', evalExpr (S (S n)) e
          (AttrSetExpr false [([a], IdentExpr x); ([a; b], ex)]) env σ
        = Done (Ok (VAttrs (length (attrsHeap σ))), σ')
      ∧ AttrsGet σ' (length (attrsHeap σ)) a = Some (VAttrs s)
      ∧ AttrsGet σ' s b = Some (literalValue e ex)
      ∧ (∀ j, j ≠ b → AttrsGet σ' s j = AttrsGet σ s j).
Proof.
  intros Hx Hs Hex.
  set (r := length (attrsHeap σ)).
  set (σ0 := mkStore (attrsHeap σ ++ [∅]) (envHeap σ)).
  set (σ1 := AttrsSet r a (VAttrs s) σ0).
  set (σ2 := AttrsSet s b (literalValue e ex) σ1).
  assert (Hr0 : (r < length (attrsHeap σ0))%nat).
  { unfold σ0, r; simpl. rewrite length_app; simpl. lia. }
  assert (Hx0 : EnvGet σ0 env x = Some (VAttrs s)).
  { by rewrite (EnvGet_frames σ σ0). }
  assert (Ha1 : AttrsGet σ1 r a = Some (VAttrs s)).
  { unfold σ1. by apply AttrsGet_AttrsSet_same. }
  assert (Hs1 : (s < length (attrsHeap σ1))%nat).
  { unfold σ1. rewrite AttrsSet_length. lia. }
  exists σ2. split; [|split; [|split]].
  - rewrite evalExpr_unfold. cbn [evalExprBody]. unfold evalAttrSet.
    unfold bind at 1, alloc, NewAttrs. fold r σ0.
    cbn [plainPass]. unfold bind at 1. unfold bind at 1.
    rewrite evalExpr_unfold. cbn [evalExprBody]. unfold evalIdent.
    unfold bind at 1, getStore. rewrite Hx0. unfold ret at 1.
    unfold bind at 1, modify. fold σ1.
    unfold bind at 1. unfold setNestedAttr. unfold bind at 1.
    rewrite (evalExpr_simple n e ex env σ1 Hex).
    cbn [setNestedLoop]. unfold bind at 1, getStore. rewrite Ha1.
    unfold modify. fold σ2. reflexivity.
  - unfold σ2. unfold AttrsGet. rewrite attrsAt_AttrsSet_ne by (unfold r; lia). exact Ha1.

  - unfold σ2. by apply AttrsGet_AttrsSet_same.
  - intros j Hj. unfold σ2. rewrite AttrsGet_AttrsSet_other by done.
    unfold σ1. unfold AttrsGet. rewrite attrsAt_AttrsSet_ne by (unfold r; lia).
    unfold attrsAt, σ0; simpl. by rewrite lookup_app_l.
Qed.

(** A frame that binds [x] to the set [{ c = 0; }]. *)
Definition sharedStore : Store :=
  EnvSet 0 "x" (VAttrs 0)
    (NewEnv (AttrsSet 0 "c" (VInt 0) (NewAttrs emptyStore).2)).2.

Lemma nested_binding_writes_through_witness :
  AttrsGet sharedStore 0 "b" = None
  ∧ main.evalExpression 30 "let x = { c = 0; }; y = { a = x; a.b = 1; }; in x" "."
    = Done (main.Printed "{ b = 1; c = 0; }")
  ∧ ∃ σ', evalExpr 2 (New ".")
            (AttrSetExpr false [(["a"], IdentExpr "x"); (["a"; "b"], IntExpr 1)])
            0%nat sharedStore
          = Done (Ok (VAttrs (length (attrsHeap sharedStore))), σ')
        ∧ AttrsGet σ' (length (attrsHeap sharedStore)) "a" = Some (VAttrs 0)
        ∧ AttrsGet σ' 0 "b" = Some (literalValue (New ".") (IntExpr 1))
        ∧ (∀ j, j ≠ "b" → AttrsGet σ' 0 j = AttrsGet sharedStore 0 j).
Proof.
  split; [vm_compute; reflexivity|]. split; [vm_compute; reflexivity|].
  apply (nested_binding_writes_through 0 (New ".") 0%nat sharedStore "x" 0%nat "a" "b"
           (IntExpr 1)).
  - vm_compute. reflexivity.
  - vm_compute. lia.
  - reflexivity.
Defined.

End Sharing.

(* ================================================================= *)
(** ** Evaluation and the frames that exist *)
(* ================================================================= *)

Section KeptFrames.
Import value derivation eval types.

(** The heap [σ'] has the first [n] frames of [σ] as they were. *)
Definition framesKept (n : nat) (σ σ' : Store) : Prop :=
  (n ≤ length (envHeap σ'))%nat
  ∧ ∀ i, (i < n)%nat → envHeap σ' !! i = envHeap σ !! i.

Lemma framesKept_refl n σ : (n ≤ length (envHeap σ))%nat → framesKept n σ σ.
Proof. by split. Qed.

Lemma framesKept_trans n σ1 σ2 σ3 :
  framesKept n σ1 σ2 → framesKept n σ2 σ3 → framesKept n σ1 σ3.
Proof.
  intros [H1 H2] [H3 H4]. split; [done|]. intros i Hi. by rewrite H4, H2.
Qed.

Lemma framesKept_same n σ σ' :
  (n ≤ length (envHeap σ))%nat → envHeap σ' = envHeap σ → framesKept n σ σ'.
Proof. intros Hn H. split; rewrite H; done. Qed.

(** Run from a heap with at least [n] frames, the action [m] keeps the
    first [n] frames, and a value that it returns satisfies [Q]. *)
Definition Holds {A} (n : nat) (Q : A → Prop) (m : M A) : Prop :=
  ∀ σ r σ', (n ≤ length (envHeap σ))%nat → m σ = Done (r, σ') →
    framesKept n σ σ' ∧ match r with Ok a => Q a | Err _ => True end.

Definition top {A} (_ : A) : Prop := True.
(** A frame that is not among the first [n]. *)
Definition above (n : nat) (c : loc) : Prop := (n ≤ c)%nat.

Lemma Holds_ret {A} n (Q : A → Prop) a : Q a → Holds n Q (ret a).
Proof. intros Ha σ r σ' Hn [= <- <-]. split; [by apply framesKept_refl|done]. Qed.

Lemma Holds_fail {A} n (Q : A → Prop) msg : Holds n Q (fail msg).
Proof. intros σ r σ' Hn [= <- <-]. split; [by apply framesKept_refl|done]. Qed.

Lemma Holds_panic {A} n (Q : A → Prop) : Holds n Q panic.
Proof. intros σ r σ' Hn [=]. Qed.

Lemma Holds_diverge {A} n (Q : A → Prop) : Holds n Q diverge.
Proof. intros σ r σ' Hn [=]. Qed.

Lemma Holds_bind {A B} n (Q : A → Prop) (R : B → Prop) m k :
  Holds n Q m → (∀ a, Q a → Holds n R (k a)) → Holds n R (bind m k).
Proof.
  intros Hm Hk σ r σ' Hn. unfold bind.
  destruct (m σ) as [[[a|msg] σ1]| |] eqn:E; [| |done..].
  - destruct (Hm _ _ _ Hn E) as [H1 Ha]. intros E2.
    destruct (Hk a Ha σ1 r σ' (proj1 H1) E2) as [H2 Hr].
    split; [by eapply framesKept_trans|done].
  - intros [= <- <-]. by destruct (Hm _ _ _ Hn E).
Qed.

Lemma Holds_bind_getStore {B} n (R : B → Prop) k :
  (∀ s, Holds n R (k s)) → Holds n R (bind getStore k).
Proof. intros Hk σ r σ' Hn. unfold bind, getStore. by apply Hk. Qed.

Lemma Holds_liftRes {A} n (r : Res A) : Holds n top (liftRes r).
Proof.
  intros σ r' σ' Hn [= <- <-]. split; [by apply framesKept_refl|by destruct r].
Qed.

Lemma Holds_liftOutcome {A} n (o : Outcome A) : Holds n top (liftOutcome o).
Proof.
  intros σ r' σ' Hn. unfold liftOutcome. destruct o; [|done..].
  intros [= <- <-]. split; [by apply framesKept_refl|done].
Qed.

(** A change of the heap that leaves the frames alone. *)
Lemma Holds_modify_attrs n f :
  (∀ σ, envHeap (f σ) = envHeap σ) → Holds n top (modify f).
Proof.
  intros Hf σ r σ' Hn [= <- <-]. split; [by apply framesKept_same|done].
Qed.

Lemma Holds_AttrsSet n a k v : Holds n top (modify (AttrsSet a k v)).
Proof. by apply Holds_modify_attrs. Qed.

(** A binding set in a frame above the first [n]. *)
Lemma EnvSet_kept n c k v σ :
  above n c → (n ≤ length (envHeap σ))%nat → framesKept n σ (EnvSet c k v σ).
Proof.
  intros Hc Hn. split.
  - by rewrite EnvSet_length.
  - intros i Hi. unfold EnvSet; simpl. apply list_lookup_insert_ne.
    unfold above in Hc. lia.
Qed.

Lemma Holds_EnvSet n c k v : above n c → Holds n top (modify (EnvSet c k v)).
Proof. intros Hc σ r σ' Hn [= <- <-]. split; [by apply EnvSet_kept|done]. Qed.

Lemma Holds_NewAttrs n : Holds n top (alloc NewAttrs).
Proof.
  intros σ r σ' Hn [= <- <-]. split; [by apply framesKept_same|done].
Qed.

(** A new frame is above the frames that exist. *)
Lemma Holds_EnvExtend n e : Holds n (above n) (alloc (EnvExtend e)).
Proof.
  intros σ r σ' Hn [= <- <-]. split; [|done]. split.
  - simpl. rewrite length_app. lia.
  - intros i Hi. simpl. apply lookup_app_l. lia.
Qed.

Lemma Holds_NewEnv n : Holds n (above n) (alloc NewEnv).
Proof.
  intros σ r σ' Hn [= <- <-]. split; [|done]. split.
  - simpl. rewrite length_app. lia.
  - intros i Hi. simpl. apply lookup_app_l. lia.
Qed.

Lemma fold_AttrsSet_envHeap {K} (f : Store → K → Store) ks σ :
  (∀ acc k, envHeap (f acc k) = envHeap acc) →
  envHeap (fold_left f ks σ) = envHeap σ.
Proof.
  intros Hf. revert σ. induction ks as [|k ks IH]; intros σ; simpl; [done|].
  by rewrite IH, Hf.
Qed.

Lemma ToAttrs_envHeap d σ : envHeap (ToAttrs d σ).2 = envHeap σ.
Proof.
  unfold ToAttrs, NewAttrs. cbn [fst snd].
  rewrite fold_AttrsSet_envHeap by done. simpl.
  rewrite fold_AttrsSet_envHeap by done. done.
Qed.

Lemma Holds_ToAttrs n d : Holds n top (alloc (ToAttrs d)).
Proof.
  intros σ r σ' Hn. unfold alloc.
  pose proof (ToAttrs_envHeap d σ) as H. destruct (ToAttrs d σ) as [a σ1].
  intros [= <- <-]. split; [by apply framesKept_same|done].
Qed.

Lemma Holds_weaken {A} n (Q : A → Prop) m : Holds n Q m → Holds n top m.
Proof.
  intros Hm σ r σ' Hn E. destruct (Hm _ _ _ Hn E) as [H _].
  split; [done|by destruct r].
Qed.

Create HintDb holds.
#[local] Hint Resolve Holds_liftRes Holds_liftOutcome Holds_AttrsSet Holds_NewAttrs
  Holds_EnvExtend Holds_NewEnv Holds_ToAttrs Holds_panic Holds_diverge Holds_fail
  : holds.
#[local] Hint Extern 1 (Holds _ _ (modify (EnvSet _ _ _))) =>
  apply Holds_EnvSet; assumption : holds.

Ltac holds :=
  repeat lazymatch goal with
    | |- Holds _ _ (bind getStore _) => apply Holds_bind_getStore; intros ?
    | |- Holds _ _ (bind (if ?b then _ else _) _) => destruct b
    | |- Holds _ _ (bind _ _) =>
        eapply Holds_bind; [solve [eauto with holds]|intros ? ?]
    | |- Holds _ _ (ret _) => apply Holds_ret; first [exact I|assumption]
    | |- Holds _ _ (fail _) => apply Holds_fail
    | |- Holds _ _ panic => apply Holds_panic
    | |- Holds _ _ diverge => apply Holds_diverge
    | |- Holds _ top (liftRes _) => apply Holds_liftRes
    | |- Holds _ top (liftOutcome _) => apply Holds_liftOutcome
    | |- Holds _ _ (if ?b then _ else _) => destruct b
    | |- Holds _ _ (match ?x with _ => _ end) => destruct x
    end.

Lemma Holds_arg n args i : Holds n top (arg args i).
Proof. unfold arg. holds. Qed.

Lemma Holds_equals n fuel a b : Holds n top (equals fuel a b).
Proof. unfold equals. holds. Qed.
#[local] Hint Resolve Holds_arg Holds_equals : holds.

Lemma Holds_evalLessEq n fuel a b : Holds n top (evalLessEq fuel a b).
Proof. unfold evalLessEq. holds. Qed.

Lemma Holds_evalGreaterEq n fuel a b : Holds n top (evalGreaterEq fuel a b).
Proof. unfold evalGreaterEq. holds. Qed.

Lemma Holds_copyAttrs n from result : Holds n top (copyAttrs from result).
Proof.
  unfold copyAttrs. holds. apply Holds_modify_attrs.
  intros σ. by apply fold_AttrsSet_envHeap.
Qed.
#[local] Hint Resolve Holds_copyAttrs : holds.

Lemma Holds_evalUpdate n a b : Holds n top (evalUpdate a b).
Proof. unfold evalUpdate. holds. Qed.

Lemma Holds_elemLoop n fuel x l : Holds n top (elemLoop fuel x l).
Proof. induction l as [|y l IH]; cbn [elemLoop]; holds. exact IH. Qed.

Lemma Holds_callImpl n fuel fn args : Holds n top (callImpl fuel fn args).
Proof. destruct fn; cbn [callImpl]; holds; apply Holds_elemLoop. Qed.

Lemma Holds_BuiltinApply n fuel name arity fn args :
  Holds n top (BuiltinApply fuel name arity fn args).
Proof. unfold BuiltinApply. holds. apply Holds_callImpl. Qed.

Section Methods.
Variable e : Evaluator.
Variable ev : Expr → loc → M Value.
Hypothesis Hev : ∀ n x env, Holds n top (ev x env).
Variable fuel : nat.
#[local] Hint Resolve Hev : holds.

Lemma Holds_evalIdent n name env : Holds n top (evalIdent name env).
Proof. unfold evalIdent. holds. Qed.

Lemma Holds_evalElements n xs env : Holds n top (evalElements ev xs env).
Proof. induction xs as [|x xs IH]; cbn [evalElements]; holds. Qed.
#[local] Hint Resolve Holds_evalElements : holds.

Lemma Holds_evalList n xs env : Holds n top (evalList ev xs env).
Proof. unfold evalList. holds. Qed.

Lemma Holds_setNestedLoop n cur path v : Holds n top (setNestedLoop cur path v).
Proof.
  revert cur. induction path as [|k rest IH]; intros cur; cbn [setNestedLoop]; holds.
  all: first [apply Holds_AttrsSet | apply IH].
Qed.
#[local] Hint Resolve Holds_setNestedLoop : holds.

Lemma Holds_setNestedAttr n attrs path x env :
  Holds n top (setNestedAttr ev attrs path x env).
Proof. unfold setNestedAttr. holds. all: apply Holds_setNestedLoop. Qed.
#[local] Hint Resolve Holds_setNestedAttr : holds.

Lemma Holds_recFirstPass n attrs recEnv bs :
  above n recEnv → Holds n top (recFirstPass ev attrs recEnv bs).
Proof.
  intros Hc. induction bs as [|[path x] bs IH]; cbn [recFirstPass]; holds.
  all: exact IH.
Qed.

Lemma Holds_recSecondPass n attrs recEnv bs :
  Holds n top (recSecondPass ev attrs recEnv bs).
Proof.
  induction bs as [|[path x] bs IH]; cbn [recSecondPass]; holds.
  all: exact IH.
Qed.

Lemma Holds_plainPass n attrs env bs : Holds n top (plainPass ev attrs env bs).
Proof.
  induction bs as [|[path x] bs IH]; cbn [plainPass]; holds.
  all: exact IH.
Qed.
#[local] Hint Resolve Holds_recSecondPass Holds_plainPass : holds.

Lemma Holds_evalAttrSet n recursive bs env :
  Holds n top (evalAttrSet ev recursive bs env).
Proof.
  unfold evalAttrSet. holds.
  eapply Holds_bind; [by apply Holds_recFirstPass|intros ? ?]. holds.
Qed.

Lemma Holds_evalAnd n l r env : Holds n top (evalAnd ev l r env).
Proof. unfold evalAnd. holds. Qed.
Lemma Holds_evalOr n l r env : Holds n top (evalOr ev l r env).
Proof. unfold evalOr. holds. Qed.
Lemma Holds_evalImpl n l r env : Holds n top (evalImpl ev l r env).
Proof. unfold evalImpl. holds. Qed.

Lemma Holds_evalBinary n l op r env : Holds n top (evalBinary ev fuel l op r env).
Proof.
  unfold evalBinary.
  destruct op; first [apply Holds_evalAnd | apply Holds_evalOr | apply Holds_evalImpl | idtac];
    holds;
    first [apply Holds_evalLessEq | apply Holds_evalGreaterEq | apply Holds_evalUpdate].
Qed.

Lemma Holds_evalUnary n op x env : Holds n top (evalUnary ev op x env).
Proof. unfold evalUnary. holds. Qed.

Lemma Holds_evalIf n c a b env : Holds n top (evalIf ev c a b env).
Proof. unfold evalIf. holds; apply Hev. Qed.

Lemma Holds_letLoop n letEnv bs :
  above n letEnv → Holds n top (letLoop ev letEnv bs).
Proof.
  intros Hc. induction bs as [|[name x] bs IH]; cbn [letLoop]; [holds|].
  intros σ r σ' Hn.
  destruct (ev x letEnv σ) as [[[v|msg] σ1]| |] eqn:E; [| |done..].
  - destruct (Hev n _ _ _ _ _ Hn E) as [H1 _]. intros E2.
    assert (Hrest : Holds n top (bind (modify (EnvSet letEnv name v))
                                      (fun _ => letLoop ev letEnv bs))).
    { holds. exact IH. }
    destruct (Hrest _ _ _ (proj1 H1) E2) as [H2 Hr].
    split; [by eapply framesKept_trans|done].
  - intros [= <- <-]. by destruct (Hev n _ _ _ _ _ Hn E).
Qed.

Lemma Holds_evalLet n bs body env : Holds n top (evalLet ev bs body env).
Proof.
  unfold evalLet. holds.
  eapply Holds_bind; [by apply Holds_letLoop|intros ? ?]. apply Hev.
Qed.

Lemma fold_EnvSet_kept n c (f : Store → string → Value) ks σ :
  above n c → (n ≤ length (envHeap σ))%nat →
  framesKept n σ (fold_left (fun acc key => EnvSet c key (f acc key) acc) ks σ).
Proof.
  intros Hc. revert σ. induction ks as [|k ks IH]; intros σ Hn; simpl.
  - by apply framesKept_refl.
  - eapply framesKept_trans; [by apply (EnvSet_kept n c k (f σ k))|].
    apply IH. by rewrite EnvSet_length.
Qed.

Lemma Holds_bindAttrs n attrs withEnv :
  above n withEnv → Holds n top (bindAttrs attrs withEnv).
Proof.
  intros Hc. unfold bindAttrs. holds.
  intros σ r σ' Hn [= <- <-]. split; [|done].
  by apply (fold_EnvSet_kept n withEnv (fun acc key => default VNull (AttrsGet acc attrs key))).
Qed.

Lemma Holds_evalWith n x body env : Holds n top (evalWith ev x body env).
Proof.
  unfold evalWith. holds.
  eapply Holds_bind; [by apply Holds_bindAttrs|intros ? ?]. apply Hev.
Qed.

Lemma Holds_evalAssert n c body env : Holds n top (evalAssert ev c body env).
Proof. unfold evalAssert. holds. apply Hev. Qed.

Lemma Holds_evalApply n f a env : Holds n top (evalApply ev fuel f a env).
Proof.
  unfold evalApply. holds; first [apply Hev | apply Holds_BuiltinApply].
Qed.

Lemma Holds_selectLoop n cur path d env : Holds n top (selectLoop ev cur path d env).
Proof.
  revert cur. induction path as [|k rest IH]; intros cur; cbn [selectLoop]; holds.
  all: first [apply Hev | apply IH].
Qed.

Lemma Holds_evalSelect n x path d env : Holds n top (evalSelect ev x path d env).
Proof. unfold evalSelect. holds. apply Holds_selectLoop. Qed.

Lemma Holds_evalHasAttr n x path env : Holds n top (evalHasAttr ev x path env).
Proof. unfold evalHasAttr. holds. Qed.

Lemma Holds_evalExprBody n x env : Holds n top (evalExprBody e ev fuel x env).
Proof.
  destruct x; cbn [evalExprBody]; holds;
    first [ apply Holds_evalIdent | apply Holds_evalList | apply Holds_evalAttrSet
          | apply Holds_evalBinary | apply Holds_evalUnary | apply Holds_evalIf
          | apply Holds_evalLet | apply Holds_evalWith | apply Holds_evalAssert
          | apply Holds_evalApply | apply Holds_evalSelect | apply Holds_evalHasAttr ].
Qed.

End Methods.

Lemma Holds_evalExpr fuel e n x env : Holds n top (evalExpr fuel e x env).
Proof.
  revert n x env. induction fuel as [|k IH]; intros n x env; cbn [evalExpr].
  - apply Holds_diverge.
  - by apply Holds_evalExprBody.
Qed.

(** X16. An evaluation leaves every frame that existed as it was: no
    binding of an existing environment is added, changed or removed, so
    that every name is found from an existing frame as before. (New
    frames are added after the existing ones.) *)
Theorem evaluation_keeps_frames fuel e x env σ r σ' :
  evalExpr fuel e x env σ = Done (r, σ') →
  (length (envHeap σ) ≤ length (envHeap σ'))%nat
  ∧ (∀ i, (i < length (envHeap σ))%nat → envAt σ' i = envAt σ i)
  ∧ (parentsBelow σ →
     ∀ f k, (f < length (envHeap σ))%nat → EnvGet σ' f k = EnvGet σ f k).
Proof.
  intros E.
  destruct (Holds_evalExpr fuel e _ x env σ r σ' (le_n _) E) as [[Hlen Hold] _].
  assert (Hat : ∀ i, (i < length (envHeap σ))%nat → envAt σ' i = envAt σ i).
  { intros i Hi. unfold envAt. by rewrite Hold. }
  split; [done|]. split; [done|].
  intros Hwf f k Hf. apply EnvGet_old; [done..|].
  intros i Hi. apply Hat. lia.
Qed.

(** [let n = 2; in n] in a frame that binds [n] to 1: the result is 2,
    and the frame still binds [n] to 1. *)
Lemma evaluation_keeps_frames_witness :
  match evalExpr 5 (New ".") (LetExpr [("n", IntExpr 2)] (IdentExpr "n")) 0%nat outerN with
  | Done (r, σ') =>
      r = Ok (VInt 2)
      ∧ (length (envHeap outerN) ≤ length (envHeap σ'))%nat
      ∧ (∀ i, (i < length (envHeap outerN))%nat → envAt σ' i = envAt outerN i)
      ∧ (parentsBelow outerN →
         ∀ f k, (f < length (envHeap outerN))%nat → EnvGet σ' f k = EnvGet outerN f k)
  | _ => False
  end.
Proof.
  destruct (evalExpr 5 (New ".") (LetExpr [("n", IntExpr 2)] (IdentExpr "n")) 0%nat outerN)
    as [[r σ']| |] eqn:E; [|by vm_compute in E..].
  split; [|exact (evaluation_keeps_frames _ _ _ _ _ _ _ E)].
  vm_compute in E. by injection E as <- _.
Defined.

End KeptFrames.

(* ================================================================= *)
(** ** Scopes *)
(* ================================================================= *)

Section Scopes.
Import value eval types.

(** Lookup from a new frame [c] with the bindings [m] and the parent
    [e], in a heap that kept the frames that existed. *)
Lemma EnvGet_child σ σ' e m :
  parentsBelow σ → (e < length (envHeap σ))%nat →
  length (envHeap σ') = S (length (envHeap σ)) →
  envAt σ' (length (envHeap σ)) = mkEnv m (Some e) →
  (∀ i, (i < length (envHeap σ))%nat → envAt σ' i = envAt σ i) →
  (∀ k, EnvGet σ' (length (envHeap σ)) k
        = match m !! k with Some v => Some v | None => EnvGet σ e k end)
  ∧ (∀ g k, (g < length (envHeap σ))%nat → EnvGet σ' g k = EnvGet σ g k).
Proof.
  intros Hwf He Hlen Hnew Hold. split.
  - intros k. unfold EnvGet at 1. rewrite Hlen. cbn [EnvGetFrom].
    rewrite Hnew. cbn [bindings parent].
    destruct (m !! k); [done|].
    fold (EnvGetFrom (length (envHeap σ)) σ' e k).
    by rewrite (EnvGetFrom_ext σ σ' k Hwf _ e) by (intros i Hi; apply Hold; lia).
  - intros g k Hg. apply EnvGet_old; [done|done|lia|].
    intros i Hi. apply Hold. lia.
Qed.

(** The frame that [Extend] adds, after a binding was set in it or
    not. *)
Lemma EnvExtend_frames σ e :
  let σ0 := (EnvExtend e σ).2 in
  length (envHeap σ0) = S (length (envHeap σ))
  ∧ envAt σ0 (length (envHeap σ)) = mkEnv ∅ (Some e)
  ∧ (∀ i, (i < length (envHeap σ))%nat → envAt σ0 i = envAt σ i).
Proof.
  cbn [EnvExtend snd]. split; [simpl; rewrite length_app; simpl; lia|].
  split; [apply envAt_app_new|]. intros i Hi. by apply envAt_app_old.
Qed.

(** X17. The bindings of a [let] are evaluated in their order, each in
    the frame that holds the earlier ones: a binding whose value is a
    name that the enclosing environment does not bind fails, also when a
    later binding of the same [let] binds that name. *)
Theorem let_is_sequential fuel e env σ y x rest body :
  parentsBelow σ → (env < length (envHeap σ))%nat →
  EnvGet σ env x = None →
  evalExpr (S (S fuel)) e (LetExpr ((y, IdentExpr x) :: rest) body) env σ
  = Done (Err ("error in let binding " ++ y ++ ": undefined variable: " ++ x),
          (EnvExtend env σ).2).
Proof.
  intros Hwf He Hx.
  destruct (EnvExtend_frames σ env) as (Hlen & Hnew & Hold). cbv zeta in Hlen, Hnew, Hold.
  destruct (EnvGet_child σ (EnvExtend env σ).2 env ∅ Hwf He Hlen Hnew Hold) as (Hget & _).
  specialize (Hget x). rewrite lookup_empty, Hx in Hget. cbn [EnvExtend snd] in Hget.
  rewrite evalExpr_unfold. cbn [evalExprBody]. unfold evalLet.
  unfold bind at 1, alloc. cbn [EnvExtend fst snd].
  unfold bind at 1. cbn [letLoop].
  rewrite evalExpr_unfold. cbn [evalExprBody]. unfold evalIdent.
  unfold bind at 1, getStore. rewrite Hget. reflexivity.
Qed.

(** [let y = x; x = 1; in y] where nothing binds [x]. *)
Lemma let_is_sequential_witness :
  evalExpr 2 (New ".")
    (LetExpr [("y", IdentExpr "x"); ("x", IntExpr 1)] (IdentExpr "y")) 0%nat
    (NewEnv emptyStore).2
  = Done (Err "error in let binding y: undefined variable: x",
          (EnvExtend 0 (NewEnv emptyStore).2).2).
Proof.
  apply (let_is_sequential 0 (New ".") 0%nat (NewEnv emptyStore).2 "y" "x"
           [("x", IntExpr 1)] (IdentExpr "y")).
  - intros [|[|i]] p; cbn; intros [=].
  - cbn. lia.
  - reflexivity.
Defined.

(** The frame that [Eval] fills with the table [m]. *)
Lemma globals_frame (m : gmap string Value) σ :
  let c := length (envHeap σ) in
  let σ' := map_fold (fun name builtin acc => EnvSet c name builtin acc)
                     (NewEnv σ).2 m in
  length (envHeap σ') = S c ∧ envAt σ' c = mkEnv m None.
Proof.
  cbv zeta. set (c := length (envHeap σ)).
  apply (map_fold_weak_ind
           (fun acc m' => length (envHeap acc) = S c ∧ envAt acc c = mkEnv m' None)).
  - split; [simpl; rewrite length_app; simpl; lia|]. apply envAt_app_new.
  - intros k v m' acc Hk (Hlen & Hc).
    split; [by rewrite EnvSet_length|].
    rewrite envAt_EnvSet_eq by lia. by rewrite Hc.
Qed.

(** X18. At the top level, [Eval] finds a name exactly when the table of
    the built-ins has it: the names of the table (the built-ins and
    [true], [false], [null]) give their entry, every other name is
    undefined, whatever the heap holds. *)
Theorem Eval_globals fuel e name σ :
  ∃ σ', Eval (S fuel) e (IdentExpr name) σ
        = Done (match builtins e !! name with
                | Some v => Ok v
                | None => Err ("undefined variable: " ++ name)
                end, σ').
Proof.
  destruct (globals_frame (builtins e) σ) as (Hlen & Hc).
  unfold Eval. unfold bind at 1, alloc. cbn [NewEnv fst snd].
  unfold bind at 1, modify.
  match goal with |- context [evalExpr _ _ _ _ ?s] => set (σ' := s) in * end.
  exists σ'. rewrite evalExpr_unfold. cbn [evalExprBody]. unfold evalIdent.
  unfold bind, getStore.
  assert (Hlen' : length (envHeap σ') = S (length (envHeap σ))) by exact Hlen.
  assert (Hc' : envAt σ' (length (envHeap σ)) = mkEnv (builtins e) None) by exact Hc.
  clear Hlen Hc. rename Hlen' into Hlen, Hc' into Hc.
  assert (Hget : EnvGet σ' (length (envHeap σ)) name = builtins e !! name).
  { unfold EnvGet. rewrite Hlen. cbn [EnvGetFrom]. rewrite Hc. cbn [bindings parent].
    by destruct (builtins e !! name). }
  rewrite Hget. by destruct (builtins e !! name).
Qed.

(** The loop of a selection without default along [p ++ q] is the loop
    along [p] followed by the loop along [q]. *)
Lemma selectLoop_app ev ev' cur p q env σ :
  p ≠ [] → q ≠ [] →
  selectLoop ev cur (p ++ q) NilExpr env σ
  = bind (selectLoop ev' cur p NilExpr env)
         (fun v => selectLoop ev v q NilExpr env) σ.
Proof.
  intros Hp Hq. revert cur. induction p as [|k rest IH]; intros cur; [done|].
  destruct q as [|k' q']; [done|].
  cbn [app selectLoop]. destruct cur; try reflexivity.
  unfold bind at 1 2 3, getStore.
  destruct (AttrsGet σ ptr k) as [next|]; [|reflexivity].
  destruct rest as [|k2 rest'].
  - reflexivity.
  - cbn [app]. rewrite <- app_comm_cons in IH. apply IH. done.
Qed.

(** X19. A selection along a path is the selection along its first part
    followed by the selection along the rest: [x.a.b] and [(x.a).b]
    give the same value or the same error, in the same heap. *)
Theorem select_composes fuel e x p q env σ :
  p ≠ [] → q ≠ [] →
  evalExpr (S (S fuel)) e (SelectExpr (SelectExpr x p NilExpr) q NilExpr) env σ
  = evalExpr (S fuel) e (SelectExpr x (p ++ q) NilExpr) env σ.
Proof.
  intros Hp Hq.
  rewrite (evalExpr_unfold (S fuel)). cbn [evalExprBody]. unfold evalSelect at 1.
  rewrite !evalExpr_unfold. cbn [evalExprBody]. unfold evalSelect.
  unfold bind at 1 2 3.
  destruct (evalExpr fuel e x env σ) as [[[v|msg] σ1]| |]; try reflexivity.
  rewrite (selectLoop_app (evalExpr fuel e) (evalExpr fuel e) v p q env σ1 Hp Hq).
  unfold bind. destruct (selectLoop _ v p NilExpr env σ1) as [[[w|msg] σ2]| |]; try reflexivity.
  (* the default is never evaluated: the evaluator of the loop is irrelevant *)
  clear. revert w. induction q as [|k rest IH]; intros w; [done|].
  cbn [selectLoop]. destruct w; try reflexivity.
  unfold bind, getStore. destruct (AttrsGet σ2 ptr k) as [next|]; [|reflexivity].
  destruct rest; [reflexivity|]. apply IH.
Qed.

(** [s.a.b] and [(s.a).b] in a frame that binds [s] to [{ a = { b = 7; }; }]. *)
Definition nestedStore : Store :=
  EnvSet 0 "s" (VAttrs 0)
    (NewEnv (AttrsSet 0 "a" (VAttrs 1)
               (AttrsSet 1 "b" (VInt 7)
                  (NewAttrs (NewAttrs emptyStore).2).2))).2.

Lemma select_composes_witness :
  evalExpr 3 (New ".")
    (SelectExpr (SelectExpr (IdentExpr "s") ["a"] NilExpr) ["b"] NilExpr) 0%nat nestedStore
  = evalExpr 2 (New ".") (SelectExpr (IdentExpr "s") ["a"; "b"] NilExpr) 0%nat nestedStore
  ∧ evalExpr 2 (New ".") (SelectExpr (IdentExpr "s") ["a"; "b"] NilExpr) 0%nat nestedStore
    = Done (Ok (VInt 7), nestedStore).
Proof.
  split; [|vm_compute; reflexivity].
  apply (select_composes 1 (New ".") (IdentExpr "s") ["a"] ["b"] 0%nat nestedStore);
    discriminate.
Defined.

End Scopes.

(* ================================================================= *)
(** ** Lines and columns *)
(* ================================================================= *)

Section Positions.
Import lexer.

(** The line and the column of the [n]-th character of the text [s],
    counted from 1: a line feed starts a line, whose characters are
    counted from 1; the line feed itself is at column 0 of the line that
    it starts. Past the end of the text the column goes on. *)
Fixpoint pos (s : string) (n : nat) : nat * nat :=
  match n with
  | O => (1, 0)%nat
  | S k =>
      let c := if decide (String.length s ≤ k)%nat then NUL else Bytes.at_ s k in
      if Ascii.eqb c LF then (S (pos s k).1, 0%nat) else ((pos s k).1, S (pos s k).2)
  end.

(** The lexer is at the line and the column of the last character that
    it read. *)
Definition tracked (l : Lexer) : Prop :=
  (line l, column l) = pos (input l) (readPosition l).

(** [l'] is reached from [l] by calls of [readChar]. *)
Definition follows (l l' : Lexer) : Prop :=
  input l' = input l ∧ (tracked l → tracked l').

Lemma follows_refl l : follows l l.
Proof. by split. Qed.

Lemma follows_trans l1 l2 l3 : follows l1 l2 → follows l2 l3 → follows l1 l3.
Proof. intros [H1 H2] [H3 H4]. split; [congruence|auto]. Qed.

Lemma follows_readChar l : follows l (readChar l).
Proof.
  split; [done|]. unfold tracked, readChar. cbn [line column input readPosition pos].
  intros H. apply (f_equal fst) in H as H1. apply (f_equal snd) in H as H2.
  cbn [fst snd] in H1, H2. rewrite <- H1, <- H2.
  by destruct (Ascii.eqb _ LF).
Qed.

Lemma follows_readChar_after l l' : follows l l' → follows l (readChar l').
Proof. intros H. eapply follows_trans; [exact H|apply follows_readChar]. Qed.

Lemma follows_readWhile cond n l : follows l (readWhile cond n l).
Proof.
  revert l. induction n as [|n IH]; intros l; cbn [readWhile]; [apply follows_refl|].
  destruct (cond (ch l)); [|apply follows_refl].
  eapply follows_trans; [apply follows_readChar|apply IH].
Qed.

Lemma follows_skipBlock n l : follows l (skipBlock n l).
Proof.
  revert l. induction n as [|n IH]; intros l; cbn [skipBlock]; [apply follows_refl|].
  destruct (Ascii.eqb (ch l) NUL); [apply follows_refl|].
  destruct (_ && _).
  - apply follows_readChar_after, follows_readChar.
  - eapply follows_trans; [apply follows_readChar|apply IH].
Qed.

Lemma follows_skipComment l : follows l (skipComment l).
Proof.
  unfold skipComment. destruct (Ascii.eqb (ch l) "#"); [apply follows_readWhile|].
  destruct (_ && _); [|apply follows_refl]. cbv zeta.
  eapply follows_trans; [apply follows_readChar_after, follows_readChar|].
  apply follows_skipBlock.
Qed.

Lemma follows_skipTrivia n l : follows l (skipTrivia n l).
Proof.
  revert l. induction n as [|n IH]; intros l; cbn [skipTrivia]; [apply follows_refl|].
  cbv zeta. destruct (_ || _).
  - eapply follows_trans; [apply follows_readWhile|].
    eapply follows_trans; [apply follows_skipComment|apply IH].
  - apply follows_readWhile.
Qed.

Lemma follows_readStringLoop n l : follows l (readStringLoop n l).
Proof.
  revert l. induction n as [|n IH]; intros l; [apply follows_refl|].
  rewrite readStringLoop_S.
  destruct (_ || _); [apply follows_readChar|].
  destruct (Ascii.eqb _ "\").
  - eapply follows_trans; [apply follows_readChar_after, follows_readChar|apply IH].
  - eapply follows_trans; [apply follows_readChar|apply IH].
Qed.

Lemma tracked_New src : tracked (New src).
Proof. apply follows_readChar. reflexivity. Qed.

(** X20. The line and the column of a token are those of its first
    character in the text, whatever was read before it (spaces, line
    feeds, comments and strings over several lines); and the lexer stays
    at the position of the last character that it read. *)
Theorem token_position l t l' :
  tracked l → NextToken l = Done (t, l') →
  (Line t, Column t) = pos (input l) (readPosition (skipTrivia (budget l) l))
  ∧ tracked l' ∧ input l' = input l.
Proof.
  intros Hl. destruct (follows_skipTrivia (budget l) l) as [Hin H0].
  specialize (H0 Hl). unfold NextToken. cbv zeta.
  set (l0 := skipTrivia (budget l) l) in *.
  assert (Hpos : (line l0, column l0) = pos (input l) (readPosition l0)).
  { rewrite <- Hin. exact H0. }
  assert (H1 : follows l0 (readChar l0)) by apply follows_readChar.
  assert (H2 : follows l0 (readChar (readChar l0)))
    by apply follows_readChar_after, follows_readChar.
  assert (Hdone : ∀ l1, follows l0 l1 → tracked l1 ∧ input l1 = input l).
  { intros l1 [Hi Ht]. split; [by apply Ht|congruence]. }
  repeat match goal with
         | |- (if ?c then _ else _) = _ → _ => destruct c eqn:?
         end;
    try (intros [= <- <-]; split; [exact Hpos|by apply Hdone]).
  - unfold readString. cbv zeta.
    assert (Hs : follows l0 (readStringLoop (budget l0) l0))
      by apply follows_readStringLoop.
    set (l1 := readStringLoop (budget l0) l0) in *.
    destruct (Bytes.slice _ _ _) as [lit|]; [|done].
    intros [= <- <-]. split; [exact Hpos|]. apply Hdone.
    by apply follows_readChar_after.
  - unfold readIdentifier. cbv zeta.
    assert (Hs : follows l0 (readWhile (fun c => isLetter c || isDigit c) (budget l0) l0))
      by apply follows_readWhile.
    set (l1 := readWhile _ _ l0) in *.
    intros [= <- <-]. split; [exact Hpos|]. by apply Hdone.
  - unfold readNumber. cbv zeta.
    assert (Hs : follows l0 (readWhile isDigit (budget l0) l0))
      by apply follows_readWhile.
    set (l1 := readWhile isDigit (budget l0) l0) in *.
    assert (Hs2 : follows l0 (readWhile isDigit (budget (readChar l1)) (readChar l1))).
    { eapply follows_trans; [by apply follows_readChar_after|apply follows_readWhile]. }
    set (l2 := readWhile isDigit (budget (readChar l1)) (readChar l1)) in *.
    destruct (_ && _); intros [= <- <-]; (split; [exact Hpos|]); by apply Hdone.
Qed.

(** The second token of a text of two lines, the first of which ends in
    a comment. *)
Lemma token_position_witness :
  match NextToken (New ("x # one" ++ String LF "  y")) with
  | Done (_, l1) =>
      match NextToken l1 with
      | Done (t, l2) =>
          tok t = (TOKEN_IDENT, "y") ∧ (Line t, Column t) = (2, 3)%nat
          ∧ (Line t, Column t)
            = pos (input l1) (readPosition (skipTrivia (budget l1) l1))
          ∧ tracked l2 ∧ input l2 = input l1
      | _ => False
      end
  | _ => False
  end.
Proof.
  destruct (NextToken (New ("x # one" ++ String LF "  y"))) as [[t1 l1]| |] eqn:E1;
    [|by vm_compute in E1..].
  destruct (token_position _ _ _ (tracked_New _) E1) as (_ & Ht1 & _).
  destruct (NextToken l1) as [[t l2]| |] eqn:E2.
  - split; [|split; [|exact (token_position l1 t l2 Ht1 E2)]].
    + vm_compute in E1. injection E1 as <- <-. vm_compute in E2. by injection E2 as <- <-.
    + vm_compute in E1. injection E1 as <- <-. vm_compute in E2. by injection E2 as <- <-.
  - vm_compute in E1. injection E1 as <- <-. by vm_compute in E2.
  - vm_compute in E1. injection E1 as <- <-. by vm_compute in E2.
Defined.

End Positions.

(* ================================================================= *)
(** ** Inherit clauses *)
(* ================================================================= *)

Section Inherit.
Import lexer types parser.

(** A token that the loop of [parseInherit] steps over. *)
Definition skipped (t : TokenType * string) : bool :=
  negb (lexer.eqb t.1 TOKEN_SEMICOLON) && negb (lexer.eqb t.1 TOKEN_EOF).

Ltac prun' :=
  cbv beta iota zeta delta
    [parser.bind parser.get parser.ret curIs peekIs
     parser.l cur peek errors Type_ Literal Line Column
     lexer.eqb lexer.code Nat.eqb andb orb negb].

Lemma skipToSemicolon_feeds n mid p tail :
  forallb skipped mid = true → (length mid < n)%nat → (2 ≤ length tail)%nat →
  Feeds p (mid ++ (TOKEN_SEMICOLON, ";") :: tail) →
  ∃ p', skipToSemicolon n p = Done (tt, p') ∧ errors p' = errors p
        ∧ Feeds p' ((TOKEN_SEMICOLON, ";") :: tail).
Proof.
  revert n p. induction mid as [|[ty lit] mid IH]; intros n p Hmid Hn Htail Hf.
  - destruct n as [|n]; [simpl in Hn; lia|]. exists p. split; [|done].
    destruct (Feeds_cur _ _ _ _ Hf) as [Hty _]. cbn [skipToSemicolon].
    destruct p as [lx [cty clit cln ccol] pk errs]. cbn [cur Type_] in Hty. subst cty.
    by prun'.
  - destruct n as [|n]; [simpl in Hn; lia|].
    cbn [forallb] in Hmid. apply andb_prop in Hmid as [Hs Hmid].
    rewrite <- app_comm_cons in Hf.
    destruct (Feeds_cur _ _ _ _ Hf) as [Hty _].
    destruct (Feeds_advance _ _ _ Hf) as (p1 & Ha & He & Hf1).
    { rewrite length_app. simpl. lia. }
    destruct (IH n p1 Hmid ltac:(simpl in Hn; lia) Htail Hf1) as (p' & Hskip & He' & Hf').
    exists p'. split; [|split; [congruence|done]].
    cbn [skipToSemicolon]. unfold skipped in Hs. cbn [fst] in Hs.
    destruct p as [lx [cty clit cln ccol] pk errs]. cbn [cur Type_] in Hty. subst cty.
    destruct ty; try discriminate Hs; prun'; rewrite Ha; exact Hskip.
Qed.

(** X21. An [inherit] clause adds no binding: the loop of [parseAttrSet]
    steps over every token up to the next semicolon and goes on with the
    bindings that it had, without an error. *)
Theorem inherit_is_skipped pe fuel k acc p mid next t2 rest :
  forallb skipped mid = true → (length mid < fuel)%nat →
  Feeds p ((TOKEN_INHERIT, "inherit") :: mid
             ++ (TOKEN_SEMICOLON, ";") :: next :: t2 :: rest) →
  ∃ p', Feeds p' (next :: t2 :: rest) ∧ errors p' = errors p
        ∧ parseAttrSetLoop pe fuel (S k) acc p
          = if lexer.eqb next.1 TOKEN_RBRACE then Done (acc, p')
            else parseAttrSetLoop pe fuel k acc p'.
Proof.
  intros Hmid Hn Hf.
  destruct (Feeds_cur _ _ _ _ Hf) as [Hty _].
  destruct (Feeds_advance _ _ _ Hf) as (p1 & A1 & E1 & F1).
  { rewrite length_app. simpl. lia. }
  destruct (skipToSemicolon_feeds fuel mid p1 (next :: t2 :: rest) Hmid Hn
              ltac:(simpl; lia) F1) as (p2 & Hskip & E2 & F2).
  destruct (Feeds_cur _ _ _ _ F2) as [Hty2 _].
  destruct (Feeds_advance _ _ _ F2 ltac:(simpl; lia)) as (p3 & A3 & E3 & F3).
  destruct next as [nty nlit].
  destruct (Feeds_cur _ _ _ _ F3) as [Hty3 _].
  exists p3. split; [done|]. split; [congruence|].
  cbn [parseAttrSetLoop]. unfold parseInherit.
  destruct p as [lx [cty clit cln ccol] pk errs]. cbn [cur Type_] in Hty. subst cty.
  prun'. rewrite A1. prun'. rewrite Hskip.
  destruct p2 as [lx2 [cty2 clit2 cln2 ccol2] pk2 errs2]. cbn [cur Type_] in Hty2.
  subst cty2. prun'. rewrite A3.
  destruct p3 as [lx3 [cty3 clit3 cln3 ccol3] pk3 errs3]. cbn [cur Type_] in Hty3.
  subst cty3. prun'. cbn [fst]. by destruct nty.
Qed.

(** The parser in the braces of [{ inherit x; }]. *)
Definition inBraces : Parser := advanced 1 (startOf "{ inherit x; }").

Lemma inherit_is_skipped_witness :
  main.evalExpression 30 "let x = 1; in { inherit x; }" "." = Done (main.Printed "{ }")
  ∧ ∃ p', Feeds p' [(TOKEN_RBRACE, "}"); (TOKEN_EOF, "")]
          ∧ errors p' = errors inBraces
          ∧ parseAttrSetLoop (parseExpression 5) 5 1 [] inBraces
            = if lexer.eqb (TOKEN_RBRACE, "}").1 TOKEN_RBRACE then Done ([], p')
              else parseAttrSetLoop (parseExpression 5) 5 0 [] p'.
Proof.
  split; [vm_compute; reflexivity|].
  apply (inherit_is_skipped (parseExpression 5) 5 0 [] inBraces [(TOKEN_IDENT, "x")]
           (TOKEN_RBRACE, "}") (TOKEN_EOF, "") []).
  - reflexivity.
  - simpl. lia.
  - split; [vm_compute; reflexivity|]. split; [vm_compute; reflexivity|].
    cbn [Lexes app].
    eexists. split; [eexists; split; [vm_compute; reflexivity|reflexivity]|].
    eexists. split; [eexists; split; [vm_compute; reflexivity|reflexivity]|].
    eexists. split; [eexists; split; [vm_compute; reflexivity|reflexivity]|].
    exact I.
Defined.

End Inherit.

(* ================================================================= *)
(** ** The built-in [derivation] *)
(* ================================================================= *)

Section DerivationBuiltin.
Import value derivation eval.

(** The keys of the set that [derivation] returns. *)
Definition derivationKeys : list string :=
  ["args"; "builder"; "drvPath"; "name"; "out"; "outputs"; "system"].

Lemma basicAttrs_lookup d o j :
  is_Some (basicAttrs d o !! j)
  ↔ j ∈ ["args"; "builder"; "drvPath"; "name"; "outputs"; "system"].
Proof.
  unfold basicAttrs. rewrite !elem_of_cons, elem_of_nil.
  destruct (decide (j = "outputs")) as [->|?];
    [rewrite lookup_insert_eq; split; [tauto|done]|rewrite lookup_insert_ne by done].
  destruct (decide (j = "args")) as [->|?];
    [rewrite lookup_insert_eq; split; [tauto|done]|rewrite lookup_insert_ne by done].
  destruct (decide (j = "drvPath")) as [->|?];
    [rewrite lookup_insert_eq; split; [tauto|done]|rewrite lookup_insert_ne by done].
  destruct (decide (j = "system")) as [->|?];
    [rewrite lookup_insert_eq; split; [tauto|done]|rewrite lookup_insert_ne by done].
  destruct (decide (j = "builder")) as [->|?];
    [rewrite lookup_insert_eq; split; [tauto|done]|rewrite lookup_insert_ne by done].
  destruct (decide (j = "name")) as [->|?];
    [rewrite lookup_insert_eq; split; [tauto|done]|rewrite lookup_insert_ne by done].
  rewrite lookup_empty. split; [by intros [? ?]|]. intros H. exfalso. tauto.
Qed.

(** X22. Applied to a set from which a derivation can be made, the
    built-in [derivation] returns a new set with exactly the attributes
    [args], [builder], [drvPath], [name], [out], [outputs] and [system],
    where [out] is the path [out] under the store path: the other
    attributes of its argument are not in the result. *)
Theorem derivation_result fuel σ a d :
  FromAttrs σ a = inl d →
  ∃ σ', callImpl fuel builtinDerivation [VAttrs a] σ
        = Done (Ok (VAttrs (length (attrsHeap σ))), σ')
      ∧ AttrsKeys σ' (length (attrsHeap σ)) = derivationKeys
      ∧ AttrsGet σ' (length (attrsHeap σ)) "out"
        = Some (VString (filepath.Join (StorePath d) "out"))
      ∧ AttrsGet σ' (length (attrsHeap σ)) "drvPath"
        = Some (VString (StorePath d ++ ".drv")).
Proof.
  intros Hd.
  destruct (ToAttrs_contents d σ) as (Hr & Hat & _). cbv zeta in Hr, Hat.
  assert (Hout : Outputs d = {["out" := filepath.Join (StorePath d) "out"]}).
  { apply FromAttrs_inv in Hd as (db & -> & _ & _ & _ & Ho & _). by apply Build_outputs. }
  exists (ToAttrs d σ).2. split; [|split; [|split]].
  - cbn [callImpl]. unfold bind at 1, arg. cbn [lookup list_lookup]. unfold ret at 1.
    unfold bind at 1, getStore. rewrite Hd. unfold bind, alloc.
    destruct (ToAttrs d σ) as [r σ'] eqn:E. cbn [fst snd] in *. by rewrite Hr.
  - unfold AttrsKeys. rewrite Hat, Hout. apply sortedKeys_eq.
    + unfold derivationKeys. repeat constructor.
    + unfold derivationKeys. repeat (constructor; [set_solver|]). constructor.
    + intros j. unfold derivationKeys.
      destruct (decide (j = "out")) as [->|Hne].
      * split; [intros _|intros _; set_solver].
        eexists. apply lookup_union_Some_l. by rewrite lookup_fmap, lookup_singleton_eq.
      * rewrite lookup_union_r by (by rewrite lookup_fmap, lookup_singleton_ne).
        rewrite basicAttrs_lookup. set_solver.
  - unfold AttrsGet. rewrite Hat, Hout.
    apply lookup_union_Some_l. by rewrite lookup_fmap, lookup_singleton_eq.
  - unfold AttrsGet. rewrite Hat, Hout.
    rewrite lookup_union_r by (by rewrite lookup_fmap, lookup_singleton_ne).
    unfold basicAttrs. by rewrite !lookup_insert_ne, lookup_insert_eq by done.
Qed.

(** [derivation { name = "hello"; builder = "/bin/sh"; }]. *)
Lemma derivation_result_witness :
  ∃ σ', callImpl 1 builtinDerivation [VAttrs 0] helloStore
        = Done (Ok (VAttrs (length (attrsHeap helloStore))), σ')
      ∧ AttrsKeys σ' (length (attrsHeap helloStore)) = derivationKeys
      ∧ AttrsGet σ' (length (attrsHeap helloStore)) "out"
        = Some (VString (filepath.Join (StorePath helloDrv) "out"))
      ∧ AttrsGet σ' (length (attrsHeap helloStore)) "drvPath"
        = Some (VString (StorePath helloDrv ++ ".drv")).
Proof.
  apply (derivation_result 1 helloStore 0%nat helloDrv).
  vm_compute. reflexivity.
Defined.

End DerivationBuiltin.

(* ================================================================= *)
(** ** Closures *)
(* ================================================================= *)

Section Closures.
Import value eval types.

(** X23. A function is applied in the scope of its definition: the body
    is evaluated in a new frame that binds the parameter to the argument
    and whose parent is the environment that the function value holds;
    every other name is found where that environment finds it, and the
    environment of the caller is not consulted. *)
Theorem closure_scope fuel e f a env σ σ1 σ2 param body fenv v :
  evalExpr fuel e f env σ = Done (Ok (VFunction param body fenv), σ1) →
  evalExpr fuel e a env σ1 = Done (Ok v, σ2) →
  isNil body = false →
  parentsBelow σ2 → (fenv < length (envHeap σ2))%nat →
  let c := length (envHeap σ2) in
  let σ3 := EnvSet c param v (EnvExtend fenv σ2).2 in
  evalExpr (S fuel) e (ApplyExpr f a) env σ = evalExpr fuel e body c σ3
  ∧ EnvGet σ3 c param = Some v
  ∧ (∀ k, k ≠ param → EnvGet σ3 c k = EnvGet σ2 fenv k)
  ∧ (∀ g k, (g < c)%nat → EnvGet σ3 g k = EnvGet σ2 g k).
Proof.
  intros Hf Ha Hbody Hwf Hfenv. cbv zeta.
  destruct (EnvExtend_frames σ2 fenv) as (Hlen & Hnew & Hkept).
  cbv zeta in Hlen, Hnew, Hkept.
  set (σ0 := (EnvExtend fenv σ2).2) in *.
  destruct (EnvGet_child σ2 (EnvSet (length (envHeap σ2)) param v σ0) fenv
              {[param := v]} Hwf Hfenv) as (Hget & Hold).
  { by rewrite EnvSet_length. }
  { rewrite envAt_EnvSet_eq by lia. rewrite Hnew. cbn [bindings parent].
    by rewrite insert_empty. }
  { intros i Hi. rewrite envAt_EnvSet_ne by lia. by apply Hkept. }
  split; [|split; [|split]].
  - rewrite evalExpr_unfold. cbn [evalExprBody]. unfold evalApply.
    unfold bind at 1. rewrite Hf. unfold bind at 1. rewrite Ha.
    unfold bind at 1, alloc. unfold σ0. cbn [EnvExtend fst snd].
    unfold bind at 1, modify. by rewrite Hbody.
  - rewrite (Hget param). by rewrite lookup_singleton_eq.
  - intros k Hk. rewrite (Hget k). by rewrite lookup_singleton_ne.
  - intros g k Hg. by apply Hold.
Qed.

(** The frames of [let x = 1; f = y: x + y; in let x = 100; in ...]: the
    function is defined where [x] is 1 and called where [x] is 100. *)
Definition closureStore : Store :=
  EnvSet 1 "x" (VInt 100)
    (EnvExtend 0
       (EnvSet 0 "f"
          (VFunction "y" (BinaryExpr (IdentExpr "x") OpAdd (IdentExpr "y")) 0)
          (EnvSet 0 "x" (VInt 1) (NewEnv emptyStore).2))).2.

Lemma closure_scope_witness :
  let body := BinaryExpr (IdentExpr "x") OpAdd (IdentExpr "y") in
  let σ3 := EnvSet 2 "y" (VInt 2) (EnvExtend 0 closureStore).2 in
  EnvGet closureStore 1 "x" = Some (VInt 100)
  ∧ evalExpr 3 (New ".") body 2%nat σ3 = Done (Ok (VInt 3), σ3)
  ∧ evalExpr 4 (New ".") (ApplyExpr (IdentExpr "f") (IntExpr 2)) 1%nat closureStore
    = evalExpr 3 (New ".") body 2%nat σ3
  ∧ EnvGet σ3 2 "y" = Some (VInt 2)
  ∧ (∀ k, k ≠ "y" → EnvGet σ3 2 k = EnvGet closureStore 0 k)
  ∧ (∀ g k, (g < 2)%nat → EnvGet σ3 g k = EnvGet closureStore g k).
Proof.
  cbv zeta. split; [vm_compute; reflexivity|]. split; [vm_compute; reflexivity|].
  apply (closure_scope 3 (New ".") (IdentExpr "f") (IntExpr 2) 1%nat closureStore
           closureStore closureStore "y"
           (BinaryExpr (IdentExpr "x") OpAdd (IdentExpr "y")) 0%nat (VInt 2)).
  - vm_compute. reflexivity.
  - reflexivity.
  - reflexivity.
  - intros [|[|[|i]]] p; cbn; intros [=]; lia.
  - cbn. lia.
Defined.

End Closures.

(* ================================================================= *)
(** ** Sets of literals *)
(* ================================================================= *)

Section LiteralSets.
Import value eval types.

(** A binding of one name to a literal. *)
Definition literalBinding (b : AttrBinding) : bool :=
  match b with
  | ([_], x) => isSimpleExpr x
  | _ => false
  end.

(** The map after such a binding. *)
Definition putBinding (e : Evaluator) (m : gmap string Value) (b : AttrBinding)
  : gmap string Value :=
  match b with
  | ([k], x) => <[k := literalValue e x]> m
  | _ => m
  end.

Lemma plainPass_literals n e r env bs σ :
  forallb literalBinding bs = true → (r < length (attrsHeap σ))%nat →
  ∃ σ', plainPass (evalExpr (S n) e) r env bs σ = Done (Ok tt, σ')
        ∧ attrsAt σ' r = fold_left (putBinding e) bs (attrsAt σ r)
        ∧ length (attrsHeap σ') = length (attrsHeap σ)
        ∧ (∀ b, b ≠ r → attrsAt σ' b = attrsAt σ b)
        ∧ envHeap σ' = envHeap σ.
Proof.
  revert σ. induction bs as [|[path x] bs IH]; intros σ Hbs Hr.
  - exists σ. by repeat split.
  - cbn [forallb] in Hbs. apply andb_prop in Hbs as [Hb Hbs].
    destruct path as [|k [|? ?]]; try discriminate Hb. cbn [literalBinding] in Hb.
    set (σ1 := AttrsSet r k (literalValue e x) σ).
    destruct (IH σ1 Hbs) as (σ' & Hrun & Hat & Hlen & Hoth & Henv).
    { unfold σ1. by rewrite AttrsSet_length. }
    exists σ'. split; [|split; [|split; [|split]]].
    + cbn [plainPass]. unfold bind at 1.
      rewrite (evalExpr_simple n e x env σ Hb).
      unfold bind at 1, modify. exact Hrun.
    + rewrite Hat. cbn [fold_left putBinding]. unfold σ1.
      by rewrite attrsAt_AttrsSet_eq.
    + rewrite Hlen. unfold σ1. by rewrite AttrsSet_length.
    + intros b Hb'. rewrite Hoth by done. unfold σ1. by rewrite attrsAt_AttrsSet_ne.
    + by rewrite Henv.
Qed.

(** X24. A set whose bindings each give one name a literal evaluates to
    a new set that holds the bindings put in one after the other: when a
    name is bound more than once, the last binding is the one that
    counts, and no error is reported. The sets and the frames that
    existed are as they were. *)
Theorem literal_set_last_wins n e env σ bs :
  forallb literalBinding bs = true →
  ∃ σ', evalExpr (S (S n)) e (AttrSetExpr false bs) env σ
        = Done (Ok (VAttrs (length (attrsHeap σ))), σ')
      ∧ attrsAt σ' (length (attrsHeap σ)) = fold_left (putBinding e) bs ∅
      ∧ (∀ b, (b < length (attrsHeap σ))%nat → attrsAt σ' b = attrsAt σ b)
      ∧ envHeap σ' = envHeap σ.
Proof.
  intros Hbs.
  set (r := length (attrsHeap σ)).
  set (σ0 := mkStore (attrsHeap σ ++ [∅]) (envHeap σ)).
  assert (Hr0 : (r < length (attrsHeap σ0))%nat).
  { unfold σ0, r; simpl. rewrite length_app; simpl. lia. }
  destruct (plainPass_literals n e r env bs σ0 Hbs Hr0)
    as (σ' & Hrun & Hat & Hlen & Hoth & Henv).
  exists σ'. split; [|split; [|split]].
  - rewrite evalExpr_unfold. cbn [evalExprBody]. unfold evalAttrSet.
    unfold bind at 1, alloc, NewAttrs. fold r σ0.
    unfold bind at 1. by rewrite Hrun.
  - rewrite Hat. f_equal. unfold attrsAt, σ0, r; simpl. by rewrite list_lookup_middle.
  - intros b Hb. rewrite Hoth by (unfold r; lia).
    unfold attrsAt, σ0; simpl. by rewrite lookup_app_l.
  - by rewrite Henv.
Qed.

(** [{ a = 1; a = 2; }] is [{ a = 2; }]. *)
Lemma literal_set_last_wins_witness :
  main.evalExpression 30 "{ a = 1; a = 2; }" "." = Done (main.Printed "{ a = 2; }")
  ∧ ∃ σ', evalExpr 2 (New ".")
            (AttrSetExpr false [(["a"], IntExpr 1); (["a"], IntExpr 2)]) 0%nat emptyStore
          = Done (Ok (VAttrs (length (attrsHeap emptyStore))), σ')
        ∧ attrsAt σ' (length (attrsHeap emptyStore))
          = fold_left (putBinding (New "."))
              [(["a"], IntExpr 1); (["a"], IntExpr 2)] ∅
        ∧ (∀ b, (b < length (attrsHeap emptyStore))%nat
                → attrsAt σ' b = attrsAt emptyStore b)
        ∧ envHeap σ' = envHeap emptyStore.
Proof.
  split; [vm_compute; reflexivity|].
  apply (literal_set_last_wins 0 (New ".") 0%nat emptyStore
           [(["a"], IntExpr 1); (["a"], IntExpr 2)]).
  reflexivity.
Defined.

End LiteralSets.
